(** * ulc-codec encoder core: a shallow embedding and its verified properties

    The development follows the C sources of the encoder:
    - [Helper]         : libulc/ulchelper.h (decimation pattern table, companded
                         quantizers);
    - [NoiseFill]      : libulc/ulcEncoder_NoiseFill.h (noise amplitude,
                         HF-extension parameters, weights of the noise
                         spectrum);
    - [BlockTransform] : libulc/ulcEncoder_BlockTransform.h (keys, overlap
                         scale, the transform of a block);
    - [WindowCtrl], [WindowCtrl2020] : the two versions of
                         Block_Transform_GetWindowCtrl;
    - [Psycho]         : Block_Transform_CalculatePsychoacoustics;
    - [NoiseSpectrum]  : Block_Transform_CalculateNoiseLogSpectrum;
    - [BlockEncode]    : Block_Encode and Block_Encode_WriteNybble.

    Conventions.  C integers are [Z]; where an unsigned type can wrap, the
    reduction modulo its width is written out, and so is the cut of a
    [long] to an [int].  [float] values are read as the numbers they denote:
    quantities the code only adds, multiplies, divides and compares are
    rationals ([Q]) so that the functions evaluate; where the code calls
    [logf], [expf] or [sqrtf] they are real numbers ([R]).  Rounding of the
    individual float operations is not modelled.  Where the code can leave
    the numbers (a quotient that overflows to an infinity, a NaN, a
    conversion to an integer type that does not hold the value), the
    definition says what it takes: the result of the x86-64 conversion the
    Makefile builds for, or no result ([None]) where C gives none. *)

From Stdlib Require Import ZArith List Lia Bool.
From Stdlib Require Import QArith Qround Reals Lra.
From Stdlib Require Import FunctionalExtensionality.
From Stdlib Require Lqa.
Import ListNotations.

Local Open Scope Z_scope.

(* ================================================================== *)
(** * Definitions *)
(* ================================================================== *)

(** ** C conversions and libm roundings on the numbers floats denote *)
Module Float.

(** [(int)x]: conversion of a float to an integer truncates toward zero. *)
Definition to_int (x : R) : Z :=
  if Rle_dec 0 x then Int_part x else - Int_part (- x).

(** The integer [lrintf(x)] rounds to in the default rounding mode: the
    nearest one, a tie going to the even neighbour.  What the function
    returns is [long_of] of it. *)
Definition lrintf (x : R) : Z :=
  let f := Int_part x in
  let d := (x - IZR f)%R in
  if Rlt_dec d (1 / 2) then f
  else if Rlt_dec (1 / 2) d then f + 1
  else if Z.even f then f else f + 1.

(** The [long] that [lrintf] returns.  A rounded value that does not fit its 64
    bits has no representation and C leaves the result unspecified; the
    conversion of x86-64 ([cvtss2si], the target of the Makefile's
    ARCHFLAGS) then returns LONG_MIN. *)
Definition long_of (z : Z) : Z :=
  if (- 2 ^ 63 <=? z) && (z <? 2 ^ 63) then z else - 2 ^ 63.

(** [(int)x] for an integer [x] of more than 32 bits: the low 32 bits, read
    in two's complement. *)
Definition int_of (z : Z) : Z := (z + 2 ^ 31) mod 2 ^ 32 - 2 ^ 31.

End Float.

Module Helper.

(** ** Sub-block decimation pattern (ulchelper.h)

    Each sub-block is coded in 4 bits, LSB to MSB:
    bits 0..2 are the sub-block shift (size = BlockSize >> shift),
    bit 3 is the transient flag. *)

Definition Pattern : list Z :=
  [ Z.lor 0x0000 0x0000   (* 0000: N/1 (unused) *)
  ; Z.lor 0x0000 0x0008   (* 0001: N/1* *)
  ; Z.lor 0x0011 0x0008   (* 0010: N/2*,N/2 *)
  ; Z.lor 0x0011 0x0080   (* 0011: N/2,N/2* *)
  ; Z.lor 0x0122 0x0008   (* 0100: N/4*,N/4,N/2 *)
  ; Z.lor 0x0122 0x0080   (* 0101: N/4,N/4*,N/2 *)
  ; Z.lor 0x0221 0x0080   (* 0110: N/2,N/4*,N/4 *)
  ; Z.lor 0x0221 0x0800   (* 0111: N/2,N/4,N/4* *)
  ; Z.lor 0x1233 0x0008   (* 1000: N/8*,N/8,N/4,N/2 *)
  ; Z.lor 0x1233 0x0080   (* 1001: N/8,N/8*,N/4,N/2 *)
  ; Z.lor 0x1332 0x0080   (* 1010: N/4,N/8*,N/8,N/2 *)
  ; Z.lor 0x1332 0x0800   (* 1011: N/4,N/8,N/8*,N/2 *)
  ; Z.lor 0x2331 0x0080   (* 1100: N/2,N/8*,N/8,N/4 *)
  ; Z.lor 0x2331 0x0800   (* 1101: N/2,N/8,N/8*,N/4 *)
  ; Z.lor 0x3321 0x0800   (* 1110: N/2,N/4,N/8*,N/8 *)
  ; Z.lor 0x3321 0x8000   (* 1111: N/2,N/4,N/8,N/8* *)
  ].

(** [Pattern[WindowCtrl >> 4]].  An index outside the table is undefined
    behaviour in C and is [None] here. *)
Definition ULC_SubBlockDecimationPattern (WindowCtrl : Z) : option Z :=
  let i := Z.shiftr WindowCtrl 4 in
  if 0 <=? i then nth_error Pattern (Z.to_nat i) else None.

(** One turn of the loop every consumer of the pattern runs,
    [do { SubBlockSize = BlockSize >> (DecimationPattern & 0x7); ... }
     while (DecimationPattern >>= 4);] *)
Record SubBlock := mkSubBlock
  { SubBlockSize : Z      (* BlockSize >> (DecimationPattern & 0x7) *)
  ; Transient    : bool   (* DecimationPattern & 0x8 *)
  }.

Definition SubBlock_of (BlockSize DecimationPattern : Z) : SubBlock :=
  {| SubBlockSize := Z.shiftr BlockSize (Z.land DecimationPattern 0x7)
   ; Transient    := Z.testbit DecimationPattern 3 |}.

(** The whole do-while loop, collecting the sub-blocks in the order they are
    visited.  [fuel] bounds the number of turns; a pattern of the table has at
    most four nibbles, so four turns always suffice ([None]: fuel ran out). *)
Fixpoint SubBlocks_loop (fuel : nat) (BlockSize DecimationPattern : Z)
  : option (list SubBlock) :=
  match fuel with
  | O => None
  | S fuel' =>
      let sb   := SubBlock_of BlockSize DecimationPattern in
      let next := Z.shiftr DecimationPattern 4 in
      if next =? 0 then Some [sb]
      else option_map (cons sb) (SubBlocks_loop fuel' BlockSize next)
  end.

Definition SubBlocks (BlockSize WindowCtrl : Z) : option (list SubBlock) :=
  match ULC_SubBlockDecimationPattern WindowCtrl with
  | Some p => SubBlocks_loop 4 BlockSize p
  | None => None
  end.

(** Positions (in visiting order, from 0) of the sub-blocks that carry the
    transient flag. *)
Fixpoint TransientIndices (i : Z) (l : list SubBlock) : list Z :=
  match l with
  | [] => []
  | sb :: l' =>
      if Transient sb then i :: TransientIndices (i + 1) l'
      else TransientIndices (i + 1) l'
  end.

(** Start offsets of the sub-blocks: each consumer advances its pointers by
    [SubBlockSize] after a sub-block ([MaskingNp += SubBlockSize]). *)
Fixpoint SubBlockOffsets (start : Z) (l : list SubBlock) : list (Z * Z) :=
  match l with
  | [] => []
  | sb :: l' =>
      (start, start + SubBlockSize sb)
        :: SubBlockOffsets (start + SubBlockSize sb) l'
  end.

(** Number of set bits (POPCNT). *)
Fixpoint popcount_pos (p : positive) : Z :=
  match p with
  | xH => 1
  | xO q => popcount_pos q
  | xI q => 1 + popcount_pos q
  end.

Definition popcount (x : Z) : Z :=
  match x with
  | Zpos p => popcount_pos p
  | _ => 0
  end.

(** ** Companded quantizers (ulchelper.h) *)

(** [return (v >= 0.5f) ? (int)lrintf(sqrtf(v - 0.25f)) : 0;]
    The [long] that [lrintf] returns is cut to an [int]: from a square
    root of 2^31 on, the result is the low 32 bits of the rounded value. *)
Definition ULC_CompandedQuantizeUnsigned (v : R) : Z :=
  if Rle_dec (1 / 2) v
  then Float.int_of (Float.long_of (Float.lrintf (sqrt (v - 1 / 4))))
  else 0.

(** [return (v < 0.0f) ? (-vq) : (+vq);] on [int]s ([-INT_MIN] wraps). *)
Definition ULC_CompandedQuantize (v : R) : Z :=
  let vq := ULC_CompandedQuantizeUnsigned (Rabs v) in
  if Rlt_dec v 0 then Float.int_of (- vq) else vq.

(** [int vq = ULC_CompandedQuantizeUnsigned(v);
     return (vq < Limit) ? vq : Limit;] *)
Definition ULC_CompandedQuantizeCoefficientUnsigned (v : R) (Limit : Z) : Z :=
  let vq := ULC_CompandedQuantizeUnsigned v in
  if vq <? Limit then vq else Limit.

(** [int vq = ULC_CompandedQuantizeCoefficientUnsigned(ABS(v), Limit);
     return (v < 0.0f) ? (-vq) : (+vq);] *)
Definition ULC_CompandedQuantizeCoefficient (v : R) (Limit : Z) : Z :=
  let vq := ULC_CompandedQuantizeCoefficientUnsigned (Rabs v) Limit in
  if Rlt_dec v 0 then Float.int_of (- vq) else vq.

End Helper.

(** ** HF-extension parameters (ulcEncoder_NoiseFill.h) *)
Module NoiseFill.
Import Helper.

(** A [const float *] is read as a function from index to value; pointer
    arithmetic shifts the index. *)
Definition FloatArray := Z -> R.

Definition SQR (x : R) : R := (x * x)%R.

Record Sums := mkSums
  { SumX : R; SumX2 : R; SumXY : R; SumY : R; SumW : R }.

(** The accumulation loop of the least-squares solver,
    [for(n=0;n<N;n++) { x = n*2.0f; w = Data[n*2+0]; wy = Data[n*2+1]; ... }]
    with [count] turns left. *)
Fixpoint LeastSquares_loop (Data : FloatArray) (count : nat) (n : Z) (s : Sums)
  : Sums :=
  match count with
  | O => s
  | S count' =>
      let x  := (IZR n * 2)%R in
      let w  := Data (n * 2 + 0) in
      let wy := Data (n * 2 + 1) in
      LeastSquares_loop Data count' (n + 1)
        {| SumX  := (SumX s  + w * x)%R
         ; SumX2 := (SumX2 s + w * x * x)%R
         ; SumXY := (SumXY s + x * wy)%R
         ; SumY  := (SumY s  + wy)%R
         ; SumW  := (SumW s  + w)%R |}
  end.

(** Returns [None] where the C function returns 0 (no solution), and the
    pair (Amplitude, Decay) where it returns 1. *)
Definition Block_Encode_EncodePass_GetHFExtParams_LeastSquares
  (Data : FloatArray) (N : Z) : option (R * R) :=
  let s := LeastSquares_loop Data (Z.to_nat N) 0 (mkSums 0 0 0 0 0) in
  let Det := (SumW s * SumX2 s - SQR (SumX s))%R in
  if Req_EM_T Det 0 then None
  else Some (((SumX2 s * SumY s  - SumX s * SumXY s) / Det)%R,
             ((SumW s  * SumXY s - SumX s * SumY s ) / Det)%R).

(** The pair returned through [_NoiseQ] and [_NoiseDecay].  [Z.quot] is
    C's integer division. *)
Definition Block_Encode_EncodePass_GetHFExtParams
  (Data : FloatArray) (Band N : Z) (q : R) : Z * Z :=
  let Data := fun i => Data (i + Z.quot Band 2 * 2) in
  let N := Z.quot (N + Z.land Band 1 + 1) 2 in
  match Block_Encode_EncodePass_GetHFExtParams_LeastSquares Data N with
  | None => (0, 0)
  | Some (Amplitude, Decay) =>
      let Amplitude := exp Amplitude in
      let Decay := exp Decay in
      let Decay := if Rgt_dec Decay 1 then 1%R else Decay in
      let NoiseQ :=
        ULC_CompandedQuantizeCoefficientUnsigned (Amplitude * q * 4) (1 + 0xF) in
      let NoiseDecay :=
        ULC_CompandedQuantizeUnsigned ((Decay - 1) * - (2 ^ 19)) in
      let NoiseDecay := if NoiseDecay >? 0xFF then 0xFF else NoiseDecay in
      (NoiseQ, NoiseDecay)
  end.

(** The accumulation loop of the noise amplitude,
    [for(n=0;n<N;n++) { w = Data[n*2+0]; wy = Data[n*2+1];
                        Sum += wy, SumW += w; }] *)
Fixpoint NoiseQ_loop (Data : FloatArray) (count : nat) (n : Z) (acc : R * R)
  : R * R :=
  match count with
  | O => acc
  | S count' =>
      let '(Sum, SumW) := acc in
      let w  := Data (n * 2 + 0) in
      let wy := Data (n * 2 + 1) in
      NoiseQ_loop Data count' (n + 1) ((Sum + wy)%R, (SumW + w)%R)
  end.

(** [Block_Encode_EncodePass_GetNoiseQ]: the quantized noise amplitude, the
    geometric mean of the band range scaled by [q].  The quotient
    [Sum/SumW] is a number as long as the weights do not sum to 0 (an
    infinity otherwise); the properties below take positive weights. *)
Definition Block_Encode_EncodePass_GetNoiseQ
  (Data : FloatArray) (Band N : Z) (q : R) : Z :=
  let Data := fun i => Data (i + Z.quot Band 2 * 2) in
  let N := Z.quot (N + Z.land Band 1 + 1) 2 in
  let '(Sum, SumW) := NoiseQ_loop Data (Z.to_nat N) 0 (0%R, 0%R) in
  if Req_EM_T Sum 0 then 0
  else
    let Amplitude := exp (Sum / SumW) in
    ULC_CompandedQuantizeCoefficientUnsigned (Amplitude * q) (1 + 0x7).

(** *** Weights of the noise spectrum

    [Block_Transform_CalculateNoiseLogSpectrumWithWeights], the portable
    branch ([#else]).  The function is called in place, so source and
    destination are indices into one memory of [float] cells. *)
Definition Log2M : Z := 8.

Definition poke (Mem : Z -> R) (i : Z) (v : R) : Z -> R :=
  fun j => if j =? i then v else Mem j.

(** [for(i=0;i<Log2M;i++) y *= y;] *)
Fixpoint Squarings (count : nat) (y : R) : R :=
  match count with
  | O => y
  | S count' => Squarings count' (y * y)%R
  end.

(** [y = 1.0f + x*(0.5f / (1 << Log2M)); for(i=0;i<Log2M;i++) y *= y;] *)
Definition Weight_of (x : R) : R :=
  Squarings (Z.to_nat Log2M) (1 + x * (1 / 2 / IZR (Z.shiftl 1 Log2M)))%R.

(** [for(n=0;n<N;n++) { x = *Src++; ...; *Dst++ = y; *Dst++ = x * y; }] *)
Fixpoint WithWeights_loop (count : nat) (Dst Src : Z) (Mem : Z -> R) : Z -> R :=
  match count with
  | O => Mem
  | S count' =>
      let x := Mem Src in
      let y := Weight_of x in
      let Mem := poke Mem Dst y in
      let Mem := poke Mem (Dst + 1) (x * y)%R in
      WithWeights_loop count' (Dst + 2) (Src + 1) Mem
  end.

Definition Block_Transform_CalculateNoiseLogSpectrumWithWeights
  (Mem : Z -> R) (Dst Src N : Z) : Z -> R :=
  WithWeights_loop (Z.to_nat N) Dst Src Mem.

(** The vector branches ([__AVX__] and [__SSE__]).  A register is the list
    of its lanes, lane 0 first; the operations are the lane-wise ones of
    the intrinsics. *)
Definition set1_ps (lanes : nat) (v : R) : list R := repeat v lanes.
Definition add_ps (a b : list R) : list R :=
  map (fun p => (fst p + snd p)%R) (combine a b).
Definition mul_ps (a b : list R) : list R :=
  map (fun p => (fst p * snd p)%R) (combine a b).
Definition load_ps (lanes : nat) (Mem : Z -> R) (p : Z) : list R :=
  map (fun i => Mem (p + Z.of_nat i)) (seq 0 lanes).
Fixpoint store_ps (Mem : Z -> R) (p : Z) (v : list R) : Z -> R :=
  match v with
  | [] => Mem
  | x :: v' => store_ps (poke Mem p x) (p + 1) v'
  end.

(** [_mm_unpacklo_ps(a,b)] is [a0 b0 a1 b1], [_mm_unpackhi_ps(a,b)] is
    [a2 b2 a3 b3]; the 256-bit forms do the same in each 128-bit half of
    their operands. *)
Definition mm_unpacklo_ps (a b : list R) : list R :=
  [nth 0 a 0%R; nth 0 b 0%R; nth 1 a 0%R; nth 1 b 0%R].
Definition mm_unpackhi_ps (a b : list R) : list R :=
  [nth 2 a 0%R; nth 2 b 0%R; nth 3 a 0%R; nth 3 b 0%R].
Definition mm256_unpacklo_ps (a b : list R) : list R :=
  mm_unpacklo_ps (firstn 4 a) (firstn 4 b)
  ++ mm_unpacklo_ps (skipn 4 a) (skipn 4 b).
Definition mm256_unpackhi_ps (a b : list R) : list R :=
  mm_unpackhi_ps (firstn 4 a) (firstn 4 b)
  ++ mm_unpackhi_ps (skipn 4 a) (skipn 4 b).

(** [for(i=0;i<Log2M;i++) y = mul_ps(y, y);] *)
Fixpoint Squarings_ps (count : nat) (y : list R) : list R :=
  match count with
  | O => y
  | S count' => Squarings_ps count' (mul_ps y y)
  end.

Section VectorBranches.

Variable lanes : nat.
Variables unpacklo unpackhi : list R -> list R -> list R.

(** [x = load_ps(Src); Src += lanes;
     y = add_ps(set1_ps(1.0f), mul_ps(x, set1_ps(0.5f / (1 << Log2M))));
     for(...) y = mul_ps(y, y);
     x = mul_ps(x, y);
     store_ps(Dst+0, unpacklo_ps(y, x));
     store_ps(Dst+lanes, unpackhi_ps(y, x)); Dst += 2*lanes;] *)
Fixpoint Vector_loop (count : nat) (Dst Src : Z) (Mem : Z -> R) : Z -> R :=
  match count with
  | O => Mem
  | S count' =>
      let x := load_ps lanes Mem Src in
      let y := add_ps (set1_ps lanes 1%R)
                 (mul_ps x (set1_ps lanes (1 / 2 / IZR (Z.shiftl 1 Log2M))%R)) in
      let y := Squarings_ps (Z.to_nat Log2M) y in
      let x := mul_ps x y in
      let Mem := store_ps Mem Dst (unpacklo y x) in
      let Mem := store_ps Mem (Dst + Z.of_nat lanes) (unpackhi y x) in
      Vector_loop count' (Dst + 2 * Z.of_nat lanes) (Src + Z.of_nat lanes) Mem
  end.

End VectorBranches.

(** [#if defined(__AVX__)]: [for(n=0;n<N;n+=8)], one [__m256] a turn. *)
Definition Block_Transform_CalculateNoiseLogSpectrumWithWeights_AVX
  (Mem : Z -> R) (Dst Src N : Z) : Z -> R :=
  Vector_loop 8 mm256_unpacklo_ps mm256_unpackhi_ps
    (Z.to_nat ((N + 7) / 8)) Dst Src Mem.

(** [#elif defined(__SSE__)]: [for(n=0;n<N;n+=4)], one [__m128] a turn. *)
Definition Block_Transform_CalculateNoiseLogSpectrumWithWeights_SSE
  (Mem : Z -> R) (Dst Src N : Z) : Z -> R :=
  Vector_loop 4 mm_unpacklo_ps mm_unpackhi_ps
    (Z.to_nat ((N + 3) / 4)) Dst Src Mem.

(** The line whose pair the AVX branch stores in slot [s] of a group of
    eight. *)
Definition AVX_line (s : nat) : nat := nth s [0; 1; 4; 5; 2; 3; 6; 7]%nat s.

End NoiseFill.

(** ** Keys of the coefficients (ulcEncoder_BlockTransform.h) *)
Module BlockTransform.

Definition SQR (x : R) : R := (x * x)%R.

(** [ULC_COEF_NEPER_OUT_OF_RANGE] (include/ulcEncoder.h). *)
Definition ULC_COEF_NEPER_OUT_OF_RANGE : R := 0.

(** The float literals [0x1.BA18AAp1f] and [0x1.443438p1f]
    (30 dB and 22 dB in Nepers: 3.4539 and 2.5328). *)
Definition ValWeight  : R := (IZR 0x1BA18AA / IZR (2 ^ 23))%R.
Definition MaskWeight : R := (IZR 0x1443438 / IZR (2 ^ 23))%R.

Record AnalysisKey_t := mkKey
  { Band : Z; Chan : Z; QBand : Z; Val : R }.

Record Zone := mkZone
  { zQBand : Z; QBandAvg : R; QBandAvgW : R }.

Section InsertKeys.

(** Declared in headers that are not modelled: the zone budget [ULC_MAX_QBANDS], the
    switch [ULC_USE_PSYCHOACOUSTICS], and what
    [Block_Transform_UpdateMaskingThreshold] returns for a band: the
    masking level and, through [&Flat], the tonality proxy. *)
Variable ULC_MAX_QBANDS : Z.
Variable ULC_USE_PSYCHOACOUSTICS : bool.
Variable Block_Transform_UpdateMaskingThreshold : Z -> R * R.

Variables Coef CoefNp : Z -> R.
Variables (ChanNo : Z) (AnalysisPowerNp QuantRange : R).

(** The zone test and split,
    [if((ValNp + QuantRange)*QBandAvgW < QBandAvg ||
        (ValNp - QuantRange)*QBandAvgW > QBandAvg) ...]. *)
Definition SplitZone (ValNp : R) (z : Zone) : Zone :=
  if orb (if Rlt_dec ((ValNp + QuantRange) * QBandAvgW z) (QBandAvg z)
          then true else false)
         (if Rgt_dec ((ValNp - QuantRange) * QBandAvgW z) (QBandAvg z)
          then true else false)
  then if zQBand z <? ULC_MAX_QBANDS - 1
       then mkZone (zQBand z + 1) 0 0
       else z
  else z.

(** The value stored in [Keys[*nKeys].Val] for a band of log-amplitude
    [ValNp]. *)
Definition KeyVal (BandNo : Z) (ValNp : R) : R :=
  let ValNp :=
    if ULC_USE_PSYCHOACOUSTICS then
      let '(Mask, Flat) := Block_Transform_UpdateMaskingThreshold BandNo in
      let ValNp := (ValWeight * ValNp - MaskWeight * Mask)%R in
      (ValNp + 2 * 4 * SQR Flat * (SQR Flat - 1))%R
    else ValNp in
  exp (2 * ValNp + AnalysisPowerNp).

(** One turn of [for(Band=0;Band<BlockSize;Band++)]; the keys are kept in
    insertion order. *)
Definition InsertKeys_band (BandNo : Z) (st : Zone * list AnalysisKey_t)
  : Zone * list AnalysisKey_t :=
  let '(z, Keys) := st in
  let ValNp := CoefNp BandNo in
  if Req_EM_T ValNp ULC_COEF_NEPER_OUT_OF_RANGE then st  (* continue *)
  else
    let z := SplitZone ValNp z in
    let z := mkZone (zQBand z)
                    (QBandAvg z  + SQR (Coef BandNo) * ValNp)
                    (QBandAvgW z + SQR (Coef BandNo)) in
    (z, Keys ++ [mkKey BandNo ChanNo (zQBand z) (KeyVal BandNo ValNp)]).

Fixpoint InsertKeys_loop (count : nat) (BandNo : Z) (st : Zone * list AnalysisKey_t)
  : Zone * list AnalysisKey_t :=
  match count with
  | O => st
  | S count' => InsertKeys_loop count' (BandNo + 1) (InsertKeys_band BandNo st)
  end.

(** The keys appended to [Keys] by one call. *)
Definition Block_Transform_InsertKeys (Keys : list AnalysisKey_t) (BlockSize : Z)
  : list AnalysisKey_t :=
  snd (InsertKeys_loop (Z.to_nat BlockSize) 0 (mkZone 0 0 0, Keys)).

End InsertKeys.

(** [ULC_COEF_EPS] (include/ulcEncoder.h), the float literal [0x1.0p-31f]. *)
Definition ULC_COEF_EPS : R := (/ IZR (2 ^ 31))%R.

(** The float literals [0x1.715476p0f] (1/Log[2]) and [0x1.25701Bp2f]
    (Log[(2*7)^2 / 2] = 4.585). *)
Definition InvLog2 : R := (IZR 0x1715476 / IZR (2 ^ 24))%R.
Definition HalfQuantRangeNp : R := (IZR 0x125701B / IZR (2 ^ 22))%R.

(** *** Block_Transform_ScaleAndToNepers

    One turn of the loop: the scaled coefficient [v] goes back to [Src], its
    log-magnitude (or the out-of-range marker) to [Dst]. *)
Definition ScaleAndToNepers_band (BlockSize : Z) (st : (Z -> R) * (Z -> R))
  (BandNo : Z) : (Z -> R) * (Z -> R) :=
  let '(Dst, Src) := st in
  let v := (Src BandNo * 2 / IZR BlockSize)%R in
  let np := if Rlt_dec (Rabs v) (1 / 2 * ULC_COEF_EPS)
            then ULC_COEF_NEPER_OUT_OF_RANGE
            else ln (Rabs v) in
  (NoiseFill.poke Dst BandNo np, NoiseFill.poke Src BandNo v).

Fixpoint ScaleAndToNepers_loop (BlockSize : Z) (count : nat) (BandNo : Z)
  (st : (Z -> R) * (Z -> R)) : (Z -> R) * (Z -> R) :=
  match count with
  | O => st
  | S count' =>
      ScaleAndToNepers_loop BlockSize count' (BandNo + 1)
        (ScaleAndToNepers_band BlockSize st BandNo)
  end.

(** The arrays [Dst] and [Src] after the call. *)
Definition Block_Transform_ScaleAndToNepers (Dst Src : Z -> R) (BlockSize : Z)
  : (Z -> R) * (Z -> R) :=
  ScaleAndToNepers_loop BlockSize (Z.to_nat BlockSize) 0 (Dst, Src).

(** *** Block_Transform_GetLogOverlapScale (portable branch) *)

(** [for(n=0;n<BlockSize;n++) EnergyBuffer[n] = 0.0f;] *)
Fixpoint ClearEnergy (count : nat) (n : Z) (EnergyBuffer : Z -> R) : Z -> R :=
  match count with
  | O => EnergyBuffer
  | S count' => ClearEnergy count' (n + 1) (NoiseFill.poke EnergyBuffer n 0%R)
  end.

(** [for(n=0;n<BlockSize;n++) EnergyBuffer[n] += SQR(Data[Chan*BlockSize + n]);] *)
Fixpoint AddChannelEnergy (Data : Z -> R) (BlockSize ChanNo : Z) (count : nat)
  (n : Z) (EnergyBuffer : Z -> R) : Z -> R :=
  match count with
  | O => EnergyBuffer
  | S count' =>
      AddChannelEnergy Data BlockSize ChanNo count' (n + 1)
        (NoiseFill.poke EnergyBuffer n
           (EnergyBuffer n + SQR (Data (ChanNo * BlockSize + n)%Z))%R)
  end.

(** [for(Chan=0;Chan<nChan;Chan++) ...] *)
Fixpoint CombineChannels (Data : Z -> R) (BlockSize : Z) (count : nat)
  (ChanNo : Z) (EnergyBuffer : Z -> R) : Z -> R :=
  match count with
  | O => EnergyBuffer
  | S count' =>
      CombineChannels Data BlockSize count' (ChanNo + 1)
        (AddChannelEnergy Data BlockSize ChanNo (Z.to_nat BlockSize) 0 EnergyBuffer)
  end.

(** [for(n=1;n<SubBlockSize;n++) StepSum += SQR(Energy[n] - Energy[n-1]);] *)
Fixpoint StepSum_loop (Energy : Z -> R) (count : nat) (n : Z) (StepSum : R) : R :=
  match count with
  | O => StepSum
  | S count' =>
      StepSum_loop Energy count' (n + 1)
        (StepSum + SQR (Energy n - Energy (n - 1)%Z))%R
  end.

(** What the analysis carries from sub-block to sub-block: the largest
    ratio so far and the two values kept across blocks. *)
Record StepState := mkStep
  { Ratio : R; BlockEnergy : R; SampleEnergy : R }.

(** The body of the loop over the analysis sub-blocks. *)
Definition AnalyzeSubBlock (EnergyBuffer : Z -> R) (SubBlockOffs SubBlockSize : Z)
  (st : StepState) : StepState :=
  let Energy := fun n => EnergyBuffer (SubBlockOffs + n) in
  let StepSum := SQR (Energy 0%Z - SampleEnergy st)%R in
  let StepSum := StepSum_loop Energy (Z.to_nat (SubBlockSize - 1)) 1 StepSum in
  let StepSum := (StepSum + / IZR (10 ^ 30))%R in
  let r := if Rgt_dec StepSum (BlockEnergy st)
           then (StepSum / BlockEnergy st)%R
           else (BlockEnergy st / StepSum)%R in
  mkStep (if Rgt_dec r (Ratio st) then r else Ratio st)
         StepSum
         (Energy (SubBlockSize - 1)).

(** [for(SubBlockOffs=0;SubBlockOffs<BlockSize;SubBlockOffs += SubBlockSize)];
    [None] when [fuel] turns were not enough. *)
Fixpoint AnalyzeSubBlocks (EnergyBuffer : Z -> R) (BlockSize SubBlockSize : Z)
  (fuel : nat) (SubBlockOffs : Z) (st : StepState) : option StepState :=
  if SubBlockOffs <? BlockSize then
    match fuel with
    | O => None
    | S fuel' =>
        AnalyzeSubBlocks EnergyBuffer BlockSize SubBlockSize fuel'
          (SubBlockOffs + SubBlockSize)
          (AnalyzeSubBlock EnergyBuffer SubBlockOffs SubBlockSize st)
    end
  else Some st.

(** [while((BlockSize >> OverlapScale) < MinOverlap) OverlapScale--;] by
    recursion on the scale; a negative shift count is undefined in C:
    [None]. *)
Fixpoint LowerOverlap (BlockSize MinOverlap : Z) (OverlapScale : nat) : option Z :=
  if Z.shiftr BlockSize (Z.of_nat OverlapScale) <? MinOverlap
  then match OverlapScale with
       | O => None
       | S OverlapScale' => LowerOverlap BlockSize MinOverlap OverlapScale'
       end
  else Some (Z.of_nat OverlapScale).

(** [while((BlockSize >> OverlapScale) > MaxOverlap) OverlapScale++;] with
    [fuel] increments left before the shift count would reach the width of
    [int] (undefined in C: [None]). *)
Fixpoint RaiseOverlap (BlockSize MaxOverlap : Z) (fuel : nat) (OverlapScale : Z)
  : option Z :=
  if Z.shiftr BlockSize OverlapScale >? MaxOverlap
  then match fuel with
       | O => None
       | S fuel' => RaiseOverlap BlockSize MaxOverlap fuel' (OverlapScale + 1)
       end
  else Some OverlapScale.

(** [OverlapScale = (int)(0x1.715476p0f*logf(Ratio) + 0.25f);] and the two
    clamps to [0x0 .. 0xF]. *)
Definition RatioToScale (Ratio : R) : Z :=
  let OverlapScale := Float.to_int (InvLog2 * ln Ratio + 1 / 4) in
  let OverlapScale := if OverlapScale <? 0x0 then 0x0 else OverlapScale in
  if OverlapScale >? 0xF then 0xF else OverlapScale.

(** The function: the returned scale with the updated [*LastBlockEnergy]
    and [*LastSampleEnergy]. *)
Definition Block_Transform_GetLogOverlapScale
  (Data EnergyBuffer : Z -> R) (LastBlockEnergy LastSampleEnergy : R)
  (BlockSize MinOverlap MaxOverlap nChan : Z) : option (Z * R * R) :=
  let EnergyBuffer := ClearEnergy (Z.to_nat BlockSize) 0 EnergyBuffer in
  let EnergyBuffer := CombineChannels Data BlockSize (Z.to_nat nChan) 0 EnergyBuffer in
  let SubBlockSize := 256 in
  let SubBlockSize := if BlockSize <? SubBlockSize then BlockSize else SubBlockSize in
  match AnalyzeSubBlocks EnergyBuffer BlockSize SubBlockSize (Z.to_nat BlockSize) 0
          (mkStep 1 LastBlockEnergy LastSampleEnergy) with
  | None => None
  | Some st =>
      match LowerOverlap BlockSize MinOverlap (Z.to_nat (RatioToScale (Ratio st))) with
      | None => None
      | Some OverlapScale =>
          match RaiseOverlap BlockSize MaxOverlap (Z.to_nat (31 - OverlapScale))
                  OverlapScale with
          | None => None
          | Some OverlapScale =>
              Some (OverlapScale, BlockEnergy st, SampleEnergy st)
          end
      end
  end.

(** *** Block_Transform

    The function up to the final [Analysis_KeysValSort], which reorders the
    keys it is given and is not in the sources modelled here. *)
Section Transform.

(** Not in the sources modelled here: the zone budget and the
    psychoacoustics switch; the masking level and tonality proxy of a band
    of a channel; the coefficients [Fourier_MDCT] leaves in the transform
    buffer of a channel for a given overlap; and [MaxCodingKbps]. *)
Variable ULC_MAX_QBANDS : Z.
Variable ULC_USE_PSYCHOACOUSTICS : bool.
Variable Masking : Z -> Z -> R * R.
Variable Fourier_MDCT : Z -> Z -> Z -> R.
Variable MaxCodingKbps : R.

(** [QuantRangeScale = 2.0f - RateKbps/MaxCodingKbps(...);
     if(QuantRangeScale < 1.0f) QuantRangeScale = 1.0f;
     QuantRange = 0x1.25701Bp2f * QuantRangeScale;] *)
Definition QuantRange_of (RateKbps : R) : R :=
  let QuantRangeScale := (2 - RateKbps / MaxCodingKbps)%R in
  let QuantRangeScale := if Rlt_dec QuantRangeScale 1 then 1%R else QuantRangeScale in
  (HalfQuantRangeNp * QuantRangeScale)%R.

(** [for(Chan=0;Chan<nChan;Chan++) { Fourier_MDCT(...);
       Block_Transform_ScaleAndToNepers(...); Block_Transform_InsertKeys(...);
       AnalysisPowerNp += PowerDecay; }] *)
Fixpoint Transform_channels (TransformNepers : Z -> Z -> R)
  (BlockSize Overlap : Z) (QuantRange PowerDecay : R)
  (count : nat) (ChanNo : Z) (AnalysisPowerNp : R) (Keys : list AnalysisKey_t)
  : list AnalysisKey_t :=
  match count with
  | O => Keys
  | S count' =>
      let '(BufferNepers, BufferTransform) :=
        Block_Transform_ScaleAndToNepers (TransformNepers ChanNo)
          (Fourier_MDCT ChanNo Overlap) BlockSize in
      let Keys :=
        Block_Transform_InsertKeys ULC_MAX_QBANDS ULC_USE_PSYCHOACOUSTICS
          (Masking ChanNo) BufferTransform BufferNepers ChanNo AnalysisPowerNp
          QuantRange Keys BlockSize in
      Transform_channels TransformNepers BlockSize Overlap QuantRange PowerDecay
        count' (ChanNo + 1) (AnalysisPowerNp + PowerDecay)%R Keys
  end.

(** The keys stored and their number, the value returned. *)
Definition Block_Transform (Data TransformTemp : Z -> R)
  (TransformNepers : Z -> Z -> R) (LastBlockEnergy LastSampleEnergy : R)
  (nChan BlockSize MinOverlap MaxOverlap : Z) (RateKbps PowerDecay : R)
  : option (list AnalysisKey_t * Z) :=
  let PowerDecay := ln PowerDecay in
  match Block_Transform_GetLogOverlapScale Data TransformTemp LastBlockEnergy
          LastSampleEnergy BlockSize MinOverlap MaxOverlap nChan with
  | None => None
  | Some (OverlapScale, _, _) =>
      let Keys :=
        Transform_channels TransformNepers BlockSize
          (Z.shiftr BlockSize OverlapScale) (QuantRange_of RateKbps) PowerDecay
          (Z.to_nat nChan) 0 0%R [] in
      Some (Keys, Z.of_nat (length Keys))
  end.

End Transform.

End BlockTransform.

(** ** Window control (Block_Transform_GetWindowCtrl, the version with
       smoothing taps) *)
Module WindowCtrl.

(** [struct Block_Transform_GetWindowCtrl_TransientFiltering_Sum_t]. *)
Record Sum_t := mkSum { Sum : Q; SumW : Q }.

Inductive RatioPos_t := POS_L | POS_M | POS_R.

Definition Qltb (a b : Q) : bool :=
  match Qcompare a b with Lt => true | _ => false end.

(** [MIN_LOG], the placeholder for Log[0], and the float literal
    [0x1.62E430p-1f] (Log[2]). *)
Definition MIN_LOG : Q := (- (100 # 1))%Q.
Definition Log2Threshold : Q := 0x162E430 # (2 ^ 25).

(** [SUM_DATA(Dst, Src)] over [n = 0 .. AnalysisLen-1] for one of the four
    segments; [Src] is [TransientData[start + n]]. *)
Fixpoint SumSegment (TransientData : Z -> Sum_t) (count : nat) (start : Z)
  (Dst : Sum_t) : Sum_t :=
  match count with
  | O => Dst
  | S count' =>
      let Src := TransientData start in
      SumSegment TransientData count' (start + 1)
        (mkSum (Sum Dst + Sum Src)%Q (SumW Dst + SumW Src)%Q)
  end.

(** [FINALIZE_DATA(x)]: [x.Sum = (x.Sum != 0.0f) ? (x.Sum / x.SumW) : MIN_LOG].
    The quotient is a number as long as a sum that is not 0 has a weight
    that is not 0 (an infinity otherwise). *)
Definition Finalize (x : Sum_t) : Q :=
  if Qeq_bool (Sum x) 0 then MIN_LOG else (Sum x / SumW x)%Q.

(** State of the binary search: the offset of [TransientData] (the pointer
    is advanced on the M side), the decimation code built so far, the
    sub-block size and the segment length. *)
Record Search := mkSearch
  { Offset : Z; Decimation : Z; SubBlockSize : Z; AnalysisLen : Z }.

Section Descent.

(** [ULC_USE_WINDOW_SWITCHING] (include/ulcEncoder.h; 1 in the sources), and
    the filtered segment sums that
    [Block_Transform_GetWindowCtrl_TransientFiltering] leaves in [StepBuffer]. *)
Variable ULC_USE_WINDOW_SWITCHING : bool.
Variable TransientData : Z -> Sum_t.

(** The largest of the three segment ratios and where it lies. *)
Definition PeakRatio (s : Search) : RatioPos_t * Q :=
  let len := Z.to_nat (AnalysisLen s) in
  let zero := mkSum 0 0 in
  let LL := Finalize (SumSegment TransientData len (Offset s - 1 * AnalysisLen s) zero) in
  let L  := Finalize (SumSegment TransientData len (Offset s + 0 * AnalysisLen s) zero) in
  let M  := Finalize (SumSegment TransientData len (Offset s + 1 * AnalysisLen s) zero) in
  let R  := Finalize (SumSegment TransientData len (Offset s + 2 * AnalysisLen s) zero) in
  let RatioL := (L - LL)%Q in
  let RatioM := (M - L)%Q in
  let RatioR := (R - M)%Q in
  let '(RatioPos, Ratio) := (POS_L, RatioL) in
  let '(RatioPos, Ratio) :=
    if Qltb Ratio RatioM then (POS_M, RatioM) else (RatioPos, Ratio) in
  let '(RatioPos, Ratio) :=
    if Qltb Ratio RatioR then (POS_R, RatioR) else (RatioPos, Ratio) in
  (RatioPos, Ratio).

(** The test that guards a decimation,
    [ULC_USE_WINDOW_SWITCHING && AnalysisLen > 1 && SubBlockSize > 64] and
    then [RatioPos != POS_R && Ratio > 0x1.62E430p-1f]. *)
Definition CanDecimate (s : Search) (RatioPos : RatioPos_t) (Ratio : Q) : bool :=
  (ULC_USE_WINDOW_SWITCHING && (AnalysisLen s >? 1) && (SubBlockSize s >? 64))
  && (match RatioPos with POS_R => false | _ => true end && Qltb Log2Threshold Ratio).

(** The update of a decimation: the code bit is appended, the pointer moves
    on the M side, and both lengths are halved. *)
Definition Decimate (s : Search) (RatioPos : RatioPos_t) : Search :=
  match RatioPos with
  | POS_L =>
      mkSearch (Offset s) (Z.lor (Z.shiftl (Decimation s) 1) 0)
               (Z.quot (SubBlockSize s) 2) (Z.quot (AnalysisLen s) 2)
  | _ =>
      mkSearch (Offset s + AnalysisLen s) (Z.lor (Z.shiftl (Decimation s) 1) 1)
               (Z.quot (SubBlockSize s) 2) (Z.quot (AnalysisLen s) 2)
  end.

(** The search loop [for(;;) { ... continue; ... break; }]: the state it
    stops in with the last ratio, or [None] when [fuel] turns were not
    enough. *)
Fixpoint Descent_loop (fuel : nat) (s : Search) : option (Search * RatioPos_t * Q) :=
  match fuel with
  | O => None
  | S fuel' =>
      let '(RatioPos, Ratio) := PeakRatio s in
      if CanDecimate s RatioPos Ratio
      then Descent_loop fuel' (Decimate s RatioPos)
      else Some (s, RatioPos, Ratio)
  end.

End Descent.

(** The float literals [0x1.149A78p2f] (Log2[1000/50] = 4.3219) and
    [0x1.715476p0f] (1/Log[2] = 1.4427). *)
Definition OverlapBias  : R := (IZR 0x1149A78 / IZR (2 ^ 22))%R.
Definition InvLog2      : R := (IZR 0x1715476 / IZR (2 ^ 24))%R.

(** [Log2SubBlockSize + 0x1.149A78p2f + -0x1.715476p0f*(logf(RateHz) - Ratio)],
    with [Log2SubBlockSize = 31 - __builtin_clz(SubBlockSize)]. *)
Definition Log2OverlapSamplesScale (SubBlockSize : Z) (RateHz Ratio : R) : R :=
  (IZR (Z.log2 SubBlockSize) + OverlapBias + - InvLog2 * (ln RateHz - Ratio))%R.

(** [OverlapScale = 0;
     if(x > 0.0f) OverlapScale = (x >= 6.5f) ? 7 : (int)(x + 0.5f);] *)
Definition InitialOverlapScale (x : R) : Z :=
  if Rgt_dec x 0
  then if Rge_dec x (65 / 10) then 7 else Float.to_int (x + 1 / 2)
  else 0.

(** [while((SubBlockSize >> OverlapScale) < 16) OverlapScale--;], by
    recursion on the scale.  Going below 0 would shift by a negative amount
    (undefined in C): [None]. *)
Fixpoint MinimumOverlap (SubBlockSize : Z) (OverlapScale : nat) : option Z :=
  if Z.shiftr SubBlockSize (Z.of_nat OverlapScale) <? 16
  then match OverlapScale with
       | O => None
       | S OverlapScale' => MinimumOverlap SubBlockSize OverlapScale'
       end
  else Some (Z.of_nat OverlapScale).

Definition OverlapScale (SubBlockSize : Z) (RateHz Ratio : R) : option Z :=
  MinimumOverlap SubBlockSize
    (Z.to_nat (InitialOverlapScale (Log2OverlapSamplesScale SubBlockSize RateHz Ratio))).

(** [Block_Transform_GetWindowCtrl] from the filtered segment sums on.
    [ULC_HELPER_SUBBLOCK_INTERLEAVE_MODULO] is declared in a header that is
    not modelled and is a parameter. *)
Definition Block_Transform_GetWindowCtrl
  (ULC_USE_WINDOW_SWITCHING : bool) (ULC_HELPER_SUBBLOCK_INTERLEAVE_MODULO : Z)
  (TransientData : Z -> Sum_t) (BlockSize : Z) (RateHz : R) : option Z :=
  let AnalysisLen := ULC_HELPER_SUBBLOCK_INTERLEAVE_MODULO in
  let start := mkSearch AnalysisLen 1 BlockSize AnalysisLen in
  match Descent_loop ULC_USE_WINDOW_SWITCHING TransientData
          (S (Z.to_nat AnalysisLen)) start with
  | None => None
  | Some (s, _, Ratio) =>
      match OverlapScale (SubBlockSize s) RateHz (Q2R Ratio) with
      | None => None
      | Some OverlapScale =>
          Some (OverlapScale
                + 0x8 * (if Decimation s =? 1 then 0 else 1)
                + 0x10 * Decimation s)
      end
  end.

End WindowCtrl.

(** ** Window control (Block_Transform_GetWindowCtrl, the version with
       transient ratios and overlap bounds) *)
Module WindowCtrl2020.

Definition SQR (x : R) : R := (x * x)%R.

(** [struct Block_Transform_GetWindowCtrl_TransientRatio_t]. *)
Record TransientRatio_t := mkRatio
  { wLogRatio : R    (* Weight*Log[Ratio] *)
  ; Weight    : R    (* (AbsRatio-1.0)^2 *)
  ; RawLog    : R    (* Log[Ratio] *)
  }.

(** [Bias = 0x1.0p-31f]. *)
Definition Bias : R := (/ IZR (2 ^ 31))%R.

Definition Block_Transform_GetWindowCtrl_TransientRatio (R_ L : R)
  : TransientRatio_t :=
  let r := (ln (R_ + Bias) - ln (L + Bias))%R in
  let w := (exp (Rabs r) - 1)%R in
  let w := (w * w)%R in
  mkRatio (w * r) w r.

(** [#define BPFILT(zM1, z0, z1) ((z1) - (zM1))] *)
Definition BPFILT (zM1 z0 z1 : R) : R := (z1 - zM1)%R.

(** [StepBuffer] is one memory of [float] cells; it is filled with step
    energies, smoothed in place, and then overwritten from its start with
    the ratio structs, three cells each. *)
Definition poke := NoiseFill.poke.

(** [*Dst++ += v]. *)
Definition bump (StepBuffer : Z -> R) (Dst : Z) (v : R) : Z -> R :=
  poke StepBuffer Dst (StepBuffer Dst + v)%R.

(** [for(n=0;n<2*BlockSize;n++) StepBuffer[n] = 0.0f;] *)
Fixpoint Clear (count : nat) (n : Z) (StepBuffer : Z -> R) : Z -> R :=
  match count with
  | O => StepBuffer
  | S count' => Clear count' (n + 1) (poke StepBuffer n 0%R)
  end.

(** [for(n=1;n<BlockSize-1;n++)
       *Dst++ += SQR(BPFILT(Src[n-1], Src[n], Src[n+1]));] *)
Fixpoint StepEnergy_loop (Src : Z -> R) (count : nat) (n Dst : Z)
  (StepBuffer : Z -> R) : Z -> R :=
  match count with
  | O => StepBuffer
  | S count' =>
      StepEnergy_loop Src count' (n + 1) (Dst + 1)
        (bump StepBuffer Dst (SQR (BPFILT (Src (n - 1)) (Src n) (Src (n + 1)))))
  end.

(** The body of [for(Chan=0;Chan<nChan;Chan++)]: the step energy of the
    last block and of this block, added to [StepBuffer].  After each inner
    loop [n] is [BlockSize-1] (1 for a block of less than 2 samples). *)
Definition StepEnergy_channel (Data LastBlockData : Z -> R) (BlockSize ChanNo : Z)
  (StepBuffer : Z -> R) : Z -> R :=
  let SrcOld := fun i => LastBlockData (ChanNo * BlockSize + i) in
  let SrcNew := fun i => Data (ChanNo * BlockSize + i) in
  let count := Z.to_nat (BlockSize - 1 - 1) in
  let n := 1 + Z.of_nat count in
  let Dst := 0 in
  let StepBuffer := bump StepBuffer Dst (SQR (BPFILT (SrcOld 1) (SrcOld 0) (SrcOld 1))) in
  let Dst := Dst + 1 in
  let StepBuffer := StepEnergy_loop SrcOld count 1 Dst StepBuffer in
  let Dst := Dst + Z.of_nat count in
  let StepBuffer :=
    bump StepBuffer Dst (SQR (BPFILT (SrcOld (n - 1)) (SrcOld n) (SrcNew 0))) in
  let Dst := Dst + 1 in
  let StepBuffer :=
    bump StepBuffer Dst (SQR (BPFILT (SrcOld n) (SrcNew 0) (SrcNew 1))) in
  let Dst := Dst + 1 in
  let StepBuffer := StepEnergy_loop SrcNew count 1 Dst StepBuffer in
  let Dst := Dst + Z.of_nat count in
  bump StepBuffer Dst (SQR (BPFILT (SrcNew (n - 1)) (SrcNew n) (SrcNew (n - 1)))).

Fixpoint StepEnergy (Data LastBlockData : Z -> R) (BlockSize : Z) (count : nat)
  (ChanNo : Z) (StepBuffer : Z -> R) : Z -> R :=
  match count with
  | O => StepBuffer
  | S count' =>
      StepEnergy Data LastBlockData BlockSize count' (ChanNo + 1)
        (StepEnergy_channel Data LastBlockData BlockSize ChanNo StepBuffer)
  end.

(** The float literal [0x1.596344p8f] of the decay curve. *)
Definition DecayRate : R := (IZR 0x1596344 / IZR (2 ^ 16))%R.

(** [for(n=1;n<BlockSize*2;n++) { v = *Buf;
       *Buf++ = SampleLast = a*SampleLast + b*v; }] *)
Fixpoint Smooth_loop (a b : R) (count : nat) (n : Z) (SampleLast : R)
  (StepBuffer : Z -> R) : Z -> R :=
  match count with
  | O => StepBuffer
  | S count' =>
      let v := StepBuffer n in
      let SampleLast := (a * SampleLast + b * v)%R in
      Smooth_loop a b count' (n + 1) SampleLast (poke StepBuffer n SampleLast)
  end.

Definition Smooth (RateHz BlockSize : Z) (StepBuffer : Z -> R) : Z -> R :=
  let a := exp (- DecayRate / IZR RateHz)%R in
  let b := (1 - a)%R in
  let SampleLast := (StepBuffer 0%Z * b)%R in
  let StepBuffer := poke StepBuffer 0 SampleLast in
  Smooth_loop a b (Z.to_nat (BlockSize * 2 - 1)) 1 SampleLast StepBuffer.

(** [for(n=0;n<RatioSegmentSamples;n++) { v = *Src++; R += SQR(v), w += v; }] *)
Fixpoint SegmentSums (StepBuffer : Z -> R) (count : nat) (Src : Z) (acc : R * R)
  : R * R :=
  match count with
  | O => acc
  | S count' =>
      let '(R_, w) := acc in
      let v := StepBuffer Src in
      SegmentSums StepBuffer count' (Src + 1) ((R_ + SQR v)%R, (w + v)%R)
  end.

Definition RatioSegmentSamples : Z := 64.

(** [RatioBuffer[Segment] = ...]: the three fields go to the cells
    [3*Segment .. 3*Segment+2] of the memory; [RatioBuffer[k]] reads them
    back. *)
Definition StoreRatio (StepBuffer : Z -> R) (k : Z) (x : TransientRatio_t) : Z -> R :=
  poke (poke (poke StepBuffer (3 * k) (wLogRatio x)) (3 * k + 1) (Weight x))
       (3 * k + 2) (RawLog x).

Definition RatioAt (StepBuffer : Z -> R) (k : Z) : TransientRatio_t :=
  mkRatio (StepBuffer (3 * k)) (StepBuffer (3 * k + 1)) (StepBuffer (3 * k + 2)).

(** [for(Segment=0;Segment<nRatioSegments;Segment++) { L = R; R = 0.0f; ... }] *)
Fixpoint Ratios_loop (count : nat) (Segment : Z) (R_ : R) (StepBuffer : Z -> R)
  : Z -> R :=
  match count with
  | O => StepBuffer
  | S count' =>
      let L := R_ in
      let '(R_, w) :=
        SegmentSums StepBuffer (Z.to_nat RatioSegmentSamples)
          (Segment * RatioSegmentSamples) (0%R, 0%R) in
      let R_ := if Rgt_dec w 0 then (R_ / w)%R else R_ in
      Ratios_loop count' (Segment + 1) R_
        (StoreRatio StepBuffer Segment
           (Block_Transform_GetWindowCtrl_TransientRatio R_ L))
  end.

(** State of the binary search: the offset of [RatioBuffer] (advanced on
    the M side), the decimation code, the segment and sub-block sizes. *)
Record Search := mkSearch
  { Offset : Z; Decimation : Z; SegmentSize : Z; SubBlockSize : Z }.

Inductive RatioPos_t := POS_L | POS_M | POS_R.

(** The nine sums of the loop over a segment. *)
Record Sums := mkSums
  { L : R; LW : R; LMean : R; M : R; MW : R; MMean : R; R_ : R; RW : R; RMean : R }.

(** [for(n=0;n<SegmentSize;n++) { l = RatioBuffer[n];
       m = RatioBuffer[n + SegmentSize]; r = RatioBuffer[n + SegmentSize*2];
       L += l.wLogRatio, LW += l.Weight, LMean += l.RawLog; ... }] *)
Fixpoint SumRatios (StepBuffer : Z -> R) (RatioBuffer SegmentSize : Z)
  (count : nat) (n : Z) (s : Sums) : Sums :=
  match count with
  | O => s
  | S count' =>
      let l := RatioAt StepBuffer (RatioBuffer + n) in
      let m := RatioAt StepBuffer (RatioBuffer + n + SegmentSize) in
      let r := RatioAt StepBuffer (RatioBuffer + n + SegmentSize * 2) in
      SumRatios StepBuffer RatioBuffer SegmentSize count' (n + 1)
        (mkSums (L s + wLogRatio l) (LW s + Weight l) (LMean s + RawLog l)
                (M s + wLogRatio m) (MW s + Weight m) (MMean s + RawLog m)
                (R_ s + wLogRatio r) (RW s + Weight r) (RMean s + RawLog r))%R
  end.

(** [Ratio = (W > 0.0f) ? (S / W) : 0.0f; Ratio -= Mean/SegmentSize;
     Ratio *= Exp; if(Ratio < -0x1.0p1f) Ratio = -Ratio;] *)
Definition Resolve (S W Mean : R) (SegmentSize : Z) (Exp : R) : R :=
  let Ratio := if Rgt_dec W 0 then (S / W)%R else 0%R in
  let Ratio := (Ratio - Mean / IZR SegmentSize)%R in
  let Ratio := (Ratio * Exp)%R in
  if Rlt_dec Ratio (- 2) then (- Ratio)%R else Ratio.

(** The peak of the three segment ratios, where it lies, and [RatioR]. *)
Definition PeakRatio (StepBuffer : Z -> R) (s : Search) : RatioPos_t * R * R :=
  let sums := SumRatios StepBuffer (Offset s) (SegmentSize s)
                (Z.to_nat (SegmentSize s)) 0 (mkSums 0 0 0 0 0 0 0 0 0) in
  let Exp := (IZR (Z.log2 (SegmentSize s)) * WindowCtrl.InvLog2)%R in
  let RatioL := Resolve (L sums) (LW sums) (LMean sums) (SegmentSize s) Exp in
  let RatioM := Resolve (M sums) (MW sums) (MMean sums) (SegmentSize s) Exp in
  let RatioR := Resolve (R_ sums) (RW sums) (RMean sums) (SegmentSize s) Exp in
  let '(RatioPos, LogRatio) := (POS_L, RatioL) in
  let '(RatioPos, LogRatio) :=
    if Rgt_dec RatioM LogRatio then (POS_M, RatioM) else (RatioPos, LogRatio) in
  let '(RatioPos, LogRatio) :=
    if Rgt_dec RatioR LogRatio then (POS_R, RatioR) else (RatioPos, LogRatio) in
  (RatioPos, LogRatio, RatioR).

Section Descent.

Variable ULC_USE_WINDOW_SWITCHING : bool.
Variable MinOverlap : Z.
Variable StepBuffer : Z -> R.

(** [ULC_USE_WINDOW_SWITCHING && SegmentSize > 1 && Decimation < 0x8 &&
     SubBlockSize > MinOverlap] and then
    [RatioPos != POS_R && LogRatio >= 1.0f]. *)
Definition CanDecimate (s : Search) (RatioPos : RatioPos_t) (LogRatio : R) : bool :=
  (ULC_USE_WINDOW_SWITCHING && (SegmentSize s >? 1) && (Decimation s <? 0x8)
   && (SubBlockSize s >? MinOverlap))
  && (match RatioPos with POS_R => false | _ => true end
      && (if Rge_dec LogRatio 1 then true else false)).

Definition Decimate (s : Search) (RatioPos : RatioPos_t) : Search :=
  match RatioPos with
  | POS_L =>
      mkSearch (Offset s) (Z.lor (Z.shiftl (Decimation s) 1) 0)
               (Z.quot (SegmentSize s) 2) (Z.quot (SubBlockSize s) 2)
  | _ =>
      mkSearch (Offset s + SegmentSize s) (Z.lor (Z.shiftl (Decimation s) 1) 1)
               (Z.quot (SegmentSize s) 2) (Z.quot (SubBlockSize s) 2)
  end.

(** The search loop: the state it stops in and the ratio it leaves,
    [LogRatio = RatioR / (31 - __builtin_clz(SegmentSize))]; [None] when
    [fuel] turns were not enough. *)
Fixpoint Descent_loop (fuel : nat) (s : Search) : option (Search * R) :=
  match fuel with
  | O => None
  | S fuel' =>
      let '(RatioPos, LogRatio, RatioR) := PeakRatio StepBuffer s in
      if CanDecimate s RatioPos LogRatio
      then Descent_loop fuel' (Decimate s RatioPos)
      else Some (s, (RatioR / IZR (Z.log2 (SegmentSize s)))%R)
  end.

End Descent.

(** [while(OverlapScale > 0 && (SubBlockSize >> OverlapScale) < MinOverlap)
       OverlapScale--;] by recursion on the scale. *)
Fixpoint LowerOverlap (SubBlockSize MinOverlap : Z) (OverlapScale : nat) : Z :=
  match OverlapScale with
  | O => 0
  | S OverlapScale' =>
      if Z.shiftr SubBlockSize (Z.of_nat OverlapScale) <? MinOverlap
      then LowerOverlap SubBlockSize MinOverlap OverlapScale'
      else Z.of_nat OverlapScale
  end.

(** [while(OverlapScale < 7 && (SubBlockSize >> OverlapScale) > MaxOverlap)
       OverlapScale++;] *)
Fixpoint RaiseOverlap (SubBlockSize MaxOverlap : Z) (fuel : nat) (OverlapScale : Z)
  : option Z :=
  if (OverlapScale <? 7) && (Z.shiftr SubBlockSize OverlapScale >? MaxOverlap)
  then match fuel with
       | O => None
       | S fuel' => RaiseOverlap SubBlockSize MaxOverlap fuel' (OverlapScale + 1)
       end
  else Some OverlapScale.

(** The overlap scaling of the transition region. *)
Definition OverlapScale (SubBlockSize MinOverlap MaxOverlap : Z) (LogRatio : R)
  : option Z :=
  if Rge_dec LogRatio 1 then
    let OverlapScale :=
      if Rlt_dec LogRatio (65 / 10) then Float.to_int (LogRatio + 1 / 2) else 7 in
    let OverlapScale :=
      LowerOverlap SubBlockSize MinOverlap (Z.to_nat OverlapScale) in
    RaiseOverlap SubBlockSize MaxOverlap (Z.to_nat (7 - OverlapScale)) OverlapScale
  else Some 0.

(** The whole function. *)
Definition Block_Transform_GetWindowCtrl (ULC_USE_WINDOW_SWITCHING : bool)
  (Data LastBlockData StepBuffer : Z -> R)
  (BlockSize MinOverlap MaxOverlap nChan RateHz : Z) : option Z :=
  let StepBuffer := Clear (Z.to_nat (2 * BlockSize)) 0 StepBuffer in
  let StepBuffer :=
    StepEnergy Data LastBlockData BlockSize (Z.to_nat nChan) 0 StepBuffer in
  let StepBuffer := Smooth RateHz BlockSize StepBuffer in
  let nRatioSegments := Z.quot (2 * BlockSize) RatioSegmentSamples in
  let StepBuffer := Ratios_loop (Z.to_nat nRatioSegments) 0 0%R StepBuffer in
  let RatioBuffer := Z.quot nRatioSegments 4 in
  let start := mkSearch RatioBuffer 1 (Z.quot nRatioSegments 4) BlockSize in
  match Descent_loop ULC_USE_WINDOW_SWITCHING MinOverlap StepBuffer
          (S (Z.to_nat (SegmentSize start))) start with
  | None => None
  | Some (s, LogRatio) =>
      match OverlapScale (SubBlockSize s) MinOverlap MaxOverlap LogRatio with
      | None => None
      | Some OverlapScale =>
          Some (OverlapScale
                + 0x8 * (if Decimation s =? 1 then 0 else 1)
                + 0x10 * Decimation s)
      end
  end.

End WindowCtrl2020.

(** ** Psychoacoustic masking levels
       (Block_Transform_CalculatePsychoacoustics) *)
Module Psycho.

(** Wrap-around of [uint32_t] and [uint64_t]. *)
Definition u32 (x : Z) : Z := x mod 2 ^ 32.
Definition u64 (x : Z) : Z := x mod 2 ^ 64.

(** [(uint32_t)x] for a finite float [x]; out of range the conversion is
    undefined in C, x86-64 converts to 64 bits and keeps the low 32: the
    wrap written here. *)
Definition to_u32 (x : R) : Z := u32 (Float.to_int x).

(** The float literals [0x1.03AF63p29f], [0x1.555555p-2f] and
    [0x1.507D55p-31f]. *)
Definition LogNormScale : R := (IZR 0x103AF63 * IZR (2 ^ 5))%R.
Definition Third        : R := (IZR 0x1555555 / IZR (2 ^ 26))%R.
Definition InvLogScale  : R := (IZR 0x1507D55 / IZR (2 ^ 55))%R.

(** [EnergyNp[n] = (v <= 1.0f) ? 0 : (uint32_t)(logf(v) * LogNorm);] *)
Definition EnergyNp_of (v LogNorm : R) : Z :=
  if Rle_dec v 1 then 0 else to_u32 (ln v * LogNorm).

(** [v = sqrtf(v) * 0x1.0p16f;
     Energy[n] = (v <= 1.0f) ? 1 : (v >= 0x1.0p32f) ? 0xFFFFFFFFu : (uint32_t)v;] *)
Definition Energy_of (v : R) : Z :=
  let v := (sqrt v * IZR (2 ^ 16))%R in
  if Rle_dec v 1 then 1
  else if Rge_dec v (IZR (2 ^ 32)) then 0xFFFFFFFF
  else to_u32 v.

(** [for(n=0;n<SubBlockSize;n++) if((v = BufferAmp2[n]) > Norm) Norm = v;] *)
Fixpoint PeakAmp2 (BufferAmp2 : Z -> R) (count : nat) (n : Z) (Norm : R) : R :=
  match count with
  | O => Norm
  | S count' =>
      let v := BufferAmp2 n in
      PeakAmp2 BufferAmp2 count' (n + 1) (if Rgt_dec v Norm then v else Norm)
  end.

(** The main analysis window: the fixed-point band edges and the two
    [uint64_t] sums. *)
Record Window := mkWindow
  { BandBeg : Z; BandEnd : Z; Sum : Z; SumW : Z }.

(** The noise analysis window ([#if PSYCHO_ULTRASTABLE]). *)
Record NoiseWindow := mkNoise
  { NoiseBeg : Z; NoiseEnd : Z; NoiseSum : Z }.

Section SubBlock.

(** [PSYCHO_ULTRASTABLE] is [ULC_USE_NOISE_CODING], declared outside the
    sources modelled here. *)
Variable PSYCHO_ULTRASTABLE : bool.
Variables Energy EnergyNp : Z -> Z.
Variable SubBlockSize : Z.

(** [do { SumW += Energy[Old]; Sum += Energy[Old] * (uint64_t)EnergyNp[Old]; }
     while(++Old < New);] with [count] turns. *)
Fixpoint AddSamples (count : nat) (Old : Z) (acc : Z * Z) : Z * Z :=
  match count with
  | O => acc
  | S count' =>
      let '(Sum, SumW) := acc in
      let SumW := u64 (SumW + Energy Old) in
      let Sum  := u64 (Sum + u64 (Energy Old * EnergyNp Old)) in
      AddSamples count' (Old + 1) (Sum, SumW)
  end.

(** Re-focus the main analysis window (RangeScaleFxp = 5, LoRangeScale = 29,
    HiRangeScale = 45). *)
Definition RefocusMain (w : Window) : Window :=
  let Old := Z.shiftr (BandBeg w) 5 in
  let BandBeg := BandBeg w + 29 in
  let New := Z.shiftr BandBeg 5 in
  let '(Sum, SumW) :=
    if Old <? New
    then (u64 (Sum w - u64 (Energy Old * EnergyNp Old)), u64 (SumW w - Energy Old))
    else (Sum w, SumW w) in
  let Old := Z.shiftr (BandEnd w) 5 in
  let BandEnd := BandEnd w + 45 in
  let New := Z.shiftr BandEnd 5 in
  let New := if New >? SubBlockSize then SubBlockSize else New in
  let '(Sum, SumW) :=
    if Old <? New
    then AddSamples (Z.to_nat (New - Old)) Old (Sum, SumW)
    else (Sum, SumW) in
  mkWindow BandBeg BandEnd Sum SumW.

(** [do { NoiseSum += EnergyNp[Old]; } while(++Old < New);] *)
Fixpoint AddNoise (count : nat) (Old : Z) (NoiseSum : Z) : Z :=
  match count with
  | O => NoiseSum
  | S count' => AddNoise count' (Old + 1) (u32 (NoiseSum + EnergyNp Old))
  end.

(** Re-focus the noise analysis window (RangeScaleFxp = 4, LoRangeScale = 15,
    HiRangeScale = 20). *)
Definition RefocusNoise (w : NoiseWindow) : NoiseWindow :=
  let Old := Z.shiftr (NoiseBeg w) 4 in
  let NoiseBeg := NoiseBeg w + 15 in
  let New := Z.shiftr NoiseBeg 4 in
  let NoiseSum :=
    if Old <? New then u32 (NoiseSum w - EnergyNp Old) else NoiseSum w in
  let Old := Z.shiftr (NoiseEnd w) 4 in
  let NoiseEnd := NoiseEnd w + 20 in
  let New := Z.shiftr NoiseEnd 4 in
  let New := if New >? SubBlockSize then SubBlockSize else New in
  let NoiseSum :=
    if Old <? New then AddNoise (Z.to_nat (New - Old)) Old NoiseSum else NoiseSum in
  mkNoise NoiseBeg NoiseEnd NoiseSum.

(** [uint32_t x = Sum / SumW; x += NoiseSum >> Log2SubBlockSize;]
    A zero divisor traps: [None]. *)
Definition ExpectedLevel (w : Window) (nw : NoiseWindow) : option Z :=
  if SumW w =? 0 then None
  else
    let x := u32 (Sum w / SumW w) in
    Some (if PSYCHO_ULTRASTABLE
          then u32 (x + Z.shiftr (NoiseSum nw) (Z.log2 SubBlockSize))
          else x).

(** The band loop [for(n=0;n<SubBlockSize;n++)], with [count] bands left:
    the values of [x] in band order. *)
Fixpoint Bands (count : nat) (w : Window) (nw : NoiseWindow) : option (list Z) :=
  match count with
  | O => Some []
  | S count' =>
      let w  := RefocusMain w in
      let nw := if PSYCHO_ULTRASTABLE then RefocusNoise nw else nw in
      match ExpectedLevel w nw with
      | None => None
      | Some x => option_map (cons x) (Bands count' w nw)
      end
  end.

End SubBlock.

(** Whether one of [BufferAmp2[n .. n+count-1]] is negative. *)
Fixpoint AnyNegative (BufferAmp2 : Z -> R) (count : nat) (n : Z) : bool :=
  match count with
  | O => false
  | S count' =>
      if Rlt_dec (BufferAmp2 n) 0 then true
      else AnyNegative BufferAmp2 count' (n + 1)
  end.

(** The body run for a sub-block whose peak [Norm] is not zero: the values
    stored in [MaskingNp[0 .. SubBlockSize-1]], or [None] on a division by
    zero.

    Two places leave the numbers that a real can stand for.  The quotient
    [0x1.0p32f / Norm] exceeds every finite [float] when the peak is 2^-96
    or less and is then +infinity, so that [v] is an infinity, or a NaN for
    an amplitude of 0; and [sqrtf(v)] is a NaN for a negative [v].
    Neither clamp holds a NaN back, and the conversion of a NaN or an
    infinity to [uint32_t] is undefined: [None]. *)
Definition MaskSubBlock (PSYCHO_ULTRASTABLE : bool) (BufferAmp2 : Z -> R)
  (SubBlockSize : Z) (Norm : R) : option (list R) :=
  if Rle_dec Norm (/ IZR (2 ^ 96)) then None
  else if AnyNegative BufferAmp2 (Z.to_nat SubBlockSize) 0 then None
  else
  let Norm := (IZR (2 ^ 32) / Norm)%R in
  let LogNorm := (LogNormScale / IZR SubBlockSize)%R in
  let EnergyNp := fun n => EnergyNp_of (BufferAmp2 n * Norm) LogNorm in
  let Energy   := fun n => Energy_of (BufferAmp2 n * Norm) in
  let NormLog    := (Third * ln Norm)%R in
  let InvLogNorm := (IZR SubBlockSize * - InvLogScale)%R in
  option_map (map (fun x => (IZR x * InvLogNorm + NormLog)%R))
    (Bands PSYCHO_ULTRASTABLE Energy EnergyNp SubBlockSize
       (Z.to_nat SubBlockSize) (mkWindow 0 0 0 0) (mkNoise 0 0 0)).

(** [MaskingNp[n] = ...] for the bands of one sub-block. *)
Fixpoint Store (MaskingNp : Z -> R) (at_ : Z) (values : list R) : Z -> R :=
  match values with
  | [] => MaskingNp
  | v :: values' =>
      Store (fun i => if i =? at_ then v else MaskingNp i) (at_ + 1) values'
  end.

(** The loop over the sub-blocks of the decimation pattern; [at_] is how far
    [MaskingNp] and [BufferAmp2] have been advanced. *)
Fixpoint MaskSubBlocks (PSYCHO_ULTRASTABLE : bool) (BufferAmp2 : Z -> R)
  (sbs : list Helper.SubBlock) (at_ : Z) (MaskingNp : Z -> R) : option (Z -> R) :=
  match sbs with
  | [] => Some MaskingNp
  | sb :: sbs' =>
      let SubBlockSize := Helper.SubBlockSize sb in
      let Amp2 := fun n => BufferAmp2 (at_ + n) in
      let Norm := PeakAmp2 Amp2 (Z.to_nat SubBlockSize) 0 0%R in
      if Req_EM_T Norm 0
      then MaskSubBlocks PSYCHO_ULTRASTABLE BufferAmp2 sbs' (at_ + SubBlockSize) MaskingNp
      else
        match MaskSubBlock PSYCHO_ULTRASTABLE Amp2 SubBlockSize Norm with
        | None => None
        | Some values =>
            MaskSubBlocks PSYCHO_ULTRASTABLE BufferAmp2 sbs' (at_ + SubBlockSize)
              (Store MaskingNp at_ values)
        end
  end.

Definition Block_Transform_CalculatePsychoacoustics (PSYCHO_ULTRASTABLE : bool)
  (MaskingNp BufferAmp2 : Z -> R) (BlockSize WindowCtrl : Z) : option (Z -> R) :=
  match Helper.SubBlocks BlockSize WindowCtrl with
  | None => None
  | Some sbs => MaskSubBlocks PSYCHO_ULTRASTABLE BufferAmp2 sbs 0 MaskingNp
  end.

End Psycho.

(** ** The noise log-spectrum
       (Block_Transform_CalculateNoiseLogSpectrum, ulcEncoder_NoiseFill.h) *)
Module NoiseSpectrum.

(** [floorf] and [ceilf]. *)
Definition floorf (x : R) : R := IZR (Int_part x).
Definition ceilf (x : R) : R := IZR (- Int_part (- x)).

(** Conversion of an unsigned value to [int32_t] (two's complement). *)
Definition to_i32 (x : Z) : Z := (x + 2 ^ 31) mod 2 ^ 32 - 2 ^ 31.

Definition RangeScaleFxp : Z := 8.

(** [s = (2*16000.0f) / RateHz; if(s >= 1.0f) s = 0x1.FFFFFEp-1f;
     LoRangeScale = (int)floorf((1<<RangeScaleFxp) * s);] *)
Definition LoRangeScale (RateHz : Z) : Z :=
  let s := (2 * 16000 / IZR RateHz)%R in
  let s := if Rge_dec s 1 then (IZR 0x1FFFFFE / IZR (2 ^ 25))%R else s in
  Float.to_int (floorf (IZR (Z.shiftl 1 RangeScaleFxp) * s)).

(** [s = RateHz / (2*22000.0f); if(s < 1.0f) s = 1.0f;
     HiRangeScale = (int)ceilf((1<<RangeScaleFxp) * s);] *)
Definition HiRangeScale (RateHz : Z) : Z :=
  let s := (IZR RateHz / (2 * 22000))%R in
  let s := if Rlt_dec s 1 then 1%R else s in
  Float.to_int (ceilf (IZR (Z.shiftl 1 RangeScaleFxp) * s)).

(** [Norm = (Norm > 0x1.0p-96f) ? (0x1.FFFFFCp31f / Norm) : 0x1.FFFFFCp127f;] *)
Definition Normalizer (Norm : R) : R :=
  if Rgt_dec Norm (/ IZR (2 ^ 96))
  then (IZR (2 ^ 32 - 2 ^ 9) / Norm)%R
  else IZR (2 ^ 128 - 2 ^ 105).

(** The float literals [0x1.715476p27f], [0x1.62E430p-1f] and
    [0x1.62E430p-29f]. *)
Definition LogScaleNum  : R := IZR (0x1715476 * 2 ^ 3).
Definition Log2         : R := (IZR 0x162E430 / IZR (2 ^ 25))%R.
Definition InvLogScaleN : R := (IZR 0x162E430 / IZR (2 ^ 53))%R.

(** [Weight[n] = (v <= 1.0f) ? 1 : (uint32_t)v;
     EnergyNp[n] = (v <= 1.0f) ? 0 : (uint32_t)(logf(v) * LogScale);] *)
Definition Weight_of (v : R) : Z :=
  if Rle_dec v 1 then 1 else Psycho.to_u32 v.
Definition EnergyNp_of (v LogScale : R) : Z :=
  if Rle_dec v 1 then 0 else Psycho.to_u32 (ln v * LogScale).

(** The noise window: the fixed-point edges, the two [uint64_t] sums and
    the [uint32_t] sum. *)
Record Window := mkWindow
  { NoiseBeg : Z; NoiseEnd : Z; MaskSum : Z; MaskSumW : Z; FloorSum : Z }.

Section Bands.

Variables Weight EnergyNp : Z -> Z.
Variables (N_ LoScale HiScale : Z).

(** [do { MaskSumW += Weight[Old];
          MaskSum  += Weight[Old] * (uint64_t)EnergyNp[Old];
          FloorSum += EnergyNp[Old]; } while(++Old < New);] *)
Fixpoint AddSamples (count : nat) (Old : Z) (acc : Z * Z * Z) : Z * Z * Z :=
  match count with
  | O => acc
  | S count' =>
      let '(MaskSum, MaskSumW, FloorSum) := acc in
      let MaskSumW := Psycho.u64 (MaskSumW + Weight Old) in
      let MaskSum  := Psycho.u64 (MaskSum + Psycho.u64 (Weight Old * EnergyNp Old)) in
      let FloorSum := Psycho.u32 (FloorSum + EnergyNp Old) in
      AddSamples count' (Old + 1) (MaskSum, MaskSumW, FloorSum)
  end.

(** The two halves of the re-focusing: samples that went out of focus are
    removed, samples that came into focus are added. *)
Definition Refocus (w : Window) : Window :=
  let Old := Z.shiftr (NoiseBeg w) RangeScaleFxp in
  let NoiseBeg := NoiseBeg w + LoScale in
  let New := Z.shiftr NoiseBeg RangeScaleFxp in
  let '(MaskSum, MaskSumW, FloorSum) :=
    if Old <? New
    then (Psycho.u64 (MaskSum w - Psycho.u64 (Weight Old * EnergyNp Old)),
          Psycho.u64 (MaskSumW w - Weight Old),
          Psycho.u32 (FloorSum w - EnergyNp Old))
    else (MaskSum w, MaskSumW w, FloorSum w) in
  let Old := Z.shiftr (NoiseEnd w) RangeScaleFxp in
  let NoiseEnd := NoiseEnd w + HiScale in
  let New := Z.shiftr NoiseEnd RangeScaleFxp in
  let New := if New >? N_ then N_ else New in
  let '(MaskSum, MaskSumW, FloorSum) :=
    if Old <? New
    then AddSamples (Z.to_nat (New - Old)) Old (MaskSum, MaskSumW, FloorSum)
    else (MaskSum, MaskSumW, FloorSum) in
  mkWindow NoiseBeg NoiseEnd MaskSum MaskSumW FloorSum.

(** [FloorBw = (NoiseEnd >> RangeScaleFxp) - (NoiseBeg >> RangeScaleFxp);
     Mask = MaskSum / MaskSumW; Floor = FloorSum / FloorBw;] and the integer
    [2*Floor - Mask].  A zero divisor traps: [None]. *)
Definition Level (w : Window) : option Z :=
  let FloorBw := Z.shiftr (NoiseEnd w) RangeScaleFxp
                 - Z.shiftr (NoiseBeg w) RangeScaleFxp in
  if (MaskSumW w =? 0) || (Psycho.u32 FloorBw =? 0) then None
  else
    let Mask  := to_i32 (MaskSum w / MaskSumW w) in
    let Floor := to_i32 (FloorSum w / Psycho.u32 FloorBw) in
    Some (2 * Floor - Mask).

(** The loop [for(n=0;n<N;n++)] with [count] lines left: the integer
    levels in line order. *)
Fixpoint Lines (count : nat) (w : Window) : option (list Z) :=
  match count with
  | O => Some []
  | S count' =>
      let w := Refocus w in
      match Level w with
      | None => None
      | Some x => option_map (cons x) (Lines count' w)
      end
  end.

End Bands.

(** [for(n=0;n<N;n++) if((v = Data[n]) > Norm) Norm = v;] is
    [Psycho.PeakAmp2].  [LogNoiseFloor[n] = ...] for the lines of the
    spectrum is [Psycho.Store] at [Data + N]. *)

(** The memory behind [Data] (2*N cells after [N /= 2]) when the function
    returns.  The words of [Weight] overwrite the first [N] cells before
    the weights are computed; what they look like as [float]s is
    [AsFloat], a matter of the representation that the function never
    reads. *)
Definition Block_Transform_CalculateNoiseLogSpectrum (AsFloat : Z -> R)
  (Data : Z -> R) (N RateHz : Z) : option (Z -> R) :=
  let N := Z.quot N 2 in
  let Norm := Psycho.PeakAmp2 Data (Z.to_nat N) 0 0%R in
  if Req_EM_T Norm 0 then Some Data
  else
    let LoRangeScale := LoRangeScale RateHz in
    let HiRangeScale := HiRangeScale RateHz in
    let Norm := Normalizer Norm in
    let LogScale := (LogScaleNum / IZR N)%R in
    let Weight   := fun n => Weight_of (Data n * Norm) in
    let EnergyNp := fun n => EnergyNp_of (Data n * Norm) LogScale in
    let LogNorm     := (Log2 - 1 / 2 * ln Norm)%R in
    let InvLogScale := (InvLogScaleN * IZR N)%R in
    match Lines Weight EnergyNp N LoRangeScale HiRangeScale (Z.to_nat N)
            (mkWindow 0 0 0 0 0) with
    | None => None
    | Some levels =>
        let Mem := fun i => if (0 <=? i) && (i <? N)
                            then AsFloat (Weight i) else Data i in
        let Mem :=
          Psycho.Store Mem N
            (map (fun x => (IZR x * InvLogScale + LogNorm)%R) levels) in
        Some (NoiseFill.Block_Transform_CalculateNoiseLogSpectrumWithWeights
                Mem 0 N N)
    end.

End NoiseSpectrum.

(** ** The block serializer (Block_Encode) *)
Module BlockEncode.

(** Wrap-around of [size_t] (64 bits). *)
Definition u64 (x : Z) : Z := x mod 2 ^ 64.

(** The output: the bytes of [DstBuffer] (indexed from its start), the
    index [*Dst] points at, and the bit count [*Size]. *)
Record Writer := mkWriter
  { Buffer : Z -> Z; Dst : Z; Size : Z }.

(** Push a nibble: the byte under [Dst] is shifted down by 4 and [x << 4]
    is or-ed into it ([x] is a [uint8_t]), [Size] grows by 4, and [Dst]
    advances when [Size % 8u == 0]. *)
Definition Block_Encode_WriteNybble (x : Z) (w : Writer) : Writer :=
  let x := x mod 256 in
  let b := Z.shiftr (Buffer w (Dst w)) 4 in
  let b := (Z.lor b (Z.shiftl x 4)) mod 256 in
  let Size := u64 (Size w + 4) in
  mkWriter (fun i => if i =? Dst w then b else Buffer w i)
           (if Size mod 8 =? 0 then Dst w + 1 else Dst w)
           Size.

(** The local variables of the coding loops. *)
Record Coder := mkCoder
  { Key : Z; NextNz : Z; LastNz : Z
  ; NxtQuantBand : Z; CurQuantBand : Z; CurQuantEnd : Z
  ; nNzCoded : Z
  ; Out : Writer }.

Definition put (x : Z) (c : Coder) : Coder :=
  mkCoder (Key c) (NextNz c) (LastNz c) (NxtQuantBand c) (CurQuantBand c)
          (CurQuantEnd c) (nNzCoded c) (Block_Encode_WriteNybble x (Out c)).

(** C's [round]: to the nearest integer, halfway cases away from zero. *)
Definition round (x : Q) : Z :=
  if Qle_bool 0 x then Qfloor (x + (1 # 2)) else - Qfloor (- x + (1 # 2)).

(** [(int32_t)d] for a [double] [d]: a value that an [int32_t] does not
    hold has no conversion in C; the conversion of x86 ([cvttsd2si], the
    target of the Makefile's ARCHFLAGS) returns INT_MIN, and does so for an
    infinity and a NaN as well. *)
Definition INT32_MIN : Z := - 2 ^ 31.
Definition to_int32 (z : Z) : Z :=
  if (INT32_MIN <=? z) && (z <? 2 ^ 31) then z else INT32_MIN.

Section Encode.

(** Declared in headers that are not modelled: the marker [QUANTIZER_UNUSED] and
    the helper [IntLog2]. *)
Variable QUANTIZER_UNUSED : Z.
Variable IntLog2 : Z -> Z.

(** The encoder state as [Block_Encode] finds it after
    [Block_Encode_BuildQuants] and [Analysis_KeysSort] (both outside the
    sources modelled here): [nNzBands] is what the former returns, [Keys i] is
    [Keys[i].Key] in sorted order.  Arrays are functions from the index. *)
Variables (nChan BlockSize nQuants nNzBands : Z).
Variable TransformBuffer : Z -> Z -> Q.
Variable QuantsBw : Z -> Z.
Variable Quants : Z -> Z -> Z.
Variable Keys : Z -> Z.

Variable Chan : Z.

(** [while(zR >= 4) { ... NextNz += n; zR -= n; }] *)
Fixpoint ZeroRuns (fuel : nat) (zR : Z) (c : Coder) : option Coder :=
  if zR <? 4 then Some c
  else
    match fuel with
    | O => None
    | S fuel' =>
        let n := zR in
        if n <? 26 then
          (* 8h,1h..Bh: 4..24 zeros *)
          let n := (n - 2) / 2 in
          let c := put 0x8 c in
          let c := put n c in
          let n := n * 2 + 2 in
          ZeroRuns fuel' (u64 (zR - n))
            (mkCoder (Key c) (u64 (NextNz c + n)) (LastNz c) (NxtQuantBand c)
                     (CurQuantBand c) (CurQuantEnd c) (nNzCoded c) (Out c))
        else
          (* 8h,Ch..Fh,Xh: 26..152 zeros *)
          let n := (n - 26) / 2 in
          let n := if n >? 0x3F then 0x3F else n in
          let c := put 0x8 c in
          let c := put (0xC + Z.shiftr n 4) c in
          let c := put (Z.land n 0xF) c in
          let n := n * 2 + 26 in
          ZeroRuns fuel' (u64 (zR - n))
            (mkCoder (Key c) (u64 (NextNz c + n)) (LastNz c) (NxtQuantBand c)
                     (CurQuantBand c) (CurQuantEnd c) (nNzCoded c) (Out c))
    end.

(** [Qn = (int32_t)round(TransformBuffer[Chan][NextNz] / Quants[Chan][CurQuantBand]);
     if(Qn < -7) Qn = -7; if(Qn > +7) Qn = +7;] *)
Definition Quantized (Band QBand : Z) : Z :=
  let Qn :=
    if Quants Chan QBand =? 0
    then INT32_MIN (* the quotient is an infinity or a NaN *)
    else to_int32 (round (TransformBuffer Chan Band / inject_Z (Quants Chan QBand))) in
  let Qn := if Qn <? -7 then -7 else Qn in
  if Qn >? 7 then 7 else Qn.

(** The body of the inner [do { ... } while(++NextNz <= tBand);]. *)
Definition CodeCoef (c : Coder) : Coder :=
  let '(CurQuantBand, CurQuantEnd) :=
    if NextNz c >=? CurQuantEnd c
    then (u64 (CurQuantBand c + 1),
          u64 (CurQuantEnd c + QuantsBw (u64 (CurQuantBand c + 1))))
    else (CurQuantBand c, CurQuantEnd c) in
  let Qn := Quantized (NextNz c) CurQuantBand in
  let nNzCoded := if Qn =? 0 then nNzCoded c else u64 (nNzCoded c + 1) in
  mkCoder (Key c) (NextNz c) (LastNz c) (NxtQuantBand c) CurQuantBand CurQuantEnd
          nNzCoded (Block_Encode_WriteNybble Qn (Out c)).

Fixpoint CodeCoefs (fuel : nat) (tBand : Z) (c : Coder) : option Coder :=
  match fuel with
  | O => None
  | S fuel' =>
      let c := CodeCoef c in
      let c := mkCoder (Key c) (u64 (NextNz c + 1)) (LastNz c) (NxtQuantBand c)
                       (CurQuantBand c) (CurQuantEnd c) (nNzCoded c) (Out c) in
      if NextNz c <=? tBand then CodeCoefs fuel' tBand c else Some c
  end.

(** The key loop [do { ... } while(++Key < nNzBands);] with its two
    [break]s. *)
Fixpoint CodeKeys (fuel : nat) (c : Coder) : option Coder :=
  match fuel with
  | O => None
  | S fuel' =>
      let tBand := Z.land (Keys (Key c)) (BlockSize - 1) in
      if tBand >=? LastNz c then Some c
      else
        let tChan := Z.shiftr (Keys (Key c)) (IntLog2 BlockSize) in
        if negb (tChan =? Chan) then Some c
        else
          let zR := u64 (tBand - NextNz c) in
          match ZeroRuns (Z.to_nat zR) zR c with
          | None => None
          | Some c =>
              match CodeCoefs (S (Z.to_nat (tBand - NextNz c))) tBand c with
              | None => None
              | Some c =>
                  let c := mkCoder (u64 (Key c + 1)) (NextNz c) (LastNz c)
                                   (NxtQuantBand c) (CurQuantBand c)
                                   (CurQuantEnd c) (nNzCoded c) (Out c) in
                  if Key c <? nNzBands then CodeKeys fuel' c else Some c
              end
          end
  end.

(** [while(NxtQuantBand < nQuants && Quants[Chan][NxtQuantBand] == QUANTIZER_UNUSED)
       LastNz += QuantsBw[NxtQuantBand++];] *)
Fixpoint SkipUnused (fuel : nat) (c : Coder) : option Coder :=
  if (NxtQuantBand c <? nQuants) && (Quants Chan (NxtQuantBand c) =? QUANTIZER_UNUSED)
  then
    match fuel with
    | O => None
    | S fuel' =>
        SkipUnused fuel'
          (mkCoder (Key c) (NextNz c) (u64 (LastNz c + QuantsBw (NxtQuantBand c)))
                   (u64 (NxtQuantBand c + 1)) (CurQuantBand c) (CurQuantEnd c)
                   (nNzCoded c) (Out c))
    end
  else Some c.

(** [while(++NxtQuantBand < nQuants && Quants[Chan][NxtQuantBand] != QUANTIZER_UNUSED)
       LastNz += QuantsBw[NxtQuantBand];] *)
Fixpoint ExtendLimit (fuel : nat) (c : Coder) : option Coder :=
  match fuel with
  | O => None
  | S fuel' =>
      let Nxt := u64 (NxtQuantBand c + 1) in
      let c := mkCoder (Key c) (NextNz c) (LastNz c) Nxt (CurQuantBand c)
                       (CurQuantEnd c) (nNzCoded c) (Out c) in
      if (Nxt <? nQuants) && negb (Quants Chan Nxt =? QUANTIZER_UNUSED)
      then ExtendLimit fuel'
             (mkCoder (Key c) (NextNz c) (u64 (LastNz c + QuantsBw Nxt)) Nxt
                      (CurQuantBand c) (CurQuantEnd c) (nNzCoded c) (Out c))
      else Some c
  end.

(** [n = LastNz - NextNz; if(n == 1) 0h; else if(n >= 2) 8h,0h;] *)
Definition Finalize (c : Coder) : Coder :=
  let n := u64 (LastNz c - NextNz c) in
  if n =? 1 then put 0x0 c
  else if n >=? 2 then put 0x0 (put 0x8 c)
  else c.

(** The loop [for(;;)] over the runs of consecutive used quantizer bands. *)
Fixpoint CodeBands (fuel : nat) (c : Coder) : option Coder :=
  match fuel with
  | O => None
  | S fuel' =>
      match SkipUnused (Z.to_nat (nQuants - NxtQuantBand c)) c with
      | None => None
      | Some c =>
          if NxtQuantBand c >=? nQuants then Some c
          else
            let LastNz' := u64 (LastNz c + QuantsBw (NxtQuantBand c)) in
            let c := mkCoder (Key c) (LastNz c) LastNz' (NxtQuantBand c)
                             (NxtQuantBand c) LastNz' (nNzCoded c) (Out c) in
            match ExtendLimit (Z.to_nat (nQuants - NxtQuantBand c)) c with
            | None => None
            | Some c =>
                match CodeKeys (S (Z.to_nat (nNzBands - Key c))) c with
                | None => None
                | Some c => CodeBands fuel' (Finalize c)
                end
            end
      end
  end.

(** [for(QBand=0;QBand<nQuants;QBand++)
       Block_Encode_WriteNybble(IntLog2(Quants[Chan][QBand]), ...);] *)
Fixpoint CodeQuants (count : nat) (QBand : Z) (c : Coder) : Coder :=
  match count with
  | O => c
  | S count' => CodeQuants count' (QBand + 1) (put (IntLog2 (Quants Chan QBand)) c)
  end.

(** One turn of [for(Chan=0;Chan<nChan;Chan++)]; [Key], [nNzCoded] and the
    output carry over. *)
Definition CodeChannel (c : Coder) : option Coder :=
  let c := CodeQuants (Z.to_nat nQuants) 0 c in
  let c := mkCoder (Key c) (NextNz c) 0 0 (CurQuantBand c) (CurQuantEnd c)
                   (nNzCoded c) (Out c) in
  CodeBands (S (Z.to_nat nQuants)) c.

End Encode.

Section Block.

Variable QUANTIZER_UNUSED : Z.
Variable IntLog2 : Z -> Z.
Variables (nChan BlockSize nQuants nNzBands : Z).
Variable TransformBuffer : Z -> Z -> Q.
Variable QuantsBw : Z -> Z.
Variable Quants : Z -> Z -> Z.
Variable Keys : Z -> Z.

Fixpoint CodeChannels (count : nat) (Chan : Z) (c : Coder) : option Coder :=
  match count with
  | O => Some c
  | S count' =>
      match CodeChannel QUANTIZER_UNUSED IntLog2 BlockSize nQuants nNzBands
              TransformBuffer QuantsBw Quants Keys Chan c with
      | None => None
      | Some c => CodeChannels count' (Chan + 1) c
      end
  end.

(** [if(Size % 8u) *DstBuffer >>= 4;] *)
Definition ShiftFinalByte (w : Writer) : Writer :=
  if Size w mod 8 =? 0 then w
  else mkWriter (fun i => if i =? Dst w then Z.shiftr (Buffer w (Dst w)) 4
                          else Buffer w i)
                (Dst w) (Size w).

(** [Block_Encode] from the sorted keys on: the final output, with the
    returned size in [Size], and the count stored through [_nNzCoded]. *)
Definition Block_Encode (DstBuffer : Z -> Z) : option (Writer * Z) :=
  let start := mkCoder 0 0 0 0 0 0 0 (mkWriter DstBuffer 0 0) in
  match CodeChannels (Z.to_nat nChan) 0 start with
  | None => None
  | Some c => Some (ShiftFinalByte (Out c), nNzCoded c)
  end.

End Block.

End BlockEncode.

(* ================================================================== *)
(** * Theorems *)
(* ================================================================== *)

(** Evaluate the powers of two with a closed exponent. *)
Ltac pow2_consts :=
  repeat match goal with
  | |- context [2 ^ ?e] =>
      let v := eval vm_compute in (2 ^ e) in change (2 ^ e) with v
  | H : context [2 ^ ?e] |- _ =>
      let v := eval vm_compute in (2 ^ e) in change (2 ^ e) with v in H
  end.

(** ** Roundings *)
Section Roundings.
Import Float.
Local Open Scope R_scope.

Lemma Int_part_bounds (x : R) : IZR (Int_part x) <= x < IZR (Int_part x) + 1.
Proof. destruct (base_Int_part x) as [H1 H2]. lra. Qed.

Lemma Int_part_IZR (z : Z) : Int_part (IZR z) = z.
Proof. symmetry. apply Int_part_spec. lra. Qed.

Lemma Int_part_unique (x : R) (z : Z) : IZR z <= x < IZR z + 1 -> Int_part x = z.
Proof. intros H. symmetry. apply Int_part_spec. lra. Qed.

Lemma Int_part_nonneg (x : R) : 0 <= x -> (0 <= Int_part x)%Z.
Proof.
  intros Hx. pose proof (Int_part_bounds x) as H.
  assert (Hlt : IZR (-1) < IZR (Int_part x)) by (simpl; lra).
  apply lt_IZR in Hlt. lia.
Qed.

Lemma Int_part_le (x : R) (z : Z) : IZR z <= x -> (z <= Int_part x)%Z.
Proof.
  intros Hx. pose proof (Int_part_bounds x) as H.
  assert (Hlt : IZR z < IZR (Int_part x + 1)) by (rewrite plus_IZR; lra).
  apply lt_IZR in Hlt. lia.
Qed.

(** [lrintf] returns one of the two neighbouring integers, the nearest one. *)
Lemma lrintf_nearest (x : R) : - (1 / 2) <= x - IZR (lrintf x) <= 1 / 2.
Proof.
  unfold lrintf. pose proof (Int_part_bounds x) as H.
  destruct (Rlt_dec (x - IZR (Int_part x)) (1 / 2)) as [Hlo|Hlo]; [lra|].
  destruct (Rlt_dec (1 / 2) (x - IZR (Int_part x))) as [Hhi|Hhi].
  - rewrite plus_IZR. lra.
  - destruct (Z.even (Int_part x)); [|rewrite plus_IZR]; lra.
Qed.

Lemma lrintf_nonneg (x : R) : 0 <= x -> (0 <= lrintf x)%Z.
Proof.
  intros Hx. pose proof (Int_part_nonneg x Hx) as H. unfold lrintf.
  destruct (Rlt_dec _ _); [lia|]. destruct (Rlt_dec _ _); [lia|].
  destruct (Z.even _); lia.
Qed.


(** A tie between 0 and 1 goes to 0, the even neighbour. *)
Lemma lrintf_half : lrintf (1 / 2) = 0%Z.
Proof.
  unfold lrintf.
  assert (Hip : Int_part (1 / 2) = 0%Z) by (apply Int_part_unique; simpl; lra).
  rewrite Hip. simpl.
  destruct (Rlt_dec (1 / 2 - 0) (1 / 2)) as [H|H]; [lra|].
  destruct (Rlt_dec (1 / 2) (1 / 2 - 0)) as [H'|H']; [lra|]. reflexivity.
Qed.

Lemma to_int_nonneg (x : R) : 0 <= x -> to_int x = Int_part x.
Proof. intros Hx. unfold to_int. destruct (Rle_dec 0 x); [reflexivity|lra]. Qed.

End Roundings.

(** ** The companded quantizer *)
Section CompandedQuantizer.
Import Float Helper.
Local Open Scope R_scope.

Lemma sqrt_quarter : sqrt (1 / 4) = 1 / 2.
Proof.
  replace (1 / 4) with ((1 / 2) * (1 / 2)) by lra.
  apply sqrt_square. lra.
Qed.

(** The largest input under which the cast to [int] changes nothing: up
    to [2^62 - 2^31] the square root rounds to less than [2^31]. *)
Definition QuantizerMax : R := IZR (2 ^ 62 - 2 ^ 31).

Lemma QuantizerMax_value : QuantizerMax = 4611686016279904256.
Proof. reflexivity. Qed.

Lemma int_of_small (z : Z) : (- 2 ^ 31 <= z < 2 ^ 31)%Z -> int_of z = z.
Proof. intros H. unfold int_of. rewrite Z.mod_small by lia. lia. Qed.

Lemma int_of_range (z : Z) : (- 2 ^ 31 <= int_of z < 2 ^ 31)%Z.
Proof.
  unfold int_of.
  pose proof (Z.mod_pos_bound (z + 2 ^ 31) (2 ^ 32) ltac:(lia)). lia.
Qed.

Lemma long_of_small (z : Z) : (- 2 ^ 63 <= z < 2 ^ 63)%Z -> long_of z = z.
Proof.
  intros H. unfold long_of.
  destruct (Z.leb_spec (- 2 ^ 63) z), (Z.ltb_spec z (2 ^ 63)); cbn [andb]; lia.
Qed.

Lemma lrintf_sqrt_range (v : R) :
  1 / 2 <= v -> v <= QuantizerMax ->
  (0 <= lrintf (sqrt (v - 1 / 4)) < 2 ^ 31)%Z.
Proof.
  intros Hlo Hhi. set (s := sqrt (v - 1 / 4)).
  assert (Hs0 : 0 <= s) by apply sqrt_pos.
  split; [apply lrintf_nonneg; exact Hs0|].
  assert (Hs : s < IZR (2 ^ 31) - 1 / 2).
  { unfold s. rewrite <- (sqrt_square (IZR (2 ^ 31) - 1 / 2)).
    - apply sqrt_lt_1_alt. rewrite QuantizerMax_value in Hhi. pow2_consts. lra.
    - pow2_consts. lra. }
  pose proof (lrintf_nearest s) as Hn.
  apply lt_IZR. lra.
Qed.

(** Up to [QuantizerMax] the result is the rounded square root itself. *)
Lemma ULC_CompandedQuantizeUnsigned_exact (v : R) :
  v <= QuantizerMax ->
  ULC_CompandedQuantizeUnsigned v
  = if Rle_dec (1 / 2) v then lrintf (sqrt (v - 1 / 4)) else 0%Z.
Proof.
  intros Hhi. unfold ULC_CompandedQuantizeUnsigned.
  destruct (Rle_dec (1 / 2) v) as [Hlo|_]; [|reflexivity].
  pose proof (lrintf_sqrt_range v Hlo Hhi) as Hr.
  rewrite long_of_small, int_of_small by lia. reflexivity.
Qed.

Lemma ULC_CompandedQuantizeUnsigned_nonneg (v : R) :
  v <= QuantizerMax -> (0 <= ULC_CompandedQuantizeUnsigned v < 2 ^ 31)%Z.
Proof.
  intros Hhi. rewrite ULC_CompandedQuantizeUnsigned_exact by exact Hhi.
  destruct (Rle_dec (1 / 2) v) as [Hlo|_]; [|lia].
  apply lrintf_sqrt_range; assumption.
Qed.

(** Whatever the input, the result is an [int]. *)
Lemma ULC_CompandedQuantizeUnsigned_int (v : R) :
  (- 2 ^ 31 <= ULC_CompandedQuantizeUnsigned v < 2 ^ 31)%Z.
Proof.
  unfold ULC_CompandedQuantizeUnsigned.
  destruct (Rle_dec (1 / 2) v); [apply int_of_range|lia].
Qed.

(** C9, at the input where specification and code disagree.  The comment
    of [ULC_CompandedQuantizeUnsigned] and the specification make 0.5 the
    smallest input with a non-zero result; the code sends 0.5 to
    [lrintf(sqrtf(0.25)) = lrintf(0.5)], and the tie goes to the even
    neighbour 0. *)
Theorem C9_half_is_quantized_to_zero :
  ULC_CompandedQuantizeUnsigned (1 / 2) = 0%Z.
Proof.
  unfold ULC_CompandedQuantizeUnsigned.
  destruct (Rle_dec (1 / 2) (1 / 2)) as [_|H]; [|reflexivity].
  replace (1 / 2 - 1 / 4) with (1 / 4) by lra.
  rewrite sqrt_quarter, lrintf_half. reflexivity.
Qed.

(** Where the cast does not cut, the result is 0 exactly for [v <= 1/2]:
    the guard cuts below 0.5 and the tie at 0.5 finishes the job. *)
Lemma ULC_CompandedQuantizeUnsigned_zero_iff (v : R) :
  v <= QuantizerMax ->
  (ULC_CompandedQuantizeUnsigned v = 0%Z <-> v <= 1 / 2).
Proof.
  intros Hhi. rewrite ULC_CompandedQuantizeUnsigned_exact by exact Hhi.
  destruct (Rle_dec (1 / 2) v) as [Hv|Hv]; [|split; [lra|reflexivity]].
  assert (Hs : sqrt (v - 1 / 4) * sqrt (v - 1 / 4) = v - 1 / 4)
    by (apply sqrt_sqrt; lra).
  pose proof (sqrt_pos (v - 1 / 4)) as Hs0.
  pose proof (lrintf_nearest (sqrt (v - 1 / 4))) as Hn.
  split.
  - intros Hq. rewrite Hq in Hn. simpl in Hn. nra.
  - intros Hle. assert (v = 1 / 2) by lra. subst v.
    replace (1 / 2 - 1 / 4) with (1 / 4) by lra.
    rewrite sqrt_quarter. apply lrintf_half.
Qed.

Lemma square_trichotomy (q z : Z) :
  (0 <= q)%Z ->
  (z * z = q * q \/ (q + 1) * (q + 1) <= z * z \/
   (1 <= q /\ z * z <= (q - 1) * (q - 1)))%Z.
Proof.
  intros Hq. rewrite <- (Z.abs_square z).
  pose proof (Z.abs_nonneg z) as Ha.
  destruct (Z.lt_trichotomy (Z.abs z) q) as [Hlt|[Heq|Hgt]].
  - right; right. split; [lia|]. apply Z.square_le_mono_nonneg; lia.
  - left. rewrite Heq. reflexivity.
  - right; left. apply Z.square_le_mono_nonneg; lia.
Qed.

(** Where the cast does not cut, the result minimises the error
    [|v - q^2|] over the integers: the quantizer is the optimal one for the
    companding [x -> x^2], whatever way a tie is broken. *)
Lemma ULC_CompandedQuantizeUnsigned_optimal (v : R) (z : Z) :
  v <= QuantizerMax ->
  let q := ULC_CompandedQuantizeUnsigned v in
  Rabs (v - IZR q * IZR q) <= Rabs (v - IZR z * IZR z).
Proof.
  intros Hhi. cbv zeta.
  rewrite ULC_CompandedQuantizeUnsigned_exact by exact Hhi.
  destruct (Rle_dec (1 / 2) v) as [Hv|Hv].
  - set (s := sqrt (v - 1 / 4)).
    assert (Hs : s * s = v - 1 / 4) by (apply sqrt_sqrt; lra).
    assert (Hs0 : 0 <= s) by apply sqrt_pos.
    pose proof (lrintf_nearest s) as Hn.
    pose proof (lrintf_nonneg s Hs0) as Hq. set (q := lrintf s) in *.
    assert (HQ : 0 <= IZR q) by (apply IZR_le; exact Hq).
    assert (Hup : v <= IZR q * IZR q + IZR q + 1 / 2) by nra.
    destruct (square_trichotomy q z Hq) as [He|[Hbig|[Hq1 Hsmall]]].
    + apply (f_equal IZR) in He. rewrite !mult_IZR in He. rewrite He. lra.
    + apply IZR_le in Hbig. rewrite !mult_IZR, !plus_IZR in Hbig.
      assert (Hlo : IZR q * IZR q - v <= IZR q + 1 / 2) by nra.
      unfold Rabs. destruct (Rcase_abs _), (Rcase_abs _); lra.
    + apply IZR_le in Hsmall. rewrite !mult_IZR, !minus_IZR in Hsmall.
      assert (HQ1 : 1 <= IZR q) by (apply IZR_le; exact Hq1).
      assert (Hlo : IZR q * IZR q - IZR q + 1 / 2 <= v) by nra.
      unfold Rabs. destruct (Rcase_abs _), (Rcase_abs _); lra.
  - assert (Hz : (z * z = 0 \/ 1 <= z * z)%Z)
      by (pose proof (Z.square_nonneg z); lia).
    simpl. destruct Hz as [Hz|Hz].
    + apply (f_equal IZR) in Hz. rewrite mult_IZR in Hz. rewrite Hz.
      apply Req_le. f_equal. lra.
    + apply IZR_le in Hz. rewrite mult_IZR in Hz.
      unfold Rabs. destruct (Rcase_abs _), (Rcase_abs _); lra.
Qed.

(** At [2^62] the cast cuts: the square root rounds to [2^31], whose low
    32 bits are INT_MIN. *)
Lemma ULC_CompandedQuantizeUnsigned_wraps :
  ULC_CompandedQuantizeUnsigned (IZR (2 ^ 62)) = (- 2 ^ 31)%Z.
Proof.
  unfold ULC_CompandedQuantizeUnsigned.
  destruct (Rle_dec (1 / 2) (IZR (2 ^ 62))) as [_|H];
    [|exfalso; apply H; pow2_consts; lra].
  set (s := sqrt (IZR (2 ^ 62) - 1 / 4)).
  assert (Hs0 : 0 <= s) by apply sqrt_pos.
  assert (Hhi : s < IZR (2 ^ 31)).
  { unfold s. rewrite <- (sqrt_square (IZR (2 ^ 31))) by (pow2_consts; lra).
    apply sqrt_lt_1_alt. pow2_consts. lra. }
  assert (Hlo : IZR (2 ^ 31) - 1 / 2 < s).
  { unfold s. rewrite <- (sqrt_square (IZR (2 ^ 31) - 1 / 2)) by (pow2_consts; lra).
    apply sqrt_lt_1_alt. pow2_consts. lra. }
  assert (Hq : lrintf s = (2 ^ 31)%Z).
  { pose proof (lrintf_nearest s) as Hn.
    assert (H1 : IZR (lrintf s) < IZR (2 ^ 31 + 1)) by (rewrite plus_IZR; lra).
    assert (H2 : IZR (2 ^ 31 - 1) < IZR (lrintf s)) by (rewrite minus_IZR; lra).
    apply lt_IZR in H1, H2. lia. }
  rewrite Hq. reflexivity.
Qed.

End CompandedQuantizer.

(** ** HF-extension parameters *)
Section HFExtension.
Import Float Helper NoiseFill.
Local Open Scope R_scope.


Lemma ULC_CompandedQuantizeCoefficientUnsigned_range (v : R) (Limit : Z) :
  v <= QuantizerMax -> (0 <= Limit)%Z ->
  (0 <= ULC_CompandedQuantizeCoefficientUnsigned v Limit <= Limit)%Z.
Proof.
  intros Hv HL. unfold ULC_CompandedQuantizeCoefficientUnsigned.
  pose proof (ULC_CompandedQuantizeUnsigned_nonneg v Hv).
  destruct (Z.ltb_spec (ULC_CompandedQuantizeUnsigned v) Limit); lia.
Qed.













(** The weights of the counterexample: every weight 1, every weighted
    log-value 0 (a flat spectrum at the normalisation level). *)
Definition FlatData : FloatArray := fun i => if Z.even i then 1 else 0.

(** C3 as stated fails: with a flat spectrum over four coefficients and the
    quantizer scale 64.0625 the fit gives amplitude exp(0) = 1, the scaled
    amplitude is 256.25, and the quantized amplitude is 16, outside [0, 15]. *)
Lemma FlatData_fit :
  Block_Encode_EncodePass_GetHFExtParams_LeastSquares
    (fun i => FlatData (i + Z.quot 0 2 * 2)%Z) (Z.quot (4 + Z.land 0 1 + 1) 2)
  = Some (0, 0).
Proof.
  unfold Block_Encode_EncodePass_GetHFExtParams_LeastSquares.
  change (Z.quot (4 + Z.land 0 1 + 1) 2) with 2%Z.
  change (Z.to_nat 2) with 2%nat.
  cbn [LeastSquares_loop SumX SumX2 SumXY SumY SumW].
  unfold FlatData, SQR. change (Z.quot 0 2 * 2)%Z with 0%Z.
  cbn [Z.add Z.mul Z.even Pos.mul Pos.add].
  destruct (Req_EM_T _ 0) as [H|H]; [exfalso; lra|].
  f_equal. f_equal; field_simplify; lra.
Qed.


Lemma quantize_zero : ULC_CompandedQuantizeUnsigned 0 = 0%Z.
Proof.
  unfold ULC_CompandedQuantizeUnsigned.
  destruct (Rle_dec (1 / 2) 0) as [H|_]; [exfalso; lra|reflexivity].
Qed.



(** Past [QuantizerMax] the amplitude code leaves the range altogether: the
    same spectrum with the quantizer scale 2^60 is coded as INT_MIN. *)
Lemma hf_ext_amplitude_wraps :
  Block_Encode_EncodePass_GetHFExtParams FlatData 0 4 (IZR (2 ^ 60))
  = ((- 2 ^ 31)%Z, 0%Z).
Proof.
  unfold Block_Encode_EncodePass_GetHFExtParams. rewrite FlatData_fit.
  rewrite exp_0. destruct (Rgt_dec 1 1) as [H|_]; [exfalso; lra|].
  replace ((1 - 1) * - 2 ^ 19) with 0 by ring.
  rewrite quantize_zero.
  replace (1 * IZR (2 ^ 60) * 4) with (IZR (2 ^ 62))
    by (pow2_consts; lra).
  unfold ULC_CompandedQuantizeCoefficientUnsigned.
  rewrite ULC_CompandedQuantizeUnsigned_wraps. reflexivity.
Qed.

End HFExtension.

(** ** Importance of a key *)
Section Importance.
Import BlockTransform.
Local Open Scope R_scope.

Variable ULC_MAX_QBANDS : Z.
Variable MaskingThreshold : Z -> R * R.
Variables Coef CoefNp : Z -> R.
Variables (ChanNo : Z) (AnalysisPowerNp QuantRange : R).

Let band := InsertKeys_band ULC_MAX_QBANDS true MaskingThreshold Coef CoefNp
              ChanNo AnalysisPowerNp QuantRange.
Let loop := InsertKeys_loop ULC_MAX_QBANDS true MaskingThreshold Coef CoefNp
              ChanNo AnalysisPowerNp QuantRange.

(** The score as the code computes it, with the masking level [m] and the
    tonality proxy [flat] of the band: the tonality term sits inside the
    doubled log-amplitude. *)
Definition Score (l m flat : R) : R :=
  exp (2 * (ValWeight * l - MaskWeight * m + 8 * (flat * flat) * (flat * flat - 1))
       + AnalysisPowerNp).

Lemma KeyVal_Score (b : Z) (l : R) :
  KeyVal true MaskingThreshold AnalysisPowerNp b l
  = Score l (fst (MaskingThreshold b)) (snd (MaskingThreshold b)).
Proof.
  unfold KeyVal, Score, SQR. destruct (MaskingThreshold b) as [m flat].
  cbn [fst snd]. apply f_equal. ring.
Qed.

(** A key written for band [b]. *)
Definition KeyOf (b : Z) (k : AnalysisKey_t) : Prop :=
  Band k = b /\ Chan k = ChanNo /\
  CoefNp b <> ULC_COEF_NEPER_OUT_OF_RANGE /\
  Val k = Score (CoefNp b) (fst (MaskingThreshold b)) (snd (MaskingThreshold b)).

Lemma InsertKeys_band_spec (b : Z) (z : Zone) (Keys : list AnalysisKey_t) :
  (CoefNp b = ULC_COEF_NEPER_OUT_OF_RANGE /\ band b (z, Keys) = (z, Keys)) \/
  (exists z' k, band b (z, Keys) = (z', Keys ++ [k]) /\ KeyOf b k).
Proof.
  unfold band, InsertKeys_band.
  destruct (Req_EM_T (CoefNp b) ULC_COEF_NEPER_OUT_OF_RANGE) as [Heq|Hne].
  - left. split; [exact Heq|reflexivity].
  - right. eexists. eexists. split; [reflexivity|].
    split; [reflexivity|]. split; [reflexivity|]. split; [exact Hne|].
    cbn [Val]. apply KeyVal_Score.
Qed.

(** The loop appends, in band order, one key for each band in range whose
    log-amplitude is not the out-of-range marker, and nothing else. *)
Lemma InsertKeys_loop_spec (count : nat) :
  forall (b : Z) (z : Zone) (Keys : list AnalysisKey_t),
  exists z' new,
    loop count b (z, Keys) = (z', Keys ++ new) /\
    (forall k, In k new -> exists b', (b <= b' < b + Z.of_nat count)%Z /\ KeyOf b' k) /\
    (forall b', (b <= b' < b + Z.of_nat count)%Z ->
                CoefNp b' <> ULC_COEF_NEPER_OUT_OF_RANGE ->
                exists k, In k new /\ KeyOf b' k).
Proof.
  induction count as [|count IH]; intros b z Keys.
  - exists z, []. split; [cbn; rewrite app_nil_r; reflexivity|].
    split; [intros k []|intros b' Hb'; lia].
  - unfold loop. cbn [InsertKeys_loop]. fold band. fold loop.
    destruct (InsertKeys_band_spec b z Keys) as [[Hskip ->]|(z1 & k1 & -> & Hk1)].
    + destruct (IH (b + 1)%Z z Keys) as (z' & new & Heq & Hall & Hex).
      exists z', new. split; [exact Heq|]. split.
      * intros k Hk. destruct (Hall k Hk) as (b' & Hb' & HK). exists b'. split; [lia|exact HK].
      * intros b' Hb' Hne. destruct (Z.eq_dec b' b) as [->|Hnb]; [contradiction|].
        apply Hex; [lia|exact Hne].
    + destruct (IH (b + 1)%Z z1 (Keys ++ [k1])) as (z' & new & Heq & Hall & Hex).
      exists z', (k1 :: new). split; [rewrite Heq, <- app_assoc; reflexivity|]. split.
      * intros k [<-|Hk]; [exists b; split; [lia|exact Hk1]|].
        destruct (Hall k Hk) as (b' & Hb' & HK). exists b'. split; [lia|exact HK].
      * intros b' Hb' Hne. destruct (Z.eq_dec b' b) as [->|Hnb].
        -- exists k1. split; [left; reflexivity|exact Hk1].
        -- destruct (Hex b' ltac:(lia) Hne) as (k & Hk & HK).
           exists k. split; [right; exact Hk|exact HK].
Qed.

(** What one call appends. *)
Lemma InsertKeys_spec (Keys : list AnalysisKey_t) (BlockSize : Z) :
  exists new,
    Block_Transform_InsertKeys ULC_MAX_QBANDS true MaskingThreshold Coef CoefNp
      ChanNo AnalysisPowerNp QuantRange Keys BlockSize = Keys ++ new /\
    (forall k, In k new ->
       (0 <= Band k < BlockSize)%Z /\
       CoefNp (Band k) <> ULC_COEF_NEPER_OUT_OF_RANGE /\
       Val k = Score (CoefNp (Band k)) (fst (MaskingThreshold (Band k)))
                     (snd (MaskingThreshold (Band k)))) /\
    (forall b, (0 <= b < BlockSize)%Z ->
       CoefNp b <> ULC_COEF_NEPER_OUT_OF_RANGE ->
       exists k, In k new /\ Band k = b /\
         Val k = Score (CoefNp b) (fst (MaskingThreshold b))
                       (snd (MaskingThreshold b))).
Proof.
  unfold Block_Transform_InsertKeys.
  destruct (InsertKeys_loop_spec (Z.to_nat BlockSize) 0%Z (mkZone 0 0 0) Keys)
    as (z' & new & Heq & Hall & Hex).
  unfold loop in Heq. rewrite Heq. exists new. split; [reflexivity|]. split.
  - intros k Hk. destruct (Hall k Hk) as (b' & Hb' & <- & _ & Hne & Hv).
    split; [lia|]. split; assumption.
  - intros b Hb Hne. destruct (Hex b ltac:(lia) Hne) as (k & Hk & Hb' & _ & _ & Hv).
    exists k. repeat split; assumption.
Qed.

(** C2 (as amended).  With psychoacoustics enabled, one call of
    Block_Transform_InsertKeys appends exactly one key for each band in
    [0, BlockSize) whose log-amplitude is not the out-of-range marker, and
    the importance of the key of a band with log-amplitude l, masking level
    m and tonality proxy flat is
    exp(2*(3.454*l - 2.533*m + 8*flat^2*(flat^2 - 1)) + analysis_power):
    the tonality term is doubled together with the log-amplitude (the
    weights are the float literals 0x1.BA18AAp1 and 0x1.443438p1). *)
Theorem C2_importance_score (Keys : list AnalysisKey_t) (BlockSize : Z) :
  exists new,
    Block_Transform_InsertKeys ULC_MAX_QBANDS true MaskingThreshold Coef CoefNp
      ChanNo AnalysisPowerNp QuantRange Keys BlockSize = Keys ++ new /\
    (forall k, In k new ->
       (0 <= Band k < BlockSize)%Z /\
       CoefNp (Band k) <> ULC_COEF_NEPER_OUT_OF_RANGE /\
       Val k = Score (CoefNp (Band k)) (fst (MaskingThreshold (Band k)))
                     (snd (MaskingThreshold (Band k)))) /\
    (forall b, (0 <= b < BlockSize)%Z ->
       CoefNp b <> ULC_COEF_NEPER_OUT_OF_RANGE ->
       exists k, In k new /\ Band k = b /\
         Val k = Score (CoefNp b) (fst (MaskingThreshold b))
                       (snd (MaskingThreshold b))).
Proof. exact (InsertKeys_spec Keys BlockSize). Qed.

End Importance.

(** The score as the specification writes it, for weights [cL] and [cM] of the
    log-amplitude and of the masking level: the tonality term stands
    outside the doubled part. *)
Definition ClaimedScore (cL cM l m flat analysis_power : R) : R :=
  exp (2 * (cL * l - cM * m) + 8 * (flat * flat) * (flat * flat - 1)
       + analysis_power)%R.

(** C2 as stated fails.  One band of log-amplitude -1 with masking level 0
    and tonality proxy 1/2, no channel decay: the key holds
    exp(-2*3.454 - 3), not exp(-2*3.454 - 3/2); this is so with the weights
    of the source as well as with the decimals 3.455 and 2.533 of the
    specification. *)
Lemma C2_flat_term_counterexample :
  exists k,
    In k (BlockTransform.Block_Transform_InsertKeys 48 true
            (fun _ => (0, 1 / 2)%R) (fun _ => exp (-1)) (fun _ => (-1)%R)
            0 0%R 1%R [] 1) /\
    BlockTransform.Band k = 0 /\
    BlockTransform.Val k
      <> ClaimedScore BlockTransform.ValWeight BlockTransform.MaskWeight
                      (-1) 0 (1 / 2) 0 /\
    BlockTransform.Val k <> ClaimedScore (3455 / 1000) (2533 / 1000) (-1) 0 (1 / 2) 0.
Proof.
  destruct (InsertKeys_spec 48 (fun _ => (0, 1 / 2)%R) (fun _ => exp (-1))
              (fun _ => (-1)%R) 0 0%R 1%R [] 1)
    as (new & Heq & _ & Hex).
  destruct (Hex 0 ltac:(lia)) as (k & Hk & Hb & Hv).
  { unfold BlockTransform.ULC_COEF_NEPER_OUT_OF_RANGE. lra. }
  exists k. rewrite Heq. split; [exact Hk|]. split; [exact Hb|].
  rewrite Hv. unfold Score, ClaimedScore, BlockTransform.ValWeight,
    BlockTransform.MaskWeight. cbn [fst snd].
  change (2 ^ 23)%Z with 8388608%Z.
  split; intros He; apply exp_inv in He; lra.
Qed.

(** ** Window control: the overlap scale *)
Section OverlapSelection.
Import Float WindowCtrl.

(** The specification's words: round to the nearest integer, clamp to a
    range. *)
Definition RoundNearest (x : R) : Z := Int_part (x + 1 / 2).
Definition Clamp (lo hi z : Z) : Z := Z.max lo (Z.min hi z).

(** The float literals of the source against the decimals of the
    documentation: 0x1.149A78p2 is 4.32 and 0x1.715476p0 is 1.44 (1/ln 2) to
    three decimals. *)
Lemma OverlapBias_decimal : (432 / 100 - 1 / 100 < OverlapBias < 432 / 100 + 1 / 100)%R.
Proof. unfold OverlapBias. simpl. lra. Qed.

Lemma InvLog2_decimal : (144 / 100 - 1 / 100 < InvLog2 < 144 / 100 + 1 / 100)%R.
Proof. unfold InvLog2. simpl. lra. Qed.

Lemma InitialOverlapScale_clamp (x : R) :
  InitialOverlapScale x = Clamp 0 7 (RoundNearest x).
Proof.
  unfold InitialOverlapScale, Clamp, RoundNearest.
  pose proof (Int_part_bounds (x + 1 / 2)) as Hb.
  destruct (Rgt_dec x 0) as [Hpos|Hneg].
  - destruct (Rge_dec x (65 / 10)) as [Hbig|Hsmall].
    + assert (7 <= Int_part (x + 1 / 2)) by (apply Int_part_le; simpl; lra). lia.
    + rewrite to_int_nonneg by lra.
      assert (0 <= Int_part (x + 1 / 2)) by (apply Int_part_nonneg; lra).
      assert (Hlt : (IZR (Int_part (x + 1 / 2)) < IZR 7)%R) by (simpl; lra).
      apply lt_IZR in Hlt. lia.
  - assert (Hlt : (IZR (Int_part (x + 1 / 2)) < IZR 1)%R) by (simpl; lra).
    apply lt_IZR in Hlt. lia.
Qed.

Lemma InitialOverlapScale_range (x : R) : 0 <= InitialOverlapScale x <= 7.
Proof. rewrite InitialOverlapScale_clamp. unfold Clamp. lia. Qed.

Lemma shiftr_le (a s : Z) : 0 <= a -> 0 <= s -> Z.shiftr a s <= a.
Proof.
  intros Ha Hs. rewrite Z.shiftr_div_pow2 by lia.
  assert (0 < 2 ^ s) by (apply Z.pow_pos_nonneg; lia).
  apply Z.div_le_upper_bound; nia.
Qed.

(** The decrement loop stops at the largest scale not above the initial one
    that leaves an overlap of at least 16 samples. *)
Lemma MinimumOverlap_spec (SubBlockSize : Z) (n : nat) :
  16 <= SubBlockSize ->
  exists s,
    MinimumOverlap SubBlockSize n = Some s /\
    0 <= s <= Z.of_nat n /\
    16 <= Z.shiftr SubBlockSize s /\
    (forall t, s < t <= Z.of_nat n -> Z.shiftr SubBlockSize t < 16).
Proof.
  intros H16. induction n as [|n IH].
  - exists 0. cbn [MinimumOverlap Z.of_nat].
    rewrite Z.shiftr_0_r. destruct (Z.ltb_spec SubBlockSize 16); [lia|].
    repeat split; try lia.
  - cbn [MinimumOverlap].
    destruct (Z.ltb_spec (Z.shiftr SubBlockSize (Z.of_nat (S n))) 16) as [Hlt|Hge].
    + destruct IH as (s & Hs & Hr & Hov & Hmax). exists s.
      split; [exact Hs|]. split; [lia|]. split; [exact Hov|].
      intros t Ht. destruct (Z.eq_dec t (Z.of_nat (S n))) as [->|Hne]; [exact Hlt|].
      apply Hmax. lia.
    + exists (Z.of_nat (S n)). split; [reflexivity|]. split; [lia|].
      split; [exact Hge|]. intros t Ht. lia.
Qed.

(** For a power of two the bit length that the code takes for the
    logarithm ([31 - __builtin_clz]) is the logarithm to base 2. *)
Lemma log2_of_power (k : Z) :
  0 <= k -> IZR (Z.log2 (2 ^ k)) = (ln (IZR (2 ^ k)) / ln 2)%R.
Proof.
  intros Hk. rewrite Z.log2_pow2 by exact Hk.
  rewrite <- (Z2Nat.id k) at 2 by exact Hk.
  rewrite <- pow_IZR, ln_pow by lra.
  rewrite INR_IZR_INZ, Z2Nat.id by exact Hk.
  pose proof ln_lt_2 as H2. field. lra.
Qed.

(** C4.  With x = log2(sub_block_size) + 4.32 - 1.44*(ln rate - r), where
    4.32 and 1.44 stand for the float literals 0x1.149A78p2 and
    0x1.715476p0 (within 0.005 of the decimals) and the logarithm of the
    size is its bit length (the logarithm itself for a power of two), the
    window controller starts from s0 = clamp(round(x), 0, 7) and decrements
    until sub_block_size >> s >= 16: for a sub-block of at least 16
    samples and a positive rate it returns the largest s <= s0 with that
    property, so the overlap length is at least 16 and at most the
    sub-block size. *)
Theorem C4_overlap_scale (SubBlockSize : Z) (RateHz Ratio : R) :
  16 <= SubBlockSize -> (0 < RateHz)%R ->
  let c432 := (IZR 0x1149A78 / IZR (2 ^ 22))%R in
  let c144 := (IZR 0x1715476 / IZR (2 ^ 24))%R in
  let x := (IZR (Z.log2 SubBlockSize) + c432 - c144 * (ln RateHz - Ratio))%R in
  let s0 := Clamp 0 7 (RoundNearest x) in
  (Rabs (c432 - 432 / 100) < 5 / 1000 /\ Rabs (c144 - 144 / 100) < 5 / 1000)%R /\
  (forall k, 0 <= k -> SubBlockSize = 2 ^ k ->
     IZR (Z.log2 SubBlockSize) = (ln (IZR SubBlockSize) / ln 2)%R) /\
  exists s,
    OverlapScale SubBlockSize RateHz Ratio = Some s /\
    0 <= s <= s0 /\
    (forall t, s < t <= s0 -> Z.shiftr SubBlockSize t < 16) /\
    16 <= Z.shiftr SubBlockSize s <= SubBlockSize.
Proof.
  intros H16 Hrate c432 c144 x s0.
  split.
  { unfold c432, c144. pow2_consts.
    split; unfold Rabs; destruct (Rcase_abs _); lra. }
  split; [intros k Hk ->; apply log2_of_power; exact Hk|].
  assert (Hx : Log2OverlapSamplesScale SubBlockSize RateHz Ratio = x).
  { unfold Log2OverlapSamplesScale, OverlapBias, InvLog2, x, c432, c144. ring. }
  unfold OverlapScale. rewrite Hx, InitialOverlapScale_clamp. fold s0.
  assert (Hs0 : 0 <= s0 <= 7) by (unfold s0, Clamp; lia).
  destruct (MinimumOverlap_spec SubBlockSize (Z.to_nat s0) H16)
    as (s & Hs & Hr & Hov & Hmax).
  rewrite Z2Nat.id in Hr, Hmax by lia.
  exists s. split; [exact Hs|]. split; [exact Hr|]. split; [exact Hmax|].
  split; [exact Hov|]. apply shiftr_le; lia.
Qed.

Lemma C4_overlap_scale_witness :
  let c432 := (IZR 0x1149A78 / IZR (2 ^ 22))%R in
  let c144 := (IZR 0x1715476 / IZR (2 ^ 24))%R in
  let x := (IZR (Z.log2 256) + c432 - c144 * (ln 44100 - 1))%R in
  let s0 := Clamp 0 7 (RoundNearest x) in
  (Rabs (c432 - 432 / 100) < 5 / 1000 /\ Rabs (c144 - 144 / 100) < 5 / 1000)%R /\
  (forall k, 0 <= k -> 256 = 2 ^ k ->
     IZR (Z.log2 256) = (ln (IZR 256) / ln 2)%R) /\
  exists s,
    OverlapScale 256 44100 1 = Some s /\
    0 <= s <= s0 /\
    (forall t, s < t <= s0 -> Z.shiftr 256 t < 16) /\
    16 <= Z.shiftr 256 s <= 256.
Proof. apply (C4_overlap_scale 256 44100 1); [lia|lra]. Defined.

End OverlapSelection.

(** ** Window control: the binary descent *)
Section BinaryDescent.
Import WindowCtrl.

Variable Switching : bool.
Variable TransientData : Z -> Sum_t.

(** A decimation step as the specification words it, with the one condition the
    code adds: the segment length must exceed 1.  The largest ratio exceeds
    Log[2] and lies in L or M, window switching is enabled and the
    sub-block exceeds 64 samples; the pattern gets the bit 0 for L and 1 for
    M, and the lengths are halved. *)
Definition Bit (p : RatioPos_t) : Z :=
  match p with POS_L => 0 | POS_M => 1 | POS_R => 0 end.

Definition Guard (s : Search) : Prop :=
  Switching = true /\ 1 < AnalysisLen s /\ 64 < SubBlockSize s /\
  (fst (PeakRatio TransientData s) = POS_L \/
   fst (PeakRatio TransientData s) = POS_M) /\
  (Log2Threshold < snd (PeakRatio TransientData s))%Q.

(** The same without the condition on the segment length, as the
    specification has it. *)
Definition ClaimedGuard (s : Search) : Prop :=
  Switching = true /\ 64 < SubBlockSize s /\
  (fst (PeakRatio TransientData s) = POS_L \/
   fst (PeakRatio TransientData s) = POS_M) /\
  (Log2Threshold < snd (PeakRatio TransientData s))%Q.

Definition Halved (s : Search) (p : RatioPos_t) : Search :=
  mkSearch (Offset s + Bit p * AnalysisLen s)
           (2 * Decimation s + Bit p)
           (Z.quot (SubBlockSize s) 2) (Z.quot (AnalysisLen s) 2).

Inductive Step : Search -> Search -> Prop :=
| Step_decimate s :
    Guard s -> Step s (Halved s (fst (PeakRatio TransientData s))).

Inductive Steps : Search -> Search -> Prop :=
| Steps_stop s : Steps s s
| Steps_go s s' s'' : Step s s' -> Steps s' s'' -> Steps s s''.

Lemma Qltb_lt (a b : Q) : Qltb a b = true <-> (a < b)%Q.
Proof.
  unfold Qltb. rewrite Qlt_alt. destruct (a ?= b)%Q; split; congruence.
Qed.

Lemma CanDecimate_Guard (s : Search) :
  CanDecimate Switching s (fst (PeakRatio TransientData s))
                          (snd (PeakRatio TransientData s)) = true
  <-> Guard s.
Proof.
  unfold CanDecimate, Guard.
  rewrite !andb_true_iff, Qltb_lt, !Z.gtb_lt.
  destruct (fst (PeakRatio TransientData s)); intuition congruence.
Qed.

Lemma append_bit (d b : Z) : 0 <= b <= 1 -> Z.lor (Z.shiftl d 1) b = 2 * d + b.
Proof.
  intros Hb. rewrite Z.shiftl_mul_pow2 by lia. change (2 ^ 1) with 2.
  assert (Hc : b = 0 \/ b = 1) by lia. destruct Hc as [-> | ->].
  - rewrite Z.lor_0_r. lia.
  - replace (d * 2) with (2 * d) by lia.
    rewrite Z.add_comm. symmetry. rewrite <- Z.lor_0_r at 1.
    destruct d as [|p|p]; try reflexivity.
    destruct p; reflexivity.
Qed.

Lemma Decimate_Halved (s : Search) (p : RatioPos_t) :
  p <> POS_R -> Decimate s p = Halved s p.
Proof.
  intros Hp. unfold Decimate, Halved.
  destruct p; [| |contradiction]; cbn [Bit];
    rewrite append_bit by lia; f_equal; lia.
Qed.

(** The loop ends whatever the data: a segment length above 1 is needed to
    go on and each step halves it.  It follows the steps above for as long
    as one applies and returns the state where none does, together with
    the peak ratio found there. *)
Lemma Descent_loop_spec (fuel : nat) :
  forall s : Search,
  (Z.to_nat (AnalysisLen s) < fuel)%nat ->
  exists final,
    Descent_loop Switching TransientData fuel s
    = Some (final, fst (PeakRatio TransientData final),
                   snd (PeakRatio TransientData final)) /\
    Steps s final /\ ~ Guard final.
Proof.
  induction fuel as [|fuel IH]; intros s Hfuel; [lia|].
  cbn [Descent_loop].
  pose proof (CanDecimate_Guard s) as HG.
  destruct (PeakRatio TransientData s) as [pos ratio] eqn:Hpeak.
  cbn [fst snd] in HG.
  destruct (CanDecimate Switching s pos ratio) eqn:Hcan.
  - assert (Hg : Guard s) by (apply HG; reflexivity).
    assert (Hpos : pos <> POS_R).
    { destruct Hg as (_ & _ & _ & Hp & _). rewrite Hpeak in Hp. cbn in Hp.
      destruct Hp as [-> | ->]; discriminate. }
    rewrite Decimate_Halved by exact Hpos.
    destruct (IH (Halved s pos)) as (final & Hrun & Hsteps & Hstop).
    { destruct Hg as (_ & Hlen & _). cbn [Halved AnalysisLen].
      rewrite Z.quot_div_nonneg by lia.
      assert (AnalysisLen s / 2 < AnalysisLen s)
        by (apply Z.div_lt_upper_bound; lia).
      assert (0 <= AnalysisLen s / 2) by (apply Z.div_pos; lia). lia. }
    exists final. split; [exact Hrun|]. split; [|exact Hstop].
    apply Steps_go with (s' := Halved s pos); [|exact Hsteps].
    replace pos with (fst (PeakRatio TransientData s)) by (rewrite Hpeak; reflexivity).
    constructor. exact Hg.
  - exists s. rewrite Hpeak. split; [reflexivity|]. split; [constructor|].
    intros Hg. apply HG in Hg. congruence.
Qed.

(** The specification's words.  The level of the segment [k] segments
    from the pointer (LL, L, M, R are k = -1, 0, 1, 2), the log-ratio of a
    segment to the one before it, and where the largest of the three
    ratios lies; of equal ratios the earlier segment counts. *)
Definition Level (s : Search) (k : Z) : Q :=
  Finalize (SumSegment TransientData (Z.to_nat (AnalysisLen s))
              (Offset s + k * AnalysisLen s) (mkSum 0 0)).

Definition RatioOf (s : Search) (p : RatioPos_t) : Q :=
  match p with
  | POS_L => Level s 0 - Level s (-1)
  | POS_M => Level s 1 - Level s 0
  | POS_R => Level s 2 - Level s 1
  end.

Definition Largest (s : Search) (p : RatioPos_t) : Prop :=
  (match p with
   | POS_L => RatioOf s POS_M <= RatioOf s POS_L /\ RatioOf s POS_R <= RatioOf s POS_L
   | POS_M => RatioOf s POS_L < RatioOf s POS_M /\ RatioOf s POS_R <= RatioOf s POS_M
   | POS_R => RatioOf s POS_L < RatioOf s POS_R /\ RatioOf s POS_M < RatioOf s POS_R
   end)%Q.

(** The conditions of a decimation, on the segment [p] of the largest
    ratio. *)
Definition DecimationGuard (s : Search) (p : RatioPos_t) : Prop :=
  Switching = true /\ 1 < AnalysisLen s /\ 64 < SubBlockSize s /\
  (p = POS_L \/ p = POS_M) /\ (Log2Threshold < RatioOf s p)%Q.

Inductive DescentStep : Search -> Search -> Prop :=
| DescentStep_decimate s p :
    Largest s p -> DecimationGuard s p -> DescentStep s (Halved s p).

Inductive Descent : Search -> Search -> Prop :=
| Descent_stop s : Descent s s
| Descent_go s s' s'' : DescentStep s s' -> Descent s' s'' -> Descent s s''.

(** The segment sums a quotient is taken of: weights that are not
    negative, and no sum without a weight. *)
Definition Weighted (x : Sum_t) : Prop :=
  (0 <= SumW x /\ (SumW x == 0 -> Sum x == 0))%Q.

Lemma SumSegment_Weighted (count : nat) :
  forall (start : Z) (Dst : Sum_t),
  (forall i, Weighted (TransientData i)) -> Weighted Dst ->
  Weighted (SumSegment TransientData count start Dst).
Proof.
  induction count as [|count IH]; intros start Dst Hd HDst; [exact HDst|].
  cbn [SumSegment]. apply IH; [exact Hd|].
  destruct HDst as [H0 Hz]. destruct (Hd start) as [H0' Hz'].
  unfold Weighted. cbn [Sum SumW]. split; [Lqa.lra|].
  intros Hsum.
  assert (H1 : (SumW Dst == 0)%Q) by Lqa.lra.
  assert (H2 : (SumW (TransientData start) == 0)%Q) by Lqa.lra.
  rewrite (Hz H1), (Hz' H2). reflexivity.
Qed.

(** [FINALIZE_DATA] divides a sum that is not 0 by its weight: on weighted
    data that weight is not 0. *)
Lemma Finalize_divisor (s : Search) (k : Z) :
  (forall i, Weighted (TransientData i)) ->
  let x := SumSegment TransientData (Z.to_nat (AnalysisLen s))
             (Offset s + k * AnalysisLen s) (mkSum 0 0) in
  (~ Sum x == 0 -> ~ SumW x == 0)%Q.
Proof.
  intros Hd x Hs Hw.
  assert (HW : Weighted x).
  { apply SumSegment_Weighted; [exact Hd|].
    unfold Weighted. cbn [Sum SumW]. split; [Lqa.lra|reflexivity]. }
  apply Hs, HW, Hw.
Qed.

Lemma Qltb_false (a b : Q) : Qltb a b = false <-> (b <= a)%Q.
Proof.
  pose proof (Qltb_lt a b) as H. destruct (Qltb a b).
  - split; [discriminate|]. intros Hle.
    assert (a < b)%Q by (apply H; reflexivity). Lqa.lra.
  - split; [|reflexivity]. intros _.
    apply Qnot_lt_le. intros Hlt. apply H in Hlt. discriminate.
Qed.

(** The selection of the code: it returns the segment of the largest
    ratio, and that ratio. *)
Lemma PeakRatio_Largest (s : Search) :
  Largest s (fst (PeakRatio TransientData s)) /\
  snd (PeakRatio TransientData s) = RatioOf s (fst (PeakRatio TransientData s)).
Proof.
  unfold PeakRatio. cbv zeta.
  replace (Offset s - 1 * AnalysisLen s) with (Offset s + -1 * AnalysisLen s)
    by lia.
  fold (Level s (-1)) (Level s 0) (Level s 1) (Level s 2).
  change (Level s 0 - Level s (-1))%Q with (RatioOf s POS_L).
  change (Level s 1 - Level s 0)%Q with (RatioOf s POS_M).
  change (Level s 2 - Level s 1)%Q with (RatioOf s POS_R).
  destruct (Qltb (RatioOf s POS_L) (RatioOf s POS_M)) eqn:HM.
  - apply Qltb_lt in HM.
    destruct (Qltb (RatioOf s POS_M) (RatioOf s POS_R)) eqn:HR; cbn [fst snd].
    + apply Qltb_lt in HR. split; [|reflexivity]. unfold Largest. split; Lqa.lra.
    + apply Qltb_false in HR. split; [|reflexivity]. unfold Largest. split; Lqa.lra.
  - apply Qltb_false in HM.
    destruct (Qltb (RatioOf s POS_L) (RatioOf s POS_R)) eqn:HR; cbn [fst snd].
    + apply Qltb_lt in HR. split; [|reflexivity]. unfold Largest. split; Lqa.lra.
    + apply Qltb_false in HR. split; [|reflexivity]. unfold Largest. split; Lqa.lra.
Qed.

Lemma Largest_unique (s : Search) (p p' : RatioPos_t) :
  Largest s p -> Largest s p' -> p = p'.
Proof.
  unfold Largest. destruct p, p'; intros [H1 H2] [H3 H4];
    try reflexivity; exfalso; Lqa.lra.
Qed.

Lemma Guard_DecimationGuard (s : Search) :
  Guard s <-> DecimationGuard s (fst (PeakRatio TransientData s)).
Proof.
  unfold Guard, DecimationGuard.
  destruct (PeakRatio_Largest s) as [_ Hr]. rewrite Hr. tauto.
Qed.

Lemma Steps_Descent (s final : Search) : Steps s final -> Descent s final.
Proof.
  induction 1 as [s|s s' s'' Hstep _ IH]; [constructor|].
  apply Descent_go with (s' := s'); [|exact IH].
  destruct Hstep as [s Hg]. constructor.
  - apply PeakRatio_Largest.
  - apply Guard_DecimationGuard. exact Hg.
Qed.

(** C5 (as amended).  On segment sums with weights that are not negative
    and no sum without a weight (so that no level is a quotient by 0), the
    binary descent takes a decimation step exactly when window switching is
    enabled, the segment length still exceeds 1 (which bounds the number of
    decimations), the sub-block exceeds 64 samples and the largest of the
    three segment log-ratios exceeds ln 2 and lies in L or M; the step
    appends the bit 0 for L and 1 for M and halves segment and sub-block.
    The descent always ends, in the first state where one of these
    conditions fails, and returns the largest ratio of that state. *)
Theorem C5_descent_steps (s : Search) :
  (forall i, Weighted (TransientData i)) ->
  (forall t k, let x := SumSegment TransientData (Z.to_nat (AnalysisLen t))
                          (Offset t + k * AnalysisLen t) (mkSum 0 0) in
               (~ Sum x == 0 -> ~ SumW x == 0)%Q) /\
  (forall t p p', Largest t p -> Largest t p' -> p = p') /\
  exists final pos ratio,
    Descent_loop Switching TransientData (S (Z.to_nat (AnalysisLen s))) s
    = Some (final, pos, ratio) /\
    Descent s final /\
    Largest final pos /\ ratio = RatioOf final pos /\
    ~ DecimationGuard final pos.
Proof.
  intros Hd.
  split; [intros t k; apply Finalize_divisor; exact Hd|].
  split; [exact Largest_unique|].
  destruct (Descent_loop_spec (S (Z.to_nat (AnalysisLen s))) s ltac:(lia))
    as (final & Hrun & Hsteps & Hstop).
  destruct (PeakRatio_Largest final) as [Hlargest Hratio].
  exists final, (fst (PeakRatio TransientData final)),
         (snd (PeakRatio TransientData final)).
  split; [exact Hrun|]. split; [apply Steps_Descent; exact Hsteps|].
  split; [exact Hlargest|]. split; [exact Hratio|].
  intros Hg. apply Hstop, Guard_DecimationGuard. exact Hg.
Qed.

End BinaryDescent.

(** ** Window control: the control word *)
Section ControlWord.
Import WindowCtrl.

Lemma Steps_SubBlockSize (Switching : bool) (TransientData : Z -> Sum_t)
  (s final : Search) :
  Steps Switching TransientData s final ->
  16 <= SubBlockSize s ->
  16 <= SubBlockSize final <= SubBlockSize s.
Proof.
  induction 1 as [s|s s' s'' Hstep _ IH]; intros H16; [lia|].
  destruct Hstep as [s (_ & _ & H64 & _)].
  cbn [Halved SubBlockSize] in IH.
  rewrite Z.quot_div_nonneg in IH by lia.
  assert (32 <= SubBlockSize s / 2 <= SubBlockSize s)
    by (Z.div_mod_to_equations; lia).
  specialize (IH ltac:(lia)). lia.
Qed.

(** For a block of at least 16 samples the window controller returns a
    control word: the overlap scale in bits 0..2, the decimation flag in
    bit 3 and the decimation code from bit 4 on; the overlap of the
    transient sub-block is at least 16 samples and at most the sub-block. *)
Lemma GetWindowCtrl_returns (Switching : bool) (Modulo : Z)
  (TransientData : Z -> Sum_t) (BlockSize : Z) (RateHz : R) :
  16 <= BlockSize ->
  exists final s,
    Steps Switching TransientData (mkSearch Modulo 1 BlockSize Modulo) final /\
    Block_Transform_GetWindowCtrl Switching Modulo TransientData BlockSize RateHz
    = Some (s + 0x8 * (if Decimation final =? 1 then 0 else 1)
              + 0x10 * Decimation final) /\
    0 <= s <= 7 /\
    16 <= Z.shiftr (SubBlockSize final) s <= SubBlockSize final /\
    SubBlockSize final <= BlockSize.
Proof.
  intros H16. unfold Block_Transform_GetWindowCtrl.
  destruct (Descent_loop_spec Switching TransientData (S (Z.to_nat Modulo))
              (mkSearch Modulo 1 BlockSize Modulo) ltac:(cbn; lia))
    as (final & Hrun & Hsteps & _).
  rewrite Hrun.
  pose proof (Steps_SubBlockSize _ _ _ _ Hsteps ltac:(cbn; lia)) as Hsize.
  cbn [SubBlockSize] in Hsize.
  unfold OverlapScale.
  set (x := Log2OverlapSamplesScale _ _ _).
  pose proof (InitialOverlapScale_range x) as Hs0.
  destruct (MinimumOverlap_spec (SubBlockSize final)
              (Z.to_nat (InitialOverlapScale x)) ltac:(lia))
    as (s & Hs & Hr & Hov & _).
  rewrite Hs. exists final, s. split; [exact Hsteps|]. split; [reflexivity|].
  split; [lia|]. split; [|lia]. split; [exact Hov|apply shiftr_le; lia].
Qed.

End ControlWord.

(** Segment sums of a block that is silent up to the start of the L segment
    and steady from there on: the only rise is at the start of L. *)
Definition OnsetData : Z -> WindowCtrl.Sum_t :=
  fun i => if i <? 8 then WindowCtrl.mkSum 0 0 else WindowCtrl.mkSum 1 1.

(** C5 as stated fails.  With 8 interleaved segments per group and a block
    of 2048 samples, the descent on [OnsetData] decimates three times on
    the L side and stops with sub-blocks of 256 samples, although in the
    state it stops in the largest ratio (101) exceeds ln 2 and lies in L,
    window switching is enabled and the sub-block exceeds 64 samples: the
    segment length has reached 1. *)
Lemma C5_depth_limit_counterexample :
  WindowCtrl.Descent_loop true OnsetData 9 (WindowCtrl.mkSearch 8 1 2048 8)
  = Some (WindowCtrl.mkSearch 8 8 256 1, WindowCtrl.POS_L, 101%Q) /\
  ClaimedGuard true OnsetData (WindowCtrl.mkSearch 8 8 256 1).
Proof.
  split; [vm_compute; reflexivity|].
  unfold ClaimedGuard. split; [reflexivity|]. split; [cbn; lia|].
  split; [left; vm_compute; reflexivity|vm_compute; reflexivity].
Qed.

Lemma C5_descent_steps_witness :
  (forall t k,
     let x := WindowCtrl.SumSegment OnsetData (Z.to_nat (WindowCtrl.AnalysisLen t))
                (WindowCtrl.Offset t + k * WindowCtrl.AnalysisLen t)
                (WindowCtrl.mkSum 0 0) in
     (~ WindowCtrl.Sum x == 0 -> ~ WindowCtrl.SumW x == 0)%Q) /\
  (forall t p p', Largest OnsetData t p -> Largest OnsetData t p' -> p = p') /\
  exists final pos ratio,
    WindowCtrl.Descent_loop true OnsetData
      (S (Z.to_nat (WindowCtrl.AnalysisLen (WindowCtrl.mkSearch 8 1 2048 8))))
      (WindowCtrl.mkSearch 8 1 2048 8)
    = Some (final, pos, ratio) /\
    Descent true OnsetData (WindowCtrl.mkSearch 8 1 2048 8) final /\
    Largest OnsetData final pos /\ ratio = RatioOf OnsetData final pos /\
    ~ DecimationGuard true OnsetData final pos.
Proof.
  apply (C5_descent_steps true OnsetData (WindowCtrl.mkSearch 8 1 2048 8)).
  intros i. unfold Weighted, OnsetData.
  destruct (i <? 8); cbn [WindowCtrl.Sum WindowCtrl.SumW]; split;
    try (intros H; exact H); try discriminate.
Defined.

(** ** Psychoacoustics: the sliding critical-band window *)
Section CriticalBand.
Import Psycho.

Lemma Energy_of_range (v : R) : 1 <= Energy_of v <= 0xFFFFFFFF.
Proof.
  unfold Energy_of. set (x := (sqrt v * IZR (2 ^ 16))%R).
  destruct (Rle_dec x 1) as [Hle|Hgt]; [lia|].
  destruct (Rge_dec x (IZR (2 ^ 32))) as [Hge|Hlt]; [lia|].
  unfold to_u32. rewrite to_int_nonneg by lra.
  assert (H1 : 1 <= Int_part x) by (apply Int_part_le; simpl; lra).
  assert (H2 : (IZR (Int_part x) < IZR (2 ^ 32))%R)
    by (pose proof (Int_part_bounds x); lra).
  apply lt_IZR in H2. unfold u32. rewrite Z.mod_small by lia.
  change (2 ^ 32) with 4294967296 in H2. lia.
Qed.

Variable Ultrastable : bool.
Variables Energy EnergyNp : Z -> Z.
Variable Len : Z.

Hypothesis Energy_clamped : forall i, 1 <= Energy i <= 0xFFFFFFFF.
Hypothesis S_range : 1 <= Len < 2 ^ 31.

(** Sum of [Energy] over [count] bands from [a], and over [[a, b)]. *)
Fixpoint SumFrom (count : nat) (a : Z) : Z :=
  match count with
  | O => 0
  | S count' => Energy a + SumFrom count' (a + 1)
  end.

Definition SumRange (a b : Z) : Z := SumFrom (Z.to_nat (b - a)) a.

(** The edges of the window the code holds when it divides at band [n] are
    [Lo (n + 1)] and [Hi (n + 1)]. *)
Definition Lo (m : Z) : Z := 29 * m / 32.
Definition Hi (m : Z) : Z := Z.min (45 * m / 32) Len.

Lemma SumFrom_bounds (count : nat) (a : Z) :
  Z.of_nat count <= SumFrom count a <= Z.of_nat count * 0xFFFFFFFF.
Proof.
  revert a. induction count as [|count IH]; intros a; [cbn; lia|].
  cbn [SumFrom]. specialize (IH (a + 1)). pose proof (Energy_clamped a). lia.
Qed.

Lemma SumFrom_app (c1 c2 : nat) (a : Z) :
  SumFrom (c1 + c2) a = SumFrom c1 a + SumFrom c2 (a + Z.of_nat c1).
Proof.
  revert a. induction c1 as [|c1 IH]; intros a.
  - cbn. rewrite Z.add_0_r. reflexivity.
  - cbn [Nat.add SumFrom]. rewrite IH.
    replace (a + 1 + Z.of_nat c1) with (a + Z.of_nat (S c1)) by lia. lia.
Qed.

Lemma SumRange_empty (a b : Z) : b <= a -> SumRange a b = 0.
Proof.
  intros H. unfold SumRange. replace (Z.to_nat (b - a)) with 0%nat by lia. reflexivity.
Qed.

Lemma SumRange_first (a b : Z) :
  a < b -> SumRange a b = Energy a + SumRange (a + 1) b.
Proof.
  intros H. unfold SumRange.
  replace (Z.to_nat (b - a)) with (S (Z.to_nat (b - (a + 1)))) by lia.
  reflexivity.
Qed.

Lemma SumRange_app (a b c : Z) :
  a <= b <= c -> SumRange a c = SumRange a b + SumRange b c.
Proof.
  intros H. unfold SumRange.
  replace (Z.to_nat (c - a)) with (Z.to_nat (b - a) + Z.to_nat (c - b))%nat by lia.
  rewrite SumFrom_app. do 2 f_equal. lia.
Qed.

Lemma SumRange_bounds (a b : Z) :
  a <= b -> b - a <= SumRange a b <= (b - a) * 0xFFFFFFFF.
Proof.
  intros H. unfold SumRange.
  pose proof (SumFrom_bounds (Z.to_nat (b - a)) a). lia.
Qed.

(** The weights added by the do-while loop, when nothing wraps. *)
Lemma AddSamples_SumW (count : nat) :
  forall Old Sum SumW,
  0 <= SumW -> SumW + SumFrom count Old < 2 ^ 64 ->
  snd (AddSamples Energy EnergyNp count Old (Sum, SumW)) = SumW + SumFrom count Old.
Proof.
  induction count as [|count IH]; intros Old Sum SumW H0 Hlt.
  - cbn. lia.
  - cbn [AddSamples SumFrom] in *.
    pose proof (Energy_clamped Old). pose proof (SumFrom_bounds count (Old + 1)).
    assert (Hw : u64 (SumW + Energy Old) = SumW + Energy Old)
      by (unfold u64; apply Z.mod_small; lia).
    rewrite Hw, IH by lia. lia.
Qed.

(** The window before band [k]: the fixed-point edges stand at [29*k] and
    [45*k], and [SumW] is the weight of the bands in focus. *)
Definition Focused (k : Z) (w : Window) : Prop :=
  BandBeg w = 29 * k /\ BandEnd w = 45 * k /\ SumW w = SumRange (Lo k) (Hi k).

Lemma window_edges (k : Z) :
  0 <= k < Len ->
  Lo k <= Lo (k + 1) <= Lo k + 1 /\
  (Lo k < Lo (k + 1) -> Lo k < Hi k) /\
  Lo (k + 1) <= Hi k <= Hi (k + 1) /\
  Lo (k + 1) < Hi (k + 1) /\
  0 <= Lo k /\ Hi (k + 1) <= Len.
Proof.
  intros Hk. unfold Lo, Hi.
  Z.div_mod_to_equations. lia.
Qed.

Lemma RefocusMain_Focused (k : Z) (w : Window) :
  0 <= k < Len -> Focused k w ->
  Focused (k + 1) (RefocusMain Energy EnergyNp Len w).
Proof.
  intros Hk (Hbeg & Hend & Hsum).
  destruct (window_edges k Hk) as (Hlo & Hin & Hhi & Hne & Hlo0 & HhiS).
  unfold Focused, RefocusMain. rewrite Hbeg, Hend, Hsum.
  rewrite !Z.shiftr_div_pow2 by lia. change (2 ^ 5) with 32.
  replace (29 * k + 29) with (29 * (k + 1)) by lia.
  replace (45 * k + 45) with (45 * (k + 1)) by lia.
  fold (Lo k) (Lo (k + 1)).
  (* the weight left after the lower edge has moved *)
  set (removed := if Lo k <? Lo (k + 1)
                  then (u64 (Sum w - u64 (Energy (Lo k) * EnergyNp (Lo k))),
                        u64 (SumRange (Lo k) (Hi k) - Energy (Lo k)))
                  else (Sum w, SumRange (Lo k) (Hi k))).
  assert (Hrem : snd removed = SumRange (Lo (k + 1)) (Hi k)).
  { unfold removed. destruct (Z.ltb_spec (Lo k) (Lo (k + 1))) as [Hlt|Hge]; cbn [snd].
    - rewrite (SumRange_first (Lo k) (Hi k)) by (apply Hin; exact Hlt).
      replace (Lo (k + 1)) with (Lo k + 1) by lia.
      pose proof (SumRange_bounds (Lo k + 1) (Hi k) ltac:(specialize (Hin Hlt); lia)).
      replace (Energy (Lo k) + SumRange (Lo k + 1) (Hi k) - Energy (Lo k))
        with (SumRange (Lo k + 1) (Hi k)) by lia.
      unfold u64. apply Z.mod_small.
      assert (Hi k <= Len) by (unfold Hi; lia).
      change (2 ^ 64) with 18446744073709551616.
      change (2 ^ 31) with 2147483648 in S_range. nia.
    - replace (Lo (k + 1)) with (Lo k) by lia. reflexivity. }
  destruct removed as [Sum1 SumW1]. cbn [snd] in Hrem. subst SumW1.
  (* the weight after the upper edge has moved *)
  assert (HNew : (if 45 * (k + 1) / 32 >? Len then Len else 45 * (k + 1) / 32) = Hi (k + 1)).
  { unfold Hi. destruct (Z.gtb_spec (45 * (k + 1) / 32) Len); lia. }
  rewrite HNew.
  assert (Hbound : SumRange (Lo (k + 1)) (Hi (k + 1)) < 2 ^ 64).
  { pose proof (SumRange_bounds (Lo (k + 1)) (Hi (k + 1)) ltac:(lia)).
    change (2 ^ 64) with 18446744073709551616.
    change (2 ^ 31) with 2147483648 in S_range. nia. }
  destruct (Z.ltb_spec (45 * k / 32) (Hi (k + 1))) as [Hlt|Hge].
  - assert (HOld : 45 * k / 32 = Hi k) by (unfold Hi in *; lia).
    rewrite HOld.
    pose proof (AddSamples_SumW (Z.to_nat (Hi (k + 1) - Hi k)) (Hi k) Sum1
                  (SumRange (Lo (k + 1)) (Hi k))) as Hadd.
    fold (SumRange (Hi k) (Hi (k + 1))) in Hadd.
    pose proof (SumRange_bounds (Lo (k + 1)) (Hi k) ltac:(lia)).
    rewrite <- (SumRange_app (Lo (k + 1)) (Hi k) (Hi (k + 1))) in Hadd by lia.
    specialize (Hadd ltac:(lia) Hbound).
    destruct (AddSamples _ _ _ _ _) as [Sum2 SumW2]. cbn [snd] in Hadd.
    cbn [BandBeg BandEnd SumW]. repeat split; first [lia | exact Hadd].
  - assert (HhiEq : Hi (k + 1) = Hi k) by (unfold Hi in *; Z.div_mod_to_equations; lia).
    cbn [BandBeg BandEnd SumW]. rewrite HhiEq. repeat split; first [lia | reflexivity].
Qed.

(** The window the code divides by at band [n]: the initial one re-focused
    [n + 1] times. *)
Definition WindowAt (n : nat) : Window :=
  Nat.iter (S n) (RefocusMain Energy EnergyNp Len) (mkWindow 0 0 0 0).

Lemma Focused_initial : Focused 0 (mkWindow 0 0 0 0).
Proof.
  unfold Focused. cbn [BandBeg BandEnd SumW]. repeat split; try lia.
  rewrite SumRange_empty; [reflexivity|]. unfold Lo, Hi. cbn. lia.
Qed.

Lemma WindowAt_Focused (n : nat) :
  Z.of_nat n < Len -> Focused (Z.of_nat n + 1) (WindowAt n).
Proof.
  induction n as [|n IH]; intros Hn.
  - apply (RefocusMain_Focused 0); [lia|apply Focused_initial].
  - unfold WindowAt. rewrite Nat.iter_succ. fold (WindowAt n).
    replace (Z.of_nat (S n)) with (Z.of_nat n + 1) by lia.
    apply RefocusMain_Focused; [lia|]. apply IH. lia.
Qed.

(** In focus there is at least one band, and each weighs at least 1. *)
Lemma Focused_positive (k : Z) (w : Window) :
  0 <= k < Len -> Focused (k + 1) w ->
  Lo (k + 1) < Hi (k + 1) /\ 0 < SumW w.
Proof.
  intros Hk (_ & _ & Hsum).
  destruct (window_edges k Hk) as (_ & _ & _ & Hne & _).
  split; [exact Hne|]. rewrite Hsum.
  pose proof (SumRange_bounds (Lo (k + 1)) (Hi (k + 1)) ltac:(lia)). lia.
Qed.

(** The band loop never divides by zero and stores one value per band. *)
Lemma Bands_total (count : nat) :
  forall (k : Z) (w : Window) (nw : NoiseWindow),
  0 <= k -> k + Z.of_nat count <= Len -> Focused k w ->
  exists xs,
    Bands Ultrastable Energy EnergyNp Len count w nw = Some xs /\
    length xs = count.
Proof.
  induction count as [|count IH]; intros k w nw Hk Hend Hw.
  - exists []. split; reflexivity.
  - cbn [Bands].
    pose proof (RefocusMain_Focused k w ltac:(lia) Hw) as Hw'.
    destruct (Focused_positive k _ ltac:(lia) Hw') as [_ Hpos].
    set (w' := RefocusMain Energy EnergyNp Len w) in *.
    set (nw' := if Ultrastable then RefocusNoise EnergyNp Len nw else nw).
    unfold ExpectedLevel at 1.
    destruct (Z.eqb_spec (SumW w') 0) as [Hz|_]; [lia|].
    destruct (IH (k + 1) w' nw' ltac:(lia) ltac:(lia) Hw') as (xs & Hxs & Hlen).
    rewrite Hxs. eexists. split; [reflexivity|]. cbn [length]. rewrite Hlen. reflexivity.
Qed.

(** The bands of one sub-block, whatever the first state of the loop is
    called with: window, weight and division together. *)
Lemma CriticalBand_safe :
  (forall n, 0 <= n < Len ->
     Lo (n + 1) < Hi (n + 1) /\
     SumW (WindowAt (Z.to_nat n)) = SumRange (Lo (n + 1)) (Hi (n + 1)) /\
     0 < SumW (WindowAt (Z.to_nat n))) /\
  exists xs,
    Bands Ultrastable Energy EnergyNp Len (Z.to_nat Len)
      (mkWindow 0 0 0 0) (mkNoise 0 0 0) = Some xs /\
    length xs = Z.to_nat Len.
Proof.
  split.
  - intros n Hn.
    pose proof (WindowAt_Focused (Z.to_nat n) ltac:(lia)) as Hw.
    rewrite Z2Nat.id in Hw by lia.
    destruct (Focused_positive n _ Hn Hw) as [Hne Hpos].
    split; [exact Hne|]. split; [apply Hw|exact Hpos].
  - apply (Bands_total (Z.to_nat Len) 0); [lia|lia|apply Focused_initial].
Qed.

End CriticalBand.

(** ** Psychoacoustics: the peak and the float range *)
Section PeakAndRange.
Import Psycho.
Local Open Scope R_scope.

Lemma PeakAmp2_max (A : Z -> R) (count : nat) :
  forall (n : Z) (Norm : R),
  Norm <= PeakAmp2 A count n Norm /\
  forall i, (n <= i < n + Z.of_nat count)%Z -> A i <= PeakAmp2 A count n Norm.
Proof.
  induction count as [|count IH]; intros n Norm; cbn [PeakAmp2].
  - split; [lra|]. intros i Hi. lia.
  - destruct (Rgt_dec (A n) Norm) as [Hgt|Hle].
    + destruct (IH (n + 1)%Z (A n)) as [H1 H2]. split; [lra|].
      intros i Hi. destruct (Z.eq_dec i n) as [->|]; [exact H1|apply H2; lia].
    + destruct (IH (n + 1)%Z Norm) as [H1 H2]. split; [exact H1|].
      intros i Hi. destruct (Z.eq_dec i n) as [->|]; [lra|apply H2; lia].
Qed.

(** The peak is the start value or one of the amplitudes. *)
Lemma PeakAmp2_attained (A : Z -> R) (count : nat) :
  forall (n : Z) (Norm : R),
  PeakAmp2 A count n Norm = Norm \/
  exists i, (n <= i < n + Z.of_nat count)%Z /\ PeakAmp2 A count n Norm = A i.
Proof.
  induction count as [|count IH]; intros n Norm; cbn [PeakAmp2].
  - left. reflexivity.
  - destruct (Rgt_dec (A n) Norm) as [Hgt|Hle].
    + right. destruct (IH (n + 1)%Z (A n)) as [H|(i & Hi & H)].
      * exists n. split; [lia|exact H].
      * exists i. split; [lia|exact H].
    + destruct (IH (n + 1)%Z Norm) as [H|(i & Hi & H)].
      * left. exact H.
      * right. exists i. split; [lia|exact H].
Qed.

Lemma AnyNegative_false (A : Z -> R) (count : nat) :
  forall n : Z,
  (forall i, (n <= i < n + Z.of_nat count)%Z -> 0 <= A i) ->
  AnyNegative A count n = false.
Proof.
  induction count as [|count IH]; intros n Hpos; [reflexivity|].
  cbn [AnyNegative]. pose proof (Hpos n ltac:(lia)) as Hn.
  destruct (Rlt_dec (A n) 0) as [Hlt|_]; [exfalso; lra|].
  apply IH. intros i Hi. apply Hpos. lia.
Qed.

End PeakAndRange.

(** One sub-block of amplitudes that are not negative, with a peak above
    2^-96: the body never traps and yields one value per band. *)
Lemma MaskSubBlock_total (Ultrastable : bool) (BufferAmp2 : Z -> R)
  (SubBlockSize : Z) (Norm : R) :
  1 <= SubBlockSize < 2 ^ 31 ->
  (/ IZR (2 ^ 96) < Norm)%R ->
  (forall n, 0 <= n < SubBlockSize -> (0 <= BufferAmp2 n)%R) ->
  exists values,
    Psycho.MaskSubBlock Ultrastable BufferAmp2 SubBlockSize Norm = Some values /\
    length values = Z.to_nat SubBlockSize.
Proof.
  intros Hsize Hpeak Hpos. unfold Psycho.MaskSubBlock.
  destruct (Rle_dec Norm (/ IZR (2 ^ 96))) as [Hle|_]; [exfalso; lra|].
  rewrite AnyNegative_false by (intros i Hi; apply Hpos; lia).
  match goal with |- context [Psycho.Bands _ ?E ?ENp _ _ _ _] =>
    destruct (CriticalBand_safe Ultrastable E ENp SubBlockSize
                (fun n => Energy_of_range _) Hsize) as [_ (xs & Hxs & Hlen)]
  end.
  rewrite Hxs. eexists. split; [reflexivity|]. rewrite length_map. exact Hlen.
Qed.




(** A peak that is not zero is not enough: at 2^-96 or below the function
    has no defined result.  A block of 256 amplitudes, all 0 but one of
    2^-100, under the undivided window: 2^32/peak is infinite, the
    amplitudes of 0 give NaNs, and their conversion to [uint32_t] is
    undefined (on x86 it yields Energy[0] = 0, the divisor of band 0). *)
Lemma tiny_peak_undefined (Ultrastable : bool) (BufferAmp2 : Z -> R)
  (sb : Helper.SubBlock) (sbs : list Helper.SubBlock) (at_ : Z)
  (MaskingNp : Z -> R) :
  let Norm := Psycho.PeakAmp2 (fun n => BufferAmp2 (at_ + n))
                (Z.to_nat (Helper.SubBlockSize sb)) 0 0%R in
  (0 < Norm <= / IZR (2 ^ 96))%R ->
  Psycho.MaskSubBlocks Ultrastable BufferAmp2 (sb :: sbs) at_ MaskingNp = None.
Proof.
  intros Norm [H0 Hle]. cbn [Psycho.MaskSubBlocks]. fold Norm.
  destruct (Req_EM_T Norm 0) as [Hz|_]; [exfalso; lra|].
  unfold Psycho.MaskSubBlock.
  destruct (Rle_dec Norm (/ IZR (2 ^ 96))) as [_|Hn]; [reflexivity|contradiction].
Qed.

Lemma masking_undefined_below_float_range :
  Psycho.Block_Transform_CalculatePsychoacoustics true (fun _ => 0%R)
    (fun n => if n =? 1 then (/ IZR (2 ^ 100))%R else 0%R) 256 0x10 = None.
Proof.
  unfold Psycho.Block_Transform_CalculatePsychoacoustics.
  change (Helper.SubBlocks 256 0x10)
    with (Some [Helper.mkSubBlock 256 true]).
  apply tiny_peak_undefined.
  set (A := fun n : Z => if (0 + n =? 1)%Z then (/ IZR (2 ^ 100))%R else 0%R).
  assert (H100 : (0 < / IZR (2 ^ 100))%R)
    by (apply Rinv_0_lt_compat, IZR_lt; reflexivity).
  assert (Hle : (/ IZR (2 ^ 100) <= / IZR (2 ^ 96))%R).
  { apply Rinv_le_contravar; [apply IZR_lt; reflexivity|].
    apply IZR_le. pow2_consts. lia. }
  destruct (PeakAmp2_max A (Z.to_nat 256) 0 0%R) as [_ Hmax].
  specialize (Hmax 1 ltac:(lia)). unfold A at 1 in Hmax. cbn [Z.add Z.eqb Pos.eqb] in Hmax.
  split; [change (Helper.SubBlockSize (Helper.mkSubBlock 256 true)) with 256; lra|].
  change (Helper.SubBlockSize (Helper.mkSubBlock 256 true)) with 256.
  destruct (PeakAmp2_attained A (Z.to_nat 256) 0 0%R) as [->|(i & _ & ->)]; [lra|].
  unfold A. destruct (0 + i =? 1)%Z; lra.
Qed.

(** ** The serializer: nibbles written *)
Section Nibbles.
Import BlockEncode.

(** The writer after the nibbles of [l] have been pushed in order. *)
Definition WriteNybbles (l : list Z) (w : Writer) : Writer :=
  fold_left (fun w x => Block_Encode_WriteNybble x w) l w.

Lemma WriteNybbles_app (l1 l2 : list Z) (w : Writer) :
  WriteNybbles (l1 ++ l2) w = WriteNybbles l2 (WriteNybbles l1 w).
Proof. apply fold_left_app. Qed.

(** The bit count follows the number of nibbles, as long as [size_t] does
    not wrap. *)
Lemma WriteNybbles_Size (l : list Z) :
  forall w : Writer,
  0 <= Size w -> Size w + 4 * Z.of_nat (length l) < 2 ^ 64 ->
  Size (WriteNybbles l w) = Size w + 4 * Z.of_nat (length l).
Proof.
  induction l as [|x l IH]; intros w H0 Hlt; [cbn; lia|].
  change (WriteNybbles (x :: l) w) with (WriteNybbles l (Block_Encode_WriteNybble x w)).
  cbn [length] in Hlt.
  assert (Hx : Size (Block_Encode_WriteNybble x w) = Size w + 4).
  { cbn [Block_Encode_WriteNybble Size]. unfold u64. apply Z.mod_small. lia. }
  rewrite IH; rewrite Hx; cbn [length]; lia.
Qed.

(** *** The bytes behind the nibbles

    Nibble [i] of the finished stream: two per byte, low nibble first. *)
Definition NibbleAt (w : Writer) (i : Z) : Z :=
  let b := Buffer w (i / 2) in
  if i mod 2 =? 0 then Z.land b 0xF else Z.shiftr b 4.

Definition Zrange (n : nat) : list Z := map Z.of_nat (seq 0 n).

Lemma Zrange_In (n : nat) (z : Z) : 0 <= z < Z.of_nat n -> In z (Zrange n).
Proof.
  intros Hz. unfold Zrange. apply in_map_iff. exists (Z.to_nat z).
  split; [lia|]. apply in_seq. lia.
Qed.

(** Pushing a nibble into a byte whose upper half holds [lo]: the byte then
    holds [lo] in its lower half and the new nibble in its upper half. *)
Lemma pack_nibble (lo y : Z) :
  0 <= lo < 16 -> 0 <= y < 256 ->
  let b := (Z.lor lo (Z.shiftl y 4)) mod 256 in
  Z.shiftr b 4 = y mod 16 /\ Z.land b 0xF = lo /\ 0 <= b < 256.
Proof.
  intros Hlo Hy.
  assert (Htable :
    forallb (fun lo => forallb (fun y =>
      let b := (Z.lor lo (Z.shiftl y 4)) mod 256 in
      (Z.shiftr b 4 =? y mod 16) && (Z.land b 0xF =? lo)) (Zrange 256))
      (Zrange 16) = true) by (vm_compute; reflexivity).
  rewrite forallb_forall in Htable.
  specialize (Htable lo (Zrange_In 16 lo ltac:(lia))).
  rewrite forallb_forall in Htable.
  specialize (Htable y (Zrange_In 256 y ltac:(lia))).
  cbv zeta in Htable |- *. apply andb_true_iff in Htable.
  destruct Htable as [H1 H2]. apply Z.eqb_eq in H1, H2.
  split; [exact H1|]. split; [exact H2|]. apply Z.mod_pos_bound. lia.
Qed.

(** [Packed l w]: the writer [w] holds the nibbles of [l]; when their number
    is odd, the last one still sits in the upper half of the byte under
    [Dst]. *)
Definition Packed (l : list Z) (w : Writer) : Prop :=
  Size w = 4 * Z.of_nat (length l) /\
  Dst w = Z.of_nat (length l) / 2 /\
  (forall j, 0 <= Buffer w j < 256) /\
  (forall i, 0 <= i < Z.of_nat (length l) ->
     (if (i =? Z.of_nat (length l) - 1) && (Z.of_nat (length l) mod 2 =? 1)
      then Z.shiftr (Buffer w (i / 2)) 4
      else NibbleAt w i) = nth (Z.to_nat i) l 0 mod 16).

Ltac eqb_true a b :=
  replace (a =? b) with true
    by (symmetry; apply Z.eqb_eq; Z.div_mod_to_equations; lia).
Ltac eqb_false a b :=
  replace (a =? b) with false
    by (symmetry; apply Z.eqb_neq; Z.div_mod_to_equations; lia).

Ltac eqb_true_in a b H :=
  replace (a =? b) with true in H
    by (symmetry; apply Z.eqb_eq; Z.div_mod_to_equations; lia).
Ltac eqb_false_in a b H :=
  replace (a =? b) with false in H
    by (symmetry; apply Z.eqb_neq; Z.div_mod_to_equations; lia).

Lemma Packed_push (l : list Z) (x : Z) (w : Writer) :
  4 * Z.of_nat (length l) + 4 < 2 ^ 64 ->
  Packed l w -> Packed (l ++ [x]) (Block_Encode_WriteNybble x w).
Proof.
  intros Hmax (HSize & HDst & Hbytes & Hnib).
  set (n := Z.of_nat (length l)) in *.
  assert (Hlen : Z.of_nat (length (l ++ [x])) = n + 1)
    by (rewrite length_app; cbn [length]; lia).
  assert (Hn0 : 0 <= n) by lia.
  assert (Hxm : x mod 256 mod 16 = x mod 16)
    by (Z.div_mod_to_equations; lia).
  assert (Hx256 : 0 <= x mod 256 < 256) by (apply Z.mod_pos_bound; lia).
  pose proof (Hbytes (Dst w)) as Hb.
  assert (Hlo : 0 <= Z.shiftr (Buffer w (Dst w)) 4 < 16).
  { rewrite Z.shiftr_div_pow2 by lia. change (2 ^ 4) with 16.
    Z.div_mod_to_equations. lia. }
  destruct (pack_nibble _ _ Hlo Hx256) as (Hhi & Hlow & Hbyte).
  cbv zeta in Hhi, Hlow, Hbyte.
  set (b' := (Z.lor (Z.shiftr (Buffer w (Dst w)) 4) (Z.shiftl (x mod 256) 4)) mod 256) in *.
  rewrite Hxm in Hhi.
  assert (HSize' : Size (Block_Encode_WriteNybble x w) = 4 * (n + 1)).
  { cbn [Block_Encode_WriteNybble Size]. unfold u64.
    rewrite HSize, Z.mod_small by lia. lia. }
  assert (HDst' : Dst (Block_Encode_WriteNybble x w) = (n + 1) / 2).
  { cbn [Block_Encode_WriteNybble Dst]. fold (Size (Block_Encode_WriteNybble x w)).
    change (u64 (Size w + 4)) with (Size (Block_Encode_WriteNybble x w)).
    rewrite HSize', HDst.
    destruct (Z.eqb_spec (4 * (n + 1) mod 8) 0); Z.div_mod_to_equations; lia. }
  assert (HBuf' : forall j, Buffer (Block_Encode_WriteNybble x w) j
                            = if j =? n / 2 then b' else Buffer w j).
  { intros j. rewrite <- HDst. reflexivity. }
  rewrite HDst in Hlow.
  unfold Packed. rewrite Hlen, HSize', HDst'.
  split; [reflexivity|]. split; [reflexivity|]. split.
  { intros j. rewrite HBuf'. destruct (j =? n / 2); [exact Hbyte|apply Hbytes]. }
  intros i Hi.
  assert (Hlast : nth (Z.to_nat n) (l ++ [x]) 0 = x).
  { rewrite app_nth2 by lia. replace (Z.to_nat n - length l)%nat with 0%nat by lia.
    reflexivity. }
  unfold NibbleAt. rewrite !HBuf'.
  replace (n + 1 - 1) with n by lia.
  destruct (Z.eq_dec (n mod 2) 0) as [Heven|Hodd].
  - (* an even number of nibbles so far: the new one waits in a fresh byte *)
    eqb_true ((n + 1) mod 2) 1. rewrite andb_true_r.
    destruct (Z.eq_dec i n) as [Heq|Hne].
    + subst i. rewrite Hlast. eqb_true n n. eqb_true (n / 2) (n / 2). exact Hhi.
    + eqb_false i n. rewrite app_nth1 by lia. specialize (Hnib i ltac:(lia)).
      eqb_false_in (n mod 2) 1 Hnib. rewrite andb_false_r in Hnib.
      unfold NibbleAt in Hnib. eqb_false (i / 2) (n / 2). exact Hnib.
  - (* an odd number: the new nibble completes the byte of the waiting one *)
    eqb_false ((n + 1) mod 2) 1. rewrite andb_false_r.
    destruct (Z.eq_dec i n) as [Heq|Hne].
    + subst i. rewrite Hlast. eqb_false (n mod 2) 0. eqb_true (n / 2) (n / 2).
      exact Hhi.
    + rewrite app_nth1 by lia. specialize (Hnib i ltac:(lia)).
      eqb_true_in (n mod 2) 1 Hnib. rewrite andb_true_r in Hnib.
      destruct (Z.eq_dec i (n - 1)) as [Heq|Hne'].
      * subst i. eqb_true_in (n - 1) (n - 1) Hnib.
        eqb_true ((n - 1) mod 2) 0. eqb_true ((n - 1) / 2) (n / 2).
        rewrite Hlow.
        replace ((n - 1) / 2) with (n / 2) in Hnib by (Z.div_mod_to_equations; lia).
        exact Hnib.
      * eqb_false_in i (n - 1) Hnib.
        unfold NibbleAt in Hnib. eqb_false (i / 2) (n / 2). exact Hnib.
Qed.

Lemma Packed_WriteNybbles (l : list Z) :
  forall (l0 : list Z) (w : Writer),
  4 * Z.of_nat (length (l0 ++ l)) < 2 ^ 64 ->
  Packed l0 w -> Packed (l0 ++ l) (WriteNybbles l w).
Proof.
  induction l as [|x l IH]; intros l0 w Hmax Hw.
  - rewrite app_nil_r. exact Hw.
  - change (WriteNybbles (x :: l) w) with (WriteNybbles l (Block_Encode_WriteNybble x w)).
    replace (l0 ++ x :: l) with ((l0 ++ [x]) ++ l) in * by (rewrite <- app_assoc; reflexivity).
    apply IH; [exact Hmax|]. apply Packed_push; [|exact Hw].
    rewrite !length_app in Hmax. cbn [length] in Hmax. lia.
Qed.

(** The finished stream: after the final shift, nibble [i] of the buffer is
    the [i]-th value pushed, reduced to four bits, whatever the buffer held
    before. *)
Lemma nibbles_of_stream (DstBuffer : Z -> Z) (l : list Z) (i : Z) :
  (forall j, 0 <= DstBuffer j < 256) ->
  4 * Z.of_nat (length l) < 2 ^ 64 ->
  0 <= i < Z.of_nat (length l) ->
  NibbleAt (ShiftFinalByte (WriteNybbles l (mkWriter DstBuffer 0 0))) i
  = nth (Z.to_nat i) l 0 mod 16.
Proof.
  intros Hbuf Hmax Hi.
  assert (H0 : Packed [] (mkWriter DstBuffer 0 0)).
  { unfold Packed. cbn. repeat split; try apply Hbuf; intros; lia. }
  destruct (Packed_WriteNybbles l [] _ Hmax H0) as (HSize & HDst & Hbytes & Hnib).
  cbn [app] in *. set (w := WriteNybbles l _) in *. set (n := Z.of_nat (length l)) in *.
  specialize (Hnib i Hi). rewrite <- Hnib. unfold ShiftFinalByte.
  destruct (Z.eqb_spec (Size w mod 8) 0) as [Hev|Hodd].
  - destruct (Z.eqb_spec (n mod 2) 1) as [Hn1|_];
      [rewrite HSize in Hev; Z.div_mod_to_equations; lia|].
    rewrite andb_false_r. reflexivity.
  - assert (Hn1 : n mod 2 = 1) by (rewrite HSize in Hodd; Z.div_mod_to_equations; lia).
    rewrite Hn1. cbn [Z.eqb Pos.eqb]. rewrite andb_true_r.
    unfold NibbleAt. cbn [Buffer].
    destruct (Z.eqb_spec i (n - 1)) as [->|Hne].
    + destruct (Z.eqb_spec ((n - 1) / 2) (Dst w)) as [Hd|Hd];
        [|rewrite HDst in Hd; Z.div_mod_to_equations; lia].
      destruct (Z.eqb_spec ((n - 1) mod 2) 0) as [_|Hx];
        [|Z.div_mod_to_equations; lia].
      rewrite Hd. pose proof (Hbytes (Dst w)) as Hb.
      change 0xF with (Z.ones 4). rewrite Z.land_ones by lia.
      rewrite Z.shiftr_div_pow2 by lia. change (2 ^ 4) with 16.
      apply Z.mod_small. Z.div_mod_to_equations. lia.
    + destruct (Z.eqb_spec (i / 2) (Dst w)) as [Hd|_];
        [rewrite HDst in Hd; Z.div_mod_to_equations; lia|reflexivity].
Qed.

(** [puts l c]: the coder after pushing the nibbles of [l]. *)
Definition puts (l : list Z) (c : Coder) : Coder :=
  mkCoder (Key c) (NextNz c) (LastNz c) (NxtQuantBand c) (CurQuantBand c)
          (CurQuantEnd c) (nNzCoded c) (WriteNybbles l (Out c)).

Lemma put_puts (x : Z) (c : Coder) : put x c = puts [x] c.
Proof. reflexivity. Qed.

Lemma puts_puts (l1 l2 : list Z) (c : Coder) :
  puts l2 (puts l1 c) = puts (l1 ++ l2) c.
Proof. unfold puts. cbn. rewrite WriteNybbles_app. reflexivity. Qed.

End Nibbles.

(** ** The serializer: zero runs *)
Section ZeroRunCodes.
Import BlockEncode.

(** The escape codes of the format and the run lengths they decode to:
    [8,x] with x in 1..B is a run of 4 + 2*(x-1) zeros, [8,x,Y] with x in
    C..F is a run of 26 + 2*(16*(x-C)+Y) zeros. *)
Inductive RunCode : list Z -> Z -> Prop :=
| ShortRun x : 0x1 <= x <= 0xB -> RunCode [0x8; x] (4 + 2 * (x - 1))
| LongRun x y :
    0xC <= x <= 0xF -> 0x0 <= y <= 0xF ->
    RunCode [0x8; x; y] (26 + 2 * (16 * (x - 0xC) + y)).

(** [EmitsRuns zR l r]: the nibbles [l] code a run of [zR] zeros down to a
    residue of [r]: while 4 or more remain, a short escape if fewer than 26
    remain and a long one otherwise, never longer than what remains. *)
Inductive EmitsRuns : Z -> list Z -> Z -> Prop :=
| Emits_done zR : zR < 4 -> EmitsRuns zR [] zR
| Emits_short zR x len l r :
    4 <= zR < 26 -> RunCode [0x8; x] len -> len <= zR ->
    EmitsRuns (zR - len) l r -> EmitsRuns zR ([0x8; x] ++ l) r
| Emits_long zR x y len l r :
    26 <= zR -> RunCode [0x8; x; y] len -> len <= zR ->
    EmitsRuns (zR - len) l r -> EmitsRuns zR ([0x8; x; y] ++ l) r.

(** The decoded zeros of a sequence of escape codes. *)
Inductive Runs : list Z -> list Z -> Prop :=
| Runs_nil : Runs [] []
| Runs_cons code len l lens :
    RunCode code len -> Runs l lens -> Runs (code ++ l) (len :: lens).

Definition Total (lens : list Z) : Z := fold_right Z.add 0 lens.

Lemma RunCode_length (code : list Z) (len : Z) :
  RunCode code len ->
  4 <= len <= 152 /\ Z.of_nat (length code) <= len /\
  (length code = 2%nat -> 4 <= len <= 24) /\
  (length code = 3%nat -> 26 <= len <= 152).
Proof. destruct 1; cbn [length]; repeat split; lia. Qed.

(** What is emitted decodes to runs of 4 to 152 zeros that, with the
    residue, add up to the run. *)
Lemma EmitsRuns_decode (zR : Z) (l : list Z) (r : Z) :
  EmitsRuns zR l r ->
  exists lens,
    Runs l lens /\ Forall (fun len => 4 <= len <= 152) lens /\
    Total lens + r = zR /\ r < 4 /\ (0 <= zR -> 0 <= r) /\
    Z.of_nat (length l) <= zR - r.
Proof.
  induction 1 as [zR Hz|zR x len l r Hz Hc Hlen _ IH|zR x y len l r Hz Hc Hlen _ IH].
  - exists []. repeat split; try constructor; cbn; lia.
  - destruct IH as (lens & Hr & Hall & Hsum & Hres & Hpos & Hcnt).
    pose proof (RunCode_length _ _ Hc) as (Hrange & Hn & _).
    exists (len :: lens). repeat split.
    + constructor; assumption.
    + constructor; assumption.
    + cbn [Total fold_right]. fold (Total lens). lia.
    + exact Hres.
    + intros. apply Hpos. lia.
    + rewrite length_app. cbn [length] in *. lia.
  - destruct IH as (lens & Hr & Hall & Hsum & Hres & Hpos & Hcnt).
    pose proof (RunCode_length _ _ Hc) as (Hrange & Hn & _).
    exists (len :: lens). repeat split.
    + constructor; assumption.
    + constructor; assumption.
    + cbn [Total fold_right]. fold (Total lens). lia.
    + exact Hres.
    + intros. apply Hpos. lia.
    + rewrite length_app. cbn [length] in *. lia.
Qed.

(** The coder with [NextNz] moved on by [n]. *)
Definition advance (n : Z) (c : Coder) : Coder :=
  mkCoder (Key c) (NextNz c + n) (LastNz c) (NxtQuantBand c) (CurQuantBand c)
          (CurQuantEnd c) (nNzCoded c) (Out c).

Lemma advance_puts_step (n1 n2 : Z) (l1 l2 : list Z) (c : Coder) :
  advance n2 (puts l2 (advance n1 (puts l1 c))) = advance (n1 + n2) (puts (l1 ++ l2) c).
Proof.
  unfold advance, puts. cbn. rewrite WriteNybbles_app. f_equal. lia.
Qed.

Lemma nibble_split (n : Z) :
  0 <= n <= 0x3F ->
  0xC <= 0xC + Z.shiftr n 4 <= 0xF /\ 0 <= Z.land n 0xF <= 0xF /\
  16 * (0xC + Z.shiftr n 4 - 0xC) + Z.land n 0xF = n.
Proof.
  intros Hn. rewrite Z.shiftr_div_pow2 by lia. change (2 ^ 4) with 16.
  assert (Hland : Z.land n 0xF = n mod 16)
    by (change 0xF with (Z.ones 4); rewrite Z.land_ones by lia; reflexivity).
  rewrite Hland. Z.div_mod_to_equations. lia.
Qed.

(** The zero-run loop ends and emits escape codes as the format describes
    them, leaving fewer than 4 zeros. *)
Lemma ZeroRuns_spec (fuel : nat) :
  forall (zR : Z) (c : Coder),
  0 <= zR -> (Z.to_nat zR <= fuel)%nat ->
  0 <= NextNz c -> NextNz c + zR < 2 ^ 64 ->
  exists l r,
    ZeroRuns fuel zR c = Some (advance (zR - r) (puts l c)) /\
    EmitsRuns zR l r.
Proof.
  induction fuel as [|fuel IH]; intros zR c Hz Hfuel Hn Hmax.
  - exists [], zR. assert (zR = 0) by lia. subst zR. cbn. split; [|constructor; lia].
    unfold advance, puts. cbn. destruct c; cbn. f_equal. f_equal. lia.
  - cbn [ZeroRuns]. destruct (Z.ltb_spec zR 4) as [Hlt|Hge].
    { exists [], zR. split; [|constructor; lia].
      unfold advance, puts. cbn. destruct c; cbn. f_equal. f_equal. lia. }
    assert (H64 : 2 ^ 64 = 18446744073709551616) by reflexivity.
    destruct (Z.ltb_spec zR 26) as [Hshort|Hlong].
    + set (x := (zR - 2) / 2).
      assert (Hx : 1 <= x <= 0xB /\ 4 <= x * 2 + 2 <= zR /\ zR - (x * 2 + 2) <= 1)
        by (unfold x; Z.div_mod_to_equations; lia).
      destruct Hx as (Hx & Hlen & Hrest).
      rewrite !put_puts, puts_puts. cbn [app].
      replace (u64 (zR - (x * 2 + 2))) with (zR - (x * 2 + 2))
        by (unfold u64; rewrite Z.mod_small; lia).
      match goal with |- context [ZeroRuns fuel _ ?c'] =>
        replace c' with (advance (x * 2 + 2) (puts [0x8; x] c))
          by (unfold advance, puts; cbn; f_equal; unfold u64;
              rewrite Z.mod_small; lia) end.
      destruct (IH (zR - (x * 2 + 2)) (advance (x * 2 + 2) (puts [0x8; x] c)))
        as (l & r & Hrun & Hem); try (cbn; lia).
      exists ([0x8; x] ++ l), r. split.
      * rewrite Hrun, advance_puts_step. f_equal. f_equal. lia.
      * apply Emits_short with (len := 4 + 2 * (x - 1)); try lia.
        -- constructor. lia.
        -- replace (4 + 2 * (x - 1)) with (x * 2 + 2) by lia. exact Hem.
    + set (n := if (zR - 26) / 2 >? 0x3F then 0x3F else (zR - 26) / 2).
      assert (Hn0 : 0 <= n <= 0x3F /\ 26 <= n * 2 + 26 <= zR).
      { unfold n. destruct (Z.gtb_spec ((zR - 26) / 2) 0x3F);
          Z.div_mod_to_equations; lia. }
      destruct Hn0 as (Hn0 & Hlen).
      destruct (nibble_split n Hn0) as (Hx & Hy & Hxy).
      rewrite !put_puts, !puts_puts. cbn [app].
      replace (u64 (zR - (n * 2 + 26))) with (zR - (n * 2 + 26))
        by (unfold u64; rewrite Z.mod_small; lia).
      match goal with |- context [ZeroRuns fuel _ ?c'] =>
        replace c' with
          (advance (n * 2 + 26) (puts [0x8; 0xC + Z.shiftr n 4; Z.land n 0xF] c))
          by (unfold advance, puts; cbn; f_equal; unfold u64;
              rewrite Z.mod_small; lia) end.
      destruct (IH (zR - (n * 2 + 26))
                  (advance (n * 2 + 26)
                     (puts [0x8; 0xC + Z.shiftr n 4; Z.land n 0xF] c)))
        as (l & r & Hrun & Hem); try (cbn; lia).
      exists ([0x8; 0xC + Z.shiftr n 4; Z.land n 0xF] ++ l), r. split.
      * rewrite Hrun, advance_puts_step. f_equal. f_equal. lia.
      * apply Emits_long
          with (len := 26 + 2 * (16 * (0xC + Z.shiftr n 4 - 0xC) + Z.land n 0xF));
          try lia.
        -- constructor; lia.
        -- rewrite Hxy. replace (26 + 2 * n) with (n * 2 + 26) by lia. exact Hem.
Qed.

End ZeroRunCodes.

(** ** The serializer: the coding loops *)
Section Serializer.
Import BlockEncode.

Variable QUANTIZER_UNUSED : Z.
Variable IntLog2 : Z -> Z.
Variables (nChan BlockSize nQuants nNzBands : Z).
Variable TransformBuffer : Z -> Z -> Q.
Variable QuantsBw : Z -> Z.
Variable Quants : Z -> Z -> Z.
Variable Keys : Z -> Z.

Local Abbreviation Quantized_ := (Quantized TransformBuffer Quants).
Local Abbreviation CodeCoef_ := (CodeCoef TransformBuffer QuantsBw Quants).
Local Abbreviation CodeCoefs_ := (CodeCoefs TransformBuffer QuantsBw Quants).
Local Abbreviation CodeKeys_ :=
  (CodeKeys IntLog2 BlockSize nNzBands TransformBuffer QuantsBw Quants Keys).
Local Abbreviation SkipUnused_ := (SkipUnused QUANTIZER_UNUSED nQuants QuantsBw Quants).
Local Abbreviation ExtendLimit_ := (ExtendLimit QUANTIZER_UNUSED nQuants QuantsBw Quants).
Local Abbreviation CodeBands_ :=
  (CodeBands QUANTIZER_UNUSED IntLog2 BlockSize nQuants nNzBands TransformBuffer
             QuantsBw Quants Keys).
Local Abbreviation CodeChannel_ :=
  (CodeChannel QUANTIZER_UNUSED IntLog2 BlockSize nQuants nNzBands TransformBuffer
               QuantsBw Quants Keys).
Local Abbreviation CodeChannels_ :=
  (CodeChannels QUANTIZER_UNUSED IntLog2 BlockSize nQuants nNzBands TransformBuffer
                QuantsBw Quants Keys).

Lemma Quantized_range (Chan Band QBand : Z) :
  -7 <= Quantized_ Chan Band QBand <= 7.
Proof.
  unfold Quantized.
  set (Qn := if Quants Chan QBand =? 0 then _ else _).
  destruct (Z.ltb_spec Qn (-7)); destruct (Z.gtb_spec (-7) 7);
    destruct (Z.gtb_spec Qn 7); lia.
Qed.

(** [CoefsFrom Chan p l]: the values of [l] are quantized coefficients of
    the bands [p, p+1, ...], in this order. *)
Inductive CoefsFrom (Chan : Z) : Z -> list Z -> Prop :=
| CoefsFrom_nil p : CoefsFrom Chan p []
| CoefsFrom_cons p q l :
    CoefsFrom Chan (p + 1) l ->
    CoefsFrom Chan p (Quantized_ Chan p q :: l).

(** The coefficient loop pushes one quantized coefficient for every band
    from [NextNz] to [tBand], both included. *)
Lemma CodeCoefs_spec (Chan tBand : Z) (fuel : nat) :
  forall c : Coder,
  0 <= NextNz c <= tBand -> tBand + 1 < 2 ^ 64 ->
  (Z.to_nat (tBand - NextNz c) < fuel)%nat ->
  exists l c',
    CodeCoefs_ Chan fuel tBand c = Some c' /\
    Out c' = WriteNybbles l (Out c) /\
    Z.of_nat (length l) = tBand - NextNz c + 1 /\
    CoefsFrom Chan (NextNz c) l /\
    NextNz c' = tBand + 1 /\ Key c' = Key c /\ LastNz c' = LastNz c /\
    NxtQuantBand c' = NxtQuantBand c.
Proof.
  induction fuel as [|fuel IH]; intros c Hn Hmax Hfuel; [lia|].
  cbn [CodeCoefs].
  set (c1 := CodeCoef_ Chan c).
  assert (Hc1 : exists q, Out c1 = WriteNybbles [Quantized_ Chan (NextNz c) q] (Out c) /\
                NextNz c1 = NextNz c /\ Key c1 = Key c /\ LastNz c1 = LastNz c /\
                NxtQuantBand c1 = NxtQuantBand c).
  { unfold c1, CodeCoef. destruct (NextNz c >=? CurQuantEnd c); cbn;
      eexists; repeat split; reflexivity. }
  destruct Hc1 as (q & Hout & HNext & HKey & HLast & HNxt).
  cbn [NextNz]. rewrite HNext.
  assert (Hu : u64 (NextNz c + 1) = NextNz c + 1)
    by (unfold u64; apply Z.mod_small; lia).
  rewrite Hu.
  destruct (Z.leb_spec (NextNz c + 1) tBand) as [Hle|Hgt].
  - match goal with |- context [CodeCoefs _ _ _ _ fuel tBand ?c2] =>
      destruct (IH c2) as (l & c' & Hrun & Hout' & Hlen & Hco & Hfields) end;
      try (cbn [NextNz]; lia).
    cbn [NextNz Out Key LastNz NxtQuantBand] in *.
    exists (Quantized_ Chan (NextNz c) q :: l), c'.
    split; [exact Hrun|]. split.
    { rewrite Hout', Hout. reflexivity. }
    split; [cbn [length]; lia|]. split; [constructor; exact Hco|].
    destruct Hfields as (-> & -> & -> & ->). repeat split; assumption.
  - eexists [Quantized_ Chan (NextNz c) q], _. split; [reflexivity|].
    cbn [NextNz Out Key LastNz NxtQuantBand length].
    split; [exact Hout|]. split; [lia|]. split; [repeat constructor|].
    repeat split; try assumption. lia.
Qed.

(** *** The state the loops rely on

    [Block_Encode] takes its keys and quantizers from
    [Block_Encode_BuildQuants] and [Analysis_KeysSort].  What it relies on,
    as its comments say: the keys are sorted by channel and band, a
    quantizer band is unused exactly when no key falls into it, and the
    quantizer bands lie inside the block. *)

Definition KeyBand (k : Z) : Z := Z.land (Keys k) (BlockSize - 1).
Definition KeyChan (k : Z) : Z := Z.shiftr (Keys k) (IntLog2 BlockSize).
Definition Used (Chan q : Z) : Prop := Quants Chan q <> QUANTIZER_UNUSED.

(** First band of quantizer band [q]. *)
Fixpoint StartN (q : nat) : Z :=
  match q with
  | O => 0
  | S q' => StartN q' + QuantsBw (Z.of_nat q')
  end.
Definition Start (q : Z) : Z := StartN (Z.to_nat q).

(** Order of the sort: by channel, then by band. *)
Definition Before (c1 b1 c2 b2 : Z) : Prop := c1 < c2 \/ (c1 = c2 /\ b1 < b2).

Record WellFormed : Prop := mkWellFormed
  { wf_sizes : 0 <= nChan /\ 1 <= BlockSize /\ 0 <= nQuants /\ 0 <= nNzBands
  ; wf_no_wrap :
      BlockSize < 2 ^ 62 /\ nNzBands < 2 ^ 62 /\
      4 * nChan * (nQuants + BlockSize) < 2 ^ 64
  ; wf_width : forall q, 0 <= q < nQuants -> 1 <= QuantsBw q
  ; wf_total : Start nQuants <= BlockSize
  ; wf_sorted :
      forall k, 0 <= k -> k + 1 < nNzBands ->
      Before (KeyChan k) (KeyBand k) (KeyChan (k + 1)) (KeyBand (k + 1))
  ; wf_key_in_used :
      forall k, 0 <= k < nNzBands ->
      0 <= KeyChan k /\
      exists q, 0 <= q < nQuants /\ Start q <= KeyBand k < Start (q + 1) /\
                Used (KeyChan k) q
  ; wf_used_has_key :
      forall Chan q, 0 <= Chan < nChan -> 0 <= q < nQuants -> Used Chan q ->
      exists k, 0 <= k < nNzBands /\ KeyChan k = Chan /\
                Start q <= KeyBand k < Start (q + 1)
  }.

Hypothesis WF : WellFormed.

Lemma Start_succ (q : Z) : 0 <= q -> Start (q + 1) = Start q + QuantsBw q.
Proof.
  intros Hq. unfold Start. replace (Z.to_nat (q + 1)) with (S (Z.to_nat q)) by lia.
  cbn [StartN]. rewrite Z2Nat.id by lia. reflexivity.
Qed.

Lemma Start_0 : Start 0 = 0.
Proof. reflexivity. Qed.

Lemma Start_mono_nat (d : nat) (q : Z) :
  0 <= q -> q + Z.of_nat d <= nQuants ->
  Start q + Z.of_nat d <= Start (q + Z.of_nat d).
Proof.
  intros Hq. induction d as [|d IH]; intros Hd.
  - cbn [Z.of_nat]. rewrite !Z.add_0_r. lia.
  - replace (q + Z.of_nat (S d)) with (q + Z.of_nat d + 1) by lia.
    rewrite Start_succ by lia.
    pose proof (wf_width WF (q + Z.of_nat d) ltac:(lia)). specialize (IH ltac:(lia)). lia.
Qed.

Lemma Start_mono (q q' : Z) :
  0 <= q <= q' -> q' <= nQuants -> Start q + (q' - q) <= Start q'.
Proof.
  intros Hq Hq'. pose proof (Start_mono_nat (Z.to_nat (q' - q)) q ltac:(lia)) as H.
  rewrite Z2Nat.id in H by lia. replace (q + (q' - q)) with q' in H by lia.
  apply H. lia.
Qed.

Lemma Start_bounds (q : Z) : 0 <= q <= nQuants -> 0 <= Start q <= BlockSize.
Proof.
  intros Hq. pose proof (Start_mono 0 q ltac:(lia) ltac:(lia)) as H1.
  pose proof (Start_mono q nQuants ltac:(lia) ltac:(lia)) as H2.
  pose proof (wf_total WF). rewrite Start_0 in H1. lia.
Qed.

Lemma nQuants_le_BlockSize : nQuants <= BlockSize.
Proof.
  pose proof (wf_sizes WF) as (_ & _ & Hq & _).
  pose proof (Start_mono 0 nQuants ltac:(lia) ltac:(lia)) as H.
  pose proof (wf_total WF). rewrite Start_0 in H. lia.
Qed.

(** A band lies in one quantizer band only. *)
Lemma band_unique (b q q' : Z) :
  0 <= q < nQuants -> 0 <= q' < nQuants ->
  Start q <= b < Start (q + 1) -> Start q' <= b < Start (q' + 1) -> q = q'.
Proof.
  intros Hq Hq' Hb Hb'.
  destruct (Z.lt_trichotomy q q') as [Hlt|[Heq|Hgt]]; [|exact Heq|].
  - pose proof (Start_mono (q + 1) q' ltac:(lia) ltac:(lia)). lia.
  - pose proof (Start_mono (q' + 1) q ltac:(lia) ltac:(lia)). lia.
Qed.

Lemma Before_trans (c1 b1 c2 b2 c3 b3 : Z) :
  Before c1 b1 c2 b2 -> Before c2 b2 c3 b3 -> Before c1 b1 c3 b3.
Proof. unfold Before. lia. Qed.

Lemma sorted_lt (d : nat) (j : Z) :
  0 <= j -> j + Z.of_nat (S d) < nNzBands ->
  Before (KeyChan j) (KeyBand j)
         (KeyChan (j + Z.of_nat (S d))) (KeyBand (j + Z.of_nat (S d))).
Proof.
  intros Hj. induction d as [|d IH]; intros Hd.
  - apply (wf_sorted WF); lia.
  - eapply Before_trans; [apply IH; lia|].
    replace (j + Z.of_nat (S (S d))) with (j + Z.of_nat (S d) + 1) by lia.
    apply (wf_sorted WF); lia.
Qed.

Lemma sorted (j j' : Z) :
  0 <= j < j' -> j' < nNzBands ->
  Before (KeyChan j) (KeyBand j) (KeyChan j') (KeyBand j').
Proof.
  intros Hj Hj'.
  pose proof (sorted_lt (Z.to_nat (j' - j - 1)) j ltac:(lia)) as H.
  replace (j + Z.of_nat (S (Z.to_nat (j' - j - 1)))) with j' in H by lia.
  apply H. lia.
Qed.

(** [Cursor Chan P K]: the keys before index [K] are exactly the keys that
    come before band [P] of channel [Chan]. *)
Definition Cursor (Chan P K : Z) : Prop :=
  0 <= K <= nNzBands /\
  (forall j, 0 <= j < K -> Before (KeyChan j) (KeyBand j) Chan P) /\
  (forall j, K <= j < nNzBands -> ~ Before (KeyChan j) (KeyBand j) Chan P).

Lemma Cursor_initial : Cursor 0 0 0.
Proof.
  pose proof (wf_sizes WF). split; [lia|]. split; [intros j Hj; lia|].
  intros j Hj. destruct (wf_key_in_used WF j ltac:(lia)) as (Hc & q & Hq & Hb & _).
  pose proof (Start_bounds q ltac:(lia)). unfold Before. lia.
Qed.

(** Moving over an unused quantizer band passes no key. *)
Lemma Cursor_skip (Chan q K : Z) :
  0 <= q < nQuants -> ~ Used Chan q ->
  Cursor Chan (Start q) K -> Cursor Chan (Start (q + 1)) K.
Proof.
  intros Hq Hun (HK & Hlo & Hhi).
  pose proof (wf_width WF q Hq) as Hw. pose proof (Start_succ q ltac:(lia)) as Hs.
  split; [exact HK|]. split.
  - intros j Hj. specialize (Hlo j Hj). unfold Before in *. lia.
  - intros j Hj HB. specialize (Hhi j Hj).
    destruct (wf_key_in_used WF j ltac:(lia)) as (_ & q' & Hq' & Hb & Hu).
    assert (Hin : KeyChan j = Chan /\ Start q <= KeyBand j < Start (q + 1))
      by (unfold Before in *; lia).
    destruct Hin as [Hc Hin].
    assert (q' = q) by (eapply band_unique; eauto). subst q'.
    rewrite Hc in Hu. contradiction.
Qed.

(** A used band holds a key that has not been passed. *)
Lemma Cursor_key_left (Chan q K : Z) :
  0 <= Chan < nChan -> 0 <= q < nQuants -> Used Chan q ->
  Cursor Chan (Start q) K -> K < nNzBands.
Proof.
  intros HC Hq Hu (HK & Hlo & _).
  destruct (wf_used_has_key WF Chan q HC Hq Hu) as (k & Hk & Hc & Hb).
  destruct (Z_lt_dec k K) as [Hlt|Hge]; [|lia].
  specialize (Hlo k ltac:(lia)). unfold Before in Hlo. lia.
Qed.

(** At the end of a channel every key of the channel has been passed. *)
Lemma Cursor_next_channel (Chan K : Z) :
  Cursor Chan (Start nQuants) K -> Cursor (Chan + 1) 0 K.
Proof.
  intros (HK & Hlo & Hhi). split; [exact HK|]. split.
  - intros j Hj. specialize (Hlo j Hj). unfold Before in *. lia.
  - intros j Hj HB. specialize (Hhi j Hj).
    destruct (wf_key_in_used WF j ltac:(lia)) as (_ & q & Hq & Hb & _).
    pose proof (Start_mono (q + 1) nQuants ltac:(lia) ltac:(lia)).
    pose proof (Start_bounds q ltac:(lia)).
    unfold Before in *. lia.
Qed.

Lemma Cursor_stop_band (Chan P L K : Z) :
  Cursor Chan P K -> K < nNzBands -> P <= L -> L <= KeyBand K ->
  Cursor Chan L K.
Proof.
  intros (HK & Hlo & Hhi) HKn HP HL. split; [exact HK|]. split.
  - intros j Hj. specialize (Hlo j Hj). unfold Before in *. lia.
  - intros j Hj HB. pose proof (Hhi K ltac:(lia)) as HK0.
    destruct (Z.eq_dec j K) as [->|Hne]; [unfold Before in *; lia|].
    pose proof (sorted K j ltac:(lia) ltac:(lia)). unfold Before in *. lia.
Qed.

Lemma Cursor_stop_chan (Chan P L K : Z) :
  Cursor Chan P K -> K < nNzBands -> P <= L -> KeyChan K <> Chan ->
  Cursor Chan L K.
Proof.
  intros (HK & Hlo & Hhi) HKn HP HC. split; [exact HK|]. split.
  - intros j Hj. specialize (Hlo j Hj). unfold Before in *. lia.
  - intros j Hj HB. pose proof (Hhi K ltac:(lia)) as HK0.
    destruct (Z.eq_dec j K) as [->|Hne]; [unfold Before in *; lia|].
    pose proof (sorted K j ltac:(lia) ltac:(lia)). unfold Before in *. lia.
Qed.

Lemma Cursor_step (Chan P K : Z) :
  Cursor Chan P K -> K < nNzBands -> KeyChan K = Chan ->
  P <= KeyBand K /\ Cursor Chan (KeyBand K + 1) (K + 1).
Proof.
  intros (HK & Hlo & Hhi) HKn HC.
  pose proof (Hhi K ltac:(lia)) as HK0.
  split; [unfold Before in *; lia|]. split; [lia|]. split.
  - intros j Hj. destruct (Z.eq_dec j K) as [->|Hne]; [unfold Before; lia|].
    specialize (Hlo j ltac:(lia)). unfold Before in *. lia.
  - intros j Hj HB.
    pose proof (sorted K j ltac:(lia) ltac:(lia)). unfold Before in *. lia.
Qed.

Lemma Cursor_widen (Chan P L : Z) :
  Cursor Chan P nNzBands -> P <= L -> Cursor Chan L nNzBands.
Proof.
  intros (HK & Hlo & _) HP. split; [exact HK|]. split.
  - intros j Hj. specialize (Hlo j Hj). unfold Before in *. lia.
  - intros j Hj. lia.
Qed.

(** The key loop: every nibble it pushes accounts for at least one band
    between the old and the new [NextNz], it never reads a key it was not
    given, and it leaves behind exactly the keys below [LastNz]. *)
Lemma CodeKeys_spec (Chan : Z) (fuel : nat) :
  forall c : Coder,
  Cursor Chan (NextNz c) (Key c) -> Key c < nNzBands ->
  0 <= NextNz c <= LastNz c -> LastNz c <= BlockSize ->
  (Z.to_nat (nNzBands - Key c) <= fuel)%nat ->
  exists l c',
    CodeKeys_ Chan fuel c = Some c' /\
    Out c' = WriteNybbles l (Out c) /\
    Z.of_nat (length l) <= NextNz c' - NextNz c /\
    NextNz c' <= LastNz c /\ LastNz c' = LastNz c /\
    NxtQuantBand c' = NxtQuantBand c /\
    Cursor Chan (LastNz c) (Key c').
Proof.
  pose proof (wf_no_wrap WF) as (HB62 & HK62 & _).
  assert (H62 : 2 ^ 62 = 4611686018427387904) by reflexivity.
  assert (H64 : 2 ^ 64 = 18446744073709551616) by reflexivity.
  induction fuel as [|fuel IH]; intros c Hcur HKey HNext HLast Hfuel; [lia|].
  cbn [CodeKeys]. fold (KeyBand (Key c)). fold (KeyChan (Key c)).
  destruct (Z.geb_spec (KeyBand (Key c)) (LastNz c)) as [Hout|Hin].
  { exists [], c. split; [reflexivity|]. split; [reflexivity|].
    split; [cbn; lia|]. split; [lia|]. split; [reflexivity|]. split; [reflexivity|].
    eapply Cursor_stop_band; eauto; lia. }
  destruct (Z.eqb_spec (KeyChan (Key c)) Chan) as [Hchan|Hother]; cbn [negb].
  2: { exists [], c. split; [reflexivity|]. split; [reflexivity|].
       split; [cbn; lia|]. split; [lia|]. split; [reflexivity|]. split; [reflexivity|].
       eapply Cursor_stop_chan; eauto; lia. }
  destruct (Cursor_step Chan (NextNz c) (Key c) Hcur HKey Hchan) as [Hle Hcur'].
  set (tBand := KeyBand (Key c)) in *.
  assert (HzR : u64 (tBand - NextNz c) = tBand - NextNz c)
    by (unfold u64; apply Z.mod_small; lia).
  rewrite HzR.
  destruct (ZeroRuns_spec (Z.to_nat (tBand - NextNz c)) (tBand - NextNz c) c)
    as (l1 & r & Hzero & Hem); try lia.
  rewrite Hzero.
  destruct (EmitsRuns_decode _ _ _ Hem) as (lens & _ & _ & Hsum & Hr4 & Hr0 & Hcnt).
  specialize (Hr0 ltac:(lia)).
  set (c1 := advance (tBand - NextNz c - r) (puts l1 c)) in *.
  assert (HN1 : NextNz c1 = tBand - r) by (cbn; lia).
  assert (Hr : r <= tBand - NextNz c) by lia.
  destruct (CodeCoefs_spec Chan tBand (S (Z.to_nat (tBand - NextNz c1))) c1)
    as (l2 & c2 & Hcoef & Hout2 & Hlen2 & _ & HN2 & HK2 & HL2 & HX2); try lia.
  rewrite Hcoef. cbn [Key NextNz LastNz NxtQuantBand Out].
  rewrite HK2. change (Key c1) with (Key c).
  assert (HKu : u64 (Key c + 1) = Key c + 1)
    by (unfold u64; apply Z.mod_small; destruct Hcur as [? _]; lia).
  rewrite HKu.
  assert (Hout12 : Out c2 = WriteNybbles (l1 ++ l2) (Out c))
    by (rewrite Hout2, WriteNybbles_app; reflexivity).
  assert (Hlen12 : Z.of_nat (length (l1 ++ l2)) <= tBand + 1 - NextNz c)
    by (rewrite length_app; lia).
  destruct (Z.ltb_spec (Key c + 1) nNzBands) as [Hmore|Hdone].
  - match goal with |- context [CodeKeys _ _ _ _ _ _ _ _ fuel ?c3'] =>
      set (c3 := c3') end.
    assert (HN3 : NextNz c3 = tBand + 1) by exact HN2.
    assert (HL3 : LastNz c3 = LastNz c) by exact HL2.
    assert (HK3 : Key c3 = Key c + 1) by reflexivity.
    assert (HX3 : NxtQuantBand c3 = NxtQuantBand c) by exact HX2.
    assert (HO3 : Out c3 = Out c2) by reflexivity.
    destruct (IH c3) as (l3 & c' & Hrun & Hout' & Hlen' & HN' & HL' & HX' & Hcur'').
    + rewrite HN3, HK3. exact Hcur'.
    + lia.
    + lia.
    + lia.
    + lia.
    + exists ((l1 ++ l2) ++ l3), c'. split; [exact Hrun|]. split.
      { rewrite Hout', HO3, Hout12, <- WriteNybbles_app. reflexivity. }
      rewrite HN3 in Hlen'. rewrite HL3 in HN', HL', Hcur''.
      split; [rewrite length_app; lia|]. split; [lia|]. split; [exact HL'|].
      split; [rewrite HX', HX3; reflexivity|exact Hcur''].
  - eexists (l1 ++ l2), _. split; [reflexivity|].
    cbn [Key NextNz LastNz NxtQuantBand Out].
    split; [exact Hout12|]. rewrite HN2, HL2, HX2.
    change (LastNz c1) with (LastNz c). change (NxtQuantBand c1) with (NxtQuantBand c).
    split; [lia|]. split; [lia|]. split; [reflexivity|]. split; [reflexivity|].
    assert (Key c + 1 = nNzBands) by lia.
    replace (Key c + 1) with nNzBands in * by lia.
    eapply Cursor_widen; [exact Hcur'|lia].
Qed.

(** The coder with the quantizer-band walk moved to band [q]. *)
Definition at_band (q : Z) (c : Coder) : Coder :=
  mkCoder (Key c) (NextNz c) (Start q) q (CurQuantBand c) (CurQuantEnd c)
          (nNzCoded c) (Out c).

Lemma SkipUnused_spec (Chan : Z) (fuel : nat) :
  forall (c : Coder) (q : Z),
  NxtQuantBand c = q -> 0 <= q <= nQuants -> LastNz c = Start q ->
  Cursor Chan (Start q) (Key c) ->
  (Z.to_nat (nQuants - q) <= fuel)%nat ->
  exists q',
    q <= q' <= nQuants /\
    SkipUnused_ Chan fuel c = Some (at_band q' c) /\
    (q' < nQuants -> Used Chan q') /\
    Cursor Chan (Start q') (Key c).
Proof.
  pose proof (wf_no_wrap WF) as (HB62 & _ & _).
  pose proof nQuants_le_BlockSize as HQ.
  assert (H62 : 2 ^ 62 = 4611686018427387904) by reflexivity.
  assert (H64 : 2 ^ 64 = 18446744073709551616) by reflexivity.
  assert (Hstay : forall c q, NxtQuantBand c = q -> LastNz c = Start q ->
                              at_band q c = c).
  { intros c q <- HL. unfold at_band. rewrite <- HL. destruct c; reflexivity. }
  induction fuel as [|fuel IH]; intros c q HNxt Hq HLast Hcur Hfuel.
  - exists q. split; [lia|]. cbn [SkipUnused]. rewrite HNxt.
    destruct (Z.ltb_spec q nQuants); [lia|]. cbn [andb].
    rewrite Hstay by assumption.
    split; [reflexivity|]. split; [intros; lia|assumption].
  - cbn [SkipUnused]. rewrite HNxt, HLast.
    destruct (Z.ltb_spec q nQuants) as [Hlt|Hge]; cbn [andb].
    2: { exists q. split; [lia|]. rewrite Hstay by assumption.
         split; [reflexivity|]. split; [lia|assumption]. }
    destruct (Z.eqb_spec (Quants Chan q) QUANTIZER_UNUSED) as [Hun|Hu].
    2: { exists q. split; [lia|]. rewrite Hstay by assumption.
         split; [reflexivity|]. split; [intros _; exact Hu|assumption]. }
    pose proof (Start_bounds (q + 1) ltac:(lia)) as Hb.
    rewrite <- Start_succ by lia.
    assert (Hu1 : u64 (Start (q + 1)) = Start (q + 1))
      by (unfold u64; apply Z.mod_small; lia).
    assert (Hu2 : u64 (q + 1) = q + 1) by (unfold u64; apply Z.mod_small; lia).
    rewrite Hu1, Hu2.
    match goal with |- context [SkipUnused _ _ _ _ _ fuel ?c1'] => set (c1 := c1') end.
    destruct (IH c1 (q + 1)) as (q' & Hq' & Hrun & Hused & Hcur');
      try reflexivity; try lia.
    { apply Cursor_skip; [lia| |exact Hcur]. unfold Used. intros Hne. contradiction. }
    exists q'. split; [lia|]. split; [exact Hrun|]. split; assumption.
Qed.

Lemma ExtendLimit_spec (Chan : Z) (fuel : nat) :
  forall (c : Coder) (q : Z),
  NxtQuantBand c = q -> 0 <= q < nQuants -> LastNz c = Start (q + 1) ->
  (Z.to_nat (nQuants - q) <= fuel)%nat ->
  exists q',
    q < q' <= nQuants /\ ExtendLimit_ Chan fuel c = Some (at_band q' c).
Proof.
  pose proof (wf_no_wrap WF) as (HB62 & _ & _).
  pose proof nQuants_le_BlockSize as HQ.
  assert (H62 : 2 ^ 62 = 4611686018427387904) by reflexivity.
  assert (H64 : 2 ^ 64 = 18446744073709551616) by reflexivity.
  induction fuel as [|fuel IH]; intros c q HNxt Hq HLast Hfuel; [lia|].
  cbn [ExtendLimit]. rewrite HNxt.
  assert (Hu2 : u64 (q + 1) = q + 1) by (unfold u64; apply Z.mod_small; lia).
  rewrite Hu2. cbn [Key NextNz LastNz NxtQuantBand CurQuantBand CurQuantEnd nNzCoded Out].
  destruct ((q + 1 <? nQuants) && negb (Quants Chan (q + 1) =? QUANTIZER_UNUSED))
    eqn:Hgo.
  - apply andb_true_iff in Hgo. destruct Hgo as [Hlt _]. apply Z.ltb_lt in Hlt.
    rewrite HLast, <- Start_succ by lia.
    pose proof (Start_bounds (q + 1 + 1) ltac:(lia)) as Hb.
    assert (Hu1 : u64 (Start (q + 1 + 1)) = Start (q + 1 + 1))
      by (unfold u64; apply Z.mod_small; lia).
    rewrite Hu1.
    match goal with |- context [ExtendLimit _ _ _ _ _ fuel ?c1'] => set (c1 := c1') end.
    destruct (IH c1 (q + 1)) as (q' & Hq' & Hrun); try reflexivity; try lia.
    exists q'. split; [lia|]. exact Hrun.
  - exists (q + 1). split; [lia|]. unfold at_band. rewrite HLast. reflexivity.
Qed.

Lemma Finalize_spec (c : Coder) :
  0 <= NextNz c <= LastNz c -> LastNz c < 2 ^ 64 ->
  exists l,
    Finalize c = puts l c /\ Z.of_nat (length l) <= LastNz c - NextNz c.
Proof.
  intros Hn Hmax. unfold Finalize.
  assert (Hu : u64 (LastNz c - NextNz c) = LastNz c - NextNz c)
    by (unfold u64; apply Z.mod_small; lia).
  rewrite Hu.
  destruct (Z.eqb_spec (LastNz c - NextNz c) 1) as [H1|H1].
  - exists [0x0]. split; [reflexivity|cbn; lia].
  - destruct (Z.geb_spec (LastNz c - NextNz c) 2) as [H2|H2].
    + exists [0x8; 0x0]. split; [reflexivity|cbn; lia].
    + exists []. split; [destruct c; reflexivity|cbn; lia].
Qed.

(** The walk over the quantizer bands of one channel pushes at most one
    nibble per band of the quantizer bands it covers. *)
Lemma CodeBands_spec (Chan : Z) (fuel : nat) :
  0 <= Chan < nChan ->
  forall (c : Coder) (q : Z),
  NxtQuantBand c = q -> 0 <= q <= nQuants -> LastNz c = Start q ->
  Cursor Chan (Start q) (Key c) ->
  (Z.to_nat (nQuants - q) < fuel)%nat ->
  exists l c',
    CodeBands_ Chan fuel c = Some c' /\
    Out c' = WriteNybbles l (Out c) /\
    Z.of_nat (length l) <= Start nQuants - Start q /\
    Cursor Chan (Start nQuants) (Key c').
Proof.
  intros HChan.
  pose proof (wf_no_wrap WF) as (HB62 & HK62 & _).
  assert (H62 : 2 ^ 62 = 4611686018427387904) by reflexivity.
  assert (H64 : 2 ^ 64 = 18446744073709551616) by reflexivity.
  induction fuel as [|fuel IH]; intros c q HNxt Hq HLast Hcur Hfuel; [lia|].
  cbn [CodeBands]. rewrite HNxt.
  destruct (SkipUnused_spec Chan (Z.to_nat (nQuants - q)) c q HNxt Hq HLast Hcur
              ltac:(lia)) as (q1 & Hq1 & Hskip & Hused & Hcur1).
  rewrite Hskip. cbn [at_band NxtQuantBand LastNz Key NextNz nNzCoded Out].
  destruct (Z.geb_spec q1 nQuants) as [Hend|Hmore].
  { exists [], (at_band q1 c). split; [reflexivity|]. split; [reflexivity|].
    assert (q1 = nQuants) by lia. subst q1.
    pose proof (Start_mono q nQuants ltac:(lia) ltac:(lia)).
    split; [cbn; lia|exact Hcur1]. }
  specialize (Hused Hmore).
  rewrite <- Start_succ by lia.
  pose proof (Start_bounds q1 ltac:(lia)) as Hb1.
  pose proof (Start_bounds (q1 + 1) ltac:(lia)) as Hb2.
  pose proof (Start_mono q q1 ltac:(lia) ltac:(lia)) as Hm01.
  assert (Hu1 : u64 (Start (q1 + 1)) = Start (q1 + 1))
    by (unfold u64; apply Z.mod_small; lia).
  rewrite Hu1.
  match goal with |- context [ExtendLimit _ _ _ _ _ _ ?cG'] => set (cG := cG') end.
  destruct (ExtendLimit_spec Chan (Z.to_nat (nQuants - q1)) cG q1)
    as (q2 & Hq2 & Hext); try reflexivity; try lia.
  rewrite Hext.
  set (cE := at_band q2 cG).
  pose proof (Start_bounds q2 ltac:(lia)) as Hb3.
  pose proof (Start_mono (q1 + 1) q2 ltac:(lia) ltac:(lia)) as Hm12.
  pose proof (Start_mono q1 (q1 + 1) ltac:(lia) ltac:(lia)) as Hm11.
  destruct (CodeKeys_spec Chan (S (Z.to_nat (nNzBands - Key cE))) cE)
    as (l1 & cK & Hkeys & HoutK & HlenK & HNK & HLK & HXK & HcurK).
  { exact Hcur1. }
  { exact (Cursor_key_left Chan q1 (Key c) HChan ltac:(lia) Hused Hcur1). }
  { cbn. lia. }
  { cbn. lia. }
  { lia. }
  rewrite Hkeys.
  change (NextNz cE) with (Start q1) in HlenK.
  change (LastNz cE) with (Start q2) in HNK, HLK, HcurK.
  change (NxtQuantBand cE) with q2 in HXK.
  change (Out cE) with (Out c) in HoutK.
  assert (HNK0 : Start q1 <= NextNz cK) by lia.
  destruct (Finalize_spec cK) as (l2 & Hfin & Hlen2); try lia.
  rewrite Hfin.
  destruct (IH (puts l2 cK) q2) as (l3 & c' & Hrun & Hout' & Hlen3 & Hcur');
    try assumption; try lia.
  exists (l1 ++ l2 ++ l3), c'. split; [exact Hrun|]. split.
  { rewrite Hout'. cbn [puts Out]. rewrite HoutK, <- !WriteNybbles_app. reflexivity. }
  split; [rewrite !length_app; lia|exact Hcur'].
Qed.

Lemma CodeQuants_spec (Chan : Z) (count : nat) :
  forall (QBand : Z) (c : Coder),
  exists l,
    CodeQuants IntLog2 Quants Chan count QBand c = puts l c /\ length l = count.
Proof.
  induction count as [|count IH]; intros QBand c.
  - exists []. split; [destruct c; reflexivity|reflexivity].
  - cbn [CodeQuants]. destruct (IH (QBand + 1) (put (IntLog2 (Quants Chan QBand)) c))
      as (l & Hl & Hlen).
    exists (IntLog2 (Quants Chan QBand) :: l). split; [|cbn; lia].
    rewrite Hl, put_puts, puts_puts. reflexivity.
Qed.

(** One channel: the quantizers, then at most one nibble per band. *)
Lemma CodeChannel_spec (Chan : Z) (c : Coder) :
  0 <= Chan < nChan -> Cursor Chan 0 (Key c) ->
  exists l c',
    CodeChannel_ Chan c = Some c' /\
    Out c' = WriteNybbles l (Out c) /\
    Z.of_nat (length l) <= nQuants + Start nQuants /\
    Cursor (Chan + 1) 0 (Key c').
Proof.
  intros HChan Hcur. unfold CodeChannel.
  pose proof (wf_sizes WF) as (_ & _ & HnQ & _).
  destruct (CodeQuants_spec Chan (Z.to_nat nQuants) 0 c) as (l0 & Hq & Hlen0).
  rewrite Hq. cbn [puts Key NextNz CurQuantBand CurQuantEnd nNzCoded Out].
  match goal with |- context [CodeBands _ _ _ _ _ _ _ _ _ _ _ ?c1'] =>
    set (c1 := c1') end.
  destruct (CodeBands_spec Chan (S (Z.to_nat nQuants)) HChan c1 0)
    as (l & c' & Hrun & Hout & Hlen & Hcur'); try reflexivity; try lia.
  { exact Hcur. }
  exists (l0 ++ l), c'. split; [exact Hrun|]. split.
  { rewrite Hout. cbn [c1 Out]. rewrite <- WriteNybbles_app. reflexivity. }
  split; [rewrite length_app, Start_0 in *; lia|].
  apply Cursor_next_channel, Hcur'.
Qed.

Lemma CodeChannels_spec (count : nat) :
  forall (Chan : Z) (c : Coder),
  0 <= Chan -> Chan + Z.of_nat count <= nChan -> Cursor Chan 0 (Key c) ->
  exists l c',
    CodeChannels_ count Chan c = Some c' /\
    Out c' = WriteNybbles l (Out c) /\
    Z.of_nat (length l) <= Z.of_nat count * (nQuants + Start nQuants).
Proof.
  induction count as [|count IH]; intros Chan c HChan Hcount Hcur.
  - exists [], c. repeat split; cbn; lia.
  - cbn [CodeChannels].
    destruct (CodeChannel_spec Chan c ltac:(lia) Hcur) as (l1 & c1 & Hrun1 & Hout1 & Hlen1 & Hcur1).
    rewrite Hrun1.
    destruct (IH (Chan + 1) c1 ltac:(lia) ltac:(lia) Hcur1) as (l2 & c' & Hrun & Hout & Hlen).
    exists (l1 ++ l2), c'. split; [exact Hrun|]. split.
    { rewrite Hout, Hout1, <- WriteNybbles_app. reflexivity. }
    rewrite length_app. nia.
Qed.

Lemma ShiftFinalByte_Size (w : Writer) : Size (ShiftFinalByte w) = Size w.
Proof. unfold ShiftFinalByte. destruct (Size w mod 8 =? 0); reflexivity. Qed.

(** C1.  For a state as the block encoder takes it from its quantizer
    builder (keys sorted by channel and band, a quantizer band unused
    exactly when no key falls into it, quantizer bands of at least one
    coefficient inside the block), Block_Encode returns, and the bit count
    it returns is a multiple of 4 and at most 8 + C*(12 + 20*(N-1)). *)
Theorem C1_block_bits_bounded (DstBuffer : Z -> Z) :
  exists w nNz,
    Block_Encode QUANTIZER_UNUSED IntLog2 nChan BlockSize nQuants nNzBands
      TransformBuffer QuantsBw Quants Keys DstBuffer = Some (w, nNz) /\
    0 <= Size w /\ Size w mod 4 = 0 /\
    Size w <= 8 + nChan * (12 + 20 * (BlockSize - 1)).
Proof.
  pose proof (wf_sizes WF) as (HC & HN & HQ & _).
  pose proof (wf_no_wrap WF) as (_ & _ & Hwrap).
  pose proof (wf_total WF) as Htot.
  pose proof nQuants_le_BlockSize as HQN.
  unfold Block_Encode.
  set (start := mkCoder 0 0 0 0 0 0 0 (mkWriter DstBuffer 0 0)).
  destruct (CodeChannels_spec (Z.to_nat nChan) 0 start ltac:(lia) ltac:(lia)
              Cursor_initial) as (l & c' & Hrun & Hout & Hlen).
  rewrite Hrun. eexists. eexists. split; [reflexivity|].
  rewrite ShiftFinalByte_Size, Hout. cbn [start Out].
  rewrite Z2Nat.id in Hlen by lia.
  assert (Hcount : Z.of_nat (length l) <= nChan * (nQuants + BlockSize)) by nia.
  rewrite WriteNybbles_Size by (cbn [Size]; lia). cbn [Size].
  split; [lia|]. split.
  - rewrite Z.add_0_l, Z.mul_comm. apply Z.mod_mul. lia.
  - nia.
Qed.



End Serializer.

(** A quotient that an [int32_t] does not hold is coded as -7, and so is
    every coefficient of a band whose quantizer is 0. *)
Lemma Quantized_beyond_int32 :
  BlockEncode.Quantized (fun _ _ => inject_Z (10 ^ 20)) (fun _ _ => 1) 0 0 0 = -7.
Proof. vm_compute. reflexivity. Qed.

Lemma Quantized_zero_quantizer (TransformBuffer : Z -> Z -> Q) (Chan Band QBand : Z) :
  BlockEncode.Quantized TransformBuffer (fun _ _ => 0) Chan Band QBand = -7.
Proof. reflexivity. Qed.

(** *** A block of two channels and sixteen bands

    Three quantizer bands of 4, 4 and 8 coefficients.  Channel 0 has keys in
    bands 1, 9 and 12 (quantizer bands 0 and 2), channel 1 has one key in
    band 5 (quantizer band 1); the other quantizer bands are unused
    (marker 0). *)
Definition SampleKeys : Z -> Z := fun k => nth (Z.to_nat k) [1; 9; 12; 21] 0.
Definition SampleQuantsBw : Z -> Z := fun q => nth (Z.to_nat q) [4; 4; 8] 0.
Definition SampleQuants : Z -> Z -> Z :=
  fun c q => nth (Z.to_nat q) (nth (Z.to_nat c) [[2; 0; 4]; [0; 1; 0]] []) 0.
Definition SampleCoefs : Z -> Z -> Q :=
  fun c b => if b =? 9 then (- (40 # 1))%Q
             else if b =? 12 then (9 # 2)%Q else (3 # 1)%Q.

Lemma Sample_WellFormed :
  WellFormed 0 Z.log2 2 16 3 4 SampleQuantsBw SampleQuants SampleKeys.
Proof.
  constructor.
  - lia.
  - repeat split; reflexivity.
  - intros q Hq. assert (Hc : q = 0 \/ q = 1 \/ q = 2) by lia.
    destruct Hc as [-> | [-> | ->]]; vm_compute; congruence.
  - vm_compute. congruence.
  - intros k Hk Hk'. assert (Hc : k = 0 \/ k = 1 \/ k = 2) by lia.
    destruct Hc as [-> | [-> | ->]]; vm_compute; intuition congruence.
  - intros k Hk. assert (Hc : k = 0 \/ k = 1 \/ k = 2 \/ k = 3) by lia.
    destruct Hc as [-> | [-> | [-> | ->]]].
    + split; [vm_compute; congruence|]. exists 0. vm_compute. intuition congruence.
    + split; [vm_compute; congruence|]. exists 2. vm_compute. intuition congruence.
    + split; [vm_compute; congruence|]. exists 2. vm_compute. intuition congruence.
    + split; [vm_compute; congruence|]. exists 1. vm_compute. intuition congruence.
  - intros Chan q HC Hq Hu.
    assert (Hc : Chan = 0 \/ Chan = 1) by lia.
    assert (Hc' : q = 0 \/ q = 1 \/ q = 2) by lia.
    destruct Hc as [-> | ->]; destruct Hc' as [-> | [-> | ->]];
      try (exfalso; apply Hu; reflexivity).
    + exists 0. vm_compute. intuition congruence.
    + exists 1. vm_compute. intuition congruence.
    + exists 3. vm_compute. intuition congruence.
Qed.

(** The block above is coded in 21 nibbles, 84 bits, with 9 non-zero
    coefficients; the bytes are the nibbles
    1,0,2 | 2,2 | 8,0 | 1,9 | 1,1,1 | 8,0  and  0,0,0 | 3,3 | 8,0
    packed low nibble first. *)
Example Block_Encode_sample :
  match BlockEncode.Block_Encode 0 Z.log2 2 16 3 4 SampleCoefs SampleQuantsBw
          SampleQuants SampleKeys (fun _ => 0) with
  | Some (w, nNz) =>
      Some (BlockEncode.Size w, nNz, map (BlockEncode.Buffer w) [0; 1; 2; 3; 4; 5; 6; 7; 8; 9; 10])
  | None => None
  end
  = Some (84, 9, [0x01; 0x22; 0x82; 0x10; 0x19; 0x11; 0x08; 0x00; 0x30; 0x83; 0x00]).
Proof. vm_compute. reflexivity. Qed.

Lemma C1_block_bits_bounded_witness :
  exists w nNz,
    BlockEncode.Block_Encode 0 Z.log2 2 16 3 4 SampleCoefs SampleQuantsBw
      SampleQuants SampleKeys (fun _ => 0) = Some (w, nNz) /\
    0 <= BlockEncode.Size w /\ BlockEncode.Size w mod 4 = 0 /\
    BlockEncode.Size w <= 8 + 2 * (12 + 20 * (16 - 1)).
Proof.
  apply (C1_block_bits_bounded 0 Z.log2 2 16 3 4 SampleCoefs SampleQuantsBw
           SampleQuants SampleKeys Sample_WellFormed (fun _ => 0)).
Defined.

Definition RunStart : BlockEncode.Coder :=
  BlockEncode.mkCoder 0 0 64 1 0 64 0 (BlockEncode.mkWriter (fun _ => 0) 0 0).


(** The run of 30 zeros above is one long escape 8,C,2 (26 + 2*2 zeros). *)
Example ZeroRuns_sample :
  option_map (fun c => (BlockEncode.NextNz c,
                        map (BlockEncode.Buffer (BlockEncode.Out c)) [0; 1]))
             (BlockEncode.ZeroRuns 30 30 RunStart)
  = Some (30, [0xC8; 0x20]).
Proof. vm_compute. reflexivity. Qed.

Section DecimationPattern.
Import Helper.

Lemma nibble_cases (W : Z) :
  0 <= W < 256 ->
  exists d, Z.shiftr W 4 = d /\ In d [0;1;2;3;4;5;6;7;8;9;10;11;12;13;14;15].
Proof.
  intros H. exists (Z.shiftr W 4). split; [reflexivity|].
  rewrite Z.shiftr_div_pow2 by lia. change (2 ^ 4) with 16.
  assert (0 <= W / 16 < 16) by (split; [apply Z.div_pos|apply Z.div_lt_upper_bound]; lia).
  simpl. lia.
Qed.


(** The loop read on the pattern alone: the (shift, flag) pairs of its
    nibbles.  [SubBlocks_loop] is this list with the shifts applied to the
    block size, which separates what depends on the block size from what the
    table fixes. *)
Fixpoint Nibbles_loop (fuel : nat) (p : Z) : option (list (Z * bool)) :=
  match fuel with
  | O => None
  | S fuel' =>
      let nb := (Z.land p 0x7, Z.testbit p 3) in
      let next := Z.shiftr p 4 in
      if next =? 0 then Some [nb]
      else option_map (cons nb) (Nibbles_loop fuel' next)
  end.

Definition apply_shift (N : Z) (nb : Z * bool) : SubBlock :=
  mkSubBlock (Z.shiftr N (fst nb)) (snd nb).

Lemma SubBlocks_loop_Nibbles fuel N p :
  SubBlocks_loop fuel N p = option_map (map (apply_shift N)) (Nibbles_loop fuel p).
Proof.
  revert p. induction fuel as [|fuel IH]; intros p; [reflexivity|].
  cbn [SubBlocks_loop Nibbles_loop].
  destruct (Z.shiftr p 4 =? 0); [reflexivity|].
  rewrite IH. destruct (Nibbles_loop fuel (Z.shiftr p 4)); reflexivity.
Qed.

Lemma TransientIndices_apply_shift N l i :
  TransientIndices i (map (apply_shift N) l)
  = TransientIndices i (map (apply_shift 0) l).
Proof.
  revert i. induction l as [|nb l IH]; intros i; [reflexivity|].
  cbn [map TransientIndices apply_shift Transient]. rewrite !IH. reflexivity.
Qed.

(** Sum of the sub-block sizes. *)
Definition TotalSize (l : list SubBlock) : Z :=
  fold_right (fun sb acc => SubBlockSize sb + acc) 0 l.

(** [Tiles a b l]: the intervals of [l] are non-empty, each starts where the
    previous one ends, the first starts at [a] and the last ends at [b]. *)
Inductive Tiles : Z -> Z -> list (Z * Z) -> Prop :=
| Tiles_nil a : Tiles a a []
| Tiles_cons a m b l : a < m -> Tiles m b l -> Tiles a b ((a, m) :: l).

Lemma Tiles_le a b l : Tiles a b l -> a <= b.
Proof. induction 1; lia. Qed.

Lemma Tiles_In_bounds a b l iv :
  Tiles a b l -> In iv l -> a <= fst iv /\ fst iv < snd iv /\ snd iv <= b.
Proof.
  induction 1 as [|a m b l Ham Ht IH]; intros Hin; [destruct Hin|].
  pose proof (Tiles_le _ _ _ Ht).
  destruct Hin as [<-|Hin]; cbn [fst snd]; [lia|].
  specialize (IH Hin). lia.
Qed.

(** A tiling covers every point of [[a, b)] exactly once. *)
Lemma Tiles_cover a b l :
  Tiles a b l ->
  forall n, a <= n < b ->
  exists iv, In iv l /\ fst iv <= n < snd iv /\
             forall iv', In iv' l -> fst iv' <= n < snd iv' -> iv' = iv.
Proof.
  induction 1 as [|a m b l Ham Ht IH]; intros n Hn; [lia|].
  destruct (Z_lt_dec n m) as [Hlt|Hge].
  - exists (a, m). split; [left; reflexivity|]. split; [cbn; lia|].
    intros iv' [<-|Hin] Hc; [reflexivity|].
    pose proof (Tiles_In_bounds _ _ _ _ Ht Hin). lia.
  - destruct (IH n ltac:(lia)) as (iv & Hin & Hc & Huniq).
    exists iv. split; [right; exact Hin|]. split; [exact Hc|].
    intros iv' [<-|Hin'] Hc'; [cbn in Hc'; lia|]. apply Huniq; assumption.
Qed.

Lemma SubBlockOffsets_Tiles l :
  Forall (fun sb => 0 < SubBlockSize sb) l ->
  forall a, Tiles a (a + TotalSize l) (SubBlockOffsets a l).
Proof.
  induction 1 as [|sb l Hsb Hl IH]; intros a; cbn [SubBlockOffsets TotalSize fold_right].
  - rewrite Z.add_0_r. constructor.
  - constructor; [lia|].
    fold (TotalSize l). replace (a + (SubBlockSize sb + TotalSize l))
      with (a + SubBlockSize sb + TotalSize l) by lia.
    apply IH.
Qed.

Lemma shiftr_pow2 k s : 0 <= s <= k -> Z.shiftr (2 ^ k) s = 2 ^ (k - s).
Proof.
  intros H. rewrite Z.shiftr_div_pow2 by lia.
  replace k with ((k - s) + s) at 1 by lia.
  rewrite Z.pow_add_r by lia. apply Z.div_mul. apply Z.pow_nonzero; lia.
Qed.

(** What the table fixes: for each decimation nibble, the shifts and flags of
    its sub-blocks. *)
Lemma Pattern_nibbles (W : Z) :
  0 <= W < 256 ->
  exists p nbs,
    ULC_SubBlockDecimationPattern W = Some p /\
    Nibbles_loop 4 p = Some nbs /\
    (1 <= length nbs <= 4)%nat /\
    Forall (fun nb => 0 <= fst nb <= 3) nbs /\
    fold_right (fun nb acc => 2 ^ (3 - fst nb) + acc) 0 nbs = 8 /\
    (Z.shiftr W 4 <> 0 ->
     TransientIndices 0 (map (apply_shift 0) nbs) = [popcount (Z.shiftr W 4) - 1]).
Proof.
  intros HW. destruct (nibble_cases W HW) as (d & Hd & Hin).
  unfold ULC_SubBlockDecimationPattern. rewrite Hd.
  cbn [In] in Hin.
  repeat (destruct Hin as [<-|Hin];
    [ eexists; eexists; split; [reflexivity|]; split; [vm_compute; reflexivity|];
      split; [cbn; lia|]; split; [repeat constructor; cbn; lia|];
      split; [reflexivity|]; intros Hnz; try reflexivity; exfalso; apply Hnz; reflexivity
    | ]).
  destruct Hin.
Qed.

(** C7 (as amended).  The table is indexed by [WindowCtrl >> 4]: the
    decimation nibble is bits 4..7 of the window control word.  For every
    window control word whose decimation nibble is non-zero, exactly one
    sub-block of its decimation pattern carries the transient flag, and its
    index (in coding order, from 0) is popcount(decimation nibble) - 1. *)
Theorem C7_transient_index_popcount (BlockSize WindowCtrl : Z) :
  0 <= WindowCtrl < 256 ->
  Z.shiftr WindowCtrl 4 <> 0 ->
  exists sbs,
    SubBlocks BlockSize WindowCtrl = Some sbs /\
    TransientIndices 0 sbs = [popcount (Z.shiftr WindowCtrl 4) - 1].
Proof.
  intros HW Hnz.
  destruct (Pattern_nibbles WindowCtrl HW) as (p & nbs & Hp & Hn & _ & _ & _ & Ht).
  exists (map (apply_shift BlockSize) nbs). split.
  - unfold SubBlocks. rewrite Hp, SubBlocks_loop_Nibbles, Hn. reflexivity.
  - rewrite TransientIndices_apply_shift. apply Ht, Hnz.
Qed.

Lemma C7_transient_index_popcount_witness :
  exists sbs,
    SubBlocks 2048 0xA3 = Some sbs /\
    TransientIndices 0 sbs = [popcount (Z.shiftr 0xA3 4) - 1].
Proof.
  apply (C7_transient_index_popcount 2048 0xA3); [lia | vm_compute; discriminate].
Defined.

(** C7 as the claim words it, with the low nibble ([WindowCtrl & 0xF]) as
    the decimation nibble, fails: in the word 0x2F (decimation 0010, overlap
    scale 7 with the decimation bit set) the low nibble is 0xF, so the claim
    predicts index 3, while the pattern N/2*,N/2 marks sub-block 0. *)
Lemma C7_low_nibble_counterexample :
  Z.land 0x2F 0xF <> 0 /\
  SubBlocks 2048 0x2F = Some [mkSubBlock 1024 true; mkSubBlock 1024 false] /\
  TransientIndices 0 [mkSubBlock 1024 true; mkSubBlock 1024 false] = [0] /\
  popcount (Z.land 0x2F 0xF) - 1 = 3.
Proof. repeat split; vm_compute; congruence. Qed.

Lemma sizes_apply_shift k nbs :
  3 <= k ->
  Forall (fun nb => 0 <= fst nb <= 3) nbs ->
  Forall (fun sb => exists j, 0 <= j <= 3 /\ SubBlockSize sb = 2 ^ (k - j))
         (map (apply_shift (2 ^ k)) nbs) /\
  TotalSize (map (apply_shift (2 ^ k)) nbs)
  = 2 ^ (k - 3) * fold_right (fun nb acc => 2 ^ (3 - fst nb) + acc) 0 nbs.
Proof.
  intros Hk. induction 1 as [|nb nbs Hnb Hnbs [IH1 IH2]].
  - split; [constructor|]. cbn. lia.
  - assert (Hsz : SubBlockSize (apply_shift (2 ^ k) nb) = 2 ^ (k - fst nb))
      by (cbn; apply shiftr_pow2; lia).
    split.
    + constructor; [exists (fst nb); split; [lia|exact Hsz]|exact IH1].
    + cbn [map TotalSize fold_right]. fold (TotalSize (map (apply_shift (2 ^ k)) nbs)).
      rewrite IH2, Hsz.
      replace (k - fst nb) with ((k - 3) + (3 - fst nb)) by lia.
      rewrite Z.pow_add_r by lia. ring.
Qed.

(** C8.  For a block size N = 2^k with k >= 3 and every window control word
    (so in particular every one whose low nibble is non-zero), the sub-block
    sizes [BlockSize >> shift] of its decimation pattern are powers of two
    between N/8 and N, there are between one and four of them, they sum to N,
    and laid end to end from 0 they tile [0, N): every band lies in exactly
    one sub-block. *)
Theorem C8_subblocks_partition_block (k WindowCtrl : Z) :
  3 <= k ->
  0 <= WindowCtrl < 256 ->
  exists sbs,
    SubBlocks (2 ^ k) WindowCtrl = Some sbs /\
    (1 <= length sbs <= 4)%nat /\
    Forall (fun sb => exists j, 0 <= j <= 3 /\ SubBlockSize sb = 2 ^ (k - j) /\
                                2 ^ k / 8 <= SubBlockSize sb <= 2 ^ k) sbs /\
    TotalSize sbs = 2 ^ k /\
    Tiles 0 (2 ^ k) (SubBlockOffsets 0 sbs) /\
    (forall n, 0 <= n < 2 ^ k ->
       exists iv, In iv (SubBlockOffsets 0 sbs) /\ fst iv <= n < snd iv /\
         forall iv', In iv' (SubBlockOffsets 0 sbs) ->
                     fst iv' <= n < snd iv' -> iv' = iv).
Proof.
  intros Hk HW.
  destruct (Pattern_nibbles WindowCtrl HW) as (p & nbs & Hp & Hn & Hlen & Hsh & Hsum & _).
  destruct (sizes_apply_shift k nbs Hk Hsh) as [Hpow Htot].
  set (sbs := map (apply_shift (2 ^ k)) nbs) in *.
  assert (H8 : 2 ^ k = 2 ^ (k - 3) * 8).
  { replace k with ((k - 3) + 3) at 1 by lia. rewrite Z.pow_add_r by lia. reflexivity. }
  assert (Htotal : TotalSize sbs = 2 ^ k) by (rewrite Htot, Hsum; lia).
  assert (Hpos : Forall (fun sb => 0 < SubBlockSize sb) sbs).
  { eapply Forall_impl; [|exact Hpow]. intros sb (j & Hj & ->). apply Z.pow_pos_nonneg; lia. }
  assert (Ht : Tiles 0 (2 ^ k) (SubBlockOffsets 0 sbs)).
  { rewrite <- Htotal. apply (SubBlockOffsets_Tiles sbs Hpos 0). }
  exists sbs. split.
  { unfold SubBlocks. rewrite Hp, SubBlocks_loop_Nibbles, Hn. reflexivity. }
  split. { unfold sbs. rewrite length_map. lia. }
  split.
  { eapply Forall_impl; [|exact Hpow]. intros sb (j & Hj & Hsz).
    exists j. split; [exact Hj|]. split; [exact Hsz|]. rewrite Hsz.
    assert (2 ^ (k - 3) <= 2 ^ (k - j) <= 2 ^ k)
      by (split; apply Z.pow_le_mono_r; lia).
    rewrite H8 at 1. rewrite Z.div_mul by lia. lia. }
  split; [exact Htotal|]. split; [exact Ht|].
  apply Tiles_cover, Ht.
Qed.

Lemma C8_subblocks_partition_block_witness :
  exists sbs,
    SubBlocks (2 ^ 11) 0xB9 = Some sbs /\
    (1 <= length sbs <= 4)%nat /\
    Forall (fun sb => exists j, 0 <= j <= 3 /\ SubBlockSize sb = 2 ^ (11 - j) /\
                                2 ^ 11 / 8 <= SubBlockSize sb <= 2 ^ 11) sbs /\
    TotalSize sbs = 2 ^ 11 /\
    Tiles 0 (2 ^ 11) (SubBlockOffsets 0 sbs) /\
    (forall n, 0 <= n < 2 ^ 11 ->
       exists iv, In iv (SubBlockOffsets 0 sbs) /\ fst iv <= n < snd iv /\
         forall iv', In iv' (SubBlockOffsets 0 sbs) ->
                     fst iv' <= n < snd iv' -> iv' = iv).
Proof.
  apply (C8_subblocks_partition_block 11 0xB9); lia.
Defined.

Lemma TotalSize_nonneg (sbs : list SubBlock) :
  Forall (fun sb => 1 <= SubBlockSize sb < 2 ^ 31) sbs -> 0 <= TotalSize sbs.
Proof.
  induction 1 as [|sb sbs Hsb _ IH]; [cbn; lia|].
  cbn [TotalSize fold_right]. fold (TotalSize sbs). lia.
Qed.

(** The peak of a sub-block that lies in a block of amplitudes that are not
    negative and, where positive, above 2^-96: it is 0 or above 2^-96. *)
Lemma SubBlock_peak_in_range (BufferAmp2 : Z -> R) (B at_ size : Z) :
  (forall i, 0 <= i < B -> (0 <= BufferAmp2 i)%R) ->
  (forall i, 0 <= i < B -> (0 < BufferAmp2 i)%R ->
             (/ IZR (2 ^ 96) < BufferAmp2 i)%R) ->
  0 <= at_ -> at_ + size <= B ->
  let Norm := Psycho.PeakAmp2 (fun n => BufferAmp2 (at_ + n)) (Z.to_nat size) 0 0%R in
  Norm <> 0%R -> (/ IZR (2 ^ 96) < Norm)%R.
Proof.
  intros Hpos Hflt Hat Hend. cbv zeta.
  destruct (PeakAmp2_max (fun n => BufferAmp2 (at_ + n)) (Z.to_nat size) 0 0%R)
    as [H0 _].
  destruct (PeakAmp2_attained (fun n => BufferAmp2 (at_ + n)) (Z.to_nat size) 0 0%R)
    as [Hz|(i & Hi & Hpk)]; intros Hnz; [contradiction|].
  rewrite Hpk in *. apply Hflt; [lia|lra].
Qed.

(** The whole analysis: for sub-blocks inside a block of amplitudes that
    are not negative and, where positive, above 2^-96, no sub-block traps. *)
Lemma MaskSubBlocks_total (Ultrastable : bool) (BufferAmp2 : Z -> R)
  (B : Z) (sbs : list SubBlock) :
  (forall i, 0 <= i < B -> (0 <= BufferAmp2 i)%R) ->
  (forall i, 0 <= i < B -> (0 < BufferAmp2 i)%R ->
             (/ IZR (2 ^ 96) < BufferAmp2 i)%R) ->
  Forall (fun sb => 1 <= SubBlockSize sb < 2 ^ 31) sbs ->
  forall (at_ : Z) (MaskingNp : Z -> R),
  0 <= at_ -> at_ + TotalSize sbs <= B ->
  exists MaskingNp',
    Psycho.MaskSubBlocks Ultrastable BufferAmp2 sbs at_ MaskingNp = Some MaskingNp'.
Proof.
  intros Hpos Hflt.
  induction 1 as [|sb sbs Hsb Hsbs IH]; intros at_ MaskingNp Hat Hend.
  - eexists. reflexivity.
  - cbn [TotalSize fold_right] in Hend. fold (TotalSize sbs) in Hend.
    pose proof (TotalSize_nonneg sbs Hsbs) as Hrest.
    cbn [Psycho.MaskSubBlocks].
    destruct (Req_EM_T _ 0) as [_|Hnz]; [apply IH; lia|].
    pose proof (SubBlock_peak_in_range BufferAmp2 B at_ (SubBlockSize sb)
                  Hpos Hflt Hat ltac:(lia) Hnz) as Hpeak.
    match goal with |- context [Psycho.MaskSubBlock ?u ?a ?n ?x] =>
      destruct (MaskSubBlock_total u a n x Hsb Hpeak) as (values & -> & _) end.
    + intros n Hn. apply Hpos. lia.
    + apply IH; lia.
Qed.

Lemma CalculatePsychoacoustics_total (Ultrastable : bool)
  (MaskingNp BufferAmp2 : Z -> R) (k WindowCtrl : Z) :
  3 <= k <= 30 -> 0 <= WindowCtrl < 256 ->
  (forall i, 0 <= i < 2 ^ k -> (0 <= BufferAmp2 i)%R) ->
  (forall i, 0 <= i < 2 ^ k -> (0 < BufferAmp2 i)%R ->
             (/ IZR (2 ^ 96) < BufferAmp2 i)%R) ->
  exists MaskingNp',
    Psycho.Block_Transform_CalculatePsychoacoustics Ultrastable MaskingNp
      BufferAmp2 (2 ^ k) WindowCtrl = Some MaskingNp'.
Proof.
  intros Hk HW Hpos Hflt.
  destruct (Pattern_nibbles WindowCtrl HW) as (p & nbs & Hp & Hn & _ & Hsh & Hsum & _).
  destruct (sizes_apply_shift k nbs ltac:(lia) Hsh) as [Hpow Htot].
  unfold Psycho.Block_Transform_CalculatePsychoacoustics, SubBlocks.
  rewrite Hp, SubBlocks_loop_Nibbles, Hn. cbn [option_map].
  apply (MaskSubBlocks_total Ultrastable BufferAmp2 (2 ^ k)); try assumption; [|lia|].
  - eapply Forall_impl; [|exact Hpow]. intros sb (j & Hj & ->).
    assert (0 < 2 ^ (k - j)) by (apply Z.pow_pos_nonneg; lia).
    assert (2 ^ (k - j) <= 2 ^ 30) by (apply Z.pow_le_mono_r; lia).
    change (2 ^ 30) with 1073741824 in *. change (2 ^ 31) with 2147483648. lia.
  - rewrite Htot, Hsum.
    replace k with ((k - 3) + 3) at 2 by lia.
    rewrite Z.pow_add_r by lia. change (2 ^ 3) with 8. lia.
Qed.

End DecimationPattern.

(* ================================================================== *)
(** * Further properties of the encoder functions *)
(* ================================================================== *)

(** ** The companded quantizers as a user sees them *)
Section QuantizerProperties.
Import Float Helper.
Local Open Scope R_scope.

(** [lrintf] is the only integer strictly within 1/2 of its argument. *)
Lemma lrintf_unique (x : R) (z : Z) :
  - (1 / 2) < x - IZR z < 1 / 2 -> lrintf x = z.
Proof.
  intros Hz. pose proof (lrintf_nearest x) as Hn.
  assert (H1 : IZR (lrintf x) < IZR (z + 1)) by (rewrite plus_IZR; lra).
  assert (H2 : IZR (z - 1) < IZR (lrintf x)) by (rewrite minus_IZR; lra).
  apply lt_IZR in H1, H2. lia.
Qed.

Lemma lrintf_monotone (x y : R) : x <= y -> (lrintf x <= lrintf y)%Z.
Proof.
  intros Hxy. pose proof (lrintf_nearest x) as Hx.
  pose proof (lrintf_nearest y) as Hy.
  assert (H1 : IZR (lrintf x) <= IZR (lrintf y + 1)) by (rewrite plus_IZR; lra).
  apply le_IZR in H1.
  destruct (Z.eq_dec (lrintf x) (lrintf y + 1)) as [He|]; [|lia].
  exfalso. assert (Hxy' : x = y).
  { apply (f_equal IZR) in He. rewrite plus_IZR in He. lra. }
  subst y. lia.
Qed.

(** X1.  Where the cast to [int] does not cut (inputs up to
    [2^62 - 2^31]), [ULC_CompandedQuantizeUnsigned] is the optimal quantizer
    for the companding [q -> q^2]: no integer [z] reconstructs [v] with a
    smaller error than the result. *)
Theorem X1_quantizer_minimises_error (v : R) (z : Z) :
  v <= QuantizerMax ->
  Rabs (v - IZR (ULC_CompandedQuantizeUnsigned v)
           * IZR (ULC_CompandedQuantizeUnsigned v))
  <= Rabs (v - IZR z * IZR z).
Proof. intros Hv. exact (ULC_CompandedQuantizeUnsigned_optimal v z Hv). Qed.

Lemma X1_quantizer_minimises_error_witness :
  Rabs (10 - IZR (ULC_CompandedQuantizeUnsigned 10)
            * IZR (ULC_CompandedQuantizeUnsigned 10))
  <= Rabs (10 - IZR 4 * IZR 4).
Proof.
  apply (X1_quantizer_minimises_error 10 4).
  rewrite QuantizerMax_value. lra.
Defined.

(** X2.  Quantizing an expanded code gives the code back: every perfect
    square [q*q] of a code that an [int] holds, [0 <= q < 2^31], is
    quantized to [q]. *)
Theorem X2_quantizer_inverts_expansion (q : Z) :
  (0 <= q < 2 ^ 31)%Z -> ULC_CompandedQuantizeUnsigned (IZR q * IZR q) = q.
Proof.
  intros Hq.
  assert (Hmax : IZR q * IZR q <= QuantizerMax).
  { rewrite QuantizerMax_value, <- mult_IZR. apply IZR_le.
    assert (q <= 2147483647)%Z by lia. nia. }
  rewrite ULC_CompandedQuantizeUnsigned_exact by exact Hmax.
  destruct (Z.eq_dec q 0) as [->|Hq0].
  - destruct (Rle_dec (1 / 2) (0 * 0)) as [H|_]; [exfalso; lra|reflexivity].
  - assert (HQ : 1 <= IZR q) by (apply IZR_le; lia).
    destruct (Rle_dec (1 / 2) (IZR q * IZR q)) as [_|H]; [|exfalso; nra].
    set (s := sqrt (IZR q * IZR q - 1 / 4)).
    assert (Hs : s * s = IZR q * IZR q - 1 / 4) by (apply sqrt_sqrt; nra).
    assert (Hs0 : 0 <= s) by apply sqrt_pos.
    apply lrintf_unique. split; nra.
Qed.

Lemma X2_quantizer_inverts_expansion_witness :
  ULC_CompandedQuantizeUnsigned (IZR 7 * IZR 7) = 7%Z.
Proof. apply (X2_quantizer_inverts_expansion 7). lia. Defined.

(** X3.  Where the cast does not cut, the quantizer is monotone: a larger
    input never gets a smaller code. *)
Theorem X3_quantizer_monotone (v w : R) :
  v <= w -> w <= QuantizerMax ->
  (ULC_CompandedQuantizeUnsigned v <= ULC_CompandedQuantizeUnsigned w)%Z.
Proof.
  intros Hvw Hmax.
  pose proof (ULC_CompandedQuantizeUnsigned_nonneg w Hmax) as Hw.
  rewrite !ULC_CompandedQuantizeUnsigned_exact in * by lra.
  destruct (Rle_dec (1 / 2) v) as [Hv|Hv]; [|lia].
  destruct (Rle_dec (1 / 2) w) as [_|H]; [|exfalso; lra].
  apply lrintf_monotone, sqrt_le_1_alt. lra.
Qed.

Lemma X3_quantizer_monotone_witness :
  (ULC_CompandedQuantizeUnsigned 1 <= ULC_CompandedQuantizeUnsigned 2)%Z.
Proof.
  apply (X3_quantizer_monotone 1 2); [lra|rewrite QuantizerMax_value; lra].
Defined.

(** X4.  Where the cast does not cut, the signed coefficient quantizer is
    odd and never exceeds its limit: negating the input negates the code,
    and the code lies in [-Limit, Limit]. *)
Theorem X4_signed_quantizer_odd_and_limited (v : R) (Limit : Z) :
  Rabs v <= QuantizerMax -> (0 <= Limit)%Z ->
  ULC_CompandedQuantizeCoefficient (- v) Limit
  = (- ULC_CompandedQuantizeCoefficient v Limit)%Z /\
  (- Limit <= ULC_CompandedQuantizeCoefficient v Limit <= Limit)%Z.
Proof.
  intros Hv HL. unfold ULC_CompandedQuantizeCoefficient. rewrite Rabs_Ropp.
  pose proof (ULC_CompandedQuantizeCoefficientUnsigned_range (Rabs v) Limit Hv HL)
    as Hr.
  assert (Hint : (ULC_CompandedQuantizeCoefficientUnsigned (Rabs v) Limit < 2 ^ 31)%Z).
  { unfold ULC_CompandedQuantizeCoefficientUnsigned.
    pose proof (ULC_CompandedQuantizeUnsigned_nonneg (Rabs v) Hv).
    destruct (Z.ltb_spec (ULC_CompandedQuantizeUnsigned (Rabs v)) Limit); lia. }
  rewrite int_of_small by lia.
  assert (H0 : v = 0 -> ULC_CompandedQuantizeCoefficientUnsigned (Rabs v) Limit = 0%Z).
  { intros ->. rewrite Rabs_R0. unfold ULC_CompandedQuantizeCoefficientUnsigned.
    rewrite quantize_zero. destruct (Z.ltb_spec 0 Limit); lia. }
  destruct (Rlt_dec (- v) 0) as [Hn|Hn], (Rlt_dec v 0) as [Hp|Hp];
    try (exfalso; lra); split; try lia.
  assert (v = 0) by lra. rewrite (H0 H). reflexivity.
Qed.

Lemma X4_signed_quantizer_odd_and_limited_witness :
  ULC_CompandedQuantizeCoefficient (- 9) 7
  = (- ULC_CompandedQuantizeCoefficient 9 7)%Z /\
  (- 7 <= ULC_CompandedQuantizeCoefficient 9 7 <= 7)%Z.
Proof.
  apply (X4_signed_quantizer_odd_and_limited 9 7); [|lia].
  rewrite QuantizerMax_value, Rabs_pos_eq; lra.
Defined.

End QuantizerProperties.

(** ** Noise amplitude and the least-squares fit *)
Section NoiseParameters.
Import Float Helper NoiseFill.
Local Open Scope R_scope.

Lemma NoiseQ_loop_uniform (Data : FloatArray) (y : R) (count : nat) :
  forall (n : Z) (Sum SumW : R),
  (forall i, (n <= i < n + Z.of_nat count)%Z ->
             0 < Data (i * 2 + 0)%Z /\ Data (i * 2 + 1)%Z = Data (i * 2 + 0)%Z * y) ->
  Sum = SumW * y -> 0 <= SumW ->
  exists SumW',
    NoiseQ_loop Data count n (Sum, SumW) = (SumW' * y, SumW') /\
    SumW <= SumW' /\ (count <> O -> 0 < SumW').
Proof.
  induction count as [|count IH]; intros n Sum SumW Hd HS HW.
  - exists SumW. subst Sum. split; [reflexivity|]. split; [lra|congruence].
  - cbn [NoiseQ_loop]. destruct (Hd n ltac:(lia)) as [Hw Hwy].
    destruct (IH (n + 1)%Z (Sum + Data (n * 2 + 1)%Z) (SumW + Data (n * 2 + 0)%Z))
      as (SumW' & -> & Hle & _).
    + intros i Hi. apply Hd. lia.
    + rewrite Hwy, HS. ring.
    + lra.
    + exists SumW'. split; [reflexivity|]. split; lra.
Qed.

(** X5.  On a band range whose noise floor sits at one log-level [y] (every
    pair is [w, w*y] with a positive weight), the noise amplitude code is
    the quantized [exp(y)*q], except at [y = 0]: there the weighted sum is
    zero and the function returns 0 whatever [q] is. *)
Theorem X5_noise_amplitude_of_uniform_level
  (Data : FloatArray) (Band N : Z) (q y : R) :
  (1 <= Z.quot (N + Z.land Band 1 + 1) 2)%Z ->
  (forall n, (0 <= n < Z.quot (N + Z.land Band 1 + 1) 2)%Z ->
     0 < Data (n * 2 + 0 + Z.quot Band 2 * 2)%Z /\
     Data (n * 2 + 1 + Z.quot Band 2 * 2)%Z
     = Data (n * 2 + 0 + Z.quot Band 2 * 2)%Z * y) ->
  Block_Encode_EncodePass_GetNoiseQ Data Band N q
  = if Req_EM_T y 0 then 0%Z
    else ULC_CompandedQuantizeCoefficientUnsigned (exp y * q) (1 + 0x7).
Proof.
  intros HN Hd. unfold Block_Encode_EncodePass_GetNoiseQ.
  set (N' := Z.quot (N + Z.land Band 1 + 1) 2) in *.
  destruct (NoiseQ_loop_uniform
              (fun i => Data (i + Z.quot Band 2 * 2)%Z) y (Z.to_nat N') 0 0 0)
    as (SumW & -> & _ & Hpos).
  - intros i Hi. apply Hd. lia.
  - ring.
  - lra.
  - assert (HW : 0 < SumW) by (apply Hpos; lia).
    destruct (Req_EM_T (SumW * y) 0) as [H0|H0], (Req_EM_T y 0) as [Hy|Hy].
    + reflexivity.
    + exfalso. apply Hy. nra.
    + exfalso. apply H0. subst y. ring.
    + replace (SumW * y / SumW) with y by (field; lra). reflexivity.
Qed.

Lemma X5_noise_amplitude_of_uniform_level_witness :
  Block_Encode_EncodePass_GetNoiseQ (fun i => if Z.even i then 1 else 3) 0 2 1
  = if Req_EM_T 3 0 then 0%Z
    else ULC_CompandedQuantizeCoefficientUnsigned (exp 3 * 1) (1 + 0x7).
Proof.
  apply (X5_noise_amplitude_of_uniform_level
           (fun i => if Z.even i then 1 else 3) 0 2 1 3).
  - vm_compute. discriminate.
  - intros n Hn. change (Z.quot (2 + Z.land 0 1 + 1) 2) with 1%Z in Hn.
    assert (n = 0%Z) as -> by lia. cbn. lra.
Defined.

Lemma NoiseQ_loop_bounded (Data : FloatArray) (Y : R) (count : nat) :
  forall (n : Z) (Sum SumW : R),
  (forall i, (n <= i < n + Z.of_nat count)%Z ->
             0 < Data (i * 2 + 0)%Z /\ Data (i * 2 + 1)%Z <= Data (i * 2 + 0)%Z * Y) ->
  Sum <= SumW * Y -> 0 <= SumW ->
  exists Sum' SumW',
    NoiseQ_loop Data count n (Sum, SumW) = (Sum', SumW') /\
    Sum' <= SumW' * Y /\ SumW <= SumW' /\ (count <> O -> 0 < SumW').
Proof.
  induction count as [|count IH]; intros n Sum SumW Hd HS HW.
  - exists Sum, SumW. split; [reflexivity|]. split; [exact HS|].
    split; [lra|congruence].
  - cbn [NoiseQ_loop]. destruct (Hd n ltac:(lia)) as [Hw Hwy].
    destruct (IH (n + 1)%Z (Sum + Data (n * 2 + 1)%Z) (SumW + Data (n * 2 + 0)%Z))
      as (Sum' & SumW' & Hrun & Hle & Hmono & _).
    + intros i Hi. apply Hd. lia.
    + lra.
    + lra.
    + exists Sum', SumW'. split; [exact Hrun|]. split; [exact Hle|]. split; lra.
Qed.

(** X6.  On a band range with positive weights whose log-levels are at most
    [Y], and with [exp(Y) * q] at most [2^62 - 2^31] (so that the cast to
    [int] in the quantizer does not cut), the noise amplitude code lies in
    [0, 8]: the limit passed to the quantizer is 1 + 0x7 and is itself a
    possible result. *)
Theorem X6_noise_amplitude_range (Data : FloatArray) (Band N : Z) (q Y : R) :
  (forall n, (0 <= n < Z.quot (N + Z.land Band 1 + 1) 2)%Z ->
     0 < Data (n * 2 + 0 + Z.quot Band 2 * 2)%Z /\
     Data (n * 2 + 1 + Z.quot Band 2 * 2)%Z
     <= Data (n * 2 + 0 + Z.quot Band 2 * 2)%Z * Y) ->
  exp Y * q <= QuantizerMax ->
  (0 <= Block_Encode_EncodePass_GetNoiseQ Data Band N q <= 8)%Z.
Proof.
  intros Hd Hq. unfold Block_Encode_EncodePass_GetNoiseQ.
  set (N' := Z.quot (N + Z.land Band 1 + 1) 2) in *.
  destruct (Z.to_nat N') as [|c] eqn:Hc.
  { cbn [NoiseQ_loop]. destruct (Req_EM_T 0 0) as [_|H]; [lia|contradiction]. }
  destruct (NoiseQ_loop_bounded
              (fun i => Data (i + Z.quot Band 2 * 2)%Z) Y (S c) 0 0 0)
    as (Sum & SumW & -> & Hle & _ & Hpos).
  - intros i Hi. apply Hd. lia.
  - lra.
  - lra.
  - destruct (Req_EM_T Sum 0) as [_|Hnz]; [lia|].
    assert (HW : 0 < SumW) by (apply Hpos; discriminate).
    apply (ULC_CompandedQuantizeCoefficientUnsigned_range _ (1 + 0x7)); [|lia].
    assert (HA : exp (Sum / SumW) <= exp Y).
    { destruct (Rle_lt_or_eq_dec (Sum / SumW) Y) as [Hlt|Heq].
      - apply Rmult_le_reg_r with SumW; [exact HW|].
        replace (Sum / SumW * SumW) with Sum by (field; lra). lra.
      - left. apply exp_increasing. exact Hlt.
      - right. rewrite Heq. reflexivity. }
    pose proof (exp_pos (Sum / SumW)) as HA0.
    assert (HM : 0 <= QuantizerMax) by (rewrite QuantizerMax_value; lra).
    destruct (Rle_dec 0 q) as [Hq0|Hq0].
    + apply Rle_trans with (exp Y * q); [|exact Hq].
      apply Rmult_le_compat_r; assumption.
    + apply Rle_trans with 0; [|exact HM]. nra.
Qed.

Lemma X6_noise_amplitude_range_witness :
  (0 <= Block_Encode_EncodePass_GetNoiseQ
          (fun i => if Z.even i then 1%R else 3%R) 0 2 1%R
   <= 8)%Z.
Proof.
  apply (X6_noise_amplitude_range (fun i => if Z.even i then 1 else 3) 0 2 1 3).
  - intros n Hn. change (Z.quot (2 + Z.land 0 1 + 1) 2) with 1%Z in Hn.
    assert (n = 0%Z) as -> by lia. cbn. lra.
  - rewrite QuantizerMax_value, Rmult_1_r.
    apply Rle_trans with (exp 1 * (exp 1 * exp 1)).
    + rewrite <- !exp_plus. right. f_equal; lra.
    + pose proof exp_le_3 as H3. pose proof (exp_pos 1) as H0.
      assert (exp 1 * exp 1 <= 9) by nra. nra.
Defined.

End NoiseParameters.

Section LeastSquaresFit.
Import Float Helper NoiseFill.
Local Open Scope R_scope.

Variable Data : FloatArray.

(** The determinant the solver divides by, and the weighted second moment
    of the abscissas about a point [t]. *)
Definition Det (s : Sums) : R := SumW s * SumX2 s - SQR (SumX s).
Definition Spread (s : Sums) (t : R) : R :=
  SumW s * t * t - 2 * t * SumX s + SumX2 s.

(** Data on the line [y = a + b*x] keeps the sums on it. *)
Lemma LeastSquares_loop_line (a b : R) (count : nat) :
  forall (n : Z) (s : Sums),
  (forall i, (n <= i < n + Z.of_nat count)%Z ->
     Data (i * 2 + 1)%Z = Data (i * 2 + 0)%Z * (a + b * (IZR i * 2))) ->
  SumY s = a * SumW s + b * SumX s ->
  SumXY s = a * SumX s + b * SumX2 s ->
  SumY (LeastSquares_loop Data count n s)
  = a * SumW (LeastSquares_loop Data count n s)
    + b * SumX (LeastSquares_loop Data count n s) /\
  SumXY (LeastSquares_loop Data count n s)
  = a * SumX (LeastSquares_loop Data count n s)
    + b * SumX2 (LeastSquares_loop Data count n s).
Proof.
  induction count as [|count IH]; intros n s Hd HY HXY.
  - split; assumption.
  - cbn [LeastSquares_loop]. apply IH.
    + intros i Hi. apply Hd. lia.
    + cbn [SumY SumW SumX]. rewrite (Hd n ltac:(lia)), HY. ring.
    + cbn [SumXY SumX SumX2]. rewrite (Hd n ltac:(lia)), HXY. ring.
Qed.

(** With positive weights the determinant only grows, and strictly so with
    every point away from the origin. *)
Lemma LeastSquares_loop_Det (c : R) (count : nat) :
  forall (n : Z) (s : Sums),
  (1 <= n)%Z -> 0 < c ->
  (forall i, (n <= i < n + Z.of_nat count)%Z -> 0 < Data (i * 2 + 0)%Z) ->
  (forall t, c * t * t <= Spread s t) -> 0 <= Det s ->
  Det s <= Det (LeastSquares_loop Data count n s) /\
  (count <> O -> 0 < Det (LeastSquares_loop Data count n s)).
Proof.
  induction count as [|count IH]; intros n s Hn Hc Hw HS HD.
  - split; [cbn; lra|congruence].
  - cbn [LeastSquares_loop].
    set (w := Data (n * 2 + 0)%Z). set (x := IZR n * 2).
    set (s1 := {| SumX := SumX s + w * x; SumX2 := SumX2 s + w * x * x;
                  SumXY := SumXY s + x * Data (n * 2 + 1)%Z;
                  SumY := SumY s + Data (n * 2 + 1)%Z; SumW := SumW s + w |}).
    assert (Hw0 : 0 < w) by (apply Hw; lia).
    assert (Hx : 2 <= x) by (unfold x; apply IZR_le in Hn; lra).
    assert (HD1 : Det s1 = Det s + w * Spread s x)
      by (unfold Det, Spread, SQR, s1; cbn [SumX SumX2 SumW]; ring).
    assert (HS1 : forall t, c * t * t <= Spread s1 t).
    { intros t. pose proof (HS t) as Ht.
      replace (Spread s1 t) with (Spread s t + w * ((t - x) * (t - x)))
        by (unfold Spread, s1; cbn [SumX SumX2 SumW]; ring).
      pose proof (Rle_0_sqr (t - x)) as Hsq. unfold Rsqr in Hsq. nra. }
    assert (Hgt : Det s < Det s1).
    { rewrite HD1. pose proof (HS x) as Hxx.
      assert (Hcx : 0 < c * x) by (apply Rmult_lt_0_compat; lra).
      assert (Hcxx : 0 < c * x * x) by (apply Rmult_lt_0_compat; lra).
      assert (0 < w * (c * x * x)) by (apply Rmult_lt_0_compat; lra).
      assert (w * (c * x * x) <= w * Spread s x)
        by (apply Rmult_le_compat_l; lra).
      lra. }
    destruct (IH (n + 1)%Z s1 ltac:(lia) Hc) as [Hle _].
    + intros i Hi. apply Hw. lia.
    + exact HS1.
    + lra.
    + split; [lra|]. intros _. lra.
Qed.

(** X7.  The fit is exact on exact data: when at least two points with
    positive weights lie on the line [a + b*x] (over [x = 2n]), the solver
    succeeds and returns exactly [(a, b)]. *)
Theorem X7_least_squares_recovers_line (N : Z) (a b : R) :
  (2 <= N)%Z ->
  (forall n, (0 <= n < N)%Z ->
     0 < Data (n * 2 + 0)%Z /\
     Data (n * 2 + 1)%Z = Data (n * 2 + 0)%Z * (a + b * (IZR n * 2))) ->
  Block_Encode_EncodePass_GetHFExtParams_LeastSquares Data N = Some (a, b).
Proof.
  intros HN Hd. unfold Block_Encode_EncodePass_GetHFExtParams_LeastSquares.
  destruct (Z.to_nat N) as [|count] eqn:Hc; [lia|].
  cbn [LeastSquares_loop SumX SumX2 SumXY SumY SumW].
  set (s1 := {| SumX := 0 + Data (0 * 2 + 0)%Z * (IZR 0 * 2);
                SumX2 := 0 + Data (0 * 2 + 0)%Z * (IZR 0 * 2) * (IZR 0 * 2);
                SumXY := 0 + IZR 0 * 2 * Data (0 * 2 + 1)%Z;
                SumY := 0 + Data (0 * 2 + 1)%Z;
                SumW := 0 + Data (0 * 2 + 0)%Z |}).
  destruct (Hd 0%Z ltac:(lia)) as [Hw0 Hy0].
  destruct (LeastSquares_loop_line a b count (0 + 1)%Z s1) as [HY HXY].
  { intros i Hi. apply Hd. lia. }
  { unfold s1; cbn [SumY SumW SumX]. rewrite Hy0. ring. }
  { unfold s1; cbn [SumXY SumX SumX2]. rewrite Hy0. ring. }
  destruct (LeastSquares_loop_Det (Data (0 * 2 + 0)%Z) count (0 + 1)%Z s1)
    as [_ HDet]; try lia; try exact Hw0.
  { intros i Hi. apply Hd. lia. }
  { intros t. unfold Spread, s1; cbn [SumX SumX2 SumW]. nra. }
  { unfold Det, SQR, s1; cbn [SumX SumX2 SumW]. nra. }
  assert (Hpos : 0 < Det (LeastSquares_loop Data count (0 + 1) s1))
    by (apply HDet; lia).
  set (s := LeastSquares_loop Data count (0 + 1) s1) in *.
  unfold Det in Hpos.
  destruct (Req_EM_T (SumW s * SumX2 s - SQR (SumX s)) 0) as [H0|H0]; [lra|].
  rewrite HY, HXY. unfold SQR in *. f_equal. f_equal; field; exact H0.
Qed.

End LeastSquaresFit.

Lemma X7_least_squares_recovers_line_witness :
  NoiseFill.Block_Encode_EncodePass_GetHFExtParams_LeastSquares
    (fun i => if Z.even i then 1 else 5 + - 1 * (IZR (Z.quot i 2) * 2))%R 3
  = Some (5, - 1)%R.
Proof.
  apply (X7_least_squares_recovers_line
           (fun i => if Z.even i then 1 else 5 + - 1 * (IZR (Z.quot i 2) * 2))%R
           3 5 (- 1)); [lia|].
  intros n Hn.
  assert (Hc : n = 0 \/ n = 1 \/ n = 2) by lia.
  destruct Hc as [-> | [-> | ->]]; cbn; lra.
Defined.

Section HFExtensionEdges.
Import Float Helper NoiseFill.
Local Open Scope R_scope.

(** X8.  A range that leaves the fit at most one point cannot be solved:
    the determinant is 0, and the extractor disables the extension by
    returning 0 for both parameters. *)
Theorem X8_hf_ext_needs_two_points (Data : FloatArray) (Band N : Z) (q : R) :
  (N + Z.land Band 1 <= 2)%Z ->
  Block_Encode_EncodePass_GetHFExtParams_LeastSquares
    (fun i => Data (i + Z.quot Band 2 * 2)%Z) (Z.quot (N + Z.land Band 1 + 1) 2)
  = None /\
  Block_Encode_EncodePass_GetHFExtParams Data Band N q = (0%Z, 0%Z).
Proof.
  intros HN.
  assert (Hq : (Z.quot (N + Z.land Band 1 + 1) 2 <= 1)%Z).
  { apply Z.le_trans with (Z.quot 3 2); [apply Z.quot_le_mono; lia|cbn; lia]. }
  assert (Hnone :
    Block_Encode_EncodePass_GetHFExtParams_LeastSquares
      (fun i => Data (i + Z.quot Band 2 * 2)%Z)
      (Z.quot (N + Z.land Band 1 + 1) 2) = None).
  { unfold Block_Encode_EncodePass_GetHFExtParams_LeastSquares.
    destruct (Z.to_nat (Z.quot (N + Z.land Band 1 + 1) 2)) as [|[|n]] eqn:Hc;
      [| |lia];
      cbn [LeastSquares_loop SumX SumX2 SumW];
      (destruct (Req_EM_T _ 0) as [_|H0]; [reflexivity|]);
      exfalso; apply H0; unfold SQR; cbn; ring. }
  split; [exact Hnone|].
  unfold Block_Encode_EncodePass_GetHFExtParams. rewrite Hnone. reflexivity.
Qed.

Lemma X8_hf_ext_needs_two_points_witness :
  Block_Encode_EncodePass_GetHFExtParams_LeastSquares
    (fun i => FlatData (i + Z.quot 3 2 * 2)%Z) (Z.quot (1 + Z.land 3 1 + 1) 2)
  = None /\
  Block_Encode_EncodePass_GetHFExtParams FlatData 3 1 1 = (0%Z, 0%Z).
Proof. apply (X8_hf_ext_needs_two_points FlatData 3 1 1). cbn. lia. Defined.

(** X9.  A fit that does not decay is coded with decay 0: for a slope
    [b >= 0] the linear decay is clamped to 1 and the decay code is the
    quantized 0. *)
Theorem X9_rising_fit_has_no_decay (Data : FloatArray) (Band N : Z) (q a b : R) :
  Block_Encode_EncodePass_GetHFExtParams_LeastSquares
    (fun i => Data (i + Z.quot Band 2 * 2)%Z) (Z.quot (N + Z.land Band 1 + 1) 2)
  = Some (a, b) ->
  0 <= b ->
  snd (Block_Encode_EncodePass_GetHFExtParams Data Band N q) = 0%Z.
Proof.
  intros Hfit Hb. unfold Block_Encode_EncodePass_GetHFExtParams.
  rewrite Hfit. cbn [snd].
  assert (He : 1 <= exp b).
  { rewrite <- exp_0. destruct Hb as [Hb|<-]; [|lra].
    left. apply exp_increasing. exact Hb. }
  assert (Hz : forall d, d = 1 ->
            ULC_CompandedQuantizeUnsigned ((d - 1) * - 2 ^ 19) = 0%Z).
  { intros d ->. replace ((1 - 1) * - 2 ^ 19) with 0 by ring.
    apply quantize_zero. }
  destruct (Rgt_dec (exp b) 1) as [Hgt|Hle].
  - rewrite (Hz 1 eq_refl). reflexivity.
  - rewrite (Hz (exp b)) by lra. reflexivity.
Qed.

Lemma X9_rising_fit_has_no_decay_witness :
  snd (Block_Encode_EncodePass_GetHFExtParams FlatData 0 4 (1025 / 16)) = 0%Z.
Proof.
  apply (X9_rising_fit_has_no_decay FlatData 0 4 (1025 / 16) 0 0).
  - exact FlatData_fit.
  - lra.
Defined.

End HFExtensionEdges.

(** ** The weights of the noise spectrum *)
Section NoiseWeights.
Import NoiseFill.
Local Open Scope R_scope.

Lemma Squarings_pow (count : nat) :
  forall y : R, Squarings count y = y ^ (2 ^ count)%nat.
Proof.
  induction count as [|count IH]; intros y.
  - cbn. ring.
  - cbn [Squarings]. rewrite IH, <- pow_sqr, Nat.pow_succ_r'. reflexivity.
Qed.

Lemma Squarings_monotone (count : nat) :
  forall y z : R, 0 <= y <= z -> 0 <= Squarings count y <= Squarings count z.
Proof.
  induction count as [|count IH]; intros y z Hyz; [exact Hyz|].
  cbn [Squarings]. apply IH. nra.
Qed.

Lemma Squarings_exp (count : nat) :
  forall t : R, Squarings count (exp t) = exp (2 ^ count * t).
Proof.
  induction count as [|count IH]; intros t.
  - cbn. f_equal. ring.
  - cbn [Squarings]. rewrite <- exp_plus, IH. f_equal.
    change (2 ^ S count) with (2 * 2 ^ count). ring.
Qed.

(** X10.  The weight stored for a log-level [x] is [(1 + x/512)^256]; it is
    never negative and, from [x = -512] upwards, never above the [exp(x/2)]
    it stands for. *)
Theorem X10_weight_approximates_exp (x : R) :
  Weight_of x = (1 + x / 512) ^ 256 /\
  0 <= Weight_of x /\
  (- 512 <= x -> Weight_of x <= exp (x / 2)).
Proof.
  unfold Weight_of. change (Z.to_nat Log2M) with 8%nat.
  change (Z.shiftl 1 Log2M) with 256%Z.
  replace (1 + x * (1 / 2 / 256)) with (1 + x / 512) by lra.
  split; [rewrite Squarings_pow; reflexivity|]. split.
  - rewrite Squarings_pow. change (2 ^ 8)%nat with (2 * 128)%nat.
    rewrite pow_sqr. apply pow_le.
    pose proof (Rle_0_sqr (1 + x / 512)) as Hsq. exact Hsq.
  - intros Hx.
    replace (x / 2) with (2 ^ 8 * (x / 512)) by (simpl; lra).
    rewrite <- Squarings_exp. apply Squarings_monotone.
    pose proof (exp_ineq1_le (x / 512)). lra.
Qed.

Lemma X10_weight_approximates_exp_witness : Weight_of 0 <= exp (0 / 2).
Proof. apply (X10_weight_approximates_exp 0). lra. Defined.

Lemma poke_other (Mem : Z -> R) (i j : Z) (v : R) :
  j <> i -> poke Mem i v j = Mem j.
Proof. intros H. unfold poke. destruct (Z.eqb_spec j i); [contradiction|reflexivity]. Qed.

Lemma poke_same (Mem : Z -> R) (i : Z) (v : R) : poke Mem i v i = v.
Proof. unfold poke. rewrite Z.eqb_refl. reflexivity. Qed.

(** The loop with the destination at or below the source by at least the
    number of pairs still to write: no source cell is overwritten before it
    is read. *)
Lemma WithWeights_loop_spec (count : nat) :
  forall (Dst Src : Z) (Mem : Z -> R),
  (Dst + Z.of_nat count <= Src)%Z ->
  (forall j, (j < Dst)%Z -> WithWeights_loop count Dst Src Mem j = Mem j) /\
  (forall n, (0 <= n < Z.of_nat count)%Z ->
     WithWeights_loop count Dst Src Mem (Dst + 2 * n)%Z
     = Weight_of (Mem (Src + n)%Z) /\
     WithWeights_loop count Dst Src Mem (Dst + 2 * n + 1)%Z
     = Mem (Src + n)%Z * Weight_of (Mem (Src + n)%Z)).
Proof.
  induction count as [|count IH]; intros Dst Src Mem Hgap.
  - split; [reflexivity|]. intros n Hn. cbn in Hn. lia.
  - cbn [WithWeights_loop].
    set (x := Mem Src). set (y := Weight_of x).
    set (Mem1 := poke (poke Mem Dst y) (Dst + 1) (x * y)).
    destruct (IH (Dst + 2)%Z (Src + 1)%Z Mem1 ltac:(lia)) as [Hlow Hpairs].
    assert (Hsrc : forall j, (Dst + 1 < j)%Z -> Mem1 j = Mem j).
    { intros j Hj. unfold Mem1. rewrite !poke_other by lia. reflexivity. }
    split.
    + intros j Hj. rewrite Hlow by lia. unfold Mem1.
      rewrite !poke_other by lia. reflexivity.
    + intros n Hn. destruct (Z.eq_dec n 0) as [->|Hn0].
      * replace (Dst + 2 * 0)%Z with Dst by lia.
        replace (Src + 0)%Z with Src by lia.
        rewrite !Hlow by lia. unfold Mem1.
        rewrite poke_other, !poke_same by lia. split; reflexivity.
      * destruct (Hpairs (n - 1)%Z ltac:(lia)) as [H1 H2].
        replace (Dst + 2 + 2 * (n - 1))%Z with (Dst + 2 * n)%Z in * by lia.
        replace (Src + 1 + (n - 1))%Z with (Src + n)%Z in * by lia.
        rewrite Hsrc in H1, H2 by lia. split; assumption.
Qed.

(** X11.  The weights can be computed in place the way the noise analysis
    does it, with the [N] log-levels in the upper half of the [2N] cells
    they are written to: pair [n] of the result holds the weight of the
    ORIGINAL level [n] and that level times its weight. *)
Theorem X11_weights_in_place (Mem : Z -> R) (base N n : Z) :
  (0 <= n < N)%Z ->
  Block_Transform_CalculateNoiseLogSpectrumWithWeights Mem base (base + N) N
    (base + 2 * n)%Z
  = Weight_of (Mem (base + N + n)%Z) /\
  Block_Transform_CalculateNoiseLogSpectrumWithWeights Mem base (base + N) N
    (base + 2 * n + 1)%Z
  = Mem (base + N + n)%Z * Weight_of (Mem (base + N + n)%Z).
Proof.
  intros Hn. unfold Block_Transform_CalculateNoiseLogSpectrumWithWeights.
  destruct (WithWeights_loop_spec (Z.to_nat N) base (base + N)%Z Mem ltac:(lia))
    as [_ H].
  apply H. lia.
Qed.

Lemma X11_weights_in_place_witness :
  Block_Transform_CalculateNoiseLogSpectrumWithWeights (fun i => IZR i) 0 (0 + 4) 4
    (0 + 2 * 3)%Z
  = Weight_of (IZR (0 + 4 + 3)) /\
  Block_Transform_CalculateNoiseLogSpectrumWithWeights (fun i => IZR i) 0 (0 + 4) 4
    (0 + 2 * 3 + 1)%Z
  = IZR (0 + 4 + 3) * Weight_of (IZR (0 + 4 + 3)).
Proof. apply (X11_weights_in_place (fun i => IZR i) 0 4 3). lia. Defined.

End NoiseWeights.

(** ** The overlap scale of Block_Transform_GetLogOverlapScale *)
Section LogOverlapScale.
Import Float BlockTransform.

Lemma StepSum_loop_ge (Energy : Z -> R) (count : nat) :
  forall (n : Z) (StepSum : R),
  (StepSum <= StepSum_loop Energy count n StepSum)%R.
Proof.
  induction count as [|count IH]; intros n StepSum; cbn [StepSum_loop]; [lra|].
  eapply Rle_trans; [|apply IH].
  pose proof (Rle_0_sqr (Energy n - Energy (n - 1)%Z)%R) as H.
  unfold Rsqr in H. unfold SQR. lra.
Qed.

(** A sub-block leaves the ratio at 1 or above and a positive step energy
    behind, provided the step energy it starts from is positive. *)
Lemma AnalyzeSubBlock_invariant (EnergyBuffer : Z -> R)
  (SubBlockOffs SubBlockSize : Z) (st : StepState) :
  (1 <= Ratio st)%R -> (0 < BlockEnergy st)%R ->
  (1 <= Ratio (AnalyzeSubBlock EnergyBuffer SubBlockOffs SubBlockSize st))%R /\
  (0 < BlockEnergy (AnalyzeSubBlock EnergyBuffer SubBlockOffs SubBlockSize st))%R.
Proof.
  intros HR HB. unfold AnalyzeSubBlock. cbn [Ratio BlockEnergy].
  match goal with |- context [StepSum_loop ?E ?c ?n ?S0] =>
    pose proof (StepSum_loop_ge E c n S0) as Hge;
    assert (H0 : (0 <= S0)%R) by apply Rle_0_sqr;
    set (StepSum := StepSum_loop E c n S0) in *
  end.
  assert (Heps : (0 < / IZR (10 ^ 30))%R).
  { apply Rinv_0_lt_compat. apply IZR_lt. reflexivity. }
  split; [|lra].
  destruct (Rgt_dec _ (Ratio st)) as [Hgt|_]; [|exact HR].
  apply Rle_trans with (Ratio st); [exact HR|left; exact Hgt].
Qed.

Lemma AnalyzeSubBlocks_returns (EnergyBuffer : Z -> R) (BlockSize SubBlockSize : Z)
  (fuel : nat) :
  forall (SubBlockOffs : Z) (st : StepState),
  1 <= SubBlockSize ->
  (Z.to_nat (BlockSize - SubBlockOffs) <= fuel)%nat ->
  (1 <= Ratio st)%R -> (0 < BlockEnergy st)%R ->
  exists st',
    AnalyzeSubBlocks EnergyBuffer BlockSize SubBlockSize fuel SubBlockOffs st
    = Some st' /\
    (1 <= Ratio st')%R /\ (0 < BlockEnergy st')%R.
Proof.
  induction fuel as [|fuel IH]; intros offs st HS Hfuel HR HB.
  - cbn [AnalyzeSubBlocks]. destruct (Z.ltb_spec offs BlockSize); [lia|].
    exists st. auto.
  - cbn [AnalyzeSubBlocks]. destruct (Z.ltb_spec offs BlockSize).
    + destruct (AnalyzeSubBlock_invariant EnergyBuffer offs SubBlockSize st HR HB)
        as [HR' HB'].
      apply IH; [exact HS|lia|exact HR'|exact HB'].
    + exists st. auto.
Qed.

Lemma RatioToScale_range (Ratio : R) : 0 <= RatioToScale Ratio <= 15.
Proof.
  unfold RatioToScale. set (z := to_int _).
  destruct (Z.ltb_spec z 0x0); [cbn; lia|].
  destruct (Z.gtb_spec z 0xF); lia.
Qed.

Lemma shiftr_antitone (x a b : Z) :
  0 <= x -> 0 <= a <= b -> Z.shiftr x b <= Z.shiftr x a.
Proof.
  intros Hx Hab. rewrite !Z.shiftr_div_pow2 by lia.
  replace b with (a + (b - a)) by lia. rewrite Z.pow_add_r by lia.
  rewrite <- Z.div_div by (try apply Z.pow_pos_nonneg; lia).
  assert (0 < 2 ^ (b - a)) by (apply Z.pow_pos_nonneg; lia).
  assert (0 <= x / 2 ^ a) by (apply Z.div_pos; [lia|apply Z.pow_pos_nonneg; lia]).
  apply Z.div_le_upper_bound; [lia|]. nia.
Qed.

(** The first loop stops on the largest scale not above the start at which
    the overlap is long enough. *)
Lemma LowerOverlap_spec (BlockSize MinOverlap : Z) (s0 : nat) :
  MinOverlap <= BlockSize ->
  exists s,
    LowerOverlap BlockSize MinOverlap s0 = Some s /\
    0 <= s <= Z.of_nat s0 /\ MinOverlap <= Z.shiftr BlockSize s.
Proof.
  intros HB. induction s0 as [|s0 IH].
  - cbn [LowerOverlap]. change (Z.of_nat 0) with 0. rewrite Z.shiftr_0_r.
    destruct (Z.ltb_spec BlockSize MinOverlap); [lia|].
    exists 0. rewrite Z.shiftr_0_r. repeat split; lia.
  - cbn [LowerOverlap].
    destruct (Z.ltb_spec (Z.shiftr BlockSize (Z.of_nat (S s0))) MinOverlap).
    + destruct IH as (s & -> & Hs & Hm). exists s. repeat split; lia.
    + exists (Z.of_nat (S s0)). repeat split; lia.
Qed.

(** The second loop stops on the smallest scale not below the start at
    which the overlap is short enough. *)
Lemma RaiseOverlap_spec (BlockSize MaxOverlap k : Z) (fuel : nat) :
  forall s : Z,
  0 <= BlockSize -> 0 <= k -> 0 <= s -> k <= s + Z.of_nat fuel ->
  Z.shiftr BlockSize k <= MaxOverlap ->
  exists s',
    RaiseOverlap BlockSize MaxOverlap fuel s = Some s' /\
    s <= s' /\ Z.shiftr BlockSize s' <= MaxOverlap /\
    (s' = s \/ s' <= k).
Proof.
  assert (Hstop : forall s, 0 <= BlockSize -> 0 <= k -> k <= s ->
            Z.shiftr BlockSize k <= MaxOverlap ->
            Z.shiftr BlockSize s <= MaxOverlap).
  { intros s HB Hk Hks Hmax.
    pose proof (shiftr_antitone BlockSize k s HB ltac:(lia)). lia. }
  induction fuel as [|fuel IH]; intros s HB Hk0 Hs Hk Hmax.
  - cbn [RaiseOverlap]. destruct (Z.gtb_spec (Z.shiftr BlockSize s) MaxOverlap).
    + exfalso. pose proof (Hstop s HB Hk0 ltac:(lia) Hmax). lia.
    + exists s. split; [reflexivity|]. split; [lia|]. split; [lia|]. left. reflexivity.
  - cbn [RaiseOverlap]. destruct (Z.gtb_spec (Z.shiftr BlockSize s) MaxOverlap).
    + assert (s < k).
      { destruct (Z.lt_ge_cases s k); [assumption|].
        pose proof (Hstop s HB Hk0 ltac:(lia) Hmax). lia. }
      destruct (IH (s + 1) HB Hk0 ltac:(lia) ltac:(lia) Hmax)
        as (s' & -> & Hs' & Hm & Hor).
      exists s'. split; [reflexivity|]. split; [lia|]. split; [lia|].
      right. destruct Hor as [->|]; lia.
    + exists s. split; [reflexivity|]. split; [lia|]. split; [lia|]. left. reflexivity.
Qed.

Lemma shiftr_31 (x k : Z) : 0 <= x < 2 ^ 31 -> 0 <= k -> 1 <= Z.shiftr x k -> k <= 30.
Proof.
  intros Hx Hk H1. destruct (Z.le_gt_cases k 30) as [|Hgt]; [assumption|exfalso].
  pose proof (shiftr_antitone x 31 k ltac:(lia) ltac:(lia)) as Ha.
  rewrite (Z.shiftr_div_pow2 x 31) in Ha by lia.
  rewrite Z.div_small in Ha by lia. lia.
Qed.

(** The function returns whenever some scale meets both bounds, and then
    the scale it returns meets them. *)
Lemma GetLogOverlapScale_returns (Data EnergyBuffer : Z -> R)
  (LastBlockEnergy LastSampleEnergy : R)
  (BlockSize MinOverlap MaxOverlap nChan k : Z) :
  (0 < LastBlockEnergy)%R ->
  1 <= BlockSize < 2 ^ 31 -> 1 <= MinOverlap -> 0 <= k ->
  MinOverlap <= Z.shiftr BlockSize k <= MaxOverlap ->
  exists s E' S',
    Block_Transform_GetLogOverlapScale Data EnergyBuffer LastBlockEnergy
      LastSampleEnergy BlockSize MinOverlap MaxOverlap nChan = Some (s, E', S') /\
    0 <= s <= 30 /\
    MinOverlap <= Z.shiftr BlockSize s <= MaxOverlap /\
    (0 < E')%R.
Proof.
  intros HE HB HMin Hk Hfit.
  unfold Block_Transform_GetLogOverlapScale.
  set (EB := CombineChannels _ _ _ _ _).
  set (SBS := if BlockSize <? 256 then BlockSize else 256).
  assert (HSBS : 1 <= SBS) by (unfold SBS; destruct (Z.ltb_spec BlockSize 256); lia).
  destruct (AnalyzeSubBlocks_returns EB BlockSize SBS (Z.to_nat BlockSize) 0
              (mkStep 1 LastBlockEnergy LastSampleEnergy) HSBS ltac:(lia))
    as (st & -> & HR & HE'); [cbn; lra|exact HE|].
  pose proof (RatioToScale_range (Ratio st)) as Hr.
  assert (Hk30 : k <= 30) by (apply (shiftr_31 BlockSize); lia).
  assert (HminB : MinOverlap <= BlockSize).
  { pose proof (shiftr_antitone BlockSize 0 k ltac:(lia) ltac:(lia)) as Ha.
    rewrite Z.shiftr_0_r in Ha. lia. }
  destruct (LowerOverlap_spec BlockSize MinOverlap (Z.to_nat (RatioToScale (Ratio st)))
              HminB) as (s1 & -> & Hs1 & Hm1).
  assert (Hs1' : s1 <= 30) by (apply (shiftr_31 BlockSize); lia).
  set (k' := Z.max k s1).
  assert (Hk' : Z.shiftr BlockSize k' <= MaxOverlap).
  { pose proof (shiftr_antitone BlockSize k k' ltac:(lia) ltac:(lia)). lia. }
  destruct (RaiseOverlap_spec BlockSize MaxOverlap k' (Z.to_nat (31 - s1)) s1
              ltac:(lia) ltac:(lia) ltac:(lia) ltac:(lia) Hk')
    as (s2 & -> & Hs2 & Hm2 & Hor).
  exists s2, (BlockEnergy st), (SampleEnergy st).
  split; [reflexivity|].
  assert (Hlow : MinOverlap <= Z.shiftr BlockSize s2).
  { destruct Hor as [->|Hle]; [exact Hm1|].
    destruct (Z.eq_dec s2 s1) as [->|Hne]; [exact Hm1|].
    destruct (Z.le_gt_cases s2 k) as [Hsk|Hsk].
    - pose proof (shiftr_antitone BlockSize s2 k ltac:(lia) ltac:(lia)). lia.
    - exfalso. unfold k' in Hle. lia. }
  split; [|split; [lia|exact HE']].
  split; [lia|]. apply (shiftr_31 BlockSize); lia.
Qed.

(** X12.  Whenever some power-of-two fraction of the block lies between
    the two overlap bounds, the scale returned describes such a fraction:
    [MinOverlap <= BlockSize >> OverlapScale <= MaxOverlap]; the step energy
    left for the next block is positive again. *)
Theorem X12_log_overlap_scale_within_bounds (Data EnergyBuffer : Z -> R)
  (LastBlockEnergy LastSampleEnergy : R)
  (BlockSize MinOverlap MaxOverlap nChan k : Z) :
  (0 < LastBlockEnergy)%R ->
  1 <= BlockSize < 2 ^ 31 -> 1 <= MinOverlap -> 0 <= k ->
  MinOverlap <= Z.shiftr BlockSize k <= MaxOverlap ->
  exists s E' S',
    Block_Transform_GetLogOverlapScale Data EnergyBuffer LastBlockEnergy
      LastSampleEnergy BlockSize MinOverlap MaxOverlap nChan = Some (s, E', S') /\
    0 <= s <= 30 /\
    MinOverlap <= Z.shiftr BlockSize s <= MaxOverlap /\
    (0 < E')%R.
Proof. exact (GetLogOverlapScale_returns Data EnergyBuffer LastBlockEnergy
                LastSampleEnergy BlockSize MinOverlap MaxOverlap nChan k). Qed.

Lemma X12_log_overlap_scale_within_bounds_witness :
  exists s E' S',
    Block_Transform_GetLogOverlapScale (fun _ => 0%R) (fun _ => 0%R) 1 0
      2048 16 2048 2 = Some (s, E', S') /\
    0 <= s <= 30 /\
    16 <= Z.shiftr 2048 s <= 2048 /\
    (0 < E')%R.
Proof.
  apply (X12_log_overlap_scale_within_bounds (fun _ => 0%R) (fun _ => 0%R) 1 0
           2048 16 2048 2 3); try lia; try lra.
  change (Z.shiftr 2048 3) with 256. lia.
Defined.

End LogOverlapScale.

(** ** Keys and quantizer zones of Block_Transform_InsertKeys *)
Section KeyZones.
Import BlockTransform.
Local Open Scope R_scope.

Variable ULC_MAX_QBANDS : Z.
Variable Psycho : bool.
Variable MaskingThreshold : Z -> R * R.
Variables Coef CoefNp : Z -> R.
Variables (ChanNo : Z) (AnalysisPowerNp QuantRange : R).

Let band := InsertKeys_band ULC_MAX_QBANDS Psycho MaskingThreshold Coef CoefNp
              ChanNo AnalysisPowerNp QuantRange.
Let loop := InsertKeys_loop ULC_MAX_QBANDS Psycho MaskingThreshold Coef CoefNp
              ChanNo AnalysisPowerNp QuantRange.

(** Keys in strictly increasing band order from band [b] on, whose zone
    numbers start at [q] or [q + 1], never decrease and rise by at most one
    from a key to the next. *)
Inductive Zoned : Z -> Z -> list AnalysisKey_t -> Prop :=
  | Zoned_nil (b q : Z) : Zoned b q []
  | Zoned_cons (b q : Z) (k : AnalysisKey_t) (l : list AnalysisKey_t) :
      (b <= Band k)%Z -> (q <= QBand k <= q + 1)%Z ->
      Zoned (Band k + 1) (QBand k) l -> Zoned b q (k :: l).

Lemma Zoned_from (b b' q : Z) (l : list AnalysisKey_t) :
  Zoned b' q l -> (b <= b')%Z -> Zoned b q l.
Proof.
  intros H Hb. inversion H; subst; constructor; try lia; assumption.
Qed.

(** The zone budget: zone numbers stay below [ULC_MAX_QBANDS] (and at 0
    when the budget is not positive). *)
Definition ZoneLimit : Z := Z.max 0 (ULC_MAX_QBANDS - 1).

(** A zone nothing was accumulated into does not split. *)
Definition Fresh (z : Zone) : Prop := QBandAvg z = 0 /\ QBandAvgW z = 0.

Lemma SplitZone_cases (ValNp : R) (z : Zone) :
  let z' := SplitZone ULC_MAX_QBANDS QuantRange ValNp z in
  (zQBand z <= zQBand z' <= zQBand z + 1)%Z /\
  ((zQBand z <= ZoneLimit)%Z -> (zQBand z' <= ZoneLimit)%Z) /\
  (Fresh z -> zQBand z' = zQBand z).
Proof.
  cbv zeta. unfold SplitZone, ZoneLimit, Fresh.
  destruct (Rlt_dec _ _) as [H1|H1], (Rgt_dec _ _) as [H2|H2]; cbn [orb];
    try (destruct (Z.ltb_spec (zQBand z) (ULC_MAX_QBANDS - 1)); cbn [zQBand]);
    (split; [lia|]); (split; [lia|]); intros [Ha Hw];
    try reflexivity; exfalso; rewrite Ha, Hw in *; lra.
Qed.

(** A key written for band [b]. *)
Definition KeyAt (b : Z) (k : AnalysisKey_t) : Prop :=
  Band k = b /\ Chan k = ChanNo /\
  CoefNp b <> ULC_COEF_NEPER_OUT_OF_RANGE /\
  Val k = KeyVal Psycho MaskingThreshold AnalysisPowerNp b (CoefNp b).

Lemma InsertKeys_loop_zones (count : nat) :
  forall (b : Z) (z : Zone) (Keys : list AnalysisKey_t),
  exists z' new,
    loop count b (z, Keys) = (z', Keys ++ new) /\
    Zoned b (zQBand z) new /\
    ((zQBand z <= ZoneLimit)%Z ->
     Forall (fun k => (QBand k <= ZoneLimit)%Z) new) /\
    (Fresh z -> match new with [] => True | k :: _ => QBand k = zQBand z end) /\
    (length new <= count)%nat /\
    (forall k, In k new ->
       exists b', (b <= b' < b + Z.of_nat count)%Z /\ KeyAt b' k) /\
    (forall b', (b <= b' < b + Z.of_nat count)%Z ->
       CoefNp b' <> ULC_COEF_NEPER_OUT_OF_RANGE -> exists k, In k new /\ KeyAt b' k).
Proof.
  induction count as [|count IH]; intros b z Keys.
  - exists z, []. split; [cbn; rewrite app_nil_r; reflexivity|].
    split; [constructor|]. split; [constructor|]. split; [trivial|].
    split; [cbn; lia|]. split; [intros k []|intros b' Hb'; lia].
  - unfold loop. cbn [InsertKeys_loop]. fold loop.
    unfold InsertKeys_band.
    destruct (Req_EM_T (CoefNp b) ULC_COEF_NEPER_OUT_OF_RANGE) as [Hskip|Hin].
    + destruct (IH (b + 1)%Z z Keys)
        as (z' & new & Heq & HZ & HL & HF & Hlen & Hall & Hex).
      exists z', new. split; [exact Heq|].
      split.
      { apply (Zoned_from b (b + 1)); [exact HZ|lia]. }
      split; [exact HL|]. split; [exact HF|]. split; [lia|]. split.
      * intros k Hk. destruct (Hall k Hk) as (b' & Hb' & HK).
        exists b'. split; [lia|exact HK].
      * intros b' Hb' Hne. destruct (Z.eq_dec b' b) as [->|Hnb]; [contradiction|].
        apply Hex; [lia|exact Hne].
    + destruct (SplitZone_cases (CoefNp b) z) as (Hstep & Hlim & Hfresh).
      set (z1 := SplitZone ULC_MAX_QBANDS QuantRange (CoefNp b) z) in *.
      set (z2 := mkZone (zQBand z1) (QBandAvg z1 + SQR (Coef b) * CoefNp b)
                        (QBandAvgW z1 + SQR (Coef b))).
      set (k1 := mkKey b ChanNo (zQBand z2)
                       (KeyVal Psycho MaskingThreshold AnalysisPowerNp b (CoefNp b))).
      destruct (IH (b + 1)%Z z2 (Keys ++ [k1]))
        as (z' & new & Heq & HZ & HL & _ & Hlen & Hall & Hex).
      exists z', (k1 :: new).
      split; [rewrite Heq, <- app_assoc; reflexivity|].
      split; [constructor; cbn [Band QBand k1 zQBand z2]; [lia|lia|exact HZ]|].
      split.
      { intros Hz. constructor; [cbn [QBand k1 zQBand z2]; auto|].
        apply HL. cbn [zQBand z2]. auto. }
      split; [intros HF; cbn [QBand k1 zQBand z2]; auto|].
      split; [cbn [length]; lia|]. split.
      * intros k [<-|Hk].
        -- exists b. split; [lia|]. repeat split. exact Hin.
        -- destruct (Hall k Hk) as (b' & Hb' & HK). exists b'. split; [lia|exact HK].
      * intros b' Hb' Hne. destruct (Z.eq_dec b' b) as [->|Hnb].
        -- exists k1. split; [left; reflexivity|]. repeat split. exact Hin.
        -- destruct (Hex b' ltac:(lia) Hne) as (k & Hk & HK).
           exists k. split; [right; exact Hk|exact HK].
Qed.

(** What one call appends, whichever way the psychoacoustics switch is
    set. *)
Lemma InsertKeys_zones (Keys : list AnalysisKey_t) (BlockSize : Z) :
  exists new,
    Block_Transform_InsertKeys ULC_MAX_QBANDS Psycho MaskingThreshold Coef CoefNp
      ChanNo AnalysisPowerNp QuantRange Keys BlockSize = Keys ++ new /\
    Zoned 0 0 new /\
    Forall (fun k => (QBand k <= ZoneLimit)%Z) new /\
    match new with [] => True | k :: _ => QBand k = 0%Z end /\
    (Z.of_nat (length new) <= Z.max 0 BlockSize)%Z /\
    (forall k, In k new -> (0 <= Band k < BlockSize)%Z /\ KeyAt (Band k) k) /\
    (forall b, (0 <= b < BlockSize)%Z ->
       CoefNp b <> ULC_COEF_NEPER_OUT_OF_RANGE -> exists k, In k new /\ KeyAt b k).
Proof.
  unfold Block_Transform_InsertKeys.
  destruct (InsertKeys_loop_zones (Z.to_nat BlockSize) 0%Z (mkZone 0 0 0) Keys)
    as (z' & new & Heq & HZ & HL & HF & Hlen & Hall & Hex).
  unfold loop in Heq. rewrite Heq. exists new. cbn [snd zQBand] in *.
  split; [reflexivity|]. split; [exact HZ|].
  split; [apply HL; unfold ZoneLimit; lia|].
  split; [apply HF; split; reflexivity|]. split; [lia|]. split.
  - intros k Hk. destruct (Hall k Hk) as (b' & Hb' & HK).
    assert (Hb : Band k = b') by apply HK. rewrite Hb. split; [lia|exact HK].
  - intros b Hb Hne. apply Hex; [lia|exact Hne].
Qed.

(** X13.  One call appends its keys in strictly increasing band order and
    numbers the quantizer zones consecutively: the first key is in zone 0,
    the zone number never decreases, rises by at most one from a key to the
    next, and never reaches [ULC_MAX_QBANDS]; at most [BlockSize] keys are
    appended. *)
Theorem X13_keys_in_band_order_with_consecutive_zones
  (Keys : list AnalysisKey_t) (BlockSize : Z) :
  exists new,
    Block_Transform_InsertKeys ULC_MAX_QBANDS Psycho MaskingThreshold Coef CoefNp
      ChanNo AnalysisPowerNp QuantRange Keys BlockSize = Keys ++ new /\
    Zoned 0 0 new /\
    Forall (fun k => (QBand k <= Z.max 0 (ULC_MAX_QBANDS - 1))%Z) new /\
    match new with [] => True | k :: _ => QBand k = 0%Z end /\
    (Z.of_nat (length new) <= Z.max 0 BlockSize)%Z.
Proof.
  destruct (InsertKeys_zones Keys BlockSize) as (new & H1 & H2 & H3 & H4 & H5 & _).
  exists new. repeat split; assumption.
Qed.

End KeyZones.

(** ** Scaling, log-magnitudes and the keys of a block *)
Section ScaledKeys.
Import BlockTransform.
Local Open Scope R_scope.

(** What [Block_Transform_ScaleAndToNepers] leaves for a coefficient [c] of
    a block of [BlockSize]: the scaled coefficient and its log-magnitude. *)
Definition Scaled (BlockSize : Z) (c : R) : R := c * 2 / IZR BlockSize.
Definition Nepers (v : R) : R :=
  if Rlt_dec (Rabs v) (1 / 2 * ULC_COEF_EPS)
  then ULC_COEF_NEPER_OUT_OF_RANGE else ln (Rabs v).

Lemma ScaleAndToNepers_loop_spec (BlockSize : Z) (count : nat) :
  forall (n : Z) (Dst Src : Z -> R) (b : Z),
  ((n <= b < n + Z.of_nat count)%Z ->
   snd (ScaleAndToNepers_loop BlockSize count n (Dst, Src)) b
   = Scaled BlockSize (Src b) /\
   fst (ScaleAndToNepers_loop BlockSize count n (Dst, Src)) b
   = Nepers (Scaled BlockSize (Src b))) /\
  (~ (n <= b < n + Z.of_nat count)%Z ->
   snd (ScaleAndToNepers_loop BlockSize count n (Dst, Src)) b = Src b /\
   fst (ScaleAndToNepers_loop BlockSize count n (Dst, Src)) b = Dst b).
Proof.
  induction count as [|count IH]; intros n Dst Src b.
  - split; [intros H; cbn in H; lia|]. intros _. split; reflexivity.
  - cbn [ScaleAndToNepers_loop ScaleAndToNepers_band].
    match goal with |- context [ScaleAndToNepers_loop _ _ _ (?D, ?S)] =>
      destruct (IH (n + 1)%Z D S b) as [Hin Hout] end.
    split.
    + intros Hb. destruct (Z.eq_dec b n) as [->|Hne].
      * destruct Hout as [-> ->]; [lia|].
        unfold NoiseFill.poke. rewrite Z.eqb_refl. split; reflexivity.
      * destruct Hin as [-> ->]; [lia|].
        unfold NoiseFill.poke. destruct (Z.eqb_spec b n); [contradiction|].
        split; reflexivity.
    + intros Hb. destruct Hout as [-> ->]; [lia|].
      unfold NoiseFill.poke. destruct (Z.eqb_spec b n); [lia|].
      split; reflexivity.
Qed.

Lemma ScaleAndToNepers_spec (Dst Src : Z -> R) (BlockSize b : Z) :
  (0 <= b < BlockSize)%Z ->
  snd (Block_Transform_ScaleAndToNepers Dst Src BlockSize) b
  = Scaled BlockSize (Src b) /\
  fst (Block_Transform_ScaleAndToNepers Dst Src BlockSize) b
  = Nepers (Scaled BlockSize (Src b)).
Proof.
  intros Hb. unfold Block_Transform_ScaleAndToNepers.
  apply ScaleAndToNepers_loop_spec. lia.
Qed.

Lemma ULC_COEF_EPS_pos : 0 < ULC_COEF_EPS.
Proof. unfold ULC_COEF_EPS. apply Rinv_0_lt_compat, IZR_lt. reflexivity. Qed.

(** The log-magnitude coincides with the out-of-range marker in two cases:
    below half the smallest coefficient, and at magnitude 1. *)
Lemma Nepers_marker (v : R) :
  Nepers v = ULC_COEF_NEPER_OUT_OF_RANGE <->
  Rabs v < 1 / 2 * ULC_COEF_EPS \/ Rabs v = 1.
Proof.
  unfold Nepers, ULC_COEF_NEPER_OUT_OF_RANGE. pose proof ULC_COEF_EPS_pos as He.
  destruct (Rlt_dec (Rabs v) (1 / 2 * ULC_COEF_EPS)) as [Hlt|Hge].
  - split; [intros _; left; exact Hlt|reflexivity].
  - split.
    + intros Hln. right. apply ln_inv; [lra|lra|]. rewrite ln_1. exact Hln.
    + intros [Hlt|H1]; [contradiction|]. rewrite H1. apply ln_1.
Qed.

(** X14.  After scaling, a coefficient gets a key exactly when its scaled
    magnitude is at least half of [ULC_COEF_EPS] and is not 1: at magnitude
    1 the log-magnitude is 0, which is the out-of-range marker, and the band
    is skipped like a coefficient too small to code. *)
Theorem X14_scaled_coefficients_with_a_key
  (ULC_MAX_QBANDS : Z) (Psycho : bool) (MaskingThreshold : Z -> R * R)
  (Dst Src : Z -> R) (ChanNo : Z) (AnalysisPowerNp QuantRange : R)
  (BlockSize b : Z) :
  (0 <= b < BlockSize)%Z ->
  (exists k,
     In k (Block_Transform_InsertKeys ULC_MAX_QBANDS Psycho MaskingThreshold
             (snd (Block_Transform_ScaleAndToNepers Dst Src BlockSize))
             (fst (Block_Transform_ScaleAndToNepers Dst Src BlockSize))
             ChanNo AnalysisPowerNp QuantRange [] BlockSize) /\
     Band k = b)
  <-> (1 / 2 * ULC_COEF_EPS <= Rabs (Src b * 2 / IZR BlockSize) /\
       Rabs (Src b * 2 / IZR BlockSize) <> 1).
Proof.
  intros Hb.
  destruct (ScaleAndToNepers_spec Dst Src BlockSize b Hb) as [_ HNp].
  set (Cf := snd (Block_Transform_ScaleAndToNepers Dst Src BlockSize)) in *.
  set (Np := fst (Block_Transform_ScaleAndToNepers Dst Src BlockSize)) in *.
  destruct (InsertKeys_zones ULC_MAX_QBANDS Psycho MaskingThreshold Cf Np ChanNo
              AnalysisPowerNp QuantRange [] BlockSize)
    as (new & -> & _ & _ & _ & _ & Hall & Hex).
  cbn [app]. fold (Scaled BlockSize (Src b)).
  pose proof (Nepers_marker (Scaled BlockSize (Src b))) as Hm.
  rewrite <- HNp in Hm. split.
  - intros (k & Hk & Hkb). destruct (Hall k Hk) as (_ & _ & _ & Hne & _).
    rewrite Hkb in Hne. split.
    + destruct (Rle_dec (1 / 2 * ULC_COEF_EPS) (Rabs (Scaled BlockSize (Src b))))
        as [|Hn]; [assumption|]. exfalso. apply Hne, Hm. left. lra.
    + intros H1. apply Hne, Hm. right. exact H1.
  - intros [Hge Hne1].
    destruct (Hex b Hb) as (k & Hk & HK).
    + intros Hmark. apply Hm in Hmark. destruct Hmark; [lra|contradiction].
    + exists k. split; [exact Hk|apply HK].
Qed.

Lemma X14_scaled_coefficients_with_a_key_witness :
  (exists k,
     In k (Block_Transform_InsertKeys 48 true (fun _ => (0, 0))
             (snd (Block_Transform_ScaleAndToNepers (fun _ => 0) (fun _ => 3) 4))
             (fst (Block_Transform_ScaleAndToNepers (fun _ => 0) (fun _ => 3) 4))
             0 0 1 [] 4) /\
     Band k = 2%Z)
  <-> (1 / 2 * ULC_COEF_EPS <= Rabs (3 * 2 / IZR 4) /\
       Rabs (3 * 2 / IZR 4) <> 1).
Proof.
  apply (X14_scaled_coefficients_with_a_key 48 true (fun _ => (0, 0))
           (fun _ => 0) (fun _ => 3) 0 0 1 4 2). lia.
Defined.

End ScaledKeys.

(** ** The keys of a whole block (Block_Transform) *)
Section BlockKeys.
Import BlockTransform.
Local Open Scope R_scope.

Variable ULC_MAX_QBANDS : Z.
Variable Psycho : bool.
Variable Masking : Z -> Z -> R * R.
Variable Fourier_MDCT : Z -> Z -> Z -> R.
Variable MaxCodingKbps : R.

(** The preference for a channel enters the key as a factor. *)
Lemma KeyVal_power (m : Z -> R * R) (A : R) (b : Z) (np : R) :
  KeyVal Psycho m A b np = KeyVal Psycho m 0 b np * exp A.
Proof.
  unfold KeyVal. rewrite <- exp_plus. apply f_equal. ring.
Qed.

Lemma exp_ln_pow (P : R) (n : nat) : 0 < P -> exp (INR n * ln P) = P ^ n.
Proof.
  intros HP. induction n as [|n IH].
  - cbn. rewrite Rmult_0_l. apply exp_0.
  - rewrite S_INR, Rmult_plus_distr_r, Rmult_1_l, exp_plus, IH, exp_ln by exact HP.
    cbn. ring.
Qed.

(** A key of the block: channel [Chan k], band [Band k], valued from the
    log-magnitude of the scaled transform coefficient with the preference
    [A] of its channel. *)
Definition BlockKey (BlockSize Overlap : Z) (A : Z -> R) (k : AnalysisKey_t) : Prop :=
  (0 <= Band k < BlockSize)%Z /\
  Val k = KeyVal Psycho (Masking (Chan k)) (A (Chan k)) (Band k)
            (Nepers (Scaled BlockSize (Fourier_MDCT (Chan k) Overlap (Band k)))).

Lemma Transform_channels_spec (TransformNepers : Z -> Z -> R)
  (BlockSize Overlap : Z) (QuantRange PowerDecay : R) (count : nat) :
  forall (c0 : Z) (A : R) (Keys : list AnalysisKey_t),
  exists new,
    Transform_channels ULC_MAX_QBANDS Psycho Masking Fourier_MDCT TransformNepers
      BlockSize Overlap QuantRange PowerDecay count c0 A Keys = Keys ++ new /\
    (Z.of_nat (length new) <= Z.of_nat count * Z.max 0 BlockSize)%Z /\
    (forall k, In k new ->
       (c0 <= Chan k < c0 + Z.of_nat count)%Z /\
       BlockKey BlockSize Overlap (fun c => A + IZR (c - c0) * PowerDecay) k).
Proof.
  induction count as [|count IH]; intros c0 A Keys.
  - exists []. split; [cbn; rewrite app_nil_r; reflexivity|].
    split; [cbn; lia|intros k []].
  - cbn [Transform_channels].
    destruct (Block_Transform_ScaleAndToNepers (TransformNepers c0)
                (Fourier_MDCT c0 Overlap) BlockSize) as [Np Cf] eqn:HS.
    destruct (InsertKeys_zones ULC_MAX_QBANDS Psycho (Masking c0) Cf Np c0 A
                QuantRange Keys BlockSize)
      as (new1 & -> & _ & _ & _ & Hlen1 & Hall1 & _).
    destruct (IH (c0 + 1)%Z (A + PowerDecay) (Keys ++ new1))
      as (new2 & -> & Hlen2 & Hall2).
    exists (new1 ++ new2). split; [rewrite app_assoc; reflexivity|]. split.
    + rewrite length_app. lia.
    + intros k Hk. apply in_app_or in Hk. destruct Hk as [Hk|Hk].
      * destruct (Hall1 k Hk) as (Hb & _ & Hc & _ & Hv).
        split; [lia|]. split; [exact Hb|]. rewrite Hc.
        replace (A + IZR (c0 - c0) * PowerDecay) with A
          by (rewrite Z.sub_diag; simpl; ring).
        rewrite Hv. f_equal.
        destruct (ScaleAndToNepers_spec (TransformNepers c0)
                    (Fourier_MDCT c0 Overlap) BlockSize (Band k) Hb) as [_ HNp].
        rewrite HS in HNp. exact HNp.
      * destruct (Hall2 k Hk) as (Hc & Hb & Hv). split; [lia|].
        split; [exact Hb|]. rewrite Hv. f_equal.
        replace (Chan k - c0)%Z with (Chan k - (c0 + 1) + 1)%Z by lia.
        rewrite plus_IZR. simpl. ring.
Qed.

(** X15.  Whenever the overlap bounds can be met, [Block_Transform] stores
    at most [nChan * BlockSize] keys and returns their number; every key is
    that of a band of a channel, valued on the scaled transform coefficient,
    and the keys of channel [c] carry the factor [PowerDecay^c] against
    the same coefficients in channel 0. *)
Theorem X15_block_keys_and_channel_preference
  (Data TransformTemp : Z -> R) (TransformNepers : Z -> Z -> R)
  (LastBlockEnergy LastSampleEnergy : R)
  (nChan BlockSize MinOverlap MaxOverlap j : Z) (RateKbps PowerDecay : R) :
  0 < LastBlockEnergy ->
  (1 <= BlockSize < 2 ^ 31)%Z -> (1 <= MinOverlap)%Z -> (0 <= j)%Z ->
  (MinOverlap <= Z.shiftr BlockSize j <= MaxOverlap)%Z ->
  0 < PowerDecay ->
  exists Keys s,
    Block_Transform ULC_MAX_QBANDS Psycho Masking Fourier_MDCT MaxCodingKbps
      Data TransformTemp TransformNepers LastBlockEnergy LastSampleEnergy
      nChan BlockSize MinOverlap MaxOverlap RateKbps PowerDecay
    = Some (Keys, Z.of_nat (length Keys)) /\
    (Z.of_nat (length Keys) <= Z.max 0 nChan * BlockSize)%Z /\
    (MinOverlap <= Z.shiftr BlockSize s <= MaxOverlap)%Z /\
    (forall k, In k Keys ->
       (0 <= Chan k < nChan)%Z /\ (0 <= Band k < BlockSize)%Z /\
       Val k
       = KeyVal Psycho (Masking (Chan k)) 0 (Band k)
           (Nepers (Scaled BlockSize
                      (Fourier_MDCT (Chan k) (Z.shiftr BlockSize s) (Band k))))
         * PowerDecay ^ Z.to_nat (Chan k)).
Proof.
  intros HE HB HMin Hj Hfit HP.
  destruct (GetLogOverlapScale_returns Data TransformTemp LastBlockEnergy
              LastSampleEnergy BlockSize MinOverlap MaxOverlap nChan j
              HE HB HMin Hj Hfit) as (s & E' & S' & Hret & _ & Hs & _).
  unfold Block_Transform. rewrite Hret.
  destruct (Transform_channels_spec TransformNepers BlockSize
              (Z.shiftr BlockSize s) (QuantRange_of MaxCodingKbps RateKbps)
              (ln PowerDecay) (Z.to_nat nChan) 0%Z 0 [])
    as (new & -> & Hlen & Hall).
  cbn [app]. exists new, s. split; [reflexivity|].
  split; [lia|]. split; [exact Hs|].
  intros k Hk. destruct (Hall k Hk) as (Hc & Hb & Hv).
  split; [lia|]. split; [exact Hb|].
  rewrite Hv, KeyVal_power. f_equal.
  rewrite Z.sub_0_r, Rplus_0_l, <- (exp_ln_pow PowerDecay _ HP).
  rewrite INR_IZR_INZ, Z2Nat.id by lia. reflexivity.
Qed.

End BlockKeys.

Lemma X15_block_keys_and_channel_preference_witness :
  exists Keys s,
    BlockTransform.Block_Transform 48 true (fun _ _ => (0, 0)%R)
      (fun _ _ _ => 1%R) 1000 (fun _ => 0%R) (fun _ => 0%R) (fun _ _ => 0%R)
      1 0 2 2048 16 2048 64 (1 / 2)
    = Some (Keys, Z.of_nat (length Keys)) /\
    Z.of_nat (length Keys) <= Z.max 0 2 * 2048 /\
    16 <= Z.shiftr 2048 s <= 2048 /\
    (forall k, In k Keys ->
       0 <= BlockTransform.Chan k < 2 /\ 0 <= BlockTransform.Band k < 2048 /\
       BlockTransform.Val k
       = (BlockTransform.KeyVal true (fun _ => (0, 0)%R) 0 (BlockTransform.Band k)
           (Nepers (Scaled 2048 1))
          * (1 / 2) ^ Z.to_nat (BlockTransform.Chan k))%R).
Proof.
  apply (X15_block_keys_and_channel_preference 48 true (fun _ _ => (0, 0)%R)
           (fun _ _ _ => 1%R) 1000 (fun _ => 0%R) (fun _ => 0%R)
           (fun _ _ => 0%R) 1 0 2 2048 16 2048 3 64 (1 / 2));
    try lia; try lra.
  change (Z.shiftr 2048 3) with 256. lia.
Defined.


(** ** The control word and the decimation pattern it selects *)
Section SearchAndPattern.
Import Helper WindowCtrl.

Variable Switching : bool.
Variable TransientData : Z -> Sum_t.

(** Where the search stands after [d] decimations, for a segment count
    [2^m] and a block of [8*u] samples: the code has [d] bits after its
    leading 1, the segment and the sub-block are halved [d] times, and the
    pointer has advanced by the code bits read as a binary fraction of the
    [2 * 2^m] segments of a block. *)
Definition Searched (m u : Z) (s : Search) : Prop :=
  exists d, 0 <= d <= m /\ d <= 3 /\
    2 ^ d <= Decimation s < 2 ^ (d + 1) /\
    AnalysisLen s = 2 ^ (m - d) /\
    SubBlockSize s = u * 2 ^ (3 - d) /\
    Offset s - 2 ^ m = (Decimation s - 2 ^ d) * 2 ^ (m - d + 1).

Lemma Steps_Searched (m u : Z) (s final : Search) :
  0 <= m <= 3 -> 0 < u ->
  Steps Switching TransientData s final -> Searched m u s -> Searched m u final.
Proof.
  intros Hm Hu. induction 1 as [s|s s' s'' Hstep _ IH]; intros HS; [exact HS|].
  apply IH. clear IH. destruct Hstep as [s (_ & Hlen & _ & Hpos & _)].
  destruct HS as (d & Hd & Hd3 & HD & HL & HB & HO).
  assert (Hb : 0 <= Bit (fst (PeakRatio TransientData s)) <= 1)
    by (destruct Hpos as [-> | ->]; cbn; lia).
  set (b := Bit (fst (PeakRatio TransientData s))) in *.
  assert (Hdm : d < m).
  { destruct (Z.eq_dec d m) as [->|]; [|lia].
    rewrite Z.sub_diag in HL. cbn in HL. lia. }
  exists (d + 1). unfold Halved. cbn [Offset Decimation SubBlockSize AnalysisLen].
  fold b. rewrite HL, HB.
  assert (Hm' : m = 1 \/ m = 2 \/ m = 3) by lia.
  assert (Hd' : d = 0 \/ d = 1 \/ d = 2) by lia.
  destruct Hm' as [-> | [-> | ->]], Hd' as [-> | [-> | ->]]; try lia;
    pow2_consts;
    (split; [lia|]); (split; [lia|]); (split; [lia|]);
    (split; [reflexivity|]);
    (split; [Z.to_euclidean_division_equations; lia|]);
    lia.
Qed.

End SearchAndPattern.

Section PatternTable.
Import Helper.

(** The transient sub-block of a pattern, in eighths of the block: its
    start and its size. *)
Fixpoint TransientAt (start : Z) (nbs : list (Z * bool)) : option (Z * Z) :=
  match nbs with
  | [] => None
  | nb :: nbs' =>
      if snd nb then Some (start, 2 ^ (3 - fst nb))
      else TransientAt (start + 2 ^ (3 - fst nb)) nbs'
  end.

Lemma TransientAt_split (u : Z) (nbs : list (Z * bool)) :
  0 < u ->
  Forall (fun nb => 0 <= fst nb <= 3) nbs ->
  forall start o z,
  TransientAt start nbs = Some (o, z) ->
  exists pre sb post,
    map (apply_shift (8 * u)) nbs = pre ++ sb :: post /\
    Forall (fun x => Transient x = false) pre /\
    Transient sb = true /\ Helper.SubBlockSize sb = u * z /\
    u * start + TotalSize pre = u * o.
Proof.
  intros Hu. induction 1 as [|nb nbs Hnb Hnbs IH]; intros start o z HT;
    [discriminate|].
  assert (Hsize : Z.shiftr (8 * u) (fst nb) = u * 2 ^ (3 - fst nb)).
  { rewrite Z.shiftr_div_pow2 by lia.
    assert (Hc : fst nb = 0 \/ fst nb = 1 \/ fst nb = 2 \/ fst nb = 3) by lia.
    destruct Hc as [-> | [-> | [-> | ->]]]; pow2_consts;
      Z.div_mod_to_equations; lia. }
  cbn [TransientAt] in HT. destruct (snd nb) eqn:Hfl.
  - injection HT as <- <-.
    exists [], (apply_shift (8 * u) nb), (map (apply_shift (8 * u)) nbs).
    split; [reflexivity|]. split; [constructor|].
    split; [exact Hfl|]. split; [exact Hsize|]. cbn. lia.
  - destruct (IH _ _ _ HT) as (pre & sb & post & Heq & Hpre & Htr & Hsz & Hoff).
    exists (apply_shift (8 * u) nb :: pre), sb, post.
    split; [cbn [map]; rewrite Heq; reflexivity|].
    split; [constructor; [exact Hfl|exact Hpre]|].
    split; [exact Htr|]. split; [exact Hsz|].
    cbn [TotalSize fold_right apply_shift Helper.SubBlockSize fst]. fold (TotalSize pre).
    rewrite Hsize. lia.
Qed.

(** The table, entry by entry: the decimation code [D] with [d] bits after
    its leading 1 marks the sub-block of size 1/2^d that starts at the
    binary fraction the [d] bits spell. *)
Definition TableEntryOk (D : Z) : bool :=
  match nth_error Pattern (Z.to_nat D) with
  | None => false
  | Some p =>
      match Nibbles_loop 4 p with
      | None => false
      | Some nbs =>
          forallb (fun nb => (0 <=? fst nb) && (fst nb <=? 3)) nbs &&
          match TransientAt 0 nbs with
          | None => false
          | Some (o, z) =>
              (z =? 2 ^ (3 - Z.log2 D)) &&
              (o =? (D - 2 ^ Z.log2 D) * 2 ^ (3 - Z.log2 D))
          end
      end
  end.

Lemma Table_ok :
  forallb TableEntryOk [1;2;3;4;5;6;7;8;9;10;11;12;13;14;15] = true.
Proof. vm_compute. reflexivity. Qed.

Lemma Table_transient (u D : Z) :
  0 < u -> 1 <= D <= 15 ->
  exists p pre sb post,
    nth_error Pattern (Z.to_nat D) = Some p /\
    SubBlocks_loop 4 (8 * u) p = Some (pre ++ sb :: post) /\
    Forall (fun x => Transient x = false) pre /\
    Transient sb = true /\
    Helper.SubBlockSize sb = u * 2 ^ (3 - Z.log2 D) /\
    TotalSize pre = u * ((D - 2 ^ Z.log2 D) * 2 ^ (3 - Z.log2 D)).
Proof.
  intros Hu HD.
  assert (Hin : In D [1;2;3;4;5;6;7;8;9;10;11;12;13;14;15]) by (cbn; lia).
  pose proof (proj1 (forallb_forall _ _) Table_ok D Hin) as Hok.
  unfold TableEntryOk in Hok.
  destruct (nth_error Pattern (Z.to_nat D)) as [p|]; [|discriminate].
  destruct (Nibbles_loop 4 p) as [nbs|] eqn:Hn; [|discriminate].
  apply andb_true_iff in Hok. destruct Hok as [Hsh Hok].
  destruct (TransientAt 0 nbs) as [[o z]|] eqn:HT; [|discriminate].
  apply andb_true_iff in Hok. destruct Hok as [Hz Ho].
  apply Z.eqb_eq in Hz, Ho. subst o z.
  assert (HF : Forall (fun nb => 0 <= fst nb <= 3) nbs).
  { apply Forall_forall. intros nb Hnb.
    pose proof (proj1 (forallb_forall _ _) Hsh nb Hnb) as H.
    apply andb_true_iff in H. destruct H as [H1 H2].
    apply Z.leb_le in H1, H2. lia. }
  destruct (TransientAt_split u nbs Hu HF _ _ _ HT)
    as (pre & sb & post & Heq & Hpre & Htr & Hsz & Hoff).
  exists p, pre, sb, post. split; [reflexivity|].
  split; [rewrite SubBlocks_loop_Nibbles, Hn; cbn [option_map]; rewrite Heq;
          reflexivity|].
  split; [exact Hpre|]. split; [exact Htr|]. split; [exact Hsz|]. lia.
Qed.

End PatternTable.

Section ControlFields.
Import WindowCtrl.

Lemma Searched_code (m u : Z) (s : Search) :
  Searched m u s ->
  1 <= Decimation s <= 15 /\
  SubBlockSize s = u * 2 ^ (3 - Z.log2 (Decimation s)) /\
  SubBlockSize s = Z.shiftr (8 * u) (Z.log2 (Decimation s)) /\
  (Offset s - 2 ^ m) * (8 * u)
  = u * ((Decimation s - 2 ^ Z.log2 (Decimation s))
         * 2 ^ (3 - Z.log2 (Decimation s))) * 2 ^ (m + 1).
Proof.
  intros (d & Hd & Hd3 & HD & HL & HB & HO).
  assert (Hlog : Z.log2 (Decimation s) = d) by (apply Z.log2_unique; lia).
  rewrite Hlog, HB, HO.
  assert (Hd' : d = 0 \/ d = 1 \/ d = 2 \/ d = 3) by lia.
  assert (Hp : 2 ^ (m + 1) = 2 ^ (m - d + 1) * 2 ^ d)
    by (rewrite <- Z.pow_add_r by lia; f_equal; lia).
  rewrite Hp. set (P := 2 ^ (m - d + 1)).
  destruct Hd' as [-> | [-> | [-> | ->]]]; pow2_consts;
    (split; [lia|]); (split; [reflexivity|]);
    (split; [rewrite Z.shiftr_div_pow2 by lia; pow2_consts;
             Z.div_mod_to_equations; lia|]);
    ring.
Qed.

Lemma word_fields (s f D : Z) :
  0 <= s <= 7 -> 0 <= f <= 1 -> 0 <= D ->
  Z.shiftr (s + 0x8 * f + 0x10 * D) 4 = D /\
  Z.land (s + 0x8 * f + 0x10 * D) 7 = s /\
  Z.testbit (s + 0x8 * f + 0x10 * D) 3 = (f =? 1).
Proof.
  intros Hs Hf HD. split; [|split].
  - rewrite Z.shiftr_div_pow2 by lia. pow2_consts.
    Z.div_mod_to_equations; lia.
  - change 7 with (Z.ones 3). rewrite Z.land_ones by lia. pow2_consts.
    Z.div_mod_to_equations; lia.
  - rewrite Z.testbit_eqb by lia. pow2_consts.
    assert (Hq : (s + 8 * f + 16 * D) / 8 = f + 2 * D)
      by (Z.div_mod_to_equations; lia).
    rewrite Hq. replace ((f + 2 * D) mod 2) with f by (Z.div_mod_to_equations; lia).
    reflexivity.
Qed.

End ControlFields.

Section ControlByte.
Import Helper WindowCtrl.

Variable Switching : bool.
Variable TransientData : Z -> Sum_t.

(** The word returned, from the state the search stops in. *)
Lemma GetWindowCtrl_final (m u : Z) (RateHz : R) :
  0 <= m <= 3 -> 2 <= u ->
  exists final s,
    Steps Switching TransientData (mkSearch (2 ^ m) 1 (8 * u) (2 ^ m)) final /\
    ~ Guard Switching TransientData final /\
    Searched m u final /\
    Block_Transform_GetWindowCtrl Switching (2 ^ m) TransientData (8 * u) RateHz
    = Some (s + 0x8 * (if Decimation final =? 1 then 0 else 1)
              + 0x10 * Decimation final) /\
    0 <= s <= 7 /\
    16 <= Z.shiftr (SubBlockSize final) s.
Proof.
  intros Hm Hu. unfold Block_Transform_GetWindowCtrl.
  destruct (Descent_loop_spec Switching TransientData (S (Z.to_nat (2 ^ m)))
              (mkSearch (2 ^ m) 1 (8 * u) (2 ^ m)) ltac:(cbn [AnalysisLen]; lia))
    as (final & Hrun & Hsteps & Hstop).
  rewrite Hrun.
  pose proof (Steps_SubBlockSize _ _ _ _ Hsteps ltac:(cbn [SubBlockSize]; lia))
    as Hsize.
  cbn [SubBlockSize] in Hsize.
  assert (HS : Searched m u final).
  { apply (Steps_Searched Switching TransientData m u _ _ Hm ltac:(lia) Hsteps).
    exists 0. cbn [Decimation AnalysisLen SubBlockSize Offset].
    rewrite !Z.sub_0_r. pow2_consts. repeat split; lia. }
  unfold OverlapScale.
  set (x := Log2OverlapSamplesScale _ _ _).
  pose proof (InitialOverlapScale_range x) as Hs0.
  destruct (MinimumOverlap_spec (SubBlockSize final)
              (Z.to_nat (InitialOverlapScale x)) ltac:(lia))
    as (s & Hs & Hr & Hov & _).
  rewrite Hs. exists final, s. split; [exact Hsteps|]. split; [exact Hstop|].
  split; [exact HS|]. split; [reflexivity|]. split; [lia|exact Hov].
Qed.

End ControlByte.

Section ControlWordContents.
Import Helper WindowCtrl.

Variable Switching : bool.
Variable TransientData : Z -> Sum_t.

(** X16.  With at most 8 segments per quarter ([2^m], [m <= 3]) and a
    block of [8*u >= 16] samples, the window controller returns a byte: the
    decimation code [1..15] in the high nibble, bit 3 set exactly when the
    block is decimated (code other than 1), and in bits 0..2 an overlap
    scale that leaves the transient sub-block, the block size shifted by the
    bit length of the code, an overlap of at least 16 samples. *)
Theorem X16_control_word_is_a_byte (m u : Z) (RateHz : R) :
  0 <= m <= 3 -> 2 <= u ->
  exists w,
    Block_Transform_GetWindowCtrl Switching (2 ^ m) TransientData (8 * u) RateHz
    = Some w /\
    16 <= w < 256 /\
    1 <= Z.shiftr w 4 <= 15 /\
    Z.testbit w 3 = negb (Z.shiftr w 4 =? 1) /\
    16 <= Z.shiftr (Z.shiftr (8 * u) (Z.log2 (Z.shiftr w 4))) (Z.land w 7).
Proof.
  intros Hm Hu.
  destruct (GetWindowCtrl_final Switching TransientData m u RateHz Hm Hu)
    as (final & s & _ & _ & HS & Hret & Hs & Hov).
  destruct (Searched_code m u final HS) as (HD & _ & Hsize & _).
  set (f := if Decimation final =? 1 then 0 else 1) in *.
  assert (Hf : 0 <= f <= 1) by (unfold f; destruct (_ =? _); lia).
  destruct (word_fields s f (Decimation final) Hs Hf ltac:(lia))
    as (Hhi & Hlo & Hbit).
  eexists. split; [exact Hret|].
  rewrite Hhi, Hlo, Hbit, <- Hsize.
  split; [lia|]. split; [exact HD|]. split; [|exact Hov].
  unfold f. destruct (Decimation final =? 1); reflexivity.
Qed.

(** X17.  The window the search stops in is the sub-block that the
    decimation pattern of the returned word marks as transient: it is the
    first flagged sub-block of the pattern, it has the size the search
    ended with, and it starts where the search pointer stands, one segment
    being [1/2^(m+1)] of the block. *)
Theorem X17_search_window_is_the_transient_subblock (m u : Z) (RateHz : R) :
  0 <= m <= 3 -> 2 <= u ->
  exists final w pre sb post,
    Steps Switching TransientData (mkSearch (2 ^ m) 1 (8 * u) (2 ^ m)) final /\
    ~ Guard Switching TransientData final /\
    Block_Transform_GetWindowCtrl Switching (2 ^ m) TransientData (8 * u) RateHz
    = Some w /\
    Z.shiftr w 4 = Decimation final /\
    SubBlocks (8 * u) w = Some (pre ++ sb :: post) /\
    Forall (fun x => Transient x = false) pre /\
    Transient sb = true /\
    Helper.SubBlockSize sb = SubBlockSize final /\
    TotalSize pre * 2 ^ (m + 1) = (Offset final - 2 ^ m) * (8 * u).
Proof.
  intros Hm Hu.
  destruct (GetWindowCtrl_final Switching TransientData m u RateHz Hm Hu)
    as (final & s & Hsteps & Hstop & HS & Hret & Hs & _).
  destruct (Searched_code m u final HS) as (HD & Hsize & _ & Hoff).
  set (f := if Decimation final =? 1 then 0 else 1) in *.
  assert (Hf : 0 <= f <= 1) by (unfold f; destruct (_ =? _); lia).
  destruct (word_fields s f (Decimation final) Hs Hf ltac:(lia)) as (Hhi & _ & _).
  destruct (Table_transient u (Decimation final) ltac:(lia) HD)
    as (p & pre & sb & post & Hp & Hsbs & Hpre & Htr & Hsz & Htot).
  exists final, (s + 0x8 * f + 0x10 * Decimation final), pre, sb, post.
  split; [exact Hsteps|]. split; [exact Hstop|]. split; [exact Hret|].
  split; [exact Hhi|]. split.
  { unfold SubBlocks, ULC_SubBlockDecimationPattern. rewrite Hhi.
    destruct (Z.leb_spec 0 (Decimation final)); [|lia]. rewrite Hp. exact Hsbs. }
  split; [exact Hpre|]. split; [exact Htr|].
  split; [rewrite Hsz, Hsize; reflexivity|].
  rewrite Htot, Hoff. reflexivity.
Qed.

End ControlWordContents.

Lemma X16_control_word_is_a_byte_witness :
  exists w,
    WindowCtrl.Block_Transform_GetWindowCtrl true (2 ^ 3)
      (fun _ => WindowCtrl.mkSum 0 0) (8 * 256) 44100 = Some w /\
    16 <= w < 256 /\
    1 <= Z.shiftr w 4 <= 15 /\
    Z.testbit w 3 = negb (Z.shiftr w 4 =? 1) /\
    16 <= Z.shiftr (Z.shiftr (8 * 256) (Z.log2 (Z.shiftr w 4))) (Z.land w 7).
Proof.
  apply (X16_control_word_is_a_byte true (fun _ => WindowCtrl.mkSum 0 0) 3 256 44100);
    lia.
Defined.

Lemma X17_search_window_is_the_transient_subblock_witness :
  exists final w pre sb post,
    Steps true (fun _ => WindowCtrl.mkSum 0 0)
      (WindowCtrl.mkSearch (2 ^ 3) 1 (8 * 256) (2 ^ 3)) final /\
    ~ Guard true (fun _ => WindowCtrl.mkSum 0 0) final /\
    WindowCtrl.Block_Transform_GetWindowCtrl true (2 ^ 3)
      (fun _ => WindowCtrl.mkSum 0 0) (8 * 256) 44100 = Some w /\
    Z.shiftr w 4 = WindowCtrl.Decimation final /\
    Helper.SubBlocks (8 * 256) w = Some (pre ++ sb :: post) /\
    Forall (fun x => Helper.Transient x = false) pre /\
    Helper.Transient sb = true /\
    Helper.SubBlockSize sb = WindowCtrl.SubBlockSize final /\
    TotalSize pre * 2 ^ (3 + 1) = (WindowCtrl.Offset final - 2 ^ 3) * (8 * 256).
Proof.
  apply (X17_search_window_is_the_transient_subblock true
           (fun _ => WindowCtrl.mkSum 0 0) 3 256 44100); lia.
Defined.

(** ** The byte stream of Block_Encode *)
Section StreamBytes.
Import BlockEncode.

(** X18.  Write then read: after the nibbles of [l] have been pushed into
    an empty writer and the final byte has been shifted down, nibble [i] of
    the buffer (two per byte, low nibble first) is the [i]-th value pushed,
    reduced to four bits, whatever the buffer held before. *)
Theorem X18_nibbles_read_back (DstBuffer : Z -> Z) (l : list Z) (i : Z) :
  (forall j, 0 <= DstBuffer j < 256) ->
  4 * Z.of_nat (length l) < 2 ^ 64 ->
  0 <= i < Z.of_nat (length l) ->
  NibbleAt (ShiftFinalByte (WriteNybbles l (mkWriter DstBuffer 0 0))) i
  = nth (Z.to_nat i) l 0 mod 16.
Proof. exact (nibbles_of_stream DstBuffer l i). Qed.

Lemma X18_nibbles_read_back_witness :
  NibbleAt (ShiftFinalByte (WriteNybbles [3; -2; 8] (mkWriter (fun _ => 0xFF) 0 0))) 1
  = nth (Z.to_nat 1) [3; -2; 8] 0 mod 16.
Proof.
  apply (X18_nibbles_read_back (fun _ => 0xFF) [3; -2; 8] 1).
  - intros j. lia.
  - cbn. lia.
  - cbn. lia.
Defined.

(** The writer only ever stores under [Dst], which is at half the number of
    nibbles pushed. *)
Lemma WriteNybble_untouched (x : Z) (w : Writer) (j : Z) :
  j <> Dst w -> Buffer (Block_Encode_WriteNybble x w) j = Buffer w j.
Proof.
  intros Hj. unfold Block_Encode_WriteNybble. cbn [Buffer].
  destruct (Z.eqb_spec j (Dst w)); [contradiction|reflexivity].
Qed.

Lemma WriteNybbles_untouched (l : list Z) :
  forall (l0 : list Z) (w : Writer) (j : Z),
  4 * Z.of_nat (length (l0 ++ l)) < 2 ^ 64 ->
  Packed l0 w ->
  (Z.of_nat (length (l0 ++ l)) + 1) / 2 <= j ->
  Buffer (WriteNybbles l w) j = Buffer w j.
Proof.
  induction l as [|x l IH]; intros l0 w j Hmax Hw Hj; [reflexivity|].
  cbn [WriteNybbles fold_left]. fold (WriteNybbles l (Block_Encode_WriteNybble x w)).
  replace (l0 ++ x :: l) with ((l0 ++ [x]) ++ l) in *
    by (rewrite <- app_assoc; reflexivity).
  assert (Hlen : Z.of_nat (length ((l0 ++ [x]) ++ l))
                 = Z.of_nat (length l0) + 1 + Z.of_nat (length l))
    by (rewrite !length_app; cbn [length]; lia).
  rewrite (IH (l0 ++ [x]) (Block_Encode_WriteNybble x w) j Hmax).
  - apply WriteNybble_untouched. destruct Hw as (_ & -> & _).
    rewrite Hlen in Hj. Z.div_mod_to_equations. lia.
  - apply Packed_push; [lia|exact Hw].
  - exact Hj.
Qed.

(** X19.  The stream never reaches past its own bytes: pushing [n] nibbles
    and shifting the final byte leaves every byte from index [ceil(n/2)] on
    as it was. *)
Theorem X19_bytes_past_the_stream_untouched (DstBuffer : Z -> Z) (l : list Z) (j : Z) :
  (forall i, 0 <= DstBuffer i < 256) ->
  4 * Z.of_nat (length l) < 2 ^ 64 ->
  (Z.of_nat (length l) + 1) / 2 <= j ->
  Buffer (ShiftFinalByte (WriteNybbles l (mkWriter DstBuffer 0 0))) j = DstBuffer j.
Proof.
  intros Hbytes Hmax Hj.
  assert (H0 : Packed [] (mkWriter DstBuffer 0 0)).
  { unfold Packed. cbn [length Size Dst Buffer Z.of_nat].
    split; [reflexivity|]. split; [reflexivity|]. split; [exact Hbytes|].
    intros i Hi. lia. }
  pose proof (Packed_WriteNybbles l [] _ Hmax H0) as HP. cbn [app] in HP.
  pose proof (WriteNybbles_untouched l [] _ j Hmax H0 Hj) as HU.
  cbn [Buffer] in HU.
  destruct HP as (HSize & HDst & _).
  unfold ShiftFinalByte.
  destruct (Z.eqb_spec (Size (WriteNybbles l (mkWriter DstBuffer 0 0)) mod 8) 0)
    as [_|Hodd]; [exact HU|].
  cbn [Buffer]. destruct (Z.eqb_spec j (Dst (WriteNybbles l (mkWriter DstBuffer 0 0))))
    as [He|_]; [|exact HU].
  exfalso. rewrite HDst in He. rewrite HSize in Hodd.
  Z.div_mod_to_equations. lia.
Qed.

Lemma X19_bytes_past_the_stream_untouched_witness :
  Buffer (ShiftFinalByte (WriteNybbles [3; -2; 8] (mkWriter (fun _ => 0xAB) 0 0))) 2
  = (fun _ => 0xAB) 2.
Proof.
  apply (X19_bytes_past_the_stream_untouched (fun _ => 0xAB) [3; -2; 8] 2).
  - intros i. lia.
  - cbn. lia.
  - cbn. lia.
Defined.

End StreamBytes.

(** ** Coefficient nibbles and the empty block *)
Section CoefficientNibbles.
Import BlockEncode.

Variable TransformBuffer : Z -> Z -> Q.
Variable QuantsBw : Z -> Z.
Variable Quants : Z -> Z -> Z.

(** X20.  A coefficient is written as a two's-complement nibble of a value
    in -7..+7: the nibble is never 8h, the escape that opens a zero run or
    the stop code, and it is 0h exactly when the count of non-zero
    coefficients is not advanced. *)
Theorem X20_coefficient_nibble_is_not_an_escape (Chan : Z) (c : Coder) :
  0 <= nNzCoded c -> nNzCoded c + 1 < 2 ^ 64 ->
  exists Qn,
    Out (CodeCoef TransformBuffer QuantsBw Quants Chan c)
    = Block_Encode_WriteNybble Qn (Out c) /\
    -7 <= Qn <= 7 /\
    (Qn mod 256) mod 16 <> 8 /\
    ((Qn mod 256) mod 16 = 0 <->
     nNzCoded (CodeCoef TransformBuffer QuantsBw Quants Chan c) = nNzCoded c) /\
    nNzCoded c
    <= nNzCoded (CodeCoef TransformBuffer QuantsBw Quants Chan c)
    <= nNzCoded c + 1.
Proof.
  intros Hn0 Hn.
  assert (Hw : BlockEncode.u64 (nNzCoded c + 1) = nNzCoded c + 1)
    by (unfold BlockEncode.u64; apply Z.mod_small; lia).
  unfold CodeCoef.
  destruct (NextNz c >=? CurQuantEnd c);
    match goal with |- context [Quantized ?t ?q ?ch ?b ?qb] =>
      pose proof (Quantized_range t q ch b qb) as Hr;
      exists (Quantized t q ch b qb); set (Qn := Quantized t q ch b qb) in *
    end;
    cbn [Out nNzCoded]; rewrite Hw;
    (split; [reflexivity|]); (split; [exact Hr|]);
    (split; [Z.div_mod_to_equations; lia|]);
    destruct (Z.eqb_spec Qn 0) as [H0|H0];
    (split; [split; [intros Hz|intros He]|lia]);
    try lia; try reflexivity;
    try (rewrite H0; reflexivity);
    try (exfalso; Z.div_mod_to_equations; lia).
Qed.

End CoefficientNibbles.

Lemma X20_coefficient_nibble_is_not_an_escape_witness :
  exists Qn,
    BlockEncode.Out (BlockEncode.CodeCoef SampleCoefs SampleQuantsBw SampleQuants 0
                       (BlockEncode.mkCoder 0 1 4 0 0 4 0
                          (BlockEncode.mkWriter (fun _ => 0) 0 0)))
    = BlockEncode.Block_Encode_WriteNybble Qn (BlockEncode.mkWriter (fun _ => 0) 0 0) /\
    -7 <= Qn <= 7 /\
    (Qn mod 256) mod 16 <> 8 /\
    ((Qn mod 256) mod 16 = 0 <->
     BlockEncode.nNzCoded
       (BlockEncode.CodeCoef SampleCoefs SampleQuantsBw SampleQuants 0
          (BlockEncode.mkCoder 0 1 4 0 0 4 0 (BlockEncode.mkWriter (fun _ => 0) 0 0)))
     = 0) /\
    0 <= BlockEncode.nNzCoded
           (BlockEncode.CodeCoef SampleCoefs SampleQuantsBw SampleQuants 0
              (BlockEncode.mkCoder 0 1 4 0 0 4 0 (BlockEncode.mkWriter (fun _ => 0) 0 0)))
      <= 0 + 1.
Proof.
  apply (X20_coefficient_nibble_is_not_an_escape SampleCoefs SampleQuantsBw
           SampleQuants 0
           (BlockEncode.mkCoder 0 1 4 0 0 4 0 (BlockEncode.mkWriter (fun _ => 0) 0 0)));
    cbn; lia.
Defined.

Section EmptyBlock.
Import BlockEncode.

Variable QUANTIZER_UNUSED : Z.
Variable IntLog2 : Z -> Z.
Variables (nChan BlockSize nQuants nNzBands : Z).
Variable TransformBuffer : Z -> Z -> Q.
Variable QuantsBw : Z -> Z.
Variable Quants : Z -> Z -> Z.
Variable Keys : Z -> Z.

Hypothesis nQuants_range : 0 <= nQuants < 2 ^ 64.
Hypothesis all_unused :
  forall Chan QBand, 0 <= Chan < nChan -> 0 <= QBand < nQuants ->
  Quants Chan QBand = QUANTIZER_UNUSED.

Lemma SkipUnused_all (Chan : Z) (fuel : nat) :
  0 <= Chan < nChan ->
  forall c : Coder,
  0 <= NxtQuantBand c <= nQuants ->
  (Z.to_nat (nQuants - NxtQuantBand c) <= fuel)%nat ->
  exists c',
    SkipUnused QUANTIZER_UNUSED nQuants QuantsBw Quants Chan fuel c = Some c' /\
    NxtQuantBand c' = nQuants /\ Out c' = Out c /\
    nNzCoded c' = nNzCoded c /\ Key c' = Key c.
Proof.
  intros HC. induction fuel as [|fuel IH]; intros c Hq Hfuel.
  - cbn [SkipUnused]. destruct (Z.ltb_spec (NxtQuantBand c) nQuants); [lia|].
    cbn [andb]. exists c. repeat split. lia.
  - cbn [SkipUnused]. destruct (Z.ltb_spec (NxtQuantBand c) nQuants) as [Hlt|Hge].
    + rewrite (all_unused Chan (NxtQuantBand c) HC ltac:(lia)), Z.eqb_refl.
      cbn [andb].
      assert (Hw : BlockEncode.u64 (NxtQuantBand c + 1) = NxtQuantBand c + 1)
        by (unfold BlockEncode.u64; apply Z.mod_small; lia).
      match goal with |- context [SkipUnused _ _ _ _ _ fuel ?c1] =>
        destruct (IH c1) as (c' & Hrun & Hn & Ho & Hz & Hk) end.
      * cbn [NxtQuantBand]. rewrite Hw. lia.
      * cbn [NxtQuantBand]. rewrite Hw. lia.
      * exists c'. split; [exact Hrun|]. repeat split; assumption.
    + cbn [andb]. exists c. repeat split. lia.
Qed.

Lemma CodeQuants_all (Chan : Z) (count : nat) :
  0 <= Chan < nChan ->
  forall (QBand : Z) (c : Coder),
  0 <= QBand -> QBand + Z.of_nat count <= nQuants ->
  CodeQuants IntLog2 Quants Chan count QBand c
  = puts (repeat (IntLog2 QUANTIZER_UNUSED) count) c.
Proof.
  intros HC. induction count as [|count IH]; intros QBand c Hq Hn.
  - destruct c as [k a b n1 n2 n3 z [bf d sz]]. reflexivity.
  - cbn [CodeQuants repeat]. rewrite IH by lia.
    rewrite (all_unused Chan QBand HC ltac:(lia)), put_puts, puts_puts.
    reflexivity.
Qed.

Lemma CodeChannel_all (Chan : Z) (c : Coder) :
  0 <= Chan < nChan ->
  exists c',
    CodeChannel QUANTIZER_UNUSED IntLog2 BlockSize nQuants nNzBands
      TransformBuffer QuantsBw Quants Keys Chan c = Some c' /\
    Out c' = WriteNybbles (repeat (IntLog2 QUANTIZER_UNUSED) (Z.to_nat nQuants))
               (Out c) /\
    nNzCoded c' = nNzCoded c.
Proof.
  intros HC. unfold CodeChannel.
  rewrite (CodeQuants_all Chan (Z.to_nat nQuants) HC 0 c) by lia.
  cbn [CodeBands].
  match goal with |- context [SkipUnused _ _ _ _ _ ?f ?c1] =>
    destruct (SkipUnused_all Chan f HC c1) as (c' & Hrun & Hn & Ho & Hz & Hk) end.
  - cbn [NxtQuantBand]. lia.
  - cbn [NxtQuantBand]. lia.
  - cbn [NxtQuantBand] in Hrun |- *. rewrite Hrun, Hn.
    destruct (Z.geb_spec nQuants nQuants); [|lia].
    exists c'. split; [reflexivity|]. split; [rewrite Ho|rewrite Hz]; reflexivity.
Qed.

Lemma CodeChannels_all (count : nat) :
  forall (Chan : Z) (c : Coder),
  0 <= Chan -> Chan + Z.of_nat count <= nChan ->
  exists c',
    CodeChannels QUANTIZER_UNUSED IntLog2 BlockSize nQuants nNzBands
      TransformBuffer QuantsBw Quants Keys count Chan c = Some c' /\
    Out c' = WriteNybbles
               (repeat (IntLog2 QUANTIZER_UNUSED) (count * Z.to_nat nQuants))
               (Out c) /\
    nNzCoded c' = nNzCoded c.
Proof.
  induction count as [|count IH]; intros Chan c HC Hn.
  - exists c. repeat split.
  - cbn [CodeChannels].
    destruct (CodeChannel_all Chan c ltac:(lia)) as (c1 & -> & Ho1 & Hz1).
    destruct (IH (Chan + 1) c1 ltac:(lia) ltac:(lia)) as (c' & -> & Ho & Hz).
    exists c'. split; [reflexivity|]. split; [|congruence].
    rewrite Ho, Ho1, <- WriteNybbles_app, <- repeat_app. reflexivity.
Qed.

(** X21.  The empty block: when no quantizer band of any channel is used,
    the stream is the quantizer nibble of the unused marker,
    [IntLog2(QUANTIZER_UNUSED)], once for each quantizer band of each
    channel and nothing else (no coefficient, no stop code), whatever the
    keys and the coefficients are, and no non-zero coefficient is
    reported. *)
Theorem X21_block_without_used_bands (DstBuffer : Z -> Z) :
  0 <= nChan ->
  Block_Encode QUANTIZER_UNUSED IntLog2 nChan BlockSize nQuants nNzBands
    TransformBuffer QuantsBw Quants Keys DstBuffer
  = Some (ShiftFinalByte
            (WriteNybbles
               (repeat (IntLog2 QUANTIZER_UNUSED)
                       (Z.to_nat nChan * Z.to_nat nQuants))
               (mkWriter DstBuffer 0 0)),
          0).
Proof.
  intros HC. unfold Block_Encode.
  destruct (CodeChannels_all (Z.to_nat nChan) 0
              (mkCoder 0 0 0 0 0 0 0 (mkWriter DstBuffer 0 0)) ltac:(lia) ltac:(lia))
    as (c' & -> & Ho & Hz).
  rewrite Ho, Hz. reflexivity.
Qed.

End EmptyBlock.

Lemma X21_block_without_used_bands_witness :
  BlockEncode.Block_Encode 0 Z.log2 2 16 3 4 SampleCoefs SampleQuantsBw
    (fun _ _ => 0) SampleKeys (fun _ => 0)
  = Some (BlockEncode.ShiftFinalByte
            (WriteNybbles (repeat (Z.log2 0) (Z.to_nat 2 * Z.to_nat 3))
               (BlockEncode.mkWriter (fun _ => 0) 0 0)),
          0).
Proof.
  apply (X21_block_without_used_bands 0 Z.log2 2 16 3 4 SampleCoefs SampleQuantsBw
           (fun _ _ => 0) SampleKeys); [lia|reflexivity|lia].
Defined.

(** ** Silence and scaling in the psychoacoustic analysis *)
Section MaskingLevels.
Import Helper Psycho.
Local Open Scope R_scope.

Lemma PeakAmp2_silent (BufferAmp2 : Z -> R) (count : nat) :
  forall n : Z,
  (forall i, BufferAmp2 i <= 0) -> PeakAmp2 BufferAmp2 count n 0 = 0.
Proof.
  induction count as [|count IH]; intros n Hs; [reflexivity|].
  cbn [PeakAmp2]. destruct (Rgt_dec (BufferAmp2 n) 0) as [Hgt|_].
  - pose proof (Hs n). lra.
  - apply IH. exact Hs.
Qed.

Lemma MaskSubBlocks_silent (Ultrastable : bool) (BufferAmp2 : Z -> R)
  (sbs : list SubBlock) :
  (forall i, BufferAmp2 i <= 0) ->
  forall (at_ : Z) (MaskingNp : Z -> R),
  MaskSubBlocks Ultrastable BufferAmp2 sbs at_ MaskingNp = Some MaskingNp.
Proof.
  intros Hs. induction sbs as [|sb sbs IH]; intros at_ MaskingNp; [reflexivity|].
  cbn [MaskSubBlocks].
  rewrite (PeakAmp2_silent (fun n => BufferAmp2 (at_ + n)%Z))
    by (intros i; apply Hs).
  destruct (Req_EM_T 0 0) as [_|H]; [apply IH|contradiction].
Qed.

(** X22.  Silence is not analysed: when no squared amplitude is positive,
    the function returns, for every window control byte, with [MaskingNp]
    exactly as it was given; no masking level is written. *)
Theorem X22_silent_block_leaves_masking_untouched (Ultrastable : bool)
  (MaskingNp BufferAmp2 : Z -> R) (BlockSize WindowCtrl : Z) :
  (0 <= WindowCtrl < 256)%Z ->
  (forall i, BufferAmp2 i <= 0) ->
  Block_Transform_CalculatePsychoacoustics Ultrastable MaskingNp BufferAmp2
    BlockSize WindowCtrl = Some MaskingNp.
Proof.
  intros HW Hs.
  destruct (Pattern_nibbles WindowCtrl HW) as (p & nbs & Hp & Hn & _).
  unfold Block_Transform_CalculatePsychoacoustics, SubBlocks.
  rewrite Hp, SubBlocks_loop_Nibbles, Hn. cbn [option_map].
  apply MaskSubBlocks_silent. exact Hs.
Qed.

Lemma X22_silent_block_leaves_masking_untouched_witness :
  Block_Transform_CalculatePsychoacoustics true (fun _ => 7) (fun _ => 0) 2048 0xB9
  = Some (fun _ => 7).
Proof.
  apply (X22_silent_block_leaves_masking_untouched true (fun _ => 7) (fun _ => 0)
           2048 0xB9); [lia|intros i; lra].
Defined.

End MaskingLevels.

Section MaskingScale.
Import Helper Psycho.
Local Open Scope R_scope.

Variable Ultrastable : bool.
Variable BufferAmp2 : Z -> R.
Variable c : R.
Hypothesis c_pos : 0 < c.





Variable B : Z.
Hypothesis amplitudes_nonneg : forall i, (0 <= i < B)%Z -> 0 <= BufferAmp2 i.
Hypothesis amplitudes_in_float_range :
  forall i, (0 <= i < B)%Z -> 0 < BufferAmp2 i ->
  / IZR (2 ^ 96) < BufferAmp2 i /\ / IZR (2 ^ 96) < c * BufferAmp2 i.


End MaskingScale.

Section MaskingScaleLaw.
Import Helper Psycho.
Local Open Scope R_scope.


End MaskingScaleLaw.


(** ** The window controller with transient ratios *)
Section TransientRatios.
Import WindowCtrl2020.
Local Open Scope R_scope.

(** X24.  The transient ratio of two segment energies is antisymmetric:
    exchanging them negates the log-ratio and the weighted log-ratio and
    keeps the weight; the weight is never negative, and for energies that
    are not negative it is 0 exactly when the two are equal. *)
Theorem X24_transient_ratio_antisymmetric (R_ L : R) :
  RawLog (Block_Transform_GetWindowCtrl_TransientRatio R_ L)
  = - RawLog (Block_Transform_GetWindowCtrl_TransientRatio L R_) /\
  wLogRatio (Block_Transform_GetWindowCtrl_TransientRatio R_ L)
  = - wLogRatio (Block_Transform_GetWindowCtrl_TransientRatio L R_) /\
  Weight (Block_Transform_GetWindowCtrl_TransientRatio R_ L)
  = Weight (Block_Transform_GetWindowCtrl_TransientRatio L R_) /\
  0 <= Weight (Block_Transform_GetWindowCtrl_TransientRatio R_ L) /\
  (0 <= R_ -> 0 <= L ->
   (Weight (Block_Transform_GetWindowCtrl_TransientRatio R_ L) = 0 <-> R_ = L)).
Proof.
  unfold Block_Transform_GetWindowCtrl_TransientRatio.
  cbn [RawLog wLogRatio Weight].
  set (r := ln (R_ + Bias) - ln (L + Bias)).
  replace (ln (L + Bias) - ln (R_ + Bias)) with (- r) by (unfold r; ring).
  rewrite Rabs_Ropp.
  split; [ring|]. split; [ring|]. split; [reflexivity|].
  split; [apply Rle_0_sqr|].
  intros HR HL.
  assert (HB : 0 < Bias) by (apply Rinv_0_lt_compat, IZR_lt; reflexivity).
  split.
  - intros Hw. apply Rmult_integral in Hw.
    assert (He : exp (Rabs r) = 1) by (destruct Hw; lra).
    rewrite <- exp_0 in He. apply exp_inv in He.
    assert (Hr : r = 0).
    { unfold Rabs in He. destruct (Rcase_abs r); lra. }
    assert (Hln : ln (R_ + Bias) = ln (L + Bias)) by (unfold r in Hr; lra).
    apply ln_inv in Hln; lra.
  - intros ->. unfold r. replace (ln (L + Bias) - ln (L + Bias)) with 0 by ring.
    rewrite Rabs_R0, exp_0. ring.
Qed.

Lemma X24_transient_ratio_antisymmetric_witness :
  Weight (Block_Transform_GetWindowCtrl_TransientRatio 2 2) = 0 <-> 2 = 2.
Proof. apply (X24_transient_ratio_antisymmetric 2 2); lra. Defined.

End TransientRatios.

Section WindowByte.
Import WindowCtrl2020.

Variable Switching : bool.
Variable MinOverlap : Z.
Variable StepBuffer : Z -> R.

(** The search ends, and with a decimation code of at most four bits: a
    fourth decimation is excluded by [Decimation < 0x8]. *)
Lemma Descent_loop_code (fuel : nat) :
  forall s : Search,
  (Z.to_nat (SegmentSize s) < fuel)%nat ->
  1 <= Decimation s <= 15 ->
  exists final LogRatio,
    Descent_loop Switching MinOverlap StepBuffer fuel s = Some (final, LogRatio) /\
    1 <= Decimation final <= 15.
Proof.
  induction fuel as [|fuel IH]; intros s Hfuel HD; [lia|].
  cbn [Descent_loop].
  destruct (PeakRatio StepBuffer s) as [[pos ratio] ratioR].
  destruct (CanDecimate Switching MinOverlap s pos ratio) eqn:Hcan.
  - unfold CanDecimate in Hcan. rewrite !andb_true_iff in Hcan.
    destruct Hcan as ((((_ & Hseg) & Hdec) & _) & _).
    apply Z.gtb_lt in Hseg. apply Z.ltb_lt in Hdec.
    apply IH.
    + destruct pos; cbn [Decimate SegmentSize];
        rewrite Z.quot_div_nonneg by lia;
        assert (0 <= SegmentSize s / 2 < SegmentSize s)
          by (Z.div_mod_to_equations; lia); lia.
    + destruct pos; cbn [Decimate Decimation]; rewrite append_bit by lia; lia.
  - eexists. eexists. split; [reflexivity|exact HD].
Qed.

End WindowByte.

Section OverlapBounds.
Import Float WindowCtrl2020.

Lemma LowerOverlap_range (SubBlockSize MinOverlap : Z) (s0 : nat) :
  0 <= LowerOverlap SubBlockSize MinOverlap s0 <= Z.of_nat s0.
Proof.
  induction s0 as [|s0 IH]; [cbn; lia|].
  cbn [LowerOverlap]. destruct (_ <? _); lia.
Qed.

Lemma RaiseOverlap_range (SubBlockSize MaxOverlap : Z) (fuel : nat) :
  forall s : Z,
  0 <= s <= 7 -> (Z.to_nat (7 - s) <= fuel)%nat ->
  exists s', RaiseOverlap SubBlockSize MaxOverlap fuel s = Some s' /\ s <= s' <= 7.
Proof.
  induction fuel as [|fuel IH]; intros s Hs Hfuel; cbn [RaiseOverlap].
  - destruct (Z.ltb_spec s 7); [lia|]. cbn [andb]. exists s. split; [reflexivity|lia].
  - destruct (Z.ltb_spec s 7) as [Hlt|Hge]; cbn [andb].
    + destruct (_ >? _).
      * destruct (IH (s + 1) ltac:(lia) ltac:(lia)) as (s' & -> & Hs').
        exists s'. split; [reflexivity|lia].
      * exists s. split; [reflexivity|lia].
    + exists s. split; [reflexivity|lia].
Qed.

(** The overlap scaling always exists and fits in three bits; no shift
    count leaves 0..7. *)
Lemma OverlapScale_range (SubBlockSize MinOverlap MaxOverlap : Z) (LogRatio : R) :
  exists s,
    OverlapScale SubBlockSize MinOverlap MaxOverlap LogRatio = Some s /\ 0 <= s <= 7.
Proof.
  unfold OverlapScale.
  destruct (Rge_dec LogRatio 1) as [H1|_]; [|exists 0; split; [reflexivity|lia]].
  set (s0 := if Rlt_dec LogRatio (65 / 10) then to_int (LogRatio + 1 / 2) else 7).
  assert (Hs0 : 0 <= s0 <= 7).
  { unfold s0. destruct (Rlt_dec LogRatio (65 / 10)) as [Hlt|_]; [|lia].
    rewrite to_int_nonneg by lra.
    pose proof (Int_part_bounds (LogRatio + 1 / 2)) as Hb.
    pose proof (Int_part_nonneg (LogRatio + 1 / 2) ltac:(lra)).
    assert (Hlt7 : (IZR (Int_part (LogRatio + 1 / 2)) < IZR 7)%R) by (simpl; lra).
    apply lt_IZR in Hlt7. lia. }
  pose proof (LowerOverlap_range SubBlockSize MinOverlap (Z.to_nat s0)) as Hs1.
  set (s1 := LowerOverlap SubBlockSize MinOverlap (Z.to_nat s0)) in *.
  destruct (RaiseOverlap_range SubBlockSize MaxOverlap (Z.to_nat (7 - s1)) s1
              ltac:(lia) ltac:(lia)) as (s' & -> & Hs').
  exists s'. split; [reflexivity|lia].
Qed.

(** X25.  Whatever the samples, the rate, the block size and the overlap
    bounds, the controller returns a byte in [16, 255]: the decimation code
    in the high nibble is between 1 and 15 (a fourth decimation is excluded
    by the test [Decimation < 0x8]), bit 3 is set exactly when the code is
    not 1, and bits 0..2 hold the overlap scale. *)
Theorem X25_window_control_is_a_byte (Switching : bool)
  (Data LastBlockData StepBuffer : Z -> R)
  (BlockSize MinOverlap MaxOverlap nChan RateHz : Z) :
  exists w,
    Block_Transform_GetWindowCtrl Switching Data LastBlockData StepBuffer
      BlockSize MinOverlap MaxOverlap nChan RateHz = Some w /\
    16 <= w < 256 /\
    1 <= Z.shiftr w 4 <= 15 /\
    Z.testbit w 3 = negb (Z.shiftr w 4 =? 1).
Proof.
  unfold Block_Transform_GetWindowCtrl.
  match goal with |- context [Descent_loop _ _ ?buf ?fuel ?start] =>
    destruct (Descent_loop_code Switching MinOverlap buf fuel start)
      as (final & LogRatio & -> & HD) end.
  - cbn [SegmentSize]. lia.
  - cbn [Decimation]. lia.
  - destruct (OverlapScale_range (SubBlockSize final) MinOverlap MaxOverlap LogRatio)
      as (s & -> & Hs).
    set (f := if Decimation final =? 1 then 0 else 1).
    assert (Hf : 0 <= f <= 1) by (unfold f; destruct (_ =? _); lia).
    destruct (word_fields s f (Decimation final) Hs Hf ltac:(lia))
      as (Hhi & _ & Hbit).
    eexists. split; [reflexivity|]. rewrite Hhi, Hbit.
    split; [lia|]. split; [exact HD|].
    unfold f. destruct (Decimation final =? 1); reflexivity.
Qed.

End OverlapBounds.

(** ** The noise window of Block_Transform_CalculateNoiseLogSpectrum *)
Section NoiseFocus.
Import NoiseSpectrum.

Variables Weight EnergyNp : Z -> Z.
Variables Len lo hi : Z.

Hypothesis Weight_clamped :
  forall i, 0 <= i < Len -> 1 <= Weight i <= 0xFFFFFFFF.
Hypothesis Len_range : 1 <= Len < 2 ^ 31.
Hypothesis lo_range : 0 <= lo <= 255.
Hypothesis hi_range : 256 <= hi.
Hypothesis edge_fits : Len * hi < 2 ^ 31.

(** The edges of the window after [k] re-focusings. *)
Definition LoEdge (k : Z) : Z := lo * k / 256.
Definition HiEdge (k : Z) : Z := Z.min (hi * k / 256) Len.

Lemma noise_edges (k : Z) :
  0 <= k < Len ->
  LoEdge k <= LoEdge (k + 1) <= LoEdge k + 1 /\
  (LoEdge k < LoEdge (k + 1) -> LoEdge k < HiEdge k) /\
  LoEdge (k + 1) <= HiEdge k <= HiEdge (k + 1) /\
  LoEdge (k + 1) < HiEdge (k + 1) /\
  0 <= LoEdge k /\ HiEdge (k + 1) <= Len /\
  1 <= hi * (k + 1) / 256 - LoEdge (k + 1) < 2 ^ 31.
Proof.
  intros Hk. unfold LoEdge, HiEdge.
  replace (lo * (k + 1)) with (lo * k + lo) by ring.
  replace (hi * (k + 1)) with (hi * k + hi) by ring.
  assert (Ha : 0 <= lo * k <= 255 * k) by nia.
  assert (Hb : 256 * k <= hi * k) by nia.
  assert (Hc : hi * k + hi < 2 ^ 31) by nia.
  set (a := lo * k) in *. set (b := hi * k) in *.
  change (2 ^ 31) with 2147483648 in *.
  Z.div_mod_to_equations. lia.
Qed.

Lemma SumFrom_in_bounds (count : nat) :
  forall a : Z,
  0 <= a -> a + Z.of_nat count <= Len ->
  Z.of_nat count <= SumFrom Weight count a <= Z.of_nat count * 0xFFFFFFFF.
Proof.
  induction count as [|count IH]; intros a Ha Hb; [cbn; lia|].
  cbn [SumFrom]. specialize (IH (a + 1) ltac:(lia) ltac:(lia)).
  pose proof (Weight_clamped a ltac:(lia)). lia.
Qed.

Lemma SumRange_in_bounds (a b : Z) :
  0 <= a <= b -> b <= Len ->
  b - a <= SumRange Weight a b <= (b - a) * 0xFFFFFFFF.
Proof.
  intros Ha Hb. unfold SumRange.
  pose proof (SumFrom_in_bounds (Z.to_nat (b - a)) a ltac:(lia) ltac:(lia)). lia.
Qed.

Lemma AddSamples_MaskSumW (count : nat) :
  forall Old MaskSum MaskSumW FloorSum,
  0 <= Old -> Old + Z.of_nat count <= Len ->
  0 <= MaskSumW -> MaskSumW + SumFrom Weight count Old < 2 ^ 64 ->
  snd (fst (AddSamples Weight EnergyNp count Old (MaskSum, MaskSumW, FloorSum)))
  = MaskSumW + SumFrom Weight count Old.
Proof.
  induction count as [|count IH];
    intros Old MaskSum MaskSumW FloorSum HOld HEnd H0 Hlt.
  - cbn. lia.
  - cbn [AddSamples SumFrom] in *.
    pose proof (Weight_clamped Old ltac:(lia)).
    pose proof (SumFrom_in_bounds count (Old + 1) ltac:(lia) ltac:(lia)).
    assert (Hw : Psycho.u64 (MaskSumW + Weight Old) = MaskSumW + Weight Old)
      by (unfold Psycho.u64; apply Z.mod_small; lia).
    rewrite Hw, IH by lia. lia.
Qed.

(** The window after [k] re-focusings: the fixed-point edges stand at
    [lo*k] and [hi*k], and [MaskSumW] is the weight of the lines in
    focus. *)
Definition InFocus (k : Z) (w : Window) : Prop :=
  NoiseBeg w = lo * k /\ NoiseEnd w = hi * k /\
  MaskSumW w = SumRange Weight (LoEdge k) (HiEdge k).

Lemma Refocus_InFocus (k : Z) (w : Window) :
  0 <= k < Len -> InFocus k w ->
  InFocus (k + 1) (Refocus Weight EnergyNp Len lo hi w).
Proof.
  intros Hk (Hbeg & Hend & Hsum).
  destruct (noise_edges k Hk) as (Hlo & Hin & Hhi & Hne & Hlo0 & HhiS & _).
  unfold InFocus, Refocus, RangeScaleFxp. rewrite Hbeg, Hend, Hsum.
  rewrite !Z.shiftr_div_pow2 by lia. change (2 ^ 8) with 256.
  replace (lo * k + lo) with (lo * (k + 1)) by ring.
  replace (hi * k + hi) with (hi * (k + 1)) by ring.
  fold (LoEdge k) (LoEdge (k + 1)).
  set (removed :=
         if LoEdge k <? LoEdge (k + 1)
         then (Psycho.u64 (MaskSum w
                           - Psycho.u64 (Weight (LoEdge k) * EnergyNp (LoEdge k))),
               Psycho.u64 (SumRange Weight (LoEdge k) (HiEdge k) - Weight (LoEdge k)),
               Psycho.u32 (FloorSum w - EnergyNp (LoEdge k)))
         else (MaskSum w, SumRange Weight (LoEdge k) (HiEdge k), FloorSum w)).
  assert (Hrem : snd (fst removed) = SumRange Weight (LoEdge (k + 1)) (HiEdge k)).
  { unfold removed.
    destruct (Z.ltb_spec (LoEdge k) (LoEdge (k + 1))) as [Hlt|Hge]; cbn [fst snd].
    - rewrite (SumRange_first Weight (LoEdge k) (HiEdge k)) by (apply Hin; exact Hlt).
      replace (LoEdge (k + 1)) with (LoEdge k + 1) by lia.
      assert (HhiK : HiEdge k <= Len) by (unfold HiEdge; lia).
      pose proof (SumRange_in_bounds (LoEdge k + 1) (HiEdge k)
                    ltac:(specialize (Hin Hlt); lia) HhiK).
      replace (Weight (LoEdge k) + SumRange Weight (LoEdge k + 1) (HiEdge k)
               - Weight (LoEdge k))
        with (SumRange Weight (LoEdge k + 1) (HiEdge k)) by lia.
      unfold Psycho.u64. apply Z.mod_small.
      change (2 ^ 64) with 18446744073709551616.
      change (2 ^ 31) with 2147483648 in Len_range. nia.
    - replace (LoEdge (k + 1)) with (LoEdge k) by lia. reflexivity. }
  destruct removed as [[Sum1 SumW1] Floor1]. cbn [fst snd] in Hrem. subst SumW1.
  assert (HNew : (if hi * (k + 1) / 256 >? Len then Len else hi * (k + 1) / 256)
                 = HiEdge (k + 1)).
  { unfold HiEdge. destruct (Z.gtb_spec (hi * (k + 1) / 256) Len); lia. }
  rewrite HNew.
  assert (Hbound : SumRange Weight (LoEdge (k + 1)) (HiEdge (k + 1)) < 2 ^ 64).
  { pose proof (SumRange_in_bounds (LoEdge (k + 1)) (HiEdge (k + 1))
                  ltac:(lia) ltac:(lia)).
    change (2 ^ 64) with 18446744073709551616.
    change (2 ^ 31) with 2147483648 in Len_range. nia. }
  destruct (Z.ltb_spec (hi * k / 256) (HiEdge (k + 1))) as [Hlt|Hge].
  - assert (HOld : hi * k / 256 = HiEdge k) by (unfold HiEdge in *; lia).
    rewrite HOld.
    pose proof (AddSamples_MaskSumW (Z.to_nat (HiEdge (k + 1) - HiEdge k))
                  (HiEdge k) Sum1 (SumRange Weight (LoEdge (k + 1)) (HiEdge k))
                  Floor1) as Hadd.
    fold (SumRange Weight (HiEdge k) (HiEdge (k + 1))) in Hadd.
    pose proof (SumRange_in_bounds (LoEdge (k + 1)) (HiEdge k)
                  ltac:(lia) ltac:(lia)).
    rewrite <- (SumRange_app Weight (LoEdge (k + 1)) (HiEdge k) (HiEdge (k + 1)))
      in Hadd by lia.
    assert (Hk0 : 0 <= HiEdge k) by lia.
    specialize (Hadd Hk0 ltac:(lia) ltac:(lia) Hbound).
    destruct (AddSamples _ _ _ _ _) as [[Sum2 SumW2] Floor2]. cbn [fst snd] in Hadd.
    cbn [NoiseBeg NoiseEnd MaskSumW]. split; [reflexivity|]. split; [reflexivity|].
    exact Hadd.
  - assert (HhiEq : HiEdge (k + 1) = HiEdge k).
    { assert (Hk' : HiEdge k = Z.min (hi * k / 256) Len) by reflexivity. lia. }
    cbn [NoiseBeg NoiseEnd MaskSumW]. rewrite HhiEq.
    split; [reflexivity|]. split; reflexivity.
Qed.

Lemma InFocus_initial : InFocus 0 (mkWindow 0 0 0 0 0).
Proof.
  unfold InFocus. cbn [NoiseBeg NoiseEnd MaskSumW].
  split; [lia|]. split; [lia|].
  rewrite SumRange_empty; [reflexivity|]. unfold LoEdge, HiEdge.
  rewrite !Z.mul_0_r. cbn. lia.
Qed.

(** No line divides by zero: the weight in focus is positive and the floor
    bandwidth is at least 1. *)
Lemma Lines_total (count : nat) :
  forall (k : Z) (w : Window),
  0 <= k -> k + Z.of_nat count <= Len -> InFocus k w ->
  exists xs,
    Lines Weight EnergyNp Len lo hi count w = Some xs /\ length xs = count.
Proof.
  induction count as [|count IH]; intros k w Hk Hend Hw.
  - exists []. split; reflexivity.
  - cbn [Lines].
    pose proof (Refocus_InFocus k w ltac:(lia) Hw) as Hw'.
    destruct (noise_edges k ltac:(lia)) as (_ & _ & _ & Hne & _ & _ & Hbw).
    set (w' := Refocus Weight EnergyNp Len lo hi w) in *.
    destruct Hw' as (Hbeg & Hend' & Hsum).
    assert (Hpos : 0 < MaskSumW w').
    { rewrite Hsum.
      destruct (noise_edges k ltac:(lia)) as (Hlo1 & _ & _ & _ & Hlo0 & HhiS & _).
      pose proof (SumRange_in_bounds (LoEdge (k + 1)) (HiEdge (k + 1))
                    ltac:(lia) HhiS). lia. }
    unfold Level at 1. rewrite Hbeg, Hend'. unfold RangeScaleFxp.
    rewrite !Z.shiftr_div_pow2 by lia. change (2 ^ 8) with 256.
    fold (LoEdge (k + 1)).
    destruct (Z.eqb_spec (MaskSumW w') 0) as [Hz|_]; [lia|]. cbn [orb].
    assert (Hu : Psycho.u32 (hi * (k + 1) / 256 - LoEdge (k + 1))
                 = hi * (k + 1) / 256 - LoEdge (k + 1)).
    { unfold Psycho.u32. apply Z.mod_small.
      change (2 ^ 31) with 2147483648 in Hbw. change (2 ^ 32) with 4294967296. lia. }
    rewrite Hu.
    destruct (Z.eqb_spec (hi * (k + 1) / 256 - LoEdge (k + 1)) 0) as [Hz|_]; [lia|].
    destruct (IH (k + 1) w' ltac:(lia) ltac:(lia)) as (xs & Hxs & Hlen).
    { split; [exact Hbeg|]. split; [exact Hend'|exact Hsum]. }
    rewrite Hxs. eexists. split; [reflexivity|]. cbn [length]. rewrite Hlen.
    reflexivity.
Qed.

End NoiseFocus.

Section NoiseSpectrumSafe.
Import Float NoiseSpectrum.
Local Open Scope R_scope.

Lemma to_int_IZR (z : Z) : to_int (IZR z) = z.
Proof.
  unfold to_int. destruct (Rle_dec 0 (IZR z)) as [H|H].
  - apply Int_part_IZR.
  - rewrite <- opp_IZR, Int_part_IZR. lia.
Qed.

(** The fixed-point bandwidths: the lower one stays below 1.0 (256), the
    upper one at or above it, whatever the rate is. *)
Lemma LoRangeScale_range (RateHz : Z) :
  (1 <= RateHz)%Z -> (0 <= LoRangeScale RateHz <= 255)%Z.
Proof.
  intros HR. unfold LoRangeScale, floorf. rewrite to_int_IZR.
  change (Z.shiftl 1 RangeScaleFxp) with 256%Z.
  assert (HRr : 1 <= IZR RateHz) by (apply IZR_le; exact HR).
  assert (Hs : 0 < 2 * 16000 / IZR RateHz) by (apply Rdiv_lt_0_compat; lra).
  destruct (Rge_dec (2 * 16000 / IZR RateHz) 1) as [Hge|Hlt].
  - rewrite (Int_part_unique _ 255); [lia|]. simpl. lra.
  - set (s := 2 * 16000 / IZR RateHz) in *.
    pose proof (Int_part_nonneg (IZR 256 * s) ltac:(simpl; lra)).
    pose proof (Int_part_bounds (IZR 256 * s)) as Hb.
    assert (Hlt' : IZR (Int_part (IZR 256 * s)) < IZR 256) by (simpl in *; lra).
    apply lt_IZR in Hlt'. lia.
Qed.

Lemma HiRangeScale_range (RateHz : Z) : (256 <= HiRangeScale RateHz)%Z.
Proof.
  unfold HiRangeScale, ceilf. rewrite to_int_IZR.
  change (Z.shiftl 1 RangeScaleFxp) with 256%Z.
  set (s := if Rlt_dec (IZR RateHz / (2 * 22000)) 1 then 1
            else IZR RateHz / (2 * 22000)).
  assert (Hs : 1 <= s) by (unfold s; destruct (Rlt_dec _ 1); lra).
  pose proof (Int_part_bounds (- (IZR 256 * s))) as Hb.
  assert (Hle : IZR (Int_part (- (IZR 256 * s))) <= IZR (- 256)) by (simpl in *; lra).
  apply le_IZR in Hle. lia.
Qed.

(** Up to 44 kHz the upper bandwidth is exactly 1.0. *)
Lemma HiRangeScale_upto_44k (RateHz : Z) :
  (RateHz <= 44000)%Z -> HiRangeScale RateHz = 256%Z.
Proof.
  intros HR. unfold HiRangeScale, ceilf. rewrite to_int_IZR.
  change (Z.shiftl 1 RangeScaleFxp) with 256%Z.
  assert (HRr : IZR RateHz <= 44000) by (apply IZR_le in HR; exact HR).
  set (s := if Rlt_dec (IZR RateHz / (2 * 22000)) 1 then 1
            else IZR RateHz / (2 * 22000)).
  assert (Hs : s = 1) by (unfold s; destruct (Rlt_dec _ 1); lra).
  rewrite Hs. rewrite (Int_part_unique _ (- 256)); [reflexivity|]. simpl. lra.
Qed.


(** After normalisation no value exceeds 2^32 - 512, so every weight is a
    non-zero 32-bit word. *)
Lemma Weight_of_range (x Norm : R) :
  0 < Norm -> x <= Norm ->
  (1 <= Weight_of (x * Normalizer Norm) <= 0xFFFFFFFF)%Z.
Proof.
  intros HN Hx.
  assert (Hv : x * Normalizer Norm <= IZR (2 ^ 32 - 2 ^ 9)).
  { unfold Normalizer. destruct (Rgt_dec Norm (/ IZR (2 ^ 96))) as [Hbig|Hsmall].
    - assert (H0 : 0 < IZR (2 ^ 32 - 2 ^ 9) / Norm)
        by (apply Rdiv_lt_0_compat; [apply IZR_lt; reflexivity|exact HN]).
      apply Rle_trans with (Norm * (IZR (2 ^ 32 - 2 ^ 9) / Norm)).
      + apply Rmult_le_compat_r; lra.
      + right. field. lra.
    - assert (H0 : 0 < IZR (2 ^ 128 - 2 ^ 105)) by (apply IZR_lt; reflexivity).
      apply Rle_trans with (/ IZR (2 ^ 96) * IZR (2 ^ 128 - 2 ^ 105)).
      + apply Rmult_le_compat_r; lra.
      + right.
        replace (2 ^ 128 - 2 ^ 105)%Z with ((2 ^ 32 - 2 ^ 9) * 2 ^ 96)%Z by reflexivity.
        rewrite mult_IZR. field. apply not_0_IZR. discriminate. }
  unfold Weight_of. set (v := x * Normalizer Norm) in *.
  destruct (Rle_dec v 1) as [_|Hgt]; [lia|].
  unfold Psycho.to_u32. rewrite to_int_nonneg by lra.
  assert (H1 : (1 <= Int_part v)%Z) by (apply Int_part_le; simpl; lra).
  assert (H2 : IZR (Int_part v) <= IZR (2 ^ 32 - 2 ^ 9))
    by (pose proof (Int_part_bounds v); lra).
  apply le_IZR in H2. unfold Psycho.u32.
  change (2 ^ 32 - 2 ^ 9)%Z with 4294966784%Z in H2.
  rewrite Z.mod_small; change (2 ^ 32)%Z with 4294967296%Z; lia.
Qed.

Lemma Store_below (values : list R) :
  forall (M : Z -> R) (at_ i : Z), (i < at_)%Z -> Psycho.Store M at_ values i = M i.
Proof.
  induction values as [|v values IH]; intros M at_ i Hi; [reflexivity|].
  cbn [Psycho.Store]. rewrite IH by lia.
  destruct (Z.eqb_spec i at_); [lia|reflexivity].
Qed.

Lemma Store_nth (values : list R) :
  forall (M : Z -> R) (at_ : Z) (n : nat),
  (n < length values)%nat ->
  Psycho.Store M at_ values (at_ + Z.of_nat n)%Z = nth n values 0.
Proof.
  induction values as [|v values IH]; intros M at_ n Hn; [cbn in Hn; lia|].
  cbn [Psycho.Store]. destruct n as [|n].
  - rewrite Store_below by lia. rewrite Z.add_0_r, Z.eqb_refl. reflexivity.
  - replace (at_ + Z.of_nat (S n))%Z with (at_ + 1 + Z.of_nat n)%Z by lia.
    rewrite IH by (cbn in Hn; lia). reflexivity.
Qed.

(** X26.  The noise log-spectrum is computed without a division by zero:
    for a rate of at least 1 Hz and [N/2 >= 1] lines (the fixed-point edge
    staying within [int]), the lower bandwidth is below 256 and the upper one
    at least 256, so the weight in focus and the floor bandwidth are both
    positive at every line.  The function returns; when the peak of the
    first [N/2] values is 0 it leaves the data as it is, and otherwise the
    [2*(N/2)] cells hold, line by line (the portable loop of the weights),
    the weight of a level and the level times that weight. *)
Theorem X26_noise_spectrum_is_computed (AsFloat Data : Z -> R) (N RateHz : Z) :
  (1 <= RateHz)%Z -> (2 <= N < 2 ^ 31)%Z ->
  (Z.quot N 2 * HiRangeScale RateHz < 2 ^ 31)%Z ->
  (0 <= LoRangeScale RateHz <= 255)%Z /\ (256 <= HiRangeScale RateHz)%Z /\
  exists Mem,
    Block_Transform_CalculateNoiseLogSpectrum AsFloat Data N RateHz = Some Mem /\
    (Psycho.PeakAmp2 Data (Z.to_nat (Z.quot N 2)) 0 0 = 0 -> Mem = Data) /\
    (Psycho.PeakAmp2 Data (Z.to_nat (Z.quot N 2)) 0 0 <> 0 ->
     exists levels,
       length levels = Z.to_nat (Z.quot N 2) /\
       forall n, (n < Z.to_nat (Z.quot N 2))%nat ->
         Mem (2 * Z.of_nat n)%Z = NoiseFill.Weight_of (nth n levels 0) /\
         Mem (2 * Z.of_nat n + 1)%Z
         = nth n levels 0 * NoiseFill.Weight_of (nth n levels 0)).
Proof.
  intros HR HN Hfit.
  pose proof (LoRangeScale_range RateHz HR) as Hlo.
  pose proof (HiRangeScale_range RateHz) as Hhi.
  split; [exact Hlo|]. split; [exact Hhi|].
  unfold Block_Transform_CalculateNoiseLogSpectrum.
  assert (HN2 : (1 <= Z.quot N 2 < 2 ^ 31)%Z).
  { rewrite Z.quot_div_nonneg by lia. change (2 ^ 31)%Z with 2147483648%Z in *.
    Z.div_mod_to_equations. lia. }
  set (N2 := Z.quot N 2) in *.
  destruct (PeakAmp2_max Data (Z.to_nat N2) 0 0) as [Hpk0 Hpk].
  set (Norm := Psycho.PeakAmp2 Data (Z.to_nat N2) 0 0) in *.
  destruct (Req_EM_T Norm 0) as [Hz|Hnz].
  { exists Data. split; [reflexivity|]. split; [reflexivity|contradiction]. }
  set (Weight := fun n => Weight_of (Data n * Normalizer Norm)).
  set (EnergyNp := fun n => EnergyNp_of (Data n * Normalizer Norm)
                              (LogScaleNum / IZR N2)).
  destruct (Lines_total Weight EnergyNp N2 (LoRangeScale RateHz)
              (HiRangeScale RateHz)) with (count := Z.to_nat N2) (k := 0%Z)
              (w := mkWindow 0 0 0 0 0) as (xs & -> & Hlen);
    try assumption; try lia.
  - intros i Hi. apply Weight_of_range; [lra|]. apply Hpk. lia.
  - apply InFocus_initial; try assumption; lia.
  - eexists. split; [reflexivity|]. split; [contradiction|]. intros _.
    set (levels := map (fun x => IZR x * (InvLogScaleN * IZR N2)
                                 + (Log2 - 1 / 2 * ln (Normalizer Norm))) xs).
    exists levels.
    assert (Hlen' : length levels = Z.to_nat N2)
      by (unfold levels; rewrite length_map; exact Hlen).
    split; [exact Hlen'|]. intros n Hn.
    unfold NoiseFill.Block_Transform_CalculateNoiseLogSpectrumWithWeights.
    match goal with |- context [Psycho.Store ?M N2 levels] =>
      destruct (WithWeights_loop_spec (Z.to_nat N2) 0%Z N2 (Psycho.Store M N2 levels)
                  ltac:(lia)) as [_ Hp];
      pose proof (Store_nth levels M N2 n ltac:(lia)) as Hst
    end.
    destruct (Hp (Z.of_nat n) ltac:(lia)) as [H1 H2].
    rewrite Hst in H1, H2. rewrite !Z.add_0_l in H1, H2. split; assumption.
Qed.

End NoiseSpectrumSafe.

Lemma X26_noise_spectrum_is_computed_witness :
  (0 <= NoiseSpectrum.LoRangeScale 32000 <= 255)%Z /\
  (256 <= NoiseSpectrum.HiRangeScale 32000)%Z /\
  exists Mem,
    NoiseSpectrum.Block_Transform_CalculateNoiseLogSpectrum
      (fun w => IZR w) (fun i => IZR i) 4 32000 = Some Mem /\
    (Psycho.PeakAmp2 (fun i => IZR i) (Z.to_nat (Z.quot 4 2)) 0 0 = 0%R ->
     Mem = (fun i => IZR i)) /\
    (Psycho.PeakAmp2 (fun i => IZR i) (Z.to_nat (Z.quot 4 2)) 0 0 <> 0%R ->
     exists levels,
       length levels = Z.to_nat (Z.quot 4 2) /\
       forall n, (n < Z.to_nat (Z.quot 4 2))%nat ->
         Mem (2 * Z.of_nat n)%Z = NoiseFill.Weight_of (nth n levels 0%R) /\
         Mem (2 * Z.of_nat n + 1)%Z
         = (nth n levels 0 * NoiseFill.Weight_of (nth n levels 0))%R).
Proof.
  apply (X26_noise_spectrum_is_computed (fun w => IZR w) (fun i => IZR i) 4 32000).
  - lia.
  - lia.
  - rewrite HiRangeScale_upto_44k by lia. reflexivity.
Defined.

(** ** The vector branches of the weights *)
Section VectorLanes.
Import NoiseFill.
Local Open Scope R_scope.

Lemma mul_ps_repeat (c : R) (x : list R) :
  mul_ps x (repeat c (length x)) = map (fun v => v * c) x.
Proof.
  unfold mul_ps. induction x as [|v x IH]; [reflexivity|].
  cbn [length repeat combine map fst snd]. rewrite IH. reflexivity.
Qed.

Lemma add_ps_repeat (c : R) (g : R -> R) (x : list R) :
  add_ps (repeat c (length x)) (map g x) = map (fun v => c + g v) x.
Proof.
  unfold add_ps. induction x as [|v x IH]; [reflexivity|].
  cbn [length repeat combine map fst snd]. rewrite IH. reflexivity.
Qed.

Lemma mul_ps_map (f g : R -> R) (x : list R) :
  mul_ps (map f x) (map g x) = map (fun v => f v * g v) x.
Proof.
  unfold mul_ps. induction x as [|v x IH]; [reflexivity|].
  cbn [combine map fst snd]. rewrite IH. reflexivity.
Qed.

Lemma Squarings_ps_map (count : nat) :
  forall (f : R -> R) (x : list R),
  Squarings_ps count (map f x) = map (fun v => Squarings count (f v)) x.
Proof.
  induction count as [|count IH]; intros f x; cbn [Squarings_ps Squarings].
  - reflexivity.
  - rewrite mul_ps_map, IH. reflexivity.
Qed.

(** Every lane of [y] is the weight of its lane of [x], and every lane of
    the product is [x * y]. *)
Lemma lanes_weight (lanes : nat) (x : list R) :
  length x = lanes ->
  Squarings_ps (Z.to_nat Log2M)
    (add_ps (set1_ps lanes 1)
       (mul_ps x (set1_ps lanes (1 / 2 / IZR (Z.shiftl 1 Log2M)))))
  = map Weight_of x.
Proof.
  intros <-. unfold set1_ps.
  rewrite mul_ps_repeat, add_ps_repeat, Squarings_ps_map. reflexivity.
Qed.

Lemma lanes_product (x : list R) :
  mul_ps x (map Weight_of x) = map (fun v => v * Weight_of v) x.
Proof.
  rewrite <- (map_id x) at 1. rewrite mul_ps_map. reflexivity.
Qed.

Lemma load_ps_length (lanes : nat) (Mem : Z -> R) (p : Z) :
  length (load_ps lanes Mem p) = lanes.
Proof. unfold load_ps. rewrite length_map, length_seq. reflexivity. Qed.

Lemma load_ps_nth (lanes : nat) (Mem : Z -> R) (p : Z) (i : nat) :
  (i < lanes)%nat -> nth i (load_ps lanes Mem p) 0 = Mem (p + Z.of_nat i)%Z.
Proof.
  intros Hi. unfold load_ps.
  pose (f := fun i : nat => Mem (p + Z.of_nat i)%Z).
  change (nth i (map f (seq 0 lanes)) 0 = f i).
  rewrite (nth_indep _ 0 (f 0%nat)) by (rewrite length_map, length_seq; exact Hi).
  rewrite map_nth, seq_nth by exact Hi. reflexivity.
Qed.

Lemma store_ps_outside (v : list R) :
  forall (Mem : Z -> R) (p j : Z),
  (j < p \/ p + Z.of_nat (length v) <= j)%Z -> store_ps Mem p v j = Mem j.
Proof.
  induction v as [|x v IH]; intros Mem p j Hj; [reflexivity|].
  cbn [store_ps length] in *. rewrite IH by lia. apply poke_other. lia.
Qed.

Lemma store_ps_nth (v : list R) :
  forall (Mem : Z -> R) (p : Z) (i : nat),
  (i < length v)%nat -> store_ps Mem p v (p + Z.of_nat i)%Z = nth i v 0.
Proof.
  induction v as [|x v IH]; intros Mem p i Hi; [cbn in Hi; lia|].
  cbn [store_ps]. destruct i as [|i].
  - rewrite store_ps_outside by lia. rewrite Z.add_0_r. apply poke_same.
  - replace (p + Z.of_nat (S i))%Z with (p + 1 + Z.of_nat i)%Z by lia.
    rewrite IH by (cbn in Hi; lia). reflexivity.
Qed.

Lemma store_ps_app (a : list R) :
  forall (b : list R) (Mem : Z -> R) (p : Z),
  store_ps (store_ps Mem p a) (p + Z.of_nat (length a)) b
  = store_ps Mem p (a ++ b).
Proof.
  induction a as [|x a IH]; intros b Mem p.
  - cbn. rewrite Z.add_0_r. reflexivity.
  - cbn [store_ps app length]. rewrite <- IH. f_equal. lia.
Qed.

(** The portable loop writes nothing outside its [2*count] cells. *)
Lemma WithWeights_loop_outside (count : nat) :
  forall (Dst Src : Z) (Mem : Z -> R) (j : Z),
  (j < Dst \/ Dst + 2 * Z.of_nat count <= j)%Z ->
  WithWeights_loop count Dst Src Mem j = Mem j.
Proof.
  induction count as [|count IH]; intros Dst Src Mem j Hj; [reflexivity|].
  cbn [WithWeights_loop]. rewrite IH by lia. rewrite !poke_other by lia.
  reflexivity.
Qed.

Section Layout.

Variable lanes : nat.
Variables unpacklo unpackhi : list R -> list R -> list R.
Variable line : nat -> nat.

Hypothesis layout :
  forall y x : list R, length y = lanes -> length x = lanes ->
  length (unpacklo y x ++ unpackhi y x) = (2 * lanes)%nat /\
  forall s, (s < lanes)%nat ->
    (line s < lanes)%nat /\
    nth (2 * s) (unpacklo y x ++ unpackhi y x) 0 = nth (line s) y 0 /\
    nth (2 * s + 1) (unpacklo y x ++ unpackhi y x) 0 = nth (line s) x 0.
Hypothesis lo_length :
  forall y x : list R, length y = lanes -> length x = lanes ->
  length (unpacklo y x) = lanes.

(** The vector loop, with the destination at or below the source by at
    least the number of lines still to do: slot [s] of group [k] holds
    the pair of line [line s] of that group, and no cell outside the
    [2*lanes*count] written ones changes. *)
Lemma Vector_loop_spec (count : nat) :
  forall (Dst Src : Z) (Mem : Z -> R),
  (Dst + Z.of_nat lanes * Z.of_nat count <= Src)%Z ->
  (forall j, (j < Dst \/ Dst + 2 * (Z.of_nat lanes * Z.of_nat count) <= j)%Z ->
     Vector_loop lanes unpacklo unpackhi count Dst Src Mem j = Mem j) /\
  (forall k s, (k < count)%nat -> (s < lanes)%nat ->
     let x := Mem (Src + Z.of_nat lanes * Z.of_nat k + Z.of_nat (line s))%Z in
     Vector_loop lanes unpacklo unpackhi count Dst Src Mem
       (Dst + 2 * (Z.of_nat lanes * Z.of_nat k + Z.of_nat s))%Z
     = Weight_of x /\
     Vector_loop lanes unpacklo unpackhi count Dst Src Mem
       (Dst + 2 * (Z.of_nat lanes * Z.of_nat k + Z.of_nat s) + 1)%Z
     = x * Weight_of x).
Proof.
  induction count as [|count IH]; intros Dst Src Mem Hgap.
  - split; [reflexivity|]. intros k s Hk. lia.
  - cbn [Vector_loop].
    set (x := load_ps lanes Mem Src).
    assert (Hx : length x = lanes) by apply load_ps_length.
    rewrite (lanes_weight lanes x Hx), lanes_product.
    set (y := map Weight_of x). set (xy := map (fun v => v * Weight_of v) x).
    assert (Hy : length y = lanes) by (unfold y; rewrite length_map; exact Hx).
    assert (Hxy : length xy = lanes) by (unfold xy; rewrite length_map; exact Hx).
    assert (Hst : store_ps (store_ps Mem Dst (unpacklo y xy))
                    (Dst + Z.of_nat lanes) (unpackhi y xy)
                  = store_ps Mem Dst (unpacklo y xy ++ unpackhi y xy))
      by (rewrite <- store_ps_app, (lo_length y xy Hy Hxy); reflexivity).
    rewrite Hst. clear Hst.
    destruct (layout y xy Hy Hxy) as [Hlen Hslots].
    set (v := unpacklo y xy ++ unpackhi y xy) in *.
    set (Mem1 := store_ps Mem Dst v).
    set (L := Z.of_nat lanes) in *.
    assert (HL : (0 <= L)%Z) by (unfold L; lia).
    assert (HLc : (0 <= L * Z.of_nat count)%Z) by (apply Z.mul_nonneg_nonneg; lia).
    assert (Hout : forall j, (j < Dst \/ Dst + 2 * L <= j)%Z -> Mem1 j = Mem j).
    { intros j Hj. unfold Mem1. apply store_ps_outside. rewrite Hlen. lia. }
    assert (Hslot : forall s, (s < lanes)%nat ->
              Mem1 (Dst + 2 * Z.of_nat s)%Z
              = Weight_of (Mem (Src + Z.of_nat (line s))%Z) /\
              Mem1 (Dst + 2 * Z.of_nat s + 1)%Z
              = Mem (Src + Z.of_nat (line s))%Z
                * Weight_of (Mem (Src + Z.of_nat (line s))%Z)).
    { intros s Hs. destruct (Hslots s Hs) as (Hl & H0 & H1). unfold Mem1.
      replace (Dst + 2 * Z.of_nat s)%Z with (Dst + Z.of_nat (2 * s))%Z by lia.
      replace (Dst + Z.of_nat (2 * s) + 1)%Z
        with (Dst + Z.of_nat (2 * s + 1))%Z by lia.
      rewrite !store_ps_nth by lia. rewrite H0, H1. unfold y, xy.
      pose (g := fun v => v * Weight_of v).
      change (map (fun v => v * Weight_of v) x) with (map g x).
      rewrite (nth_indep (map Weight_of x) 0 (Weight_of 0))
        by (rewrite length_map; lia).
      rewrite (nth_indep (map g x) 0 (g 0)) by (rewrite length_map; lia).
      rewrite !map_nth. unfold x, g. rewrite load_ps_nth by exact Hl.
      split; reflexivity. }
    replace (Z.of_nat (S count)) with (Z.of_nat count + 1)%Z in * by lia.
    destruct (IH (Dst + 2 * L)%Z (Src + L)%Z Mem1 ltac:(lia)) as [IHout IHslots].
    split.
    + intros j Hj. rewrite IHout by lia. apply Hout. lia.
    + intros k s Hk Hs. destruct k as [|k].
      * cbn [Z.of_nat]. rewrite Z.mul_0_r, Z.add_0_r, Z.add_0_l.
        rewrite !IHout by lia. apply Hslot. exact Hs.
      * destruct (IHslots k s ltac:(lia) Hs) as [H0 H1]. cbv zeta in H0, H1.
        destruct (Hslots s Hs) as (Hl & _ & _).
        assert (HLk : (0 <= L * Z.of_nat k)%Z) by (apply Z.mul_nonneg_nonneg; lia).
        assert (HLkc : (L * Z.of_nat k <= L * Z.of_nat count)%Z)
          by (apply Z.mul_le_mono_nonneg_l; lia).
        rewrite Hout in H0, H1 by lia.
        replace (Z.of_nat (S k)) with (Z.of_nat k + 1)%Z by lia.
        replace (Dst + 2 * (L * (Z.of_nat k + 1) + Z.of_nat s))%Z
          with (Dst + 2 * L + 2 * (L * Z.of_nat k + Z.of_nat s))%Z by lia.
        replace (Src + L * (Z.of_nat k + 1) + Z.of_nat (line s))%Z
          with (Src + L + L * Z.of_nat k + Z.of_nat (line s))%Z by lia.
        split; assumption.
Qed.

End Layout.

Lemma SSE_layout (y x : list R) :
  length y = 4%nat -> length x = 4%nat ->
  length (mm_unpacklo_ps y x ++ mm_unpackhi_ps y x) = (2 * 4)%nat /\
  forall s, (s < 4)%nat ->
    ((fun s => s) s < 4)%nat /\
    nth (2 * s) (mm_unpacklo_ps y x ++ mm_unpackhi_ps y x) 0 = nth s y 0 /\
    nth (2 * s + 1) (mm_unpacklo_ps y x ++ mm_unpackhi_ps y x) 0 = nth s x 0.
Proof.
  intros Hy Hx. split; [reflexivity|]. intros s Hs. split; [exact Hs|].
  destruct s as [|[|[|[|s]]]]; try lia; split; reflexivity.
Qed.

Lemma AVX_layout (y x : list R) :
  length y = 8%nat -> length x = 8%nat ->
  length (mm256_unpacklo_ps y x ++ mm256_unpackhi_ps y x) = (2 * 8)%nat /\
  forall s, (s < 8)%nat ->
    (AVX_line s < 8)%nat /\
    nth (2 * s) (mm256_unpacklo_ps y x ++ mm256_unpackhi_ps y x) 0
    = nth (AVX_line s) y 0 /\
    nth (2 * s + 1) (mm256_unpacklo_ps y x ++ mm256_unpackhi_ps y x) 0
    = nth (AVX_line s) x 0.
Proof.
  intros Hy Hx. split; [reflexivity|]. intros s Hs.
  destruct y as [|y0 [|y1 [|y2 [|y3 [|y4 [|y5 [|y6 [|y7 [|]]]]]]]]];
    try discriminate Hy.
  destruct x as [|x0 [|x1 [|x2 [|x3 [|x4 [|x5 [|x6 [|x7 [|]]]]]]]]];
    try discriminate Hx.
  destruct s as [|[|[|[|[|[|[|[|s]]]]]]]]; try lia;
    (split; [cbn; lia|split; reflexivity]).
Qed.

(** X27.  The SSE branch gives the memory the portable loop gives: for a
    line count that is a multiple of four and the destination at or below
    the source by at least that count, the two results agree at every
    cell. *)
Theorem X27_sse_weights_as_portable (Mem : Z -> R) (Dst Src u j : Z) :
  (0 <= u)%Z -> (Dst + 4 * u <= Src)%Z ->
  Block_Transform_CalculateNoiseLogSpectrumWithWeights_SSE Mem Dst Src (4 * u) j
  = Block_Transform_CalculateNoiseLogSpectrumWithWeights Mem Dst Src (4 * u) j.
Proof.
  intros Hu Hgap.
  unfold Block_Transform_CalculateNoiseLogSpectrumWithWeights_SSE,
    Block_Transform_CalculateNoiseLogSpectrumWithWeights.
  replace ((4 * u + 3) / 4)%Z with u by (Z.div_mod_to_equations; lia).
  destruct (Vector_loop_spec 4 mm_unpacklo_ps mm_unpackhi_ps (fun s => s)
              SSE_layout ltac:(reflexivity) (Z.to_nat u) Dst Src Mem
              ltac:(lia)) as [Vout Vslots].
  destruct (WithWeights_loop_spec (Z.to_nat (4 * u)) Dst Src Mem ltac:(lia))
    as [_ Ppairs].
  destruct (Z_lt_le_dec j Dst) as [Hlow|Hge].
  { rewrite Vout, WithWeights_loop_outside by lia. reflexivity. }
  destruct (Z_le_gt_dec (Dst + 8 * u) j) as [Hhigh|Hin].
  { rewrite Vout, WithWeights_loop_outside by lia. reflexivity. }
  set (t := (j - Dst)%Z).
  set (n := (t / 2)%Z). set (k := (n / 4)%Z). set (s := (n mod 4)%Z).
  assert (Ht : (0 <= t < 8 * u)%Z) by (unfold t; lia).
  assert (Hn : (0 <= n < 4 * u)%Z) by (unfold n; Z.div_mod_to_equations; lia).
  assert (Hk : (0 <= k < u)%Z) by (unfold k; Z.div_mod_to_equations; lia).
  assert (Hs : (0 <= s < 4)%Z) by (unfold s; Z.div_mod_to_equations; lia).
  assert (Hn' : n = (4 * k + s)%Z) by (unfold k, s; Z.div_mod_to_equations; lia).
  destruct (Vslots (Z.to_nat k) (Z.to_nat s) ltac:(lia) ltac:(lia)) as [V0 V1].
  destruct (Ppairs n ltac:(lia)) as [P0 P1]. cbv zeta in V0, V1.
  replace (Z.of_nat 4) with 4%Z in V0, V1 by reflexivity.
  rewrite !Z2Nat.id in V0, V1 by lia.
  replace (Src + 4 * k + s)%Z with (Src + n)%Z in V0, V1 by lia.
  replace (Dst + 2 * (4 * k + s))%Z with (Dst + 2 * n)%Z in V0, V1 by lia.
  destruct (Z.eq_dec t (2 * n)) as [Heven|Hodd].
  - replace j with (Dst + 2 * n)%Z by (unfold t in *; lia).
    rewrite V0, P0. reflexivity.
  - replace j with (Dst + 2 * n + 1)%Z
      by (unfold n, t in *; Z.div_mod_to_equations; lia).
    rewrite V1, P1. reflexivity.
Qed.

Lemma X27_sse_weights_as_portable_witness :
  Block_Transform_CalculateNoiseLogSpectrumWithWeights_SSE
    (fun i => IZR i) 0 4 (4 * 1) 5
  = Block_Transform_CalculateNoiseLogSpectrumWithWeights
      (fun i => IZR i) 0 4 (4 * 1) 5.
Proof. apply (X27_sse_weights_as_portable (fun i => IZR i) 0 4 1 5); lia. Defined.

(** X28.  The AVX branch stores the pairs of every group of eight lines
    in the order 0 1 4 5 2 3 6 7: for a line count that is a multiple of
    eight and the destination at or below the source by at least that
    count, slot [s] of group [k] holds what the portable loop puts in slot
    [AVX_line s] of that group, namely the weight of the level of line
    [8k + AVX_line s] and that level times its weight. *)
Theorem X28_avx_weights_pair_order (Mem : Z -> R) (Dst Src u k : Z) (s : nat) :
  (0 <= k < u)%Z -> (s < 8)%nat -> (Dst + 8 * u <= Src)%Z ->
  let x := Mem (Src + 8 * k + Z.of_nat (AVX_line s))%Z in
  Block_Transform_CalculateNoiseLogSpectrumWithWeights_AVX Mem Dst Src (8 * u)
    (Dst + 2 * (8 * k + Z.of_nat s))%Z
  = Weight_of x /\
  Block_Transform_CalculateNoiseLogSpectrumWithWeights_AVX Mem Dst Src (8 * u)
    (Dst + 2 * (8 * k + Z.of_nat s) + 1)%Z
  = x * Weight_of x /\
  Block_Transform_CalculateNoiseLogSpectrumWithWeights Mem Dst Src (8 * u)
    (Dst + 2 * (8 * k + Z.of_nat (AVX_line s)))%Z
  = Weight_of x /\
  Block_Transform_CalculateNoiseLogSpectrumWithWeights Mem Dst Src (8 * u)
    (Dst + 2 * (8 * k + Z.of_nat (AVX_line s)) + 1)%Z
  = x * Weight_of x.
Proof.
  intros Hk Hs Hgap x.
  unfold Block_Transform_CalculateNoiseLogSpectrumWithWeights_AVX,
    Block_Transform_CalculateNoiseLogSpectrumWithWeights.
  replace ((8 * u + 7) / 8)%Z with u by (Z.div_mod_to_equations; lia).
  destruct (Vector_loop_spec 8 mm256_unpacklo_ps mm256_unpackhi_ps AVX_line
              AVX_layout ltac:(reflexivity) (Z.to_nat u) Dst Src Mem
              ltac:(lia)) as [_ Vslots].
  destruct (AVX_layout (repeat 0 8) (repeat 0 8) eq_refl eq_refl) as [_ Hline].
  destruct (Hline s Hs) as [Hl _].
  destruct (WithWeights_loop_spec (Z.to_nat (8 * u)) Dst Src Mem ltac:(lia))
    as [_ Ppairs].
  destruct (Vslots (Z.to_nat k) s ltac:(lia) Hs) as [V0 V1].
  destruct (Ppairs (8 * k + Z.of_nat (AVX_line s))%Z ltac:(lia)) as [P0 P1].
  cbv zeta in V0, V1.
  replace (Z.of_nat 8) with 8%Z in V0, V1 by reflexivity.
  rewrite !Z2Nat.id in V0, V1 by lia.
  replace (Src + (8 * k + Z.of_nat (AVX_line s)))%Z
    with (Src + 8 * k + Z.of_nat (AVX_line s))%Z in P0, P1 by lia.
  fold x in V0, V1, P0, P1. repeat split; assumption.
Qed.

Lemma X28_avx_weights_pair_order_witness :
  let x := IZR (8 + 8 * 0 + Z.of_nat (AVX_line 2)) in
  Block_Transform_CalculateNoiseLogSpectrumWithWeights_AVX (fun i => IZR i) 0 8
    (8 * 1) (0 + 2 * (8 * 0 + Z.of_nat 2))%Z
  = Weight_of x /\
  Block_Transform_CalculateNoiseLogSpectrumWithWeights_AVX (fun i => IZR i) 0 8
    (8 * 1) (0 + 2 * (8 * 0 + Z.of_nat 2) + 1)%Z
  = x * Weight_of x /\
  Block_Transform_CalculateNoiseLogSpectrumWithWeights (fun i => IZR i) 0 8
    (8 * 1) (0 + 2 * (8 * 0 + Z.of_nat (AVX_line 2)))%Z
  = Weight_of x /\
  Block_Transform_CalculateNoiseLogSpectrumWithWeights (fun i => IZR i) 0 8
    (8 * 1) (0 + 2 * (8 * 0 + Z.of_nat (AVX_line 2)) + 1)%Z
  = x * Weight_of x.
Proof.
  apply (X28_avx_weights_pair_order (fun i => IZR i) 0 8 1 0 2); lia.
Defined.

End VectorLanes.
